(** * Holo Wars server: a shallow embedding of the game-state engine

    The development follows [server/server.js]: the tile and player stores,
    the session tables, the token-bucket limiter, the socket handlers
    ([join], [recruit_collect], [deploy], [move], [attack]), the recruitment
    tick and the snapshot layer.

    Conventions of the embedding.
    - A tile id is the string [q,r] built by [key]; it is represented by the
      coordinate pair it prints.  An id that is not the key of a stored tile
      misses the tile map exactly like a pair that is not stored.
    - Troop counts, defender strengths and the configured constants are
      JavaScript numbers holding integers; they are [Z] here (no 2^53 limit).
    - [producedPrecise], the accumulator of the recruitment tick, is an
      IEEE-754 double: it is added to, clamped and floored with the
      arithmetic of [SpecFloat] at precision 53 (round to nearest, ties to
      even), so that [produced] is the integer the engine reports.  A
      record holds a finite double (a [Double]); a step that would store
      [NaN] or an infinity ends in [OutOfRange], which no state reached
      from boot meets ([boot_in_range]).
    - The tokens of the limiter and the wire [amount] are exact rationals;
      the statements about the limiter are bounds in exact arithmetic.
    - A [Map] whose insertion order is observed by the code ([tokenToSocket],
      [ipToToken], searched with [find]) is an ordered association list; the
      other maps and the [troops] objects are [gmap]s.
    - The wire [amount] of an action is a rational: a payload that is not a
      number behaves as 0 ([Number(amount) || 0]), and an infinite one as an
      amount above every holding (or below 1).
    - A handler that would raise an uncaught [TypeError] ends in [Crash];
      so does one whose event arrives without a payload ([NoPayload]),
      since it takes the payload apart in its parameter list.
    - Of the world generation, the raw grid and the loop in which the
      factions claim their territories are embedded; the polygon test and
      the choice of the capitals (floating-point geometry) are not: the
      generated world is a parameter of [boot].  The [resume] handler is not
      embedded either (its effect depends on when the gateway runs the
      [disconnect] handler of the socket it replaces); no statement below
      constrains the session tables beyond what it states.
    - Of the client (the React component [App]) the helpers that decide what
      is sent are embedded, with [me] and [world] present: [isNeighbor],
      [byOwnerPriority], [deployEligible], [findFriendlyPath], [chainMove]
      and the three branches of [handleTileClick]. *)

From Stdlib Require Import ZArith QArith Qcanon Qround Lia SpecFloat.
From stdpp Require Import base option list gmap sets strings numbers.

Open Scope Z_scope.

(** ** Identifiers *)

Abbreviation TileId := (Z * Z)%type.
Abbreviation FactionId := string.
Abbreviation Token := string.
Abbreviation SocketId := string.
Abbreviation Ip := string.

(** ** Configuration (the environment-derived constants) *)

Record Config := {
  START_TROOPS : Z;
  DISABLE_IP_LOCK : bool
}.

Definition RECRUIT_DURATION_MS : Z := 5 * 60 * 1000.
Definition RESERVE_CAP : Z := 1000.

(** ** Helpers *)

Definition DIRS : list (Z * Z) :=
  [(1, 0); (-1, 0); (0, 1); (0, -1); (1, -1); (-1, 1)].

Definition key (q r : Z) : TileId := (q, r).

Definition neighborsOf (q r : Z) : list (Z * Z) :=
  map (fun d => (q + fst d, r + snd d)) DIRS.

(** ** Numbers

    [producedPrecise] is the one number of the server state that holds a
    fraction.  It is an IEEE-754 double, as in the engine: the arithmetic on
    it is that of [SpecFloat] at precision 53, rounding to nearest, ties to
    even.  (The counts around it are integers and stay [Z].) *)

Definition prec : Z := 53.
Definition emax : Z := 1024.

(** The double of an integer: the integer itself up to [2^53], the nearest
    double beyond. *)
Definition Z2F (z : Z) : spec_float := binary_normalize prec emax z 0 false.

(** [x || 0]: [0], [-0] and [NaN] are falsy. *)
Definition orZero (x : spec_float) : spec_float :=
  match x with
  | S754_zero _ | S754_nan => S754_zero false
  | _ => x
  end.

(** [Math.min(a, b)]: [NaN] if either is, and [-0] below [+0]. *)
Definition Math_min (a b : spec_float) : spec_float :=
  match SFcompare a b with
  | None => S754_nan
  | Some Lt => a
  | Some Gt => b
  | Some Eq => match a with S754_zero true => a | _ => b end
  end.

(** [Math.max(a, b)] *)
Definition Math_max (a b : spec_float) : spec_float :=
  match SFcompare a b with
  | None => S754_nan
  | Some Lt => b
  | Some Gt => a
  | Some Eq => match a with S754_zero false => a | _ => b end
  end.

(** The numbers a player record holds in [producedPrecise]: the finite
    doubles other than [-0].  These are also the numbers that a JSON state
    file holds and gives back unchanged ([NaN] and the infinities are
    written as [null], [-0] as [0]). *)
Definition finiteb (x : spec_float) : bool :=
  match x with
  | S754_zero s => negb s
  | S754_finite _ m e => bounded prec emax m e
  | _ => false
  end.

Record Double := mkDouble { dval : spec_float; dok : finiteb dval = true }.

Definition toDouble (x : spec_float) : option Double :=
  match Sumbool.sumbool_of_bool (finiteb x) with
  | left H => Some (mkDouble x H)
  | right _ => None
  end.

Definition dzero : Double := mkDouble (S754_zero false) eq_refl.

(** [Math.floor(d)], an integer. *)
Definition floorD (d : Double) : Z :=
  match dval d with
  | S754_finite s m e => Z.shiftl (cond_Zopp s (Zpos m)) e
  | _ => 0
  end.

(** Neither [NaN] nor an infinity. *)
Definition is_finite (x : spec_float) : Prop :=
  match x with
  | S754_zero _ | S754_finite _ _ _ => True
  | _ => False
  end.

(** [0 <= x] and [x <= y] as the engine evaluates them. *)
Definition fle (x y : spec_float) : Prop := SFleb x y = true.

(** ** Data model *)

Record Faction := {
  faction_id : FactionId;
  faction_name : string;
  faction_color : string
}.

Record Tile := {
  tile_id : TileId;
  tile_q : Z;
  tile_r : Z;
  ownerFaction : FactionId;
  control : Z;
  isCapital : bool;
  publicTroops : Z
}.

Record Player := {
  token : Token;
  name : string;
  factionId : FactionId;
  troops : gmap TileId Z;
  producedPrecise : Double;
  produced : Z;
  inventory : Z;
  remainingMs : Z;
  recruitDurationMs : Z;
  reserveCap : Z
}.

Record Limiter := {
  lim_tokens : Qc;
  lim_capacity : Qc;
  lim_refillPerSec : Qc;
  lim_last : Z
}.

Record State := {
  tiles : gmap TileId Tile;
  factions : list Faction;
  capitalsByFaction : gmap FactionId TileId;
  players : gmap Token Player;
  tokenToSocket : list (Token * SocketId);
  ipToToken : list (Ip * Token);
  actionLimiters : gmap Token Limiter;
  sockets : gmap SocketId Ip
}.

(** *** Field updates *)

Definition set_owner_control (f : FactionId) (c : Z) (t : Tile) : Tile :=
  {| tile_id := tile_id t; tile_q := tile_q t; tile_r := tile_r t;
     ownerFaction := f; control := c; isCapital := isCapital t;
     publicTroops := publicTroops t |}.

Definition set_control (c : Z) (t : Tile) : Tile :=
  set_owner_control (ownerFaction t) c t.

Definition set_publicTroops (n : Z) (t : Tile) : Tile :=
  {| tile_id := tile_id t; tile_q := tile_q t; tile_r := tile_r t;
     ownerFaction := ownerFaction t; control := control t;
     isCapital := isCapital t; publicTroops := n |}.

Definition set_troops (tr : gmap TileId Z) (p : Player) : Player :=
  {| token := token p; name := name p; factionId := factionId p;
     troops := tr; producedPrecise := producedPrecise p;
     produced := produced p; inventory := inventory p;
     remainingMs := remainingMs p;
     recruitDurationMs := recruitDurationMs p; reserveCap := reserveCap p |}.

Definition set_inventory (n : Z) (p : Player) : Player :=
  {| token := token p; name := name p; factionId := factionId p;
     troops := troops p; producedPrecise := producedPrecise p;
     produced := produced p; inventory := n;
     remainingMs := remainingMs p;
     recruitDurationMs := recruitDurationMs p; reserveCap := reserveCap p |}.

Definition set_production (pp : Double) (pr rem : Z) (p : Player) : Player :=
  {| token := token p; name := name p; factionId := factionId p;
     troops := troops p; producedPrecise := pp;
     produced := pr; inventory := inventory p;
     remainingMs := rem;
     recruitDurationMs := recruitDurationMs p; reserveCap := reserveCap p |}.

Definition with_tiles (ts : gmap TileId Tile) (s : State) : State :=
  {| tiles := ts; factions := factions s;
     capitalsByFaction := capitalsByFaction s; players := players s;
     tokenToSocket := tokenToSocket s; ipToToken := ipToToken s;
     actionLimiters := actionLimiters s; sockets := sockets s |}.

Definition with_players (ps : gmap Token Player) (s : State) : State :=
  {| tiles := tiles s; factions := factions s;
     capitalsByFaction := capitalsByFaction s; players := ps;
     tokenToSocket := tokenToSocket s; ipToToken := ipToToken s;
     actionLimiters := actionLimiters s; sockets := sockets s |}.

Definition with_limiters (ls : gmap Token Limiter) (s : State) : State :=
  {| tiles := tiles s; factions := factions s;
     capitalsByFaction := capitalsByFaction s; players := players s;
     tokenToSocket := tokenToSocket s; ipToToken := ipToToken s;
     actionLimiters := ls; sockets := sockets s |}.

Definition with_sessions (t2s : list (Token * SocketId))
    (i2t : list (Ip * Token)) (s : State) : State :=
  {| tiles := tiles s; factions := factions s;
     capitalsByFaction := capitalsByFaction s; players := players s;
     tokenToSocket := t2s; ipToToken := i2t;
     actionLimiters := actionLimiters s; sockets := sockets s |}.

Definition with_sockets (ss : gmap SocketId Ip) (s : State) : State :=
  {| tiles := tiles s; factions := factions s;
     capitalsByFaction := capitalsByFaction s; players := players s;
     tokenToSocket := tokenToSocket s; ipToToken := ipToToken s;
     actionLimiters := actionLimiters s; sockets := ss |}.

(** ** Insertion-ordered maps (the JavaScript [Map] where order is observed) *)

Module OMap.
Section omap.
Context {K V : Type} `{EqDecision K}.

(** [Map.prototype.set]: an existing key keeps its position. *)
Fixpoint set (k : K) (v : V) (m : list (K * V)) : list (K * V) :=
  match m with
  | [] => [(k, v)]
  | (k', v') :: m' =>
      if decide (k = k') then (k, v) :: m' else (k', v') :: set k v m'
  end.

Fixpoint get (k : K) (m : list (K * V)) : option V :=
  match m with
  | [] => None
  | (k', v') :: m' => if decide (k = k') then Some v' else get k m'
  end.

Definition has (k : K) (m : list (K * V)) : bool :=
  match get k m with Some _ => true | None => false end.

Fixpoint delete (k : K) (m : list (K * V)) : list (K * V) :=
  match m with
  | [] => []
  | (k', v') :: m' =>
      if decide (k = k') then delete k m' else (k', v') :: delete k m'
  end.

(** [[...m.entries()].find(([, v]) => v === x)?.[0]] *)
Fixpoint findKeyOf `{EqDecision V} (x : V) (m : list (K * V)) : option K :=
  match m with
  | [] => None
  | (k', v') :: m' => if decide (v' = x) then Some k' else findKeyOf x m'
  end.
End omap.
End OMap.

(** ** Events delivered through the gateway *)

Record Me := {
  me_name : string;
  me_factionId : FactionId;
  me_troops : gmap TileId Z;
  me_produced : Z;
  me_inventory : Z;
  me_remainingMs : Z;
  me_recruitDurationMs : Z;
  me_reserveCap : Z;
  me_token : Token
}.

Definition buildMe (p : Player) : Me :=
  {| me_name := name p; me_factionId := factionId p; me_troops := troops p;
     me_produced := produced p; me_inventory := inventory p;
     me_remainingMs := remainingMs p;
     me_recruitDurationMs := recruitDurationMs p;
     me_reserveCap := reserveCap p; me_token := token p |}.

Inductive Payload :=
| world (ts : gmap TileId Tile) (fs : list Faction)
        (caps : gmap FactionId TileId)
| players_online (roster : gmap Token (string * FactionId))
| joined (me : Me)
| me_update (me : Me)
| tile_update (tile : option Tile)
| combat_result (fromId targetId : TileId) (survivors : Z)
| error_msg (message : string)
| session_error (message : string).

(** [Emit sid p] is [socket.emit] on the socket [sid]; [Broadcast p] is
    [io.emit]; [Kick sid] is [socket.disconnect()] issued by the server. *)
Inductive Event :=
| Emit (sid : SocketId) (p : Payload)
| Broadcast (p : Payload)
| Kick (sid : SocketId).

(** [Crash]: the handler raises an uncaught [TypeError].  [OutOfRange]:
    the engine would store a [producedPrecise] that is [NaN], infinite or
    [-0], which no [Double] is; the embedding does not follow it there. *)
Inductive Outcome :=
| Done (s : State) (evs : list Event)
| Crash
| OutOfRange.

Definition is_error_msg (e : Event) : bool :=
  match e with Emit _ (error_msg _) => true | _ => false end.

Definition is_session_error (e : Event) : bool :=
  match e with Emit _ (session_error _) => true | _ => false end.

Definition is_combat_result (e : Event) : bool :=
  match e with Broadcast (combat_result _ _ _) => true | _ => false end.

(** ** publicTroops *)

(** [(p.troops[tileId] || 0)] *)
Definition troopsAt (p : Player) (tileId : TileId) : Z :=
  default 0 (troops p !! tileId).

Definition sumTroops (ps : gmap Token Player) (tileId : TileId) : Z :=
  map_fold (fun _ p sum => sum + troopsAt p tileId) 0 ps.

Definition recalcPublicTroops (tileId : TileId) (s : State) : State :=
  let sum := sumTroops (players s) tileId in
  match tiles s !! tileId with
  | Some t => with_tiles (<[tileId := set_publicTroops sum t]> (tiles s)) s
  | None => s
  end.

(** ** Rate limiting *)

Definition Z2Qc (z : Z) : Qc := Q2Qc (inject_Z z).
Definition Qcmin (a b : Qc) : Qc := if decide (b < a)%Qc then b else a.

Definition makeLimiter (now : Z) : Limiter :=
  {| lim_tokens := Q2Qc 20; lim_capacity := Q2Qc 20;
     lim_refillPerSec := Q2Qc 10; lim_last := now |}.

(** [consume(limiter)] with [cost = 1]; [now] is [Date.now()]. *)
Definition consume (l : Limiter) (now : Z) : bool * Limiter :=
  let delta := (Q2Qc (inject_Z (now - lim_last l)) / Q2Qc 1000)%Qc in
  let toks :=
    Qcmin (lim_capacity l) (lim_tokens l + delta * lim_refillPerSec l)%Qc in
  if decide (1 <= toks)%Qc
  then (true, {| lim_tokens := (toks - 1)%Qc; lim_capacity := lim_capacity l;
                 lim_refillPerSec := lim_refillPerSec l; lim_last := now |})
  else (false, {| lim_tokens := toks; lim_capacity := lim_capacity l;
                  lim_refillPerSec := lim_refillPerSec l; lim_last := now |}).

(** ** Session resolution shared by the action handlers *)

(** [[...tokenToSocket.entries()].find(([, sid]) => sid === socket.id)?.[0]]
    followed by [token && players.get(token)]. *)
Definition tokenOf (s : State) (sid : SocketId) : option Token :=
  OMap.findKeyOf sid (tokenToSocket s).

Definition resolve (s : State) (sid : SocketId) : option (Token * Player) :=
  match tokenOf s sid with
  | Some tok =>
      if decide (tok = "") then None
      else match players s !! tok with
           | Some p => Some (tok, p)
           | None => None
           end
  | None => None
  end.

(** [Math.floor(Number(amount) || 0)] *)
Definition normAmount (amount : Q) : Z := Qfloor amount.

(** [neighborsOf(from.q, from.r).some(([q, r]) => key(q, r) === toId)] *)
Definition adjacentTo (from : Tile) (toId : TileId) : bool :=
  existsb (fun n => bool_decide (key (fst n) (snd n) = toId))
          (neighborsOf (tile_q from) (tile_r from)).

(** [p.troops[k] = v; if (p.troops[k] <= 0) delete p.troops[k]] *)
Definition storeOrDelete (k : TileId) (v : Z) (tr : gmap TileId Z)
  : gmap TileId Z :=
  if decide (v <= 0) then delete k tr else <[k := v]> tr.

(** [p.troops[k] = (p.troops[k] || 0) + n] *)
Definition credit (k : TileId) (n : Z) (tr : gmap TileId Z) : gmap TileId Z :=
  <[k := default 0 (tr !! k) + n]> tr.

(** The prologue of every action handler: resolve the player, then withdraw
    one unit from its limiter.  [k] continues with the state in which the
    limiter has been updated. *)
Definition withPlayer (s : State) (sid : SocketId) (now : Z)
    (k : State -> Token -> Player -> Outcome) : Outcome :=
  match resolve s sid with
  | None => Done s []
  | Some (tok, p) =>
      match actionLimiters s !! tok with
      | None => Crash
      | Some l =>
          let '(ok, l') := consume l now in
          let s1 := with_limiters (<[tok := l']> (actionLimiters s)) s in
          if ok then k s1 tok p else Done s1 []
      end
  end.

(** ** attack *)

Definition attack (s : State) (sid : SocketId) (now : Z)
    (fromId targetId : TileId) (amount : Q) : Outcome :=
  withPlayer s sid now (fun s1 tok p =>
    let amount := normAmount amount in
    match tiles s1 !! fromId, tiles s1 !! targetId with
    | Some from, Some target =>
      if decide (amount < 1) then Done s1 []
      else if decide (ownerFaction from <> factionId p) then Done s1 []
      else if decide (troopsAt p fromId < amount) then Done s1 []
      else if negb (adjacentTo from targetId) then Done s1 []
      else if isCapital target then
        Done s1 [Emit sid (error_msg "Capitals cannot be conquered.")]
      else
        let defenders := control target in
        (* the guard above makes [p.troops[fromId]] a stored number here *)
        let tr1 := storeOrDelete fromId (troopsAt p fromId - amount)
                                 (troops p) in
        if decide (amount > defenders) then
          let survivors := amount - defenders in
          let target' := set_owner_control (factionId p) 0 target in
          let p' := set_troops (credit targetId survivors tr1) p in
          let s2 := with_players (<[tok := p']> (players s1))
                      (with_tiles (<[targetId := target']> (tiles s1)) s1) in
          let s3 := recalcPublicTroops targetId
                      (recalcPublicTroops fromId s2) in
          Done s3 [Emit sid (me_update (buildMe p'));
                   Broadcast (combat_result fromId targetId survivors);
                   Broadcast (tile_update (tiles s3 !! fromId));
                   Broadcast (tile_update (tiles s3 !! targetId))]
        else
          let target' := set_control (defenders - amount) target in
          let p' := set_troops tr1 p in
          let s2 := with_players (<[tok := p']> (players s1))
                      (with_tiles (<[targetId := target']> (tiles s1)) s1) in
          let s3 := recalcPublicTroops fromId s2 in
          Done s3 [Emit sid (me_update (buildMe p'));
                   Broadcast (tile_update (tiles s3 !! fromId));
                   Broadcast (tile_update (tiles s3 !! targetId))]
    | _, _ => Done s1 []
    end).

(** ** bfsRegion *)

Inductive BfsResult :=
| BfsOut (out : list TileId)
| BfsThrow        (* [tiles.get(id)] was undefined: TypeError on [t.q] *)
| BfsFuel.        (* the iteration budget of the model ran out *)

(** One turn of [for (const [dq, dr] of DIRS)]. *)
Definition bfsVisit (ts : gmap TileId Tile) (passableFn : Tile -> bool)
    (t : Tile) (st : gset TileId * list TileId) (d : Z * Z)
  : gset TileId * list TileId :=
  let nid := key (tile_q t + fst d) (tile_r t + snd d) in
  match ts !! nid with
  | None => st
  | Some nt =>
      if bool_decide (nid ∉ fst st) && passableFn nt
      then ({[nid]} ∪ fst st, snd st ++ [nid])
      else st
  end.

Definition limitReached (limit : option nat) (out : list TileId) : bool :=
  match limit with
  | None => false
  | Some n => bool_decide (n <= length out)%nat
  end.

(** The [while (q.length && out.length < limit)] loop; [fuel] bounds the
    number of turns. *)
Fixpoint bfsLoop (fuel : nat) (ts : gmap TileId Tile)
    (passableFn : Tile -> bool) (limit : option nat)
    (seen : gset TileId) (q out : list TileId) : BfsResult :=
  match q with
  | [] => BfsOut out
  | id :: q' =>
      if limitReached limit out then BfsOut out
      else match fuel with
           | O => BfsFuel
           | S fuel' =>
               match ts !! id with
               | None => BfsThrow
               | Some t =>
                   let st := foldl (bfsVisit ts passableFn t) (seen, q') DIRS in
                   bfsLoop fuel' ts passableFn limit (fst st) (snd st)
                           (out ++ [id])
               end
           end
  end.

Definition bfsRegion (startId : TileId) (ts : gmap TileId Tile)
    (passableFn : Tile -> bool) (limit : option nat) : BfsResult :=
  bfsLoop (S (size ts)) ts passableFn limit {[startId]} [startId] [].

(** ** recruit_collect *)

Definition recruit_collect (s : State) (sid : SocketId) (now : Z) : Outcome :=
  withPlayer s sid now (fun s1 tok p =>
    let add := produced p in
    if decide (add > 0) then
      let p1 := set_inventory (inventory p + add) p in
      match toDouble (Math_max (Z2F 0)
                        (SFsub prec emax (orZero (dval (producedPrecise p1)))
                           (Z2F add))) with
      | Some pp =>
          let p' := set_production pp 0 RECRUIT_DURATION_MS p1 in
          Done (with_players (<[tok := p']> (players s1)) s1)
               [Emit sid (me_update (buildMe p'))]
      | None => OutOfRange
      end
    else Done s1 []).

(** ** deploy *)

Definition deploy (s : State) (sid : SocketId) (now : Z)
    (targetId : TileId) (amount : Q) : Outcome :=
  withPlayer s sid now (fun s1 tok p =>
    let amount := normAmount amount in
    match tiles s1 !! targetId with
    | None => Done s1 []
    | Some _ =>
      if decide (amount < 1) then Done s1 []
      else if decide (inventory p < amount) then Done s1 []
      else
        match capitalsByFaction s1 !! factionId p with
        | None => Crash      (* [bfsRegion(undefined, ...)] *)
        | Some capId =>
          match bfsRegion capId (tiles s1)
                  (fun tile => bool_decide (ownerFaction tile = factionId p))
                  None with
          | BfsOut eligible =>
            if bool_decide (targetId ∈ eligible) then
              let p' := set_troops (credit targetId amount (troops p))
                          (set_inventory (inventory p - amount) p) in
              let s2 := recalcPublicTroops targetId
                          (with_players (<[tok := p']> (players s1)) s1) in
              Done s2 [Emit sid (me_update (buildMe p'));
                       Broadcast (tile_update (tiles s2 !! targetId))]
            else
              Done s1 [Emit sid
                         (error_msg "Target not connected to your capital.")]
          | _ => Crash
          end
        end
    end).

(** ** move *)

Definition move (s : State) (sid : SocketId) (now : Z)
    (fromId toId : TileId) (amount : Q) : Outcome :=
  withPlayer s sid now (fun s1 tok p =>
    let amount := normAmount amount in
    match tiles s1 !! fromId, tiles s1 !! toId with
    | Some from, Some to =>
      if decide (amount < 1) then Done s1 []
      else if negb (adjacentTo from toId) then Done s1 []
      else if decide (ownerFaction from <> factionId p
                      \/ ownerFaction to <> factionId p) then Done s1 []
      else
        let have := troopsAt p fromId in
        if decide (have < amount) then Done s1 []
        else
          let tr1 := storeOrDelete fromId (have - amount) (troops p) in
          let p' := set_troops (credit toId amount tr1) p in
          let s2 := recalcPublicTroops toId
                      (recalcPublicTroops fromId
                         (with_players (<[tok := p']> (players s1)) s1)) in
          Done s2 [Emit sid (me_update (buildMe p'));
                   Broadcast (tile_update (tiles s2 !! fromId));
                   Broadcast (tile_update (tiles s2 !! toId))]
    | _, _ => Done s1 []
    end).

(** ** Connections, join, disconnect *)

Definition roster (s : State) : gmap Token (string * FactionId) :=
  (fun p => (name p, factionId p)) <$> players s.

Definition pushPlayersOnline (s : State) : Event :=
  Broadcast (players_online (roster s)).

Definition worldPayload (s : State) : Payload :=
  world (tiles s) (factions s) (capitalsByFaction s).

(** The body of [io.on("connection", ...)] up to the registration of the
    handlers; an admitted socket is recorded in [sockets] with the [ip] its
    handlers close over. *)
Definition connection (cfg : Config) (s : State) (sid : SocketId) (ip : Ip)
  : Outcome :=
  let locked :=
    if DISABLE_IP_LOCK cfg then false
    else match OMap.get ip (ipToToken s) with
         | Some existing =>
             negb (bool_decide (existing = ""))
             && OMap.has existing (tokenToSocket s)
         | None => false
         end in
  if locked then
    Done s [Emit sid (session_error
                        "Only one active session per IP is allowed.");
            Kick sid]
  else
    Done (with_sockets (<[sid := ip]> (sockets s)) s)
         [Emit sid (worldPayload s); pushPlayersOnline s].

(** [tok] is the value of [crypto.randomBytes(16).toString("hex")]. *)
Definition join (cfg : Config) (s : State) (sid : SocketId) (ip : Ip)
    (now : Z) (tok : Token) (nm : string) (fid : FactionId) : Outcome :=
  if bool_decide (nm = "") || bool_decide (fid = "")
     || negb (existsb (fun f => bool_decide (faction_id f = fid)) (factions s))
  then Done s [Emit sid (error_msg "Invalid join payload.")]
  else
    let p0 := {| token := tok; name := String.substring 0 24 nm; factionId := fid;
                 troops := ∅; producedPrecise := dzero; produced := 0;
                 inventory := 0; remainingMs := RECRUIT_DURATION_MS;
                 recruitDurationMs := RECRUIT_DURATION_MS;
                 reserveCap := RESERVE_CAP |} in
    let '(p, s1, evs1) :=
      match capitalsByFaction s !! fid with
      | Some capId =>
          (* the recomputation runs before [players.set(token, p)] *)
          let p := set_troops (credit capId (START_TROOPS cfg) (troops p0)) p0 in
          let s1 := recalcPublicTroops capId s in
          (p, s1, [Broadcast (tile_update (tiles s1 !! capId))])
      | None => (p0, s, [])
      end in
    let s2 := with_players (<[tok := p]> (players s1)) s1 in
    let s3 := with_sessions
                (OMap.set tok sid (tokenToSocket s2))
                (if DISABLE_IP_LOCK cfg then ipToToken s2
                 else OMap.set ip tok (ipToToken s2)) s2 in
    let s4 := with_limiters (<[tok := makeLimiter now]> (actionLimiters s3))
                s3 in
    Done s4 (evs1 ++ [Emit sid (joined (buildMe p)); pushPlayersOnline s4]).

Definition disconnect (cfg : Config) (s : State) (sid : SocketId) : Outcome :=
  let tok := tokenOf s sid in
  let t2s :=
    match tok with
    | Some t => if decide (t = "") then tokenToSocket s
                else OMap.delete t (tokenToSocket s)
    | None => tokenToSocket s
    end in
  let i2t :=
    if DISABLE_IP_LOCK cfg then ipToToken s
    else match tok with
         | Some t =>
             match OMap.findKeyOf t (ipToToken s) with
             | Some ip => OMap.delete ip (ipToToken s)
             | None => ipToToken s
             end
         | None => ipToToken s
         end in
  let s1 := with_sockets (delete sid (sockets s)) (with_sessions t2s i2t s) in
  Done s1 [pushPlayersOnline s1].

(** ** Recruitment tick *)

(** [p.reserveCap / (p.recruitDurationMs / 1000)] *)
Definition perSec (p : Player) : spec_float :=
  SFdiv prec emax (Z2F (reserveCap p))
    (SFdiv prec emax (Z2F (recruitDurationMs p)) (Z2F 1000)).

(** The accumulator the tick computes for [p]. *)
Definition tickAcc (p : Player) : spec_float :=
  if decide (remainingMs p > 0) then
    Math_min (Z2F (reserveCap p))
      (SFadd prec emax (orZero (dval (producedPrecise p))) (perSec p))
  else
    Math_min (Z2F (reserveCap p)) (orZero (dval (producedPrecise p))).

Definition tickPlayer (p : Player) : option Player :=
  match toDouble (tickAcc p) with
  | Some pp =>
      Some (set_production pp (floorD pp)
              (if decide (remainingMs p > 0)
               then Z.max 0 (remainingMs p - 1000) else remainingMs p) p)
  | None => None
  end.

(** The [me_update] of the tick goes to the player's live socket only. *)
Definition tickEvents (s : State) (p : Player) : list Event :=
  match OMap.get (token p) (tokenToSocket s) with
  | Some sid =>
      match sockets s !! sid with
      | Some _ => [Emit sid (me_update (buildMe p))]
      | None => []
      end
  | None => []
  end.

(** The events follow the iteration over [players]; their relative order
    is not used by any statement. *)
Definition tick (s : State) : Outcome :=
  if bool_decide (map_Forall (fun _ p => is_Some (tickPlayer p)) (players s))
  then
    let ps := omap tickPlayer (players s) in
    Done (with_players ps s)
         (concat (map (fun e => tickEvents s (snd e)) (map_to_list ps)))
  else OutOfRange.

(** ** Persistence *)

(** A tile as it is read back from the state file; [publicTroops] is absent
    in files written by older versions. *)
Record SnapTile := {
  st_id : TileId;
  st_q : Z;
  st_r : Z;
  st_ownerFaction : FactionId;
  st_control : Z;
  st_isCapital : bool;
  st_publicTroops : option Z
}.

Record Snapshot := {
  snap_tiles : list SnapTile;
  snap_factions : list Faction;
  snap_capitalsByFaction : gmap FactionId TileId;
  snap_players : list Player;
  snap_ipToToken : list (Ip * Token)
}.

Definition snapTile (t : Tile) : SnapTile :=
  {| st_id := tile_id t; st_q := tile_q t; st_r := tile_r t;
     st_ownerFaction := ownerFaction t; st_control := control t;
     st_isCapital := isCapital t; st_publicTroops := Some (publicTroops t) |}.

(** [{ ...t, publicTroops: typeof t.publicTroops === 'number' ? ... : 0 }] *)
Definition restoreTile (t : SnapTile) : Tile :=
  {| tile_id := st_id t; tile_q := st_q t; tile_r := st_r t;
     ownerFaction := st_ownerFaction t; control := st_control t;
     isCapital := st_isCapital t;
     publicTroops := default 0 (st_publicTroops t) |}.

Definition snapshot (cfg : Config) (s : State) : Snapshot :=
  {| snap_tiles := map (fun e => snapTile (snd e)) (map_to_list (tiles s));
     snap_factions := factions s;
     snap_capitalsByFaction := capitalsByFaction s;
     snap_players := map snd (map_to_list (players s));
     snap_ipToToken := if DISABLE_IP_LOCK cfg then [] else ipToToken s |}.

Definition recalcAllPublicTroops (s : State) : State :=
  foldl (fun acc e => recalcPublicTroops (tile_id (snd e)) acc) s
        (map_to_list (tiles s)).

(** [loadSnapshot] on the contents [file] of the state file, if it exists.
    The handlers keep reading the module constants [factions] and
    [capitalsByFaction], which the restore does not rebind. *)
Definition loadSnapshot (cfg : Config) (file : option Snapshot) (s : State)
  : State :=
  match file with
  | None => s
  | Some data =>
      let ts := foldl (fun m t => <[st_id t := restoreTile t]> m) ∅
                      (snap_tiles data) in
      let ps := foldl (fun m p => <[token p := p]> m) ∅ (snap_players data) in
      let i2t :=
        if DISABLE_IP_LOCK cfg then ipToToken s
        else foldl (fun m e => OMap.set (fst e) (snd e) m) []
                   (snap_ipToToken data) in
      recalcAllPublicTroops
        (with_sessions (tokenToSocket s) i2t
           (with_players ps (with_tiles ts s)))
  end.

(** ** The server as a transition system *)

(** The events whose handler takes its payload apart in the parameter list
    ([({ targetId, amount }) => ...]). *)
Inductive PayloadEvent := EvJoin | EvDeploy | EvMove | EvAttack.

(** [NoPayload sid ev] is the event [ev] sent with no argument: the
    parameter pattern is matched against [undefined], which raises a
    [TypeError] before the first statement of the handler. *)
Inductive Action :=
| Connection (sid : SocketId) (ip : Ip)
| Disconnect (sid : SocketId)
| Join (sid : SocketId) (now : Z) (tok : Token) (nm : string)
       (fid : FactionId)
| RecruitCollect (sid : SocketId) (now : Z)
| Deploy (sid : SocketId) (now : Z) (targetId : TileId) (amount : Q)
| Move (sid : SocketId) (now : Z) (fromId toId : TileId) (amount : Q)
| Attack (sid : SocketId) (now : Z) (fromId targetId : TileId) (amount : Q)
| Tick
| NoPayload (sid : SocketId) (ev : PayloadEvent).

(** The handlers of a socket exist once its connection was admitted. *)
Definition onSocket (s : State) (sid : SocketId) (h : Ip -> Outcome)
  : Outcome :=
  match sockets s !! sid with
  | Some ip => h ip
  | None => Done s []
  end.

Definition step (cfg : Config) (s : State) (a : Action) : Outcome :=
  match a with
  | Connection sid ip =>
      match sockets s !! sid with
      | Some _ => Done s []
      | None => connection cfg s sid ip
      end
  | Disconnect sid => onSocket s sid (fun _ => disconnect cfg s sid)
  | Join sid now tok nm fid =>
      onSocket s sid (fun ip => join cfg s sid ip now tok nm fid)
  | RecruitCollect sid now =>
      onSocket s sid (fun _ => recruit_collect s sid now)
  | Deploy sid now targetId amount =>
      onSocket s sid (fun _ => deploy s sid now targetId amount)
  | Move sid now fromId toId amount =>
      onSocket s sid (fun _ => move s sid now fromId toId amount)
  | Attack sid now fromId targetId amount =>
      onSocket s sid (fun _ => attack s sid now fromId targetId amount)
  | Tick => tick s
  | NoPayload sid _ => onSocket s sid (fun _ => Crash)
  end.

Fixpoint run (cfg : Config) (s : State) (l : list Action) : Outcome :=
  match l with
  | [] => Done s []
  | a :: l' =>
      match step cfg s a with
      | Done s1 evs1 =>
          match run cfg s1 l' with
          | Done s2 evs2 => Done s2 (evs1 ++ evs2)
          | o => o
          end
      | o => o
      end
  end.

(** The state of a freshly booted server on a generated world. *)
Definition boot (ts : gmap TileId Tile) (fs : list Faction)
    (caps : gmap FactionId TileId) : State :=
  {| tiles := ts; factions := fs; capitalsByFaction := caps; players := ∅;
     tokenToSocket := []; ipToToken := []; actionLimiters := ∅;
     sockets := ∅ |}.

Inductive reachable (cfg : Config) (s0 : State) : State -> Prop :=
| reach_init : reachable cfg s0 s0
| reach_step s a s' evs :
    reachable cfg s0 s -> step cfg s a = Done s' evs -> reachable cfg s0 s'.

(** ** A small concrete world

    Two factions on a strip of five tiles along [r = 0]:
    [(0,0)] capital of f1, [(1,0)] f1, [(2,0)] neutral, [(3,0)] f2,
    [(4,0)] capital of f2, and a detached f1 tile [(9,9)]. *)

Definition mkTile (q r : Z) (o : FactionId) (c : Z) (cap : bool) : Tile :=
  {| tile_id := key q r; tile_q := q; tile_r := r; ownerFaction := o;
     control := c; isCapital := cap; publicTroops := 0 |}.

Definition demoTiles : gmap TileId Tile :=
  list_to_map
    (map (fun t => (tile_id t, t))
       [mkTile 0 0 "f1" 100 true; mkTile 1 0 "f1" 100 false;
        mkTile 2 0 "neutral" 25 false; mkTile 3 0 "f2" 100 false;
        mkTile 4 0 "f2" 100 true; mkTile 9 9 "f1" 100 false]).

Definition demoFactions : list Faction :=
  [ {| faction_id := "f1"; faction_name := "Ouro Kronii";
       faction_color := "#1e3a8a" |};
    {| faction_id := "f2"; faction_name := "Hakos Baelz";
       faction_color := "#ef4444" |} ].

Definition demoCaps : gmap FactionId TileId :=
  {[ "f1" := key 0 0; "f2" := key 4 0 ]}.

Definition demoBoot : State := boot demoTiles demoFactions demoCaps.

Definition defaultCfg : Config :=
  {| START_TROOPS := 100; DISABLE_IP_LOCK := false |}.

(** Observations used by the examples. *)
Definition finalState (o : Outcome) : option State :=
  match o with Done s _ => Some s | _ => None end.

Definition finalEvents (o : Outcome) : list Event :=
  match o with Done _ evs => evs | _ => [] end.

Definition tileField {A} (f : Tile -> A) (s : State) (k : TileId) : option A :=
  f <$> tiles s !! k.

Definition playerTroopsAt (s : State) (tok : Token) (k : TileId) : option Z :=
  (fun p => troopsAt p k) <$> players s !! tok.

(** Tiles are stored under their own id, which is the key of their
    coordinates (true of every generated world, kept by every handler). *)
Definition tiles_wf (ts : gmap TileId Tile) : Prop :=
  map_Forall (fun k t => tile_id t = k /\ key (tile_q t) (tile_r t) = k) ts.

(** Total accessors for the examples (the defaults are never reached). *)
Definition playerOf (s : State) (tok : Token) : Player :=
  default {| token := ""; name := ""; factionId := ""; troops := ∅;
             producedPrecise := dzero; produced := 0; inventory := 0;
             remainingMs := 0; recruitDurationMs := 0; reserveCap := 0 |}
          (players s !! tok).

Definition tileOf (s : State) (k : TileId) : Tile :=
  default {| tile_id := k; tile_q := 0; tile_r := 0; ownerFaction := "";
             control := 0; isCapital := false; publicTroops := 0 |}
          (tiles s !! k).

Definition limiterOf (s : State) (tok : Token) : Limiter :=
  default (makeLimiter 0) (actionLimiters s !! tok).

(** ** Scenarios on the concrete world *)

Definition stateAfter (cfg : Config) (s : State) (l : list Action) : State :=
  default s (finalState (run cfg s l)).

(** alice joins f1 and garrisons the tile next to her capital. *)
Definition demoGarrisoned : State :=
  stateAfter defaultCfg demoBoot
    [Connection "a" "ip1"; Join "a" 0 "t1" "alice" "f1";
     Move "a" 0 (0, 0) (1, 0) (60 # 1)].

(** ... and takes the neutral tile [(2,0)] with 30 troops against 25. *)
Definition demoCaptured : State :=
  stateAfter defaultCfg demoGarrisoned
    [Attack "a" 0 (1, 0) (2, 0) (30 # 1)].

(** C1 as the specification words it, for the capture branch: the
    survivors are the attacker's troop entry on the captured tile. *)
Definition capture_entry_is_survivors (s : State) (sid : SocketId) (now : Z)
    (fromId targetId : TileId) (amount : Q) : Prop :=
  forall tok p l l' from target,
    resolve s sid = Some (tok, p) ->
    actionLimiters s !! tok = Some l ->
    consume l now = (true, l') ->
    tiles s !! fromId = Some from ->
    tiles s !! targetId = Some target ->
    1 <= normAmount amount ->
    ownerFaction from = factionId p ->
    normAmount amount <= troopsAt p fromId ->
    adjacentTo from targetId = true ->
    isCapital target = false ->
    normAmount amount > control target ->
    exists s' evs p',
      attack s sid now fromId targetId amount = Done s' evs
      /\ players s' !! tok = Some p'
      /\ troopsAt p' targetId = normAmount amount - control target.

(** ** The outcomes of [attack], named *)

(** The state in which the limiter of [tok] has been charged. *)
Definition charged (s : State) (tok : Token) (l : Limiter) (now : Z) : State :=
  with_limiters (<[tok := snd (consume l now)]> (actionLimiters s)) s.

Definition attackerAfter (p : Player) (fromId : TileId) (n : Z) : gmap TileId Z :=
  storeOrDelete fromId (troopsAt p fromId - n) (troops p).

Definition afterCapture (s1 : State) (tok : Token) (p : Player)
    (fromId targetId : TileId) (n : Z) (target : Tile) : State :=
  let p' := set_troops (credit targetId (n - control target)
                          (attackerAfter p fromId n)) p in
  recalcPublicTroops targetId
    (recalcPublicTroops fromId
       (with_players (<[tok := p']> (players s1))
          (with_tiles (<[targetId := set_owner_control (factionId p) 0
                                       target]> (tiles s1)) s1))).

Definition afterRepelled (s1 : State) (tok : Token) (p : Player)
    (fromId targetId : TileId) (n : Z) (target : Tile) : State :=
  let p' := set_troops (attackerAfter p fromId n) p in
  recalcPublicTroops fromId
    (with_players (<[tok := p']> (players s1))
       (with_tiles (<[targetId := set_control (control target - n)
                                    target]> (tiles s1)) s1)).

(** The validations of [attack] that precede the capital test. *)
Record AttackValid (s : State) (sid : SocketId) (now : Z)
    (fromId targetId : TileId) (amount : Q)
    (tok : Token) (p : Player) (l : Limiter) (from target : Tile) : Prop := {
  av_resolve : resolve s sid = Some (tok, p);
  av_limiter : actionLimiters s !! tok = Some l;
  av_admit : fst (consume l now) = true;
  av_from : tiles s !! fromId = Some from;
  av_target : tiles s !! targetId = Some target;
  av_amount : 1 <= normAmount amount;
  av_owner : ownerFaction from = factionId p;
  av_have : normAmount amount <= troopsAt p fromId;
  av_adjacent : adjacentTo from targetId = true
}.

(** Every way out of [attack]: dropped without a trace, refused because the
    target is a capital, or resolved by combat. *)
Inductive AttackPath (s : State) (sid : SocketId) (now : Z)
    (fromId targetId : TileId) (amount : Q) : State -> list Event -> Prop :=
| attack_unresolved :
    resolve s sid = None ->
    AttackPath s sid now fromId targetId amount s []
| attack_dropped tok p l :
    resolve s sid = Some (tok, p) ->
    actionLimiters s !! tok = Some l ->
    (forall from target,
       ~ AttackValid s sid now fromId targetId amount tok p l from target) ->
    AttackPath s sid now fromId targetId amount (charged s tok l now) []
| attack_capital tok p l from target :
    AttackValid s sid now fromId targetId amount tok p l from target ->
    isCapital target = true ->
    AttackPath s sid now fromId targetId amount (charged s tok l now)
      [Emit sid (error_msg "Capitals cannot be conquered.")]
| attack_captured tok p l from target evs :
    AttackValid s sid now fromId targetId amount tok p l from target ->
    isCapital target = false ->
    normAmount amount > control target ->
    Broadcast (combat_result fromId targetId
                 (normAmount amount - control target)) ∈ evs ->
    (forall e, e ∈ evs -> is_error_msg e = false) ->
    AttackPath s sid now fromId targetId amount
      (afterCapture (charged s tok l now) tok p fromId targetId
         (normAmount amount) target) evs
| attack_repelled tok p l from target evs :
    AttackValid s sid now fromId targetId amount tok p l from target ->
    isCapital target = false ->
    normAmount amount <= control target ->
    (forall e, e ∈ evs -> is_combat_result e = false
                          /\ is_error_msg e = false) ->
    AttackPath s sid now fromId targetId amount
      (afterRepelled (charged s tok l now) tok p fromId targetId
         (normAmount amount) target) evs.

(** ** Invariants *)

(** What no handler changes in a tile, and what none changes in a capital. *)
Definition tile_kept (t t' : Tile) : Prop :=
  tile_id t' = tile_id t /\ tile_q t' = tile_q t /\ tile_r t' = tile_r t
  /\ isCapital t' = isCapital t
  /\ (isCapital t = true ->
        ownerFaction t' = ownerFaction t /\ control t' = control t).

Definition tiles_kept (ts ts' : gmap TileId Tile) : Prop :=
  forall k,
    match ts !! k with
    | Some t => exists t', ts' !! k = Some t' /\ tile_kept t t'
    | None => ts' !! k = None
    end.

(** Every token bound to a socket has a limiter ([join] and [resume] create
    both together). *)
Definition sessions_ok (s : State) : Prop :=
  Forall (fun e => is_Some (actionLimiters s !! fst e)) (tokenToSocket s).

Definition is_attack (a : Action) : Prop :=
  match a with Attack _ _ _ _ _ => True | _ => False end.

(** A configuration with a larger starting garrison, for scenarios that
    need a capture of a claimed tile (100 defenders). *)
Definition richCfg : Config :=
  {| START_TROOPS := 500; DISABLE_IP_LOCK := false |}.

(** alice (f1) fights her way to [(2,0)]; bob (f2) has stationed 50 troops
    on his faction's tile [(3,0)]. *)
Definition demoFront : State :=
  stateAfter richCfg demoBoot
    [Connection "a" "ip1"; Join "a" 0 "t1" "alice" "f1";
     Connection "b" "ip2"; Join "b" 0 "t2" "bob" "f2";
     Move "b" 0 (4, 0) (3, 0) (50 # 1);
     Move "a" 0 (0, 0) (1, 0) (400 # 1);
     Attack "a" 0 (1, 0) (2, 0) (300 # 1)].

(** alice keeps 100 troops on [(3,0)] after taking it; bob's capital
    [(4,0)] is next door. *)
Definition demoSiege : State :=
  stateAfter richCfg demoFront [Attack "a" 0 (2, 0) (3, 0) (200 # 1)].

(** C3 as the specification words it: an attack aimed at a capital is
    answered with an error message. *)
Definition capital_attack_answered (s : State) (sid : SocketId) (now : Z)
    (fromId targetId : TileId) (amount : Q) : Prop :=
  forall tok p l target s' evs,
    resolve s sid = Some (tok, p) ->
    actionLimiters s !! tok = Some l ->
    fst (consume l now) = true ->
    tiles s !! targetId = Some target ->
    isCapital target = true ->
    attack s sid now fromId targetId amount = Done s' evs ->
    exists e, e ∈ evs /\ is_error_msg e = true.

(** ** Connectivity, declaratively

    [connected ts f capId k]: [k] is reached from [capId] by steps to
    neighbouring tiles that exist and are owned by [f] (what [deploy] asks
    of [bfsRegion] with the passable test [ownerFaction === f]). *)
Inductive connected (ts : gmap TileId Tile) (passableFn : Tile -> bool)
    (startId : TileId) : TileId -> Prop :=
| connected_start : connected ts passableFn startId startId
| connected_step a t d nt :
    connected ts passableFn startId a ->
    ts !! a = Some t ->
    d ∈ DIRS ->
    ts !! key (tile_q t + fst d) (tile_r t + snd d) = Some nt ->
    passableFn nt = true ->
    connected ts passableFn startId
      (key (tile_q t + fst d) (tile_r t + snd d)).

Definition ownedBy (f : FactionId) (tile : Tile) : bool :=
  bool_decide (ownerFaction tile = f).

Definition neighbourId (t : Tile) (d : Z * Z) : TileId :=
  key (tile_q t + fst d) (tile_r t + snd d).

(** The loop invariant of [bfsRegion]: [seen] is the queue and the output
    together, only connected stored tiles are seen, and the output is closed
    under passable neighbours. *)
Definition bfsInv (ts : gmap TileId Tile) (passableFn : Tile -> bool)
    (startId : TileId) (seen : gset TileId) (q out : list TileId) : Prop :=
  (forall k, k ∈ seen <-> k ∈ q \/ k ∈ out)
  /\ (forall k, k ∈ seen ->
        connected ts passableFn startId k /\ is_Some (ts !! k))
  /\ (forall a t d nt, a ∈ out -> ts !! a = Some t -> d ∈ DIRS ->
        ts !! neighbourId t d = Some nt -> passableFn nt = true ->
        neighbourId t d ∈ seen)
  /\ startId ∈ seen.

(** ** The outcomes of [deploy] and [move], named *)

Record DeployValid (s : State) (sid : SocketId) (now : Z)
    (targetId : TileId) (amount : Q)
    (tok : Token) (p : Player) (l : Limiter) : Prop := {
  dv_resolve : resolve s sid = Some (tok, p);
  dv_limiter : actionLimiters s !! tok = Some l;
  dv_admit : fst (consume l now) = true;
  dv_target : is_Some (tiles s !! targetId);
  dv_amount : 1 <= normAmount amount;
  dv_inventory : normAmount amount <= inventory p
}.

Definition afterDeploy (s1 : State) (tok : Token) (p : Player)
    (targetId : TileId) (n : Z) : State :=
  let p' := set_troops (credit targetId n (troops p))
              (set_inventory (inventory p - n) p) in
  recalcPublicTroops targetId
    (with_players (<[tok := p']> (players s1)) s1).

Definition notConnectedMsg : Payload :=
  error_msg "Target not connected to your capital.".

Inductive DeployPath (s : State) (sid : SocketId) (now : Z)
    (targetId : TileId) (amount : Q) : Outcome -> Prop :=
| deploy_unresolved :
    resolve s sid = None ->
    DeployPath s sid now targetId amount (Done s [])
| deploy_nolimiter tok p :
    resolve s sid = Some (tok, p) ->
    actionLimiters s !! tok = None ->
    DeployPath s sid now targetId amount Crash
| deploy_dropped tok p l :
    resolve s sid = Some (tok, p) ->
    actionLimiters s !! tok = Some l ->
    ~ DeployValid s sid now targetId amount tok p l ->
    DeployPath s sid now targetId amount (Done (charged s tok l now) [])
| deploy_nocapital tok p l :
    DeployValid s sid now targetId amount tok p l ->
    (forall capId, capitalsByFaction s !! factionId p = Some capId ->
                   tiles s !! capId = None) ->
    DeployPath s sid now targetId amount Crash
| deploy_unconnected tok p l capId :
    DeployValid s sid now targetId amount tok p l ->
    capitalsByFaction s !! factionId p = Some capId ->
    is_Some (tiles s !! capId) ->
    ~ connected (tiles s) (ownedBy (factionId p)) capId targetId ->
    DeployPath s sid now targetId amount
      (Done (charged s tok l now) [Emit sid notConnectedMsg])
| deploy_done tok p l capId :
    DeployValid s sid now targetId amount tok p l ->
    capitalsByFaction s !! factionId p = Some capId ->
    is_Some (tiles s !! capId) ->
    connected (tiles s) (ownedBy (factionId p)) capId targetId ->
    let s' := afterDeploy (charged s tok l now) tok p targetId
                (normAmount amount) in
    DeployPath s sid now targetId amount
      (Done s' [Emit sid (me_update (buildMe (playerOf s' tok)));
                Broadcast (tile_update (tiles s' !! targetId))]).

Record MoveValid (s : State) (sid : SocketId) (now : Z)
    (fromId toId : TileId) (amount : Q)
    (tok : Token) (p : Player) (l : Limiter) (from to : Tile) : Prop := {
  mv_resolve : resolve s sid = Some (tok, p);
  mv_limiter : actionLimiters s !! tok = Some l;
  mv_admit : fst (consume l now) = true;
  mv_from : tiles s !! fromId = Some from;
  mv_to : tiles s !! toId = Some to;
  mv_amount : 1 <= normAmount amount;
  mv_adjacent : adjacentTo from toId = true;
  mv_owner_from : ownerFaction from = factionId p;
  mv_owner_to : ownerFaction to = factionId p;
  mv_have : normAmount amount <= troopsAt p fromId
}.

Definition afterMove (s1 : State) (tok : Token) (p : Player)
    (fromId toId : TileId) (n : Z) : State :=
  let p' := set_troops (credit toId n (attackerAfter p fromId n)) p in
  recalcPublicTroops toId
    (recalcPublicTroops fromId
       (with_players (<[tok := p']> (players s1)) s1)).

Inductive MovePath (s : State) (sid : SocketId) (now : Z)
    (fromId toId : TileId) (amount : Q) : Outcome -> Prop :=
| move_unresolved :
    resolve s sid = None ->
    MovePath s sid now fromId toId amount (Done s [])
| move_nolimiter tok p :
    resolve s sid = Some (tok, p) ->
    actionLimiters s !! tok = None ->
    MovePath s sid now fromId toId amount Crash
| move_dropped tok p l :
    resolve s sid = Some (tok, p) ->
    actionLimiters s !! tok = Some l ->
    (forall from to,
       ~ MoveValid s sid now fromId toId amount tok p l from to) ->
    MovePath s sid now fromId toId amount (Done (charged s tok l now) [])
| move_done tok p l from to :
    MoveValid s sid now fromId toId amount tok p l from to ->
    let s' := afterMove (charged s tok l now) tok p fromId toId
                (normAmount amount) in
    MovePath s sid now fromId toId amount
      (Done s' [Emit sid (me_update (buildMe (playerOf s' tok)));
                Broadcast (tile_update (tiles s' !! fromId));
                Broadcast (tile_update (tiles s' !! toId))]).

(** alice joins f1, lets three recruitment ticks pass and collects: her
    inventory is 10. *)
Definition demoStocked : State :=
  stateAfter defaultCfg demoBoot
    [Connection "a" "ip1"; Join "a" 0 "t1" "alice" "f1";
     Tick; Tick; Tick; RecruitCollect "a" 0].

(** C4 as the specification words it: a deploy to a tile that is not
    connected to the capital is answered with an error message, whatever
    the amount. *)
Definition unconnected_deploy_answered (s : State) (sid : SocketId) (now : Z)
    (targetId : TileId) (amount : Q) : Prop :=
  forall tok p l capId s' evs,
    resolve s sid = Some (tok, p) ->
    actionLimiters s !! tok = Some l ->
    fst (consume l now) = true ->
    capitalsByFaction s !! factionId p = Some capId ->
    ~ connected (tiles s) (ownedBy (factionId p)) capId targetId ->
    deploy s sid now targetId amount = Done s' evs ->
    exists e, e ∈ evs /\ is_error_msg e = true.

(** C8 as the specification words it, for one rule violation: an attack
    between tiles that are not adjacent is answered with an error message. *)
Definition nonadjacent_attack_answered (s : State) (sid : SocketId) (now : Z)
    (fromId targetId : TileId) (amount : Q) : Prop :=
  forall tok p l from target s' evs,
    resolve s sid = Some (tok, p) ->
    actionLimiters s !! tok = Some l ->
    fst (consume l now) = true ->
    tiles s !! fromId = Some from ->
    tiles s !! targetId = Some target ->
    1 <= normAmount amount ->
    ownerFaction from = factionId p ->
    normAmount amount <= troopsAt p fromId ->
    adjacentTo from targetId = false ->
    attack s sid now fromId targetId amount = Done s' evs ->
    exists e, e ∈ evs /\ is_error_msg e = true.

Definition has_error_msg (evs : list Event) : Prop :=
  exists e, e ∈ evs /\ is_error_msg e = true.

(** Every stored troop entry is a positive number. *)
Definition all_pos (tr : gmap TileId Z) : Prop :=
  map_Forall (fun _ v => 0 < v) tr.

Definition troops_positive (s : State) : Prop :=
  map_Forall (fun _ p => all_pos (troops p)) (players s).

(** C5 as the specification words it, for the server started on [s0]
    under [cfg]: no stored entry is zero or negative, whatever the
    configuration. *)
Definition entries_always_positive (cfg : Config) (s0 : State) : Prop :=
  forall s tok p k v,
    reachable cfg s0 s -> players s !! tok = Some p ->
    troops p !! k = Some v -> 0 < v.

(** The server started with [START_TROOPS=0]. *)
Definition zeroCfg : Config :=
  {| START_TROOPS := 0; DISABLE_IP_LOCK := false |}.

(** alice has moved everything she had on [(1,0)] back to her capital. *)
Definition demoReturned : State :=
  stateAfter defaultCfg demoGarrisoned [Move "a" 0 (1, 0) (0, 0) (60 # 1)].

(** [publicTroops] caches the sum of the players' entries for the tile. *)
Definition publicTroops_ok_at (s : State) (k : TileId) : Prop :=
  forall t, tiles s !! k = Some t -> publicTroops t = sumTroops (players s) k.

Definition publicTroops_ok (s : State) : Prop :=
  forall k, publicTroops_ok_at s k.

(** alice has just connected and joined f1 on a fresh world. *)
Definition demoConnected : State :=
  stateAfter defaultCfg demoBoot [Connection "a" "ip1"].

Definition demoJoined : State :=
  stateAfter defaultCfg demoConnected [Join "a" 0 "t1" "alice" "f1"].

(** Two connections from one address are open before either has joined;
    then the first one joins. *)
Definition demoTwoSockets : State :=
  stateAfter defaultCfg demoBoot
    [Connection "a" "ip1"; Connection "b" "ip1";
     Join "a" 0 "t1" "alice" "f1"].

(** The server restarted on the state file written in state [s]: boot on
    the generated world, then [loadSnapshot]. *)
Definition restart (cfg : Config) (s : State) : State :=
  loadSnapshot cfg (Some (snapshot cfg s))
    (boot (tiles s) (factions s) (capitalsByFaction s)).

(** Every player is stored under its own token. *)
Definition players_keyed (ps : gmap Token Player) : Prop :=
  map_Forall (fun tok p => token p = tok) ps.

(** Every tile is stored under its own id. *)
Definition tiles_keyed (ts : gmap TileId Tile) : Prop :=
  map_Forall (fun k t => tile_id t = k) ts.

(** ** Invariants of the tile map *)

Definition tile_cache_only (t t' : Tile) : Prop :=
  exists n, t' = set_publicTroops n t.

Definition tiles_cache_only (ts ts' : gmap TileId Tile) : Prop :=
  forall k,
    match ts !! k with
    | Some t => exists t', ts' !! k = Some t' /\ tile_cache_only t t'
    | None => ts' !! k = None
    end.

Definition control_nonneg (ts : gmap TileId Tile) : Prop :=
  map_Forall (fun _ t => 0 <= control t) ts.

Definition inventory_nonneg (ps : gmap Token Player) : Prop :=
  map_Forall (fun _ p => 0 <= inventory p) ps.

Definition demoCampaign : list Action :=
  [Connection "a" "ip1"; Join "a" 0 "t1" "alice" "f1";
   Move "a" 0 (0, 0) (1, 0) (60 # 1);
   Attack "a" 0 (1, 0) (2, 0) (30 # 1);
   Tick; Tick; Tick; RecruitCollect "a" 0;
   Deploy "a" 0 (2, 0) (7 # 1);
   Attack "a" 0 (2, 0) (3, 0) (10 # 1);
   Disconnect "a"].

Definition demoPeaceful : list Action :=
  [Connection "a" "ip1"; Join "a" 0 "t1" "alice" "f1";
   Move "a" 0 (0, 0) (1, 0) (60 # 1);
   Tick; Tick; Tick; RecruitCollect "a" 0;
   Deploy "a" 0 (1, 0) (7 # 1);
   Disconnect "a"].

(** ** The effect of an action on the acting player *)

(** The record [join] creates. *)
Definition joinedPlayer (cfg : Config) (s : State) (tok : Token)
    (nm : string) (fid : FactionId) : Player :=
  {| token := tok; name := String.substring 0 24 nm; factionId := fid;
     troops := match capitalsByFaction s !! fid with
               | Some capId => credit capId (START_TROOPS cfg) ∅
               | None => ∅
               end;
     producedPrecise := dzero; produced := 0; inventory := 0;
     remainingMs := RECRUIT_DURATION_MS;
     recruitDurationMs := RECRUIT_DURATION_MS; reserveCap := RESERVE_CAP |}.

(** The record after a collection. *)
Definition collectedPlayer (p : Player) : option Player :=
  match toDouble (Math_max (Z2F 0)
                    (SFsub prec emax (orZero (dval (producedPrecise p)))
                       (Z2F (produced p)))) with
  | Some pp =>
      Some (set_production pp 0 RECRUIT_DURATION_MS
              (set_inventory (inventory p + produced p) p))
  | None => None
  end.

(** How an accepted action rewrites the record [p] of the acting player. *)
Inductive Effect (s : State) : Action -> Player -> Player -> Prop :=
| eff_collect sid now p p' :
    produced p > 0 ->
    collectedPlayer p = Some p' ->
    Effect s (RecruitCollect sid now) p p'
| eff_deploy sid now targetId amount p :
    1 <= normAmount amount <= inventory p ->
    Effect s (Deploy sid now targetId amount) p
      (set_troops (credit targetId (normAmount amount) (troops p))
         (set_inventory (inventory p - normAmount amount) p))
| eff_move sid now fromId toId amount p :
    1 <= normAmount amount <= troopsAt p fromId ->
    fromId <> toId \/ ~ tiles_wf (tiles s) ->
    Effect s (Move sid now fromId toId amount) p
      (set_troops (credit toId (normAmount amount)
                     (attackerAfter p fromId (normAmount amount))) p)
| eff_capture sid now fromId targetId amount p target :
    1 <= normAmount amount <= troopsAt p fromId ->
    fromId <> targetId \/ ~ tiles_wf (tiles s) ->
    tiles s !! targetId = Some target ->
    normAmount amount > control target ->
    Effect s (Attack sid now fromId targetId amount) p
      (set_troops (credit targetId (normAmount amount - control target)
                     (attackerAfter p fromId (normAmount amount))) p)
| eff_repelled sid now fromId targetId amount p target :
    1 <= normAmount amount <= troopsAt p fromId ->
    tiles s !! targetId = Some target ->
    normAmount amount <= control target ->
    Effect s (Attack sid now fromId targetId amount) p
      (set_troops (attackerAfter p fromId (normAmount amount)) p).

Definition socketOf (a : Action) : option SocketId :=
  match a with
  | Connection sid _ | Disconnect sid | Join sid _ _ _ _
  | RecruitCollect sid _ | Deploy sid _ _ _ | Move sid _ _ _ _
  | Attack sid _ _ _ _ | NoPayload sid _ => Some sid
  | Tick => None
  end.

(** Every way a step can change [players]. *)
Inductive PlayersStep (cfg : Config) (s : State) (a : Action)
  : gmap Token Player -> Prop :=
| ps_same : PlayersStep cfg s a (players s)
| ps_tick :
    a = Tick ->
    map_Forall (fun _ p => is_Some (tickPlayer p)) (players s) ->
    PlayersStep cfg s a (omap tickPlayer (players s))
| ps_actor sid tok p p' :
    socketOf a = Some sid ->
    resolve s sid = Some (tok, p) ->
    Effect s a p p' ->
    PlayersStep cfg s a (<[tok := p']> (players s))
| ps_join sid now tok nm fid :
    a = Join sid now tok nm fid ->
    PlayersStep cfg s a
      (<[tok := joinedPlayer cfg s tok nm fid]> (players s)).

Definition sumEntries (tr : gmap TileId Z) : Z :=
  map_fold (fun _ v acc => acc + v) 0 tr.

Definition holdings (p : Player) : Z := inventory p + sumEntries (troops p).

(** The fields of a record that tell who the player is. *)
Definition same_identity (p p' : Player) : Prop :=
  token p' = token p /\ name p' = name p /\ factionId p' = factionId p
  /\ recruitDurationMs p' = recruitDurationMs p
  /\ reserveCap p' = reserveCap p.

Definition not_join_of (tok : Token) (a : Action) : Prop :=
  forall sid now nm fid, a <> Join sid now tok nm fid.

(** ** Chains of moves *)




(** A path over tiles of faction [f], each next to the one before. *)
Fixpoint friendlyPath (ts : gmap TileId Tile) (f : FactionId)
    (pathIds : list TileId) : Prop :=
  match pathIds with
  | [] => True
  | a :: rest =>
      (exists t, ts !! a = Some t /\ ownerFaction t = f
                 /\ match rest with
                    | b :: _ => adjacentTo t b = true
                    | [] => True
                    end)
      /\ friendlyPath ts f rest
  end.

(** The limiter admits one action at each of the given times. *)
Fixpoint admitsAll (l : Limiter) (nows : list Z) : Prop :=
  match nows with
  | [] => True
  | now :: rest =>
      fst (consume l now) = true /\ admitsAll (snd (consume l now)) rest
  end.


(** ** The limiter over a sequence of calls *)

(** The times are in order, the first not before [t]. *)
Fixpoint inOrderFrom (t : Z) (nows : list Z) : Prop :=
  match nows with
  | [] => True
  | now :: rest => t <= now /\ inOrderFrom now rest
  end.

(** The number of actions the limiter admits, and the limiter that is left,
    when [consume] is called at each of the given times. *)
Fixpoint admittedCount (l : Limiter) (nows : list Z) : nat :=
  match nows with
  | [] => O
  | now :: rest =>
      ((if fst (consume l now) then 1 else 0)
       + admittedCount (snd (consume l now)) rest)%nat
  end.

Fixpoint consumed (l : Limiter) (nows : list Z) : Limiter :=
  match nows with
  | [] => l
  | now :: rest => consumed (snd (consume l now)) rest
  end.

Definition elapsedSec (from to : Z) : Qc :=
  (Q2Qc (inject_Z (to - from)) / Q2Qc 1000)%Qc.

(** ** The recruitment reserve *)

(** A float of the format: a finite one has a canonical mantissa and an
    exponent in range. *)
Definition wf (x : spec_float) : Prop := valid_binary prec emax x = true.

(** Zero, a positive number or [+Infinity]. *)
Definition nonneg (x : spec_float) : Prop :=
  match x with
  | S754_zero _ | S754_finite false _ _ | S754_infinity false => True
  | _ => False
  end.

(** The reserve of a player is in range: the accumulator lies between 0 and
    the cap, and [produced] is its floor.  (The rate and the cap are not
    negative: [join] sets them to 1000 per 5 minutes.) *)
Definition production_ok (p : Player) : Prop :=
  0 <= reserveCap p /\ fle (Z2F 0) (perSec p)
  /\ fle (Z2F 0) (dval (producedPrecise p))
  /\ fle (dval (producedPrecise p)) (Z2F (reserveCap p))
  /\ produced p = floorD (producedPrecise p).

Definition productions_ok (ps : gmap Token Player) : Prop :=
  map_Forall (fun _ p => production_ok p) ps.

(** Every reserve cap is a number a double holds without overflow. *)
Definition caps_finite (ps : gmap Token Player) : Prop :=
  map_Forall (fun _ p => finiteb (Z2F (reserveCap p)) = true) ps.

(** ** The client: adjacency, ordering and deploy eligibility *)

(** The literal [[[1,0],[-1,0],[0,1],[0,-1],[1,-1],[-1,1]]] of the client. *)
Definition clientDirs : list (Z * Z) :=
  [(1, 0); (-1, 0); (0, 1); (0, -1); (1, -1); (-1, 1)].

(** [isNeighbor(a, b)] *)
Definition isNeighbor (a b : Tile) : bool :=
  existsb (fun d => bool_decide (tile_q a + fst d = tile_q b)
                    && bool_decide (tile_r a + snd d = tile_r b))
          clientDirs.

(** [byOwnerPriority(a, b)], the comparator of the tile list. *)
Definition byOwnerPriority (a b : Tile) : Z :=
  if isCapital a && negb (isCapital b) then -1
  else if negb (isCapital a) && isCapital b then 1
  else if negb (bool_decide (tile_q a = tile_q b)) then tile_q a - tile_q b
  else tile_r a - tile_r b.

(** [deployEligible] in deploy mode with [me] and [world] present. *)
Inductive EligResult :=
| EligOut (eligible : gset TileId)
| EligThrow       (* [world.tiles[id]] was undefined: TypeError on [t.q] *)
| EligFuel.       (* the iteration budget of the model ran out *)

Definition eligVisit (ts : gmap TileId Tile) (owner : FactionId) (t : Tile)
    (st : gset TileId * list TileId) (d : Z * Z)
  : gset TileId * list TileId :=
  let nid := key (tile_q t + fst d) (tile_r t + snd d) in
  match ts !! nid with
  | None => st
  | Some nt =>
      if negb (bool_decide (ownerFaction nt = owner)) then st
      else if bool_decide (nid ∉ fst st)
           then ({[nid]} ∪ fst st, snd st ++ [nid])
           else st
  end.

Fixpoint eligLoop (fuel : nat) (ts : gmap TileId Tile) (owner : FactionId)
    (seen : gset TileId) (q : list TileId) (eligible : gset TileId)
  : EligResult :=
  match q with
  | [] => EligOut eligible
  | id :: q' =>
      match fuel with
      | O => EligFuel
      | S fuel' =>
          match ts !! id with
          | None => EligThrow
          | Some t =>
              let st := foldl (eligVisit ts owner t) (seen, q') clientDirs in
              eligLoop fuel' ts owner (fst st) (snd st) ({[id]} ∪ eligible)
          end
      end
  end.

Definition deployEligible (ts : gmap TileId Tile)
    (caps : gmap FactionId TileId) (owner : FactionId) : EligResult :=
  match caps !! owner with
  | None => EligThrow
  | Some capId => eligLoop (S (size ts)) ts owner {[capId]} [capId] ∅
  end.

(** ** The troop cache, tile by tile *)

(** Every [join] of the list comes with a token that no record carries yet
    (the tokens are 16 random bytes). *)
Fixpoint freshJoins (used : gset Token) (l : list Action) : Prop :=
  match l with
  | [] => True
  | Join _ _ tok _ _ :: rest =>
      (tok ∉ used) /\ freshJoins ({[tok]} ∪ used) rest
  | _ :: rest => freshJoins used rest
  end.

Definition isCapitalOf (s : State) (k : TileId) : Prop :=
  exists f, capitalsByFaction s !! f = Some k.

(** ** The client: path search and move clicks *)

(** The neighbours of [t] the search may step to:
    [dirs.map(([dq,dr]) => `${t.q+dq},${t.r+dr}`)
         .filter(id => world.tiles[id]?.ownerFaction === owner)]. *)
Definition friendlyNbrs (ts : gmap TileId Tile) (owner : FactionId)
    (t : Tile) : list TileId :=
  List.filter
    (fun id => match ts !! id with
               | Some nt => bool_decide (ownerFaction nt = owner)
               | None => false
               end)
    (map (fun d => key (tile_q t + fst d) (tile_r t + snd d)) clientDirs).

(** [graph]: the tiles of the faction, each stored under its [id]. *)
Definition graphOf (ts : gmap TileId Tile) (owner : FactionId)
  : gmap TileId (list TileId) :=
  foldl (fun g e =>
           if bool_decide (ownerFaction (snd e) = owner)
           then <[tile_id (snd e) := friendlyNbrs ts owner (snd e)]> g
           else g)
        ∅ (map_to_list ts).

(** [prev] is a [Map] from a tile to the tile it was reached from, [null]
    for the start; entries are kept in insertion order. *)
Abbreviation PrevMap := (list (TileId * option TileId)).

(** [if (!prev.has(nb)) { prev.set(nb, cur); q.push(nb); }] *)
Definition pathVisit (cur : TileId) (st : PrevMap * list TileId)
    (nb : TileId) : PrevMap * list TileId :=
  if OMap.has nb (fst st) then st
  else (OMap.set nb (Some cur) (fst st), snd st ++ [nb]).

(** The search loop; [None] when the iteration budget of the model ran
    out. *)
Fixpoint pathLoop (fuel : nat) (graph : gmap TileId (list TileId))
    (toId : TileId) (q : list TileId) (prev : PrevMap) : option PrevMap :=
  match q with
  | [] => Some prev
  | cur :: q' =>
      if decide (cur = toId) then Some prev
      else match fuel with
           | O => None
           | S fuel' =>
               let st := foldl (pathVisit cur) (prev, q')
                               (default [] (graph !! cur)) in
               pathLoop fuel' graph toId (snd st) (fst st)
           end
  end.

(** [while (cur) { pathIds.push(cur); cur = prev.get(cur)!; }] *)
Fixpoint pathWalk (fuel : nat) (prev : PrevMap) (cur : TileId)
    (pathIds : list TileId) : option (list TileId) :=
  match fuel with
  | O => None
  | S fuel' =>
      match OMap.get cur prev with
      | Some (Some nxt) => pathWalk fuel' prev nxt (pathIds ++ [cur])
      | _ => Some (pathIds ++ [cur])
      end
  end.

Inductive PathResult :=
| PathSome (pathIds : list TileId)
| PathNull
| PathFuel.       (* the iteration budget of the model ran out *)

(** [findFriendlyPath(fromId, toId)] with [me] and [world] present. *)
Definition findFriendlyPath (ts : gmap TileId Tile) (owner : FactionId)
    (fromId toId : TileId) : PathResult :=
  if decide (fromId = toId) then PathSome [fromId]
  else
    let graph := graphOf ts owner in
    match graph !! fromId, graph !! toId with
    | Some _, Some _ =>
        match pathLoop (S (size ts)) graph toId [fromId] [(fromId, None)] with
        | None => PathFuel
        | Some prev =>
            if OMap.has toId prev then
              match pathWalk (S (length prev)) prev toId [] with
              | None => PathFuel
              | Some pathIds => PathSome (rev pathIds)
              end
            else PathNull
        end
    | _, _ => PathNull
    end.

(** A step of the search: from a tile of the faction to a neighbouring tile
    of the faction. *)
Definition friendlyStep (ts : gmap TileId Tile) (owner : FactionId)
    (a k : TileId) : Prop :=
  exists t nt, ts !! a = Some t /\ ownerFaction t = owner
               /\ adjacentTo t k = true
               /\ ts !! k = Some nt /\ ownerFaction nt = owner.

Fixpoint chain (E : TileId -> TileId -> Prop) (pathIds : list TileId)
  : Prop :=
  match pathIds with
  | a :: (b :: _) as rest => E a b /\ chain E rest
  | _ => True
  end.

(** The shape of [prev]: the start first, then tiles each reached by a
    step from a tile entered before. *)
Inductive PrevOK (E : TileId -> TileId -> Prop) (fromId : TileId)
  : PrevMap -> Prop :=
| prev_root : PrevOK E fromId [(fromId, None)]
| prev_snoc l a k :
    PrevOK E fromId l -> a ∈ l.*1 -> k ∉ l.*1 -> E a k ->
    PrevOK E fromId (l ++ [(k, Some a)]).

(** A good path to [k]: it starts at [fromId], ends at [k], goes by steps
    of [E] and visits no tile twice. *)
Definition goodPath (E : TileId -> TileId -> Prop) (fromId : TileId)
    (pathIds : list TileId) (k : TileId) : Prop :=
  head pathIds = Some fromId /\ List.last pathIds fromId = k
  /\ chain E pathIds /\ NoDup pathIds.

(** The invariant of the search loop: [prev] has the shape above, its
    tiles are on the map, and the queue holds entered tiles only. *)
Definition pathInv (ts : gmap TileId Tile) (owner : FactionId)
    (fromId : TileId) (q : list TileId) (prev : PrevMap) : Prop :=
  PrevOK (friendlyStep ts owner) fromId prev
  /\ (forall x, x ∈ prev.*1 -> x ∈ dom ts)
  /\ (forall x, x ∈ q -> x ∈ prev.*1).

(** Every entered tile is still waiting in the queue, or all its friendly
    neighbours have been entered. *)
Definition pathClosed (ts : gmap TileId Tile) (owner : FactionId)
    (q : list TileId) (prev : PrevMap) : Prop :=
  forall a, a ∈ prev.*1 ->
    a ∈ q \/ forall k, friendlyStep ts owner a k -> k ∈ prev.*1.

(** What a click comes to: messages sent to the server, an [alert], or an
    exception. *)
Inductive ClickResult (A : Type) :=
| Sent (msgs : A)
| Alerted
| Threw
| ClickFuel.      (* the iteration budget of the model ran out *)
Arguments Sent {A} msgs.
Arguments Alerted {A}.
Arguments Threw {A}.
Arguments ClickFuel {A}.


(** ** The client: deploy and attack clicks *)

(** [Math.min(a, b)] *)
Definition mathMin (a b : Q) : Q := if Qlt_le_dec b a then b else a.

(** The deploy branch of [handleTileClick]; [inv] is [me.inventory]. *)
Definition deployClick (ts : gmap TileId Tile)
    (caps : gmap FactionId TileId) (owner : FactionId) (inv : Z)
    (targetId : TileId) (amount : Q) : ClickResult (TileId * Q) :=
  match deployEligible ts caps owner with
  | EligOut eligible =>
      if bool_decide (targetId ∈ eligible) then
        let useAmt := mathMin amount (inject_Z inv) in
        if Qlt_le_dec useAmt 1 then Alerted else Sent (targetId, useAmt)
      else Alerted
  | EligThrow => Threw
  | EligFuel => ClickFuel
  end.

(** The attack branch of [handleTileClick], with [me] present: [selected]
    is the selected tile, [t] the clicked one. *)
Definition attackClick (owner : FactionId) (selected t : Tile) (amount : Q)
  : ClickResult (TileId * TileId * Q) :=
  if negb (isNeighbor selected t
           && negb (bool_decide (ownerFaction t = owner))
           && negb (isCapital t))
  then Alerted
  else if Qlt_le_dec amount 1 then Alerted
  else Sent (tile_id selected, tile_id t, amount).

(** ** World generation *)

Definition START_TILES_AROUND_CAPITAL : nat := 25.

(** [(tile) => tile.ownerFaction === "neutral" || tile.id === capId] *)
Definition claimPassable (capId : TileId) (tile : Tile) : bool :=
  bool_decide (ownerFaction tile = "neutral")
  || bool_decide (tile_id tile = capId).

(** [t.ownerFaction = f.id; if (!t.isCapital) t.control = CLAIM_DEFENDERS] *)
Definition claimTile (f : FactionId) (CLAIM_DEFENDERS : Z) (t : Tile)
  : Tile :=
  set_owner_control f (if isCapital t then control t else CLAIM_DEFENDERS) t.

Inductive GenResult :=
| GenOut (ts : gmap TileId Tile)
| GenThrow        (* a tile looked up by id was undefined *)
| GenFuel.        (* the iteration budget of the model ran out *)

(** The body of [for (const f of factions)] for a faction with a capital. *)
Definition claimRegion (CLAIM_DEFENDERS : Z) (ts : gmap TileId Tile)
    (f : FactionId) (capId : TileId) : GenResult :=
  match bfsRegion capId ts (claimPassable capId)
          (Some (START_TILES_AROUND_CAPITAL + 1)%nat) with
  | BfsOut region =>
      foldl (fun acc tid =>
               match acc with
               | GenOut m =>
                   match m !! tid with
                   | Some t => GenOut (<[tid := claimTile f CLAIM_DEFENDERS t]> m)
                   | None => GenThrow
                   end
               | _ => acc
               end)
            (GenOut ts) region
  | BfsThrow => GenThrow
  | BfsFuel => GenFuel
  end.

(** The last loop of [buildPentagonWorld]: every faction claims the tiles
    around its capital. *)
Definition claimAll (CLAIM_DEFENDERS : Z) (fs : list Faction)
    (caps : gmap FactionId TileId) (ts : gmap TileId Tile) : GenResult :=
  foldl (fun acc f =>
           match acc with
           | GenOut m =>
               match caps !! faction_id f with
               | None => GenOut m
               | Some capId =>
                   claimRegion CLAIM_DEFENDERS m (faction_id f) capId
               end
           | _ => acc
           end)
        (GenOut ts) fs.

(** A step of the search from [a] to its neighbour [x]. *)
Definition bfsStep (ts : gmap TileId Tile) (passableFn : Tile -> bool)
    (a x : TileId) : Prop :=
  exists t d nt, ts !! a = Some t /\ d ∈ DIRS /\ x = neighbourId t d
                 /\ ts !! x = Some nt /\ passableFn nt = true.

(** Lists the search can output: the start, then tiles each reached by a
    step from a tile listed before. *)
Inductive Grown (ts : gmap TileId Tile) (passableFn : Tile -> bool)
    (startId : TileId) : list TileId -> Prop :=
| grown_start : is_Some (ts !! startId) -> Grown ts passableFn startId [startId]
| grown_snoc l a x :
    Grown ts passableFn startId l -> a ∈ l -> bfsStep ts passableFn a x ->
    Grown ts passableFn startId (l ++ [x]).

(** The map before the territories are claimed: every tile is stored
    under its id; a faction has at most one capital, marked as such and
    owned by it; every other tile is neutral. *)
Record GenPre (fs : list Faction) (caps : gmap FactionId TileId)
    (ts0 : gmap TileId Tile) : Prop := {
  gp_keyed : tiles_keyed ts0;
  gp_ids : NoDup (faction_id <$> fs);
  gp_neutral : "neutral" ∉ faction_id <$> fs;
  gp_caps_ids : forall f c, caps !! f = Some c -> f ∈ faction_id <$> fs;
  gp_caps_inj : forall f g c,
      caps !! f = Some c -> caps !! g = Some c -> f = g;
  gp_caps : forall f c, caps !! f = Some c ->
      exists t, ts0 !! c = Some t /\ ownerFaction t = f
                /\ isCapital t = true;
  gp_rest : forall k t, ts0 !! k = Some t ->
      (ownerFaction t = "neutral" /\ isCapital t = false)
      \/ (caps !! ownerFaction t = Some k /\ isCapital t = true)
}.

(** The state of the map once the factions [dn] have claimed. *)
Record Territories (CLAIM_DEFENDERS : Z) (caps : gmap FactionId TileId)
    (dn : list FactionId) (ts0 ts : gmap TileId Tile) : Prop := {
  tr_shape : forall k,
      match ts0 !! k with
      | Some t0 => exists t, ts !! k = Some t /\ tile_id t = tile_id t0
                             /\ tile_q t = tile_q t0 /\ tile_r t = tile_r t0
                             /\ isCapital t = isCapital t0
      | None => ts !! k = None
      end;
  tr_owner : forall k t, ts !! k = Some t ->
      (ownerFaction t = "neutral" /\ isCapital t = false)
      \/ (caps !! ownerFaction t = Some k /\ isCapital t = true)
      \/ (ownerFaction t ∈ dn /\ isCapital t = false
          /\ control t = CLAIM_DEFENDERS
          /\ exists c, caps !! ownerFaction t = Some c
                       /\ connected ts (ownedBy (ownerFaction t)) c k);
  tr_caps : forall f c, caps !! f = Some c ->
      exists t, ts !! c = Some t /\ ownerFaction t = f /\ isCapital t = true;
  tr_size : forall f, f ∈ dn ->
      exists region, NoDup region
        /\ (length region <= START_TILES_AROUND_CAPITAL + 1)%nat
        /\ forall k t, ts !! k = Some t -> ownerFaction t = f -> k ∈ region
}.

(** A map as it is before the territories are claimed: two capitals at the
    ends of a line of neutral tiles, and a neutral tile far away. *)
Definition demoUnclaimed : gmap TileId Tile :=
  list_to_map
    (map (fun t => (tile_id t, t))
       [mkTile 0 0 "f1" 100 true; mkTile 1 0 "neutral" 25 false;
        mkTile 2 0 "neutral" 25 false; mkTile 3 0 "neutral" 25 false;
        mkTile 4 0 "f2" 100 true; mkTile 9 9 "neutral" 25 false]).

(** The cells of one turn of the outer loop: [r] from
    [max(-radius, -q - radius)] to [min(radius, -q + radius)]. *)
Definition rawRow (radius q : Z) : list (Z * Z) :=
  let r1 := Z.max (- radius) (- q - radius) in
  let r2 := Z.min radius (- q + radius) in
  (fun r => (q, r)) <$> seqZ r1 (r2 - r1 + 1).

(** The cells in the order in which [rawTiles.set] is called. *)
Definition rawCells (radius : Z) : list (Z * Z) :=
  seqZ (- radius) (radius - - radius + 1) ≫= rawRow radius.

(** [rawTiles]: each cell [{ id: key(q, r), q, r }] under [key(q, r)]. *)
Definition rawTiles (radius : Z) : gmap TileId (TileId * Z * Z) :=
  foldl (fun m c => <[key (fst c) (snd c)
                      := (key (fst c) (snd c), fst c, snd c)]> m)
        ∅ (rawCells radius).

(** ** Metering and joining *)

(** The socket and the time of an action that goes through the limiter. *)
Definition meterOf (a : Action) : option (SocketId * Z) :=
  match a with
  | RecruitCollect sid now | Deploy sid now _ _ | Move sid now _ _ _
  | Attack sid now _ _ _ => Some (sid, now)
  | _ => None
  end.
(** * Part II: properties *)

(** * Basic facts about the stores *)

(** Closed goals about the concrete scenarios are settled by evaluation. *)
Ltac by_eval := vm_compute; reflexivity.
Ltac some_by_eval := vm_compute; eexists; reflexivity.

(* The two branches of [recruit_collect] under hypothesis [H]. *)
Ltac collect_cases H :=
  case_decide;
  [destruct (toDouble _) as [pp|] eqn:Hpp; [|discriminate H]|];
  inversion H; subst.

Section store_facts.
Implicit Types (s : State) (p : Player) (k : TileId) (tr : gmap TileId Z).

Lemma recalc_players k s : players (recalcPublicTroops k s) = players s.
Proof. unfold recalcPublicTroops. by destruct (tiles s !! k). Qed.

Lemma recalc_tiles_lookup k s k' :
  tiles (recalcPublicTroops k s) !! k' =
  if decide (k = k')
  then set_publicTroops (sumTroops (players s) k) <$> tiles s !! k'
  else tiles s !! k'.
Proof.
  unfold recalcPublicTroops.
  destruct (tiles s !! k) as [t|] eqn:Ht; simpl.
  - case_decide as Hk.
    + subst k'. by rewrite lookup_insert_eq, Ht.
    + by rewrite lookup_insert_ne.
  - case_decide as Hk; [subst k'; by rewrite Ht | done].
Qed.

Lemma recalc_sessions k s :
  tokenToSocket (recalcPublicTroops k s) = tokenToSocket s
  /\ ipToToken (recalcPublicTroops k s) = ipToToken s
  /\ actionLimiters (recalcPublicTroops k s) = actionLimiters s
  /\ sockets (recalcPublicTroops k s) = sockets s
  /\ factions (recalcPublicTroops k s) = factions s
  /\ capitalsByFaction (recalcPublicTroops k s) = capitalsByFaction s.
Proof. unfold recalcPublicTroops. by destruct (tiles s !! k). Qed.

Lemma storeOrDelete_default k v tr k' :
  0 <= v ->
  default 0 (storeOrDelete k v tr !! k') =
  if decide (k = k') then v else default 0 (tr !! k').
Proof.
  intros Hv. unfold storeOrDelete.
  destruct (decide (v <= 0)); destruct (decide (k = k')); subst;
    rewrite ?lookup_delete_eq, ?lookup_insert_eq,
            ?lookup_delete_ne, ?lookup_insert_ne by done; simpl; lia.
Qed.

Lemma credit_default k n tr k' :
  default 0 (credit k n tr !! k') =
  if decide (k = k') then default 0 (tr !! k) + n else default 0 (tr !! k').
Proof.
  unfold credit. destruct (decide (k = k')); subst;
    by rewrite ?lookup_insert_eq, ?lookup_insert_ne by done.
Qed.

Lemma storeOrDelete_lookup_ne k v tr k' :
  k <> k' -> storeOrDelete k v tr !! k' = tr !! k'.
Proof.
  intros. unfold storeOrDelete.
  destruct (decide (v <= 0)); by rewrite ?lookup_delete_ne, ?lookup_insert_ne.
Qed.

Lemma credit_lookup_ne k n tr k' : k <> k' -> credit k n tr !! k' = tr !! k'.
Proof. intros. unfold credit. by rewrite lookup_insert_ne. Qed.

End store_facts.

Lemma adjacentTo_spec (from : Tile) (toId : TileId) :
  adjacentTo from toId = true <->
  exists d, d ∈ DIRS
            /\ toId = key (tile_q from + fst d) (tile_r from + snd d).
Proof.
  unfold adjacentTo, neighborsOf. rewrite existsb_exists. split.
  - intros (n & Hn & Heq). apply in_map_iff in Hn as (d & <- & Hd).
    apply bool_decide_eq_true in Heq. exists d. split; [|done].
    by apply list_elem_of_In.
  - intros (d & Hd & ->). exists (tile_q from + fst d, tile_r from + snd d).
    split.
    + apply in_map_iff. exists d. split; [done|]. by apply list_elem_of_In.
    + by apply bool_decide_eq_true.
Qed.

Lemma adjacentTo_ne ts fromId (from : Tile) (toId : TileId) :
  tiles_wf ts -> ts !! fromId = Some from ->
  adjacentTo from toId = true -> fromId <> toId.
Proof.
  intros Hwf Hfrom Hadj ->.
  destruct (Hwf _ _ Hfrom) as [_ Hk].
  apply adjacentTo_spec in Hadj as (d & Hd & Heq).
  rewrite <- Hk in Heq. unfold key in Heq.
  injection Heq as Hq Hr.
  unfold DIRS in Hd.
  repeat (apply elem_of_cons in Hd as [-> | Hd]; [simpl in *; lia|]).
  by apply elem_of_nil in Hd.
Qed.

(** * Combat resolution *)

Section attack_facts.
Variables (s : State) (sid : SocketId) (now : Z).
Variables (fromId targetId : TileId) (amount : Q).
Variables (tok : Token) (p : Player) (l l' : Limiter) (from target : Tile).

Hypothesis Hresolve : resolve s sid = Some (tok, p).
Hypothesis Hlim : actionLimiters s !! tok = Some l.
Hypothesis Hadmit : consume l now = (true, l').
Hypothesis Hfrom : tiles s !! fromId = Some from.
Hypothesis Htarget : tiles s !! targetId = Some target.
Hypothesis Hwf : tiles_wf (tiles s).
Hypothesis Hpos : 1 <= normAmount amount.
Hypothesis Hown : ownerFaction from = factionId p.
Hypothesis Hhave : normAmount amount <= troopsAt p fromId.
Hypothesis Hadj : adjacentTo from targetId = true.
Hypothesis Hnocap : isCapital target = false.

Lemma attack_capture_eq :
  normAmount amount > control target ->
  let s3 := afterCapture (charged s tok l now) tok p fromId targetId
              (normAmount amount) target in
  attack s sid now fromId targetId amount =
  Done s3 [Emit sid (me_update (buildMe (playerOf s3 tok)));
           Broadcast (combat_result fromId targetId
                        (normAmount amount - control target));
           Broadcast (tile_update (tiles s3 !! fromId));
           Broadcast (tile_update (tiles s3 !! targetId))].
Proof.
  intros Hgt. unfold attack, withPlayer, charged, afterCapture, attackerAfter,
    playerOf.
  rewrite Hresolve, Hlim, Hadmit. simpl. rewrite Hfrom, Htarget.
  rewrite Hadj, Hnocap. simpl. rewrite !recalc_players. simpl.
  rewrite lookup_insert_eq. simpl.
  repeat (case_decide; try lia; try done).
Qed.

Lemma attack_repelled_eq :
  normAmount amount <= control target ->
  let s3 := afterRepelled (charged s tok l now) tok p fromId targetId
              (normAmount amount) target in
  attack s sid now fromId targetId amount =
  Done s3 [Emit sid (me_update (buildMe (playerOf s3 tok)));
           Broadcast (tile_update (tiles s3 !! fromId));
           Broadcast (tile_update (tiles s3 !! targetId))].
Proof.
  intros Hle. unfold attack, withPlayer, charged, afterRepelled, attackerAfter,
    playerOf.
  rewrite Hresolve, Hlim, Hadmit. simpl. rewrite Hfrom, Htarget.
  rewrite Hadj, Hnocap. simpl. rewrite !recalc_players. simpl.
  rewrite lookup_insert_eq. simpl.
  repeat (case_decide; try lia; try done).
Qed.

End attack_facts.

(** C1 (amended): resolution of an admitted, valid attack on a tile that is
    not a capital.  With [n] the floored amount, [n >= 1]: in both branches
    [n] is debited from the attacker's troops at [fromId]; if [n] strictly
    exceeds the target's [control] the tile changes owner, its [control]
    becomes 0, the survivors [n - control] are added to whatever the
    attacker already had on the target and a [combat_result] is broadcast;
    otherwise the owner and the attacker's troops on the target are
    unchanged, [control] drops by exactly [n] and no [combat_result] is
    emitted. *)
Theorem attack_resolution (s : State) (sid : SocketId) (now : Z)
    (fromId targetId : TileId) (amount : Q) (tok : Token) (p : Player)
    (l l' : Limiter) (from target : Tile) :
  resolve s sid = Some (tok, p) ->
  actionLimiters s !! tok = Some l ->
  consume l now = (true, l') ->
  tiles_wf (tiles s) ->
  tiles s !! fromId = Some from ->
  tiles s !! targetId = Some target ->
  1 <= normAmount amount ->
  ownerFaction from = factionId p ->
  normAmount amount <= troopsAt p fromId ->
  adjacentTo from targetId = true ->
  isCapital target = false ->
  exists s' evs p' target',
    attack s sid now fromId targetId amount = Done s' evs
    /\ players s' !! tok = Some p'
    /\ tiles s' !! targetId = Some target'
    /\ troopsAt p' fromId = troopsAt p fromId - normAmount amount
    /\ (normAmount amount > control target ->
          troopsAt p' targetId
            = troopsAt p targetId + (normAmount amount - control target)
          /\ ownerFaction target' = factionId p
          /\ control target' = 0
          /\ Broadcast (combat_result fromId targetId
                          (normAmount amount - control target)) ∈ evs)
    /\ (normAmount amount <= control target ->
          troopsAt p' targetId = troopsAt p targetId
          /\ ownerFaction target' = ownerFaction target
          /\ control target' = control target - normAmount amount
          /\ forall e, e ∈ evs -> is_combat_result e = false).
Proof.
  intros Hres Hlim Hadm Hwf Hfrom Htarget Hpos Hown Hhave Hadj Hnocap.
  pose proof (adjacentTo_ne _ _ _ _ Hwf Hfrom Hadj) as Hne.
  destruct (decide (normAmount amount > control target)) as [Hgt|Hle].
  - rewrite (attack_capture_eq s sid now fromId targetId amount tok p l l'
               from target) by done.
    eexists _, _, _, _. split; [reflexivity|].
    unfold afterCapture, attackerAfter.
    split; [by rewrite !recalc_players; simpl; rewrite lookup_insert_eq|].
    split.
    { rewrite !recalc_tiles_lookup. rewrite decide_True by done.
      rewrite decide_False by done. simpl. rewrite lookup_insert_eq.
      reflexivity. }
    split.
    { unfold troopsAt at 1. simpl. rewrite credit_default.
      rewrite decide_False by done.
      rewrite storeOrDelete_default by lia. by rewrite decide_True. }
    split; [|lia]. intros _. split.
    { unfold troopsAt at 1. simpl. rewrite credit_default.
      rewrite decide_True by done.
      rewrite storeOrDelete_default by lia. by rewrite decide_False. }
    split; [done|]. split; [done|]. set_solver.
  - rewrite (attack_repelled_eq s sid now fromId targetId amount tok p l l'
               from target) by (done || lia).
    eexists _, _, _, _. split; [reflexivity|].
    unfold afterRepelled, attackerAfter.
    split; [by rewrite !recalc_players; simpl; rewrite lookup_insert_eq|].
    split.
    { rewrite !recalc_tiles_lookup. rewrite decide_False by done.
      simpl. rewrite lookup_insert_eq. reflexivity. }
    split.
    { unfold troopsAt at 1. simpl.
      rewrite storeOrDelete_default by lia. by rewrite decide_True. }
    split; [lia|]. intros _. split.
    { unfold troopsAt at 1. simpl.
      rewrite storeOrDelete_default by lia. by rewrite decide_False. }
    split; [done|]. split; [done|].
    intros e He. repeat (apply elem_of_cons in He as [-> | He]; [done|]).
    by apply elem_of_nil in He.
Qed.

Lemma attack_resolution_witness :
  exists s' evs p' target',
    attack demoGarrisoned "a" 0 (1, 0) (2, 0) (30 # 1) = Done s' evs
    /\ players s' !! "t1" = Some p'
    /\ tiles s' !! (2, 0) = Some target'
    /\ troopsAt p' (1, 0) = 30
    /\ troopsAt p' (2, 0) = 5
    /\ ownerFaction target' = "f1"
    /\ control target' = 0.
Proof.
  destruct (attack_resolution demoGarrisoned "a" 0 (1, 0) (2, 0) (30 # 1)
              "t1" (playerOf demoGarrisoned "t1")
              (limiterOf demoGarrisoned "t1")
              (snd (consume (limiterOf demoGarrisoned "t1") 0))
              (tileOf demoGarrisoned (1, 0)) (tileOf demoGarrisoned (2, 0)))
    as (s' & evs & p' & target' & Hrun & Hp & Ht & Hfrom & Hcap & _).
  all: try (vm_compute; reflexivity).
  all: try (vm_compute; congruence).
  { unfold tiles_wf. eapply bool_decide_eq_true_1. vm_compute. reflexivity. }
  destruct Hcap as (Htgt & Hown & Hctl & _); [vm_compute; reflexivity|].
  vm_compute in Hfrom. vm_compute in Htgt. vm_compute in Hown.
  exists s', evs, p', target'. repeat split; assumption.
Defined.

(** C1 (as stated) fails: alice has just taken [(2,0)] and holds 5 survivors
    there; she attacks it again from [(1,0)] with 10 against [control = 0].
    The capture succeeds with 10 survivors, and her entry on the tile becomes
    15, not 10. *)
Lemma attack_recapture_adds :
  ~ capture_entry_is_survivors demoCaptured "a" 0 (1, 0) (2, 0) (10 # 1).
Proof.
  intros H.
  destruct (H "t1" (playerOf demoCaptured "t1") (limiterOf demoCaptured "t1")
              (snd (consume (limiterOf demoCaptured "t1") 0))
              (tileOf demoCaptured (1, 0)) (tileOf demoCaptured (2, 0)))
    as (s' & evs & p' & Hrun & Hp & Hentry).
  all: try (vm_compute; reflexivity).
  all: try (vm_compute; congruence).
  assert (finalState (attack demoCaptured "a" 0 (1, 0) (2, 0) (10 # 1))
            ≫= (fun s => playerTroopsAt s "t1" (2, 0)) = Some 15) as E
    by (vm_compute; reflexivity).
  rewrite Hrun in E. simpl in E. unfold playerTroopsAt in E.
  rewrite Hp in E. simpl in E. rewrite Hentry in E.
  vm_compute in E. discriminate E.
Qed.

(** * Inversion of the handlers *)

Lemma withPlayer_inv s sid now k s' evs :
  withPlayer s sid now k = Done s' evs ->
  (resolve s sid = None /\ s' = s /\ evs = [])
  \/ exists tok p l,
       resolve s sid = Some (tok, p)
       /\ actionLimiters s !! tok = Some l
       /\ let s1 := with_limiters
                      (<[tok := snd (consume l now)]> (actionLimiters s)) s in
          (fst (consume l now) = false /\ s' = s1 /\ evs = [])
          \/ (fst (consume l now) = true /\ k s1 tok p = Done s' evs).
Proof.
  unfold withPlayer. intros H.
  destruct (resolve s sid) as [[tok p]|]; [|left; by inversion H].
  right. exists tok, p.
  destruct (actionLimiters s !! tok) as [l|]; [|done].
  exists l. split; [done|]. split; [done|].
  destruct (consume l now) as [[] l']; simpl.
  - by right.
  - left. by inversion H.
Qed.

Lemma attack_paths s sid now fromId targetId amount s' evs :
  attack s sid now fromId targetId amount = Done s' evs ->
  AttackPath s sid now fromId targetId amount s' evs.
Proof.
  intros Hrun. pose proof Hrun as H. unfold attack in H.
  apply withPlayer_inv in H
    as [(Hres & -> & ->) | (tok & p & l & Hres & Hl & H)];
    [by constructor|].
  simpl in H. fold (charged s tok l now) in H.
  assert (forall P : Prop, ~ P ->
            Done (charged s tok l now) [] = Done s' evs ->
            (forall from target,
               AttackValid s sid now fromId targetId amount tok p l
                           from target -> P) ->
            AttackPath s sid now fromId targetId amount s' evs) as Hdrop.
  { intros P HP Heq HV. inversion Heq; subst.
    eapply attack_dropped; eauto. }
  destruct H as [(Hadm & -> & ->) | (Hadm & H)].
  { apply (Hdrop (fst (consume l now) = true)); [congruence|done|].
    by intros ?? []. }
  destruct (tiles s !! fromId) as [from|] eqn:Hfrom.
  2:{ apply (Hdrop False); [tauto|done|]. intros ?? []. congruence. }
  destruct (tiles s !! targetId) as [target|] eqn:Htarget.
  2:{ apply (Hdrop False); [tauto|done|]. intros ?? []. congruence. }
  destruct (decide (normAmount amount < 1)).
  { apply (Hdrop (1 <= normAmount amount)); [lia|done|]. by intros ?? []. }
  destruct (decide (ownerFaction from <> factionId p)).
  { apply (Hdrop (ownerFaction from = factionId p)); [done|done|].
    intros ?? []. congruence. }
  destruct (decide (troopsAt p fromId < normAmount amount)).
  { apply (Hdrop (normAmount amount <= troopsAt p fromId)); [lia|done|].
    by intros ?? []. }
  destruct (adjacentTo from targetId) eqn:Hadj; simpl in H.
  2:{ apply (Hdrop (adjacentTo from targetId = true)); [congruence|done|].
    intros ?? []. congruence. }
  assert (AttackValid s sid now fromId targetId amount tok p l from target)
    as V.
  { split; try done; try lia.
    by destruct (decide (ownerFaction from = factionId p)). }
  assert (consume l now = (true, snd (consume l now))) as Hc
    by (by destruct (consume l now); simpl in *; subst).
  destruct (isCapital target) eqn:Hcap.
  { inversion H; subst. by eapply attack_capital. }
  clear H. pose proof V as V'. destruct V'.
  destruct (decide (normAmount amount > control target)) as [Hgt|Hle].
  - rewrite (attack_capture_eq s sid now fromId targetId amount tok p l
               (snd (consume l now)) from target) in Hrun by done.
    inversion Hrun; subst.
    eapply (attack_captured _ _ _ _ _ _ _ _ _ _ _ _ V Hcap Hgt);
      [set_solver|].
    intros e He. repeat (apply elem_of_cons in He as [-> | He]; [done|]).
    by apply elem_of_nil in He.
  - rewrite (attack_repelled_eq s sid now fromId targetId amount tok p l
               (snd (consume l now)) from target) in Hrun by (done || lia).
    inversion Hrun; subst.
    assert (normAmount amount <= control target) as Hle' by lia.
    eapply (attack_repelled _ _ _ _ _ _ _ _ _ _ _ _ V Hcap Hle').
    intros e He. repeat (apply elem_of_cons in He as [-> | He]; [done|]).
    by apply elem_of_nil in He.
Qed.

Lemma findKeyOf_elem {K V} `{EqDecision V} (x : V) (m : list (K * V)) k :
  OMap.findKeyOf x m = Some k -> (k, x) ∈ m.
Proof.
  induction m as [|[k' v'] m IH]; simpl; [done|].
  destruct (decide (v' = x)) as [->|].
  - intros [= ->]. apply elem_of_cons. by left.
  - intros H. apply elem_of_cons. right. by apply IH.
Qed.

Lemma resolve_Some s sid tok p :
  resolve s sid = Some (tok, p) ->
  (tok, sid) ∈ tokenToSocket s /\ tok <> "" /\ players s !! tok = Some p.
Proof.
  unfold resolve, tokenOf.
  destruct (OMap.findKeyOf sid (tokenToSocket s)) as [t|] eqn:Hf; [|done].
  destruct (decide (t = "")); [done|].
  destruct (players s !! t) eqn:Hp; [|done].
  intros [= -> ->]. split; [by apply findKeyOf_elem|done].
Qed.

(** * Frame of an attack *)

(** C10: an attack leaves the record of every player other than the
    attacker untouched (so troops that others keep on a tile survive its
    capture), and in the attacker's own [troops] only the entries of
    [fromId] and [targetId] can change. *)
Theorem attack_frame (s : State) (sid : SocketId) (now : Z)
    (fromId targetId : TileId) (amount : Q) (s' : State) (evs : list Event) :
  attack s sid now fromId targetId amount = Done s' evs ->
  (forall tok, (forall p, resolve s sid <> Some (tok, p)) ->
     players s' !! tok = players s !! tok)
  /\ (forall tok p, resolve s sid = Some (tok, p) ->
        exists p', players s' !! tok = Some p'
          /\ forall k, k <> fromId -> k <> targetId ->
               troops p' !! k = troops p !! k).
Proof.
  intros Hrun. apply attack_paths in Hrun.
  destruct Hrun as [Hres | tok p l Hres Hl _ | tok p l from target V Hcap
                   | tok p l from target evs V Hcap Hgt _ _
                   | tok p l from target evs V Hcap Hle _].
  - split; [done|]. intros tok p. congruence.
  - split; [done|]. intros tok' p' H'. rewrite Hres in H'.
    injection H' as <- <-. apply resolve_Some in Hres as (_ & _ & Hp).
    eauto.
  - destruct V as [Hres]. split; [done|]. intros tok' p' H'.
    rewrite Hres in H'. injection H' as <- <-.
    apply resolve_Some in Hres as (_ & _ & Hp). eauto.
  - destruct V as [Hres]. unfold afterCapture, attackerAfter.
    rewrite !recalc_players. simpl. split.
    + intros tok' Hne. rewrite lookup_insert_ne; [done|].
      intros <-. by apply (Hne p).
    + intros tok' p' H'. rewrite Hres in H'. injection H' as <- <-.
      rewrite lookup_insert_eq. eexists. split; [done|]. simpl.
      intros k Hk1 Hk2.
      by rewrite credit_lookup_ne, storeOrDelete_lookup_ne.
  - destruct V as [Hres]. unfold afterRepelled, attackerAfter.
    rewrite !recalc_players. simpl. split.
    + intros tok' Hne. rewrite lookup_insert_ne; [done|].
      intros <-. by apply (Hne p).
    + intros tok' p' H'. rewrite Hres in H'. injection H' as <- <-.
      rewrite lookup_insert_eq. eexists. split; [done|]. simpl.
      intros k Hk1 Hk2. by rewrite storeOrDelete_lookup_ne.
Qed.

(** alice captures bob's tile [(3,0)] with 200 against 100: the tile is now
    f1's, and bob's 50 troops are still recorded on it. *)
Lemma attack_frame_witness :
  exists s' evs,
    attack demoFront "a" 0 (2, 0) (3, 0) (200 # 1) = Done s' evs
    /\ tileField ownerFaction demoFront (3, 0) = Some "f2"
    /\ tileField ownerFaction s' (3, 0) = Some "f1"
    /\ players s' !! "t2" = players demoFront !! "t2"
    /\ playerTroopsAt s' "t2" (3, 0) = Some 50.
Proof.
  destruct (attack demoFront "a" 0 (2, 0) (3, 0) (200 # 1))
    as [s' evs| |] eqn:Hrun; [|vm_compute in Hrun; discriminate Hrun..].
  pose proof (attack_frame _ _ _ _ _ _ _ _ Hrun) as [Hothers _].
  assert (players s' !! "t2" = players demoFront !! "t2") as Hbob.
  { apply Hothers. intros p. vm_compute. congruence. }
  exists s', evs. split; [reflexivity|]. split; [by_eval|].
  split.
  { assert (finalState (attack demoFront "a" 0 (2, 0) (3, 0) (200 # 1))
              ≫= (fun s => tileField ownerFaction s (3, 0)) = Some "f1") as E
      by (vm_compute; reflexivity).
    rewrite Hrun in E. exact E. }
  split; [exact Hbob|]. unfold playerTroopsAt. rewrite Hbob. by_eval.
Defined.

(** * Capitals *)

Lemma tile_kept_refl t : tile_kept t t.
Proof. by repeat split. Qed.

Lemma tile_kept_trans t1 t2 t3 :
  tile_kept t1 t2 -> tile_kept t2 t3 -> tile_kept t1 t3.
Proof.
  intros (Hi & Hq & Hr & Hc & H12) (Hi' & Hq' & Hr' & Hc' & H23).
  unfold tile_kept. rewrite Hi', Hq', Hr', Hc'.
  do 4 (split; [done|]). intros Ht.
  destruct (H12 Ht) as [<- <-]. apply H23. congruence.
Qed.

Lemma tile_kept_publicTroops t n : tile_kept t (set_publicTroops n t).
Proof. by repeat split. Qed.

Lemma tiles_kept_refl ts : tiles_kept ts ts.
Proof.
  intros k. destruct (ts !! k) as [t|] eqn:Hk; [|done].
  exists t. split; [done|apply tile_kept_refl].
Qed.

Lemma tiles_kept_trans ts1 ts2 ts3 :
  tiles_kept ts1 ts2 -> tiles_kept ts2 ts3 -> tiles_kept ts1 ts3.
Proof.
  intros H12 H23 k. specialize (H12 k). specialize (H23 k).
  destruct (ts1 !! k) as [t1|].
  - destruct H12 as (t2 & Ht2 & K12). rewrite Ht2 in H23.
    destruct H23 as (t3 & Ht3 & K23). exists t3. split; [done|].
    by eapply tile_kept_trans.
  - by rewrite H12 in H23.
Qed.

Lemma tiles_kept_recalc ts k s :
  tiles_kept ts (tiles s) -> tiles_kept ts (tiles (recalcPublicTroops k s)).
Proof.
  intros H k'. specialize (H k'). rewrite recalc_tiles_lookup.
  destruct (ts !! k') as [t|].
  - destruct H as (t' & Ht' & K). rewrite Ht'. case_decide; simpl.
    + eexists. split; [done|].
      eapply tile_kept_trans; [done|apply tile_kept_publicTroops].
    + by exists t'.
  - rewrite H. by case_decide.
Qed.

Lemma tiles_kept_insert ts k t t' :
  ts !! k = Some t -> tile_kept t t' -> tiles_kept ts (<[k := t']> ts).
Proof.
  intros Hk K k'. destruct (decide (k = k')) as [<-|Hne].
  - rewrite Hk, lookup_insert_eq. by exists t'.
  - rewrite lookup_insert_ne by done.
    destruct (ts !! k') as [t0|] eqn:Hk'; [|done].
    exists t0. split; [done|apply tile_kept_refl].
Qed.

Lemma tiles_kept_wf ts ts' : tiles_wf ts -> tiles_kept ts ts' -> tiles_wf ts'.
Proof.
  intros Hwf H k t' Hk. specialize (H k).
  destruct (ts !! k) as [t|] eqn:Ht; [|congruence].
  destruct H as (t'' & Ht'' & Hi & Hq & Hr & _).
  assert (t'' = t') as -> by congruence.
  destruct (Hwf _ _ Ht) as [? ?]. split; congruence.
Qed.

Lemma attack_tiles_kept s sid now fromId targetId amount s' evs :
  attack s sid now fromId targetId amount = Done s' evs ->
  tiles_kept (tiles s) (tiles s').
Proof.
  intros Hrun. apply attack_paths in Hrun.
  destruct Hrun as [Hres | tok p l Hres Hl _ | tok p l from target V Hcap
                   | tok p l from target evs V Hcap Hgt _ _
                   | tok p l from target evs V Hcap Hle _];
    try apply tiles_kept_refl.
  - destruct V. unfold afterCapture. do 2 apply tiles_kept_recalc. simpl.
    eapply tiles_kept_insert; [done|].
    repeat split; simpl; congruence.
  - destruct V. unfold afterRepelled. apply tiles_kept_recalc. simpl.
    eapply tiles_kept_insert; [done|].
    repeat split; simpl; congruence.
Qed.

Lemma sessions_ok_recalc k s :
  sessions_ok s -> sessions_ok (recalcPublicTroops k s).
Proof.
  unfold sessions_ok.
  by destruct (recalc_sessions k s) as (-> & _ & -> & _).
Qed.

Lemma sessions_ok_charged s tok l now :
  sessions_ok s -> sessions_ok (charged s tok l now).
Proof.
  unfold sessions_ok. simpl. apply Forall_impl. intros [t sd] Hl. simpl in *.
  destruct (decide (tok = t)) as [->|];
    [rewrite lookup_insert_eq|rewrite lookup_insert_ne by done]; eauto.
Qed.

Lemma attack_sessions_ok s sid now fromId targetId amount s' evs :
  attack s sid now fromId targetId amount = Done s' evs ->
  sessions_ok s -> sessions_ok s'.
Proof.
  intros Hrun Hok. apply attack_paths in Hrun.
  pose proof (fun tok l => sessions_ok_charged s tok l now Hok) as Hch.
  destruct Hrun as [Hres | tok p l Hres Hl _ | tok p l from target V Hcap
                   | tok p l from target evs V Hcap Hgt _ _
                   | tok p l from target evs V Hcap Hle _]; try done.
  - unfold afterCapture. do 2 apply sessions_ok_recalc. apply (Hch tok l).
  - unfold afterRepelled. apply sessions_ok_recalc. apply (Hch tok l).
Qed.

Lemma attack_total s sid now fromId targetId amount :
  sessions_ok s ->
  exists s' evs, attack s sid now fromId targetId amount = Done s' evs.
Proof.
  intros Hok. unfold attack, withPlayer.
  destruct (resolve s sid) as [[tok p]|] eqn:Hres; [|eauto].
  apply resolve_Some in Hres as (Hin & _ & _).
  unfold sessions_ok in Hok. rewrite Forall_forall in Hok.
  apply list_elem_of_In in Hin.
  destruct (Hok _ Hin) as [l Hl]. simpl in Hl. rewrite Hl.
  destruct (consume l now) as [[] l']; simpl; [|eauto].
  repeat case_match; eauto.
Qed.

Lemma step_attack cfg s a :
  is_attack a -> sessions_ok s ->
  exists s' evs, step cfg s a = Done s' evs
                 /\ sessions_ok s' /\ tiles_kept (tiles s) (tiles s').
Proof.
  destruct a as [| | | | | |sid now fromId targetId amount| |]; try done.
  intros _ Hok. simpl. unfold onSocket.
  destruct (sockets s !! sid).
  - destruct (attack_total s sid now fromId targetId amount Hok)
      as (s' & evs & Hrun).
    exists s', evs. split; [done|]. split.
    + by eapply attack_sessions_ok.
    + by eapply attack_tiles_kept.
  - exists s, []. split; [done|]. split; [done|apply tiles_kept_refl].
Qed.

Lemma run_attacks cfg l : forall s,
  Forall is_attack l -> sessions_ok s ->
  exists s' evs, run cfg s l = Done s' evs
                 /\ tiles_kept (tiles s) (tiles s').
Proof.
  induction l as [|a l IH]; intros s Hl Hok; simpl.
  - exists s, []. split; [done|apply tiles_kept_refl].
  - inversion Hl as [|?? Ha Hl']; subst.
    destruct (step_attack cfg s a Ha Hok) as (s1 & evs1 & -> & Hok1 & K1).
    destruct (IH s1 Hl' Hok1) as (s2 & evs2 & -> & K2).
    exists s2, (evs1 ++ evs2). split; [done|]. by eapply tiles_kept_trans.
Qed.

(** C3 (amended): capitals are immune.  Whatever sequence of attacks is
    played, the run completes and every capital keeps its owner, its
    [isCapital] flag and its [control].  An attack aimed at a capital never
    changes the tiles, the players or the session tables; it is answered with
    the error message exactly when it passes the validations that precede
    the capital test (resolved session, admitted by the limiter, existing
    tiles, amount of at least 1, own source tile, enough troops, adjacency),
    and is dropped without any event otherwise. *)
Theorem capital_immune (cfg : Config) (s : State) :
  (forall l, sessions_ok s -> Forall is_attack l ->
     exists s' evs, run cfg s l = Done s' evs
       /\ forall k c, tiles s !! k = Some c -> isCapital c = true ->
            exists c', tiles s' !! k = Some c'
                       /\ ownerFaction c' = ownerFaction c
                       /\ isCapital c' = true
                       /\ control c' = control c)
  /\ (forall sid now fromId targetId amount target s' evs,
        tiles s !! targetId = Some target ->
        isCapital target = true ->
        attack s sid now fromId targetId amount = Done s' evs ->
        tiles s' = tiles s /\ players s' = players s
        /\ tokenToSocket s' = tokenToSocket s
        /\ ipToToken s' = ipToToken s
        /\ (((exists tok p l from,
                AttackValid s sid now fromId targetId amount tok p l
                            from target)
             /\ evs = [Emit sid (error_msg "Capitals cannot be conquered.")])
            \/ ((forall tok p l from,
                   ~ AttackValid s sid now fromId targetId amount tok p l
                                 from target)
                /\ evs = []))).
Proof.
  split.
  - intros l Hok Hl.
    destruct (run_attacks cfg l s Hl Hok) as (s' & evs & Hrun & K).
    exists s', evs. split; [done|]. intros k c Hk Hc.
    specialize (K k). rewrite Hk in K.
    destruct K as (c' & Hk' & _ & _ & _ & Hcap & Hkeep).
    destruct (Hkeep Hc) as [? ?]. exists c'.
    repeat split; congruence.
  - intros sid now fromId targetId amount target s' evs Ht Hc Hrun.
    apply attack_paths in Hrun.
    destruct Hrun as [Hres | tok p l Hres Hl Hno | tok p l from tg V Hcap
                     | tok p l from tg evs V Hcap Hgt _ _
                     | tok p l from tg evs V Hcap Hle _].
    + do 4 (split; [done|]). right. split; [|done].
      intros tok p l from [H' _]. congruence.
    + do 4 (split; [done|]). right. split; [|done].
      intros tok' p' l' from V. pose proof V as [H1 H2 _].
      rewrite Hres in H1. injection H1 as <- <-.
      rewrite Hl in H2. injection H2 as <-. by eapply Hno.
    + do 4 (split; [done|]). left. split; [|done].
      pose proof V as [_ _ _ _ H5 _]. rewrite Ht in H5. injection H5 as <-.
      by exists tok, p, l, from.
    + destruct V as [_ _ _ _ H5 _]. congruence.
    + destruct V as [_ _ _ _ H5 _]. congruence.
Qed.

(** alice, with 100 troops on [(3,0)], sends 50 against bob's capital
    [(4,0)] twice: both attacks are refused and the capital is as before. *)
Lemma capital_immune_witness :
  (exists s' evs,
     run richCfg demoSiege
       [Attack "a" 0 (3, 0) (4, 0) (50 # 1);
        Attack "a" 1 (3, 0) (4, 0) (50 # 1)] = Done s' evs
     /\ exists c', tiles s' !! (4, 0) = Some c'
                   /\ ownerFaction c' = "f2" /\ isCapital c' = true
                   /\ control c' = 100)
  /\ (forall s' evs,
        attack demoSiege "a" 0 (3, 0) (4, 0) (50 # 1) = Done s' evs ->
        tiles s' = tiles demoSiege /\ players s' = players demoSiege).
Proof.
  destruct (capital_immune richCfg demoSiege) as [Hseq Hone]. split.
  - destruct (Hseq [Attack "a" 0 (3, 0) (4, 0) (50 # 1);
                    Attack "a" 1 (3, 0) (4, 0) (50 # 1)])
      as (s' & evs & Hrun & Hcap).
    + unfold sessions_ok. eapply bool_decide_eq_true_1. by_eval.
    + by repeat constructor.
    + exists s', evs. split; [exact Hrun|].
      destruct (Hcap (4, 0) (tileOf demoSiege (4, 0)))
        as (c' & Hc' & Ho & Hi & Hctl); [by_eval|by_eval|].
      vm_compute in Ho. vm_compute in Hctl.
      exists c'. repeat split; assumption.
  - intros s' evs Hrun.
    destruct (Hone "a" 0 (3, 0) (4, 0) (50 # 1) (tileOf demoSiege (4, 0))
                s' evs) as (Ht & Hp & _); [by_eval|by_eval|exact Hrun|].
    split; assumption.
Defined.

(** C3 (as stated) fails: alice has 100 troops on [(3,0)] and sends 150
    against the capital [(4,0)].  The attack is dropped by the troop check,
    before the capital test, and nothing is emitted. *)
Lemma capital_attack_silently_dropped :
  ~ capital_attack_answered demoSiege "a" 0 (3, 0) (4, 0) (150 # 1).
Proof.
  intros H.
  destruct (attack demoSiege "a" 0 (3, 0) (4, 0) (150 # 1))
    as [s' evs| |] eqn:Hrun; [|vm_compute in Hrun; discriminate Hrun..].
  destruct (H "t1" (playerOf demoSiege "t1") (limiterOf demoSiege "t1")
              (tileOf demoSiege (4, 0)) s' evs) as (e & He & _);
    [by_eval|by_eval|by_eval|by_eval|by_eval|exact Hrun|].
  assert (finalEvents (attack demoSiege "a" 0 (3, 0) (4, 0) (150 # 1)) = [])
    as E by (vm_compute; reflexivity).
  rewrite Hrun in E. simpl in E. subst evs. by apply elem_of_nil in He.
Qed.


(** * The tick and the collection, inverted *)

Lemma tickPlayer_Some p p' :
  tickPlayer p = Some p' ->
  exists pp,
    toDouble (tickAcc p) = Some pp
    /\ p' = set_production pp (floorD pp)
              (if decide (remainingMs p > 0)
               then Z.max 0 (remainingMs p - 1000) else remainingMs p) p.
Proof.
  unfold tickPlayer. destruct (toDouble _) as [pp|]; [|done].
  intros [= <-]. by exists pp.
Qed.

Lemma tickPlayer_fields p p' :
  tickPlayer p = Some p' ->
  same_identity p p' /\ inventory p' = inventory p /\ troops p' = troops p.
Proof. intros (pp & _ & ->)%tickPlayer_Some. done. Qed.

Lemma tick_Done s s' evs :
  tick s = Done s' evs ->
  map_Forall (fun _ p => is_Some (tickPlayer p)) (players s)
  /\ s' = with_players (omap tickPlayer (players s)) s.
Proof.
  unfold tick. case_bool_decide as H; [|done]. intros [= <- _]. done.
Qed.

Lemma tick_lookup s s' evs tok :
  tick s = Done s' evs ->
  players s' !! tok = players s !! tok ≫= tickPlayer.
Proof. intros [_ ->]%tick_Done. simpl. apply lookup_omap. Qed.

(** What holds of every record and is kept by [tickPlayer] holds after
    the tick. *)
Lemma tick_Forall (P : Token -> Player -> Prop) s s' evs :
  (forall tok p p', P tok p -> tickPlayer p = Some p' -> P tok p') ->
  map_Forall P (players s) ->
  tick s = Done s' evs ->
  map_Forall P (players s').
Proof.
  intros Hstep Hinv Hrun tok p' Hp'.
  rewrite (tick_lookup _ _ _ _ Hrun) in Hp'.
  destruct (players s !! tok) as [p|] eqn:Hp; [|done]. simpl in Hp'.
  eapply Hstep; [|exact Hp']. by apply Hinv.
Qed.

Lemma collectedPlayer_Some p p' :
  collectedPlayer p = Some p' ->
  exists pp,
    toDouble (Math_max (Z2F 0)
                (SFsub prec emax (orZero (dval (producedPrecise p)))
                   (Z2F (produced p)))) = Some pp
    /\ p' = set_production pp 0 RECRUIT_DURATION_MS
              (set_inventory (inventory p + produced p) p).
Proof.
  unfold collectedPlayer. destruct (toDouble _) as [pp|]; [|done].
  intros [= <-]. by exists pp.
Qed.

Lemma collectedPlayer_intro p pp :
  toDouble (Math_max (Z2F 0)
              (SFsub prec emax (orZero (dval (producedPrecise p)))
                 (Z2F (produced p)))) = Some pp ->
  collectedPlayer p
  = Some (set_production pp 0 RECRUIT_DURATION_MS
            (set_inventory (inventory p + produced p) p)).
Proof. unfold collectedPlayer. by intros ->. Qed.

Lemma omap_tick_Forall (P : Token -> Player -> Prop) (ps : gmap Token Player) :
  (forall tok p p', P tok p -> tickPlayer p = Some p' -> P tok p') ->
  map_Forall P ps -> map_Forall P (omap tickPlayer ps).
Proof.
  intros Hstep Hinv tok p' Hp'. rewrite lookup_omap in Hp'.
  destruct (ps !! tok) as [p|] eqn:Hp; [|done]. simpl in Hp'.
  eapply Hstep; [|exact Hp']. by apply Hinv.
Qed.
(** * bfsRegion computes connectivity *)

Lemma size_difference_fresh (D seen : gset TileId) (x : TileId) :
  x ∈ D -> x ∉ seen ->
  (size (D ∖ ({[x]} ∪ seen)) + 1 = size (D ∖ seen))%nat.
Proof.
  intros HD Hx.
  assert (D ∖ seen = {[x]} ∪ D ∖ ({[x]} ∪ seen)) as ->.
  { apply set_eq. intros y. destruct (decide (y = x)); set_solver. }
  pose proof (size_union (C:=gset TileId) {[x]} (D ∖ ({[x]} ∪ seen))) as Hu.
  pose proof (size_singleton (C:=gset TileId) x) as Hs.
  rewrite Hu by set_solver. lia.
Qed.

Section bfs.
Variables (ts : gmap TileId Tile) (passableFn : Tile -> bool).
Variable (startId : TileId).

Local Abbreviation nb := neighbourId.
Local Abbreviation bfsInv := (bfsInv ts passableFn startId).

(** The effect of the inner loop over a list of directions. *)
Lemma bfsVisit_fold t ds : forall st,
  let st' := foldl (bfsVisit ts passableFn t) st ds in
  exists new,
    snd st' = snd st ++ new
    /\ (forall x, x ∈ fst st' <-> x ∈ fst st \/ x ∈ new)
    /\ (forall x, x ∈ new ->
          exists d nt, d ∈ ds /\ x = nb t d /\ ts !! x = Some nt
                       /\ passableFn nt = true)
    /\ (forall d nt, d ∈ ds -> ts !! nb t d = Some nt ->
          passableFn nt = true -> nb t d ∈ fst st')
    /\ (size (dom ts ∖ fst st') + length (snd st')
        = size (dom ts ∖ fst st) + length (snd st))%nat.
Proof.
  induction ds as [|d ds IH]; intros st; simpl.
  - exists []. rewrite app_nil_r. repeat split; try done.
    + by left.
    + intros [?|H]; [done|by apply elem_of_nil in H].
    + intros x H. by apply elem_of_nil in H.
    + intros d nt H. by apply elem_of_nil in H.
  - destruct (IH (bfsVisit ts passableFn t st d))
      as (new & Hq & Hseen & Hnew & Hclosed & Hsize).
    unfold bfsVisit in *. fold (nb t d) in *.
    destruct (ts !! nb t d) as [nt|] eqn:Hnt.
    + destruct (bool_decide (nb t d ∉ fst st) && passableFn nt) eqn:Hadd.
      * apply andb_true_iff in Hadd as [Hfresh Hpass].
        apply bool_decide_eq_true in Hfresh. simpl in *.
        exists (nb t d :: new). split; [by rewrite Hq, <- app_assoc|].
        split; [intros x; rewrite Hseen; set_solver|].
        split.
        { intros x Hx. apply elem_of_cons in Hx as [->|Hx].
          - exists d, nt. set_solver.
          - destruct (Hnew x Hx) as (d' & nt' & ? & ?).
            exists d', nt'. set_solver. }
        split.
        { intros d' nt' Hd'. apply elem_of_cons in Hd' as [->|Hd'].
          - intros _ _. apply Hseen. set_solver.
          - by apply Hclosed. }
        rewrite Hsize, length_app. simpl.
        rewrite <- (size_difference_fresh (dom ts) (fst st) (nb t d));
          [lia| |done].
        apply elem_of_dom. eauto.
      * exists new. split; [done|]. split; [done|]. split.
        { intros x Hx. destruct (Hnew x Hx) as (d' & nt' & ? & ?).
          exists d', nt'. set_solver. }
        split; [|done].
        intros d' nt' Hd'. apply elem_of_cons in Hd' as [->|Hd'].
        { intros Hnt' Hpass. rewrite Hnt in Hnt'. injection Hnt' as <-.
          rewrite Hpass, andb_true_r in Hadd.
          apply bool_decide_eq_false in Hadd.
          apply Hseen. left.
          destruct (decide (nb t d ∈ fst st)); [done|tauto]. }
        by apply Hclosed.
    + exists new. split; [done|]. split; [done|]. split.
      { intros x Hx. destruct (Hnew x Hx) as (d' & nt' & ? & ?).
        exists d', nt'. set_solver. }
      split; [|done].
      intros d' nt' Hd'. apply elem_of_cons in Hd' as [->|Hd'].
      { congruence. }
      by apply Hclosed.
Qed.

Lemma bfsLoop_spec fuel : forall seen q out,
  bfsInv seen q out ->
  (size (dom ts ∖ seen) + length q <= fuel)%nat ->
  exists res,
    bfsLoop fuel ts passableFn None seen q out = BfsOut res
    /\ forall k, k ∈ res <-> connected ts passableFn startId k.
Proof.
  induction fuel as [|fuel IH]; intros seen q out (Hsq & Hconn & Hclosed & Hs)
    Hfuel.
  - destruct q as [|id q]; [|simpl in Hfuel; lia]. simpl.
    exists out. split; [done|]. intros k. split.
    + intros Hk. apply Hconn, Hsq. by right.
    + intros Hk.
      assert (forall x, x ∈ seen -> x ∈ out) as Hso.
      { intros x Hx. apply Hsq in Hx as [Hx|Hx]; [|done].
        by apply elem_of_nil in Hx. }
      induction Hk as [|a t d nt _ IHa Ha Hd Hnt Hp]; [by apply Hso|].
      apply Hso. by eapply Hclosed.
  - destruct q as [|id q]; simpl.
    + exists out. split; [done|]. intros k. split.
      * intros Hk. apply Hconn, Hsq. by right.
      * intros Hk.
        assert (forall x, x ∈ seen -> x ∈ out) as Hso.
        { intros x Hx. apply Hsq in Hx as [Hx|Hx]; [|done].
          by apply elem_of_nil in Hx. }
        induction Hk as [|a t d nt _ IHa Ha Hd Hnt Hp]; [by apply Hso|].
        apply Hso. by eapply Hclosed.
    + assert (id ∈ seen) as Hid by (apply Hsq; left; set_solver).
      destruct (Hconn id Hid) as [Hcid [t Ht]]. rewrite Ht.
      destruct (bfsVisit_fold t DIRS (seen, q))
        as (new & Hq & Hseen & Hnew & Hcl & Hsize).
      simpl in Hq, Hseen, Hcl, Hsize.
      apply IH.
      * split; [|split; [|split]].
        -- intros k. rewrite Hseen, Hq, Hsq.
           rewrite elem_of_cons, !elem_of_app, elem_of_cons, elem_of_nil.
           tauto.
        -- intros k Hk. apply Hseen in Hk as [Hk|Hk]; [by apply Hconn|].
           destruct (Hnew k Hk) as (d & nt & Hd & -> & Hnt & Hp).
           split; [|eauto]. by eapply connected_step.
        -- intros a t' d nt Ha Ht' Hd Hnt Hp.
           apply elem_of_app in Ha as [Ha|Ha].
           ++ apply Hseen. left. by eapply Hclosed.
           ++ apply list_elem_of_singleton in Ha as ->.
              assert (t' = t) as -> by congruence. by eapply Hcl.
        -- apply Hseen. by left.
      * simpl in Hfuel. lia.
Qed.

Lemma bfsRegion_spec :
  is_Some (ts !! startId) ->
  exists out,
    bfsRegion startId ts passableFn None = BfsOut out
    /\ forall k, k ∈ out <-> connected ts passableFn startId k.
Proof.
  intros Hstart. unfold bfsRegion. apply bfsLoop_spec.
  - split; [|split; [|split]].
    + intros k. rewrite elem_of_singleton, list_elem_of_singleton,
        elem_of_nil. tauto.
    + intros k ->%elem_of_singleton. split; [constructor|done].
    + intros a t d nt Ha. by apply elem_of_nil in Ha.
    + by apply elem_of_singleton.
  - simpl.
    assert (size (dom ts ∖ {[startId]}) <= size (dom ts))%nat
      by (apply subseteq_size; set_solver).
    rewrite size_dom in *. lia.
Qed.

Lemma bfsRegion_throw :
  ts !! startId = None ->
  bfsRegion startId ts passableFn None = BfsThrow.
Proof. intros H. unfold bfsRegion. simpl. by rewrite H. Qed.

End bfs.

(** * Inversion of deploy and move *)

Lemma deploy_paths s sid now targetId amount :
  DeployPath s sid now targetId amount (deploy s sid now targetId amount).
Proof.
  unfold deploy, withPlayer.
  destruct (resolve s sid) as [[tok p]|] eqn:Hres; [|by constructor].
  destruct (actionLimiters s !! tok) as [l|] eqn:Hl;
    [|by eapply deploy_nolimiter].
  destruct (consume l now) as [ok l'] eqn:Hc. cbv beta iota zeta.
  assert (with_limiters (<[tok := l']> (actionLimiters s)) s
          = charged s tok l now) as ->
    by (unfold charged; by rewrite Hc).
  assert (forall P : Prop, ~ P ->
            (DeployValid s sid now targetId amount tok p l -> P) ->
            DeployPath s sid now targetId amount
              (Done (charged s tok l now) [])) as Hdrop.
  { intros P HP HV. eapply deploy_dropped; eauto. }
  destruct ok.
  2:{ apply (Hdrop (fst (consume l now) = true)); [by rewrite Hc|].
      by intros []. }
  simpl.
  destruct (tiles s !! targetId) as [target|] eqn:Ht.
  2:{ apply (Hdrop (is_Some (tiles s !! targetId))).
      - rewrite Ht. by intros [? ?].
      - by intros []. }
  destruct (decide (normAmount amount < 1)).
  { apply (Hdrop (1 <= normAmount amount)); [lia|]. by intros []. }
  destruct (decide (inventory p < normAmount amount)).
  { apply (Hdrop (normAmount amount <= inventory p)); [lia|]. by intros []. }
  assert (DeployValid s sid now targetId amount tok p l) as V.
  { split; try done; try lia; try (by rewrite Hc); by rewrite Ht. }
  destruct (capitalsByFaction s !! factionId p) as [capId|] eqn:Hcap.
  2:{ eapply deploy_nocapital; [done|]. congruence. }
  destruct (tiles s !! capId) as [cap|] eqn:Hcapt.
  2:{ change (tiles (charged s tok l now)) with (tiles s).
      rewrite bfsRegion_throw by done.
      eapply deploy_nocapital; [done|]. congruence. }
  change (tiles (charged s tok l now)) with (tiles s).
  change (fun tile : Tile => bool_decide (ownerFaction tile = factionId p))
    with (ownedBy (factionId p)).
  destruct (bfsRegion_spec (tiles s) (ownedBy (factionId p)) capId)
    as (out & -> & Hout); [by rewrite Hcapt|].
  destruct (bool_decide (targetId ∈ out)) eqn:Hin.
  - apply bool_decide_eq_true in Hin. apply Hout in Hin.
    pose proof (deploy_done s sid now targetId amount tok p l capId V Hcap)
      as Hd.
    rewrite Hcapt in Hd. specialize (Hd (ltac:(eauto)) Hin).
    simpl in Hd. unfold afterDeploy, playerOf in Hd.
    rewrite recalc_players in Hd. simpl in Hd.
    rewrite lookup_insert_eq in Hd. simpl in Hd. exact Hd.
  - apply bool_decide_eq_false in Hin.
    apply (deploy_unconnected s sid now targetId amount tok p l capId V Hcap).
    + rewrite Hcapt. eauto.
    + by rewrite <- Hout.
Qed.

Lemma move_paths s sid now fromId toId amount :
  MovePath s sid now fromId toId amount (move s sid now fromId toId amount).
Proof.
  unfold move, withPlayer.
  destruct (resolve s sid) as [[tok p]|] eqn:Hres; [|by constructor].
  destruct (actionLimiters s !! tok) as [l|] eqn:Hl;
    [|by eapply move_nolimiter].
  destruct (consume l now) as [ok l'] eqn:Hc. cbv beta iota zeta.
  assert (with_limiters (<[tok := l']> (actionLimiters s)) s
          = charged s tok l now) as ->
    by (unfold charged; by rewrite Hc).
  assert (forall P : Prop, ~ P ->
            (forall from to,
               MoveValid s sid now fromId toId amount tok p l from to -> P) ->
            MovePath s sid now fromId toId amount
              (Done (charged s tok l now) [])) as Hdrop.
  { intros P HP HV. eapply move_dropped; eauto. }
  destruct ok.
  2:{ apply (Hdrop (fst (consume l now) = true)); [by rewrite Hc|].
      by intros ?? []. }
  simpl.
  destruct (tiles s !! fromId) as [from|] eqn:Hfrom.
  2:{ apply (Hdrop False); [tauto|]. intros ?? []. congruence. }
  destruct (tiles s !! toId) as [to|] eqn:Hto.
  2:{ apply (Hdrop False); [tauto|]. intros ?? []. congruence. }
  destruct (decide (normAmount amount < 1)).
  { apply (Hdrop (1 <= normAmount amount)); [lia|]. by intros ?? []. }
  destruct (adjacentTo from toId) eqn:Hadj; simpl.
  2:{ apply (Hdrop (adjacentTo from toId = true)); [congruence|].
      intros ?? []. congruence. }
  destruct (decide (ownerFaction from <> factionId p
                    \/ ownerFaction to <> factionId p)) as [Ho|Ho].
  { apply (Hdrop (ownerFaction from = factionId p
                  /\ ownerFaction to = factionId p)); [tauto|].
    intros ?? []. split; congruence. }
  destruct (decide (troopsAt p fromId < normAmount amount)).
  { apply (Hdrop (normAmount amount <= troopsAt p fromId)); [lia|].
    by intros ?? []. }
  assert (MoveValid s sid now fromId toId amount tok p l from to) as V.
  { split; try done; try lia; try (by rewrite Hc).
    - destruct (decide (ownerFaction from = factionId p)); tauto.
    - destruct (decide (ownerFaction to = factionId p)); tauto. }
  pose proof (move_done s sid now fromId toId amount tok p l from to V) as Hd.
  simpl in Hd. unfold afterMove, playerOf in Hd.
  rewrite !recalc_players in Hd. simpl in Hd.
  rewrite lookup_insert_eq in Hd. simpl in Hd. exact Hd.
Qed.

(** * Deployment *)

(** C4 (amended): for a resolved, admitted player whose faction has its
    capital on the map, with [n] the floored amount.  The deploy is carried
    out (a [me_update] is sent) if and only if [1 <= n <= inventory], the
    target tile exists and it is connected to the capital through tiles of
    the player's faction; it then takes [n] from the inventory and adds [n]
    to the player's troops on the target.  A deploy to a tile that is not
    connected is always rejected, leaving tiles and players as they were;
    the "not connected" message is sent exactly when the amount and the tile
    pass the earlier checks, and nothing is sent otherwise. *)
Theorem deploy_characterised (s : State) (sid : SocketId) (now : Z)
    (targetId : TileId) (amount : Q) (tok : Token) (p : Player)
    (l : Limiter) (capId : TileId) :
  resolve s sid = Some (tok, p) ->
  actionLimiters s !! tok = Some l ->
  fst (consume l now) = true ->
  capitalsByFaction s !! factionId p = Some capId ->
  is_Some (tiles s !! capId) ->
  exists s' evs,
    deploy s sid now targetId amount = Done s' evs
    /\ ((exists me, Emit sid (me_update me) ∈ evs) <->
        (1 <= normAmount amount <= inventory p
         /\ is_Some (tiles s !! targetId)
         /\ connected (tiles s) (ownedBy (factionId p)) capId targetId))
    /\ ((exists me, Emit sid (me_update me) ∈ evs) ->
        exists p', players s' !! tok = Some p'
          /\ inventory p' = inventory p - normAmount amount
          /\ troopsAt p' targetId = troopsAt p targetId + normAmount amount)
    /\ (~ connected (tiles s) (ownedBy (factionId p)) capId targetId ->
        players s' = players s /\ tiles s' = tiles s
        /\ (evs = [Emit sid notConnectedMsg] \/ evs = [])
        /\ (evs = [Emit sid notConnectedMsg] <->
            (1 <= normAmount amount <= inventory p
             /\ is_Some (tiles s !! targetId)))).
Proof.
  intros Hres Hl Hadm Hcap Hcapt.
  pose proof (deploy_paths s sid now targetId amount) as H.
  assert (forall me, Emit sid (me_update me) ∉ @nil Event) as Hnil
    by (intros me Hin; by apply elem_of_nil in Hin).
  assert (forall me, Emit sid (me_update me) ∉ [Emit sid notConnectedMsg])
    as Hmsg.
  { intros me Hin. apply list_elem_of_singleton in Hin. discriminate Hin. }
  destruct H as [Hres' | tok' p' Hres' Hl' | tok' p' l' Hres' Hl' Hno
                | tok' p' l' V Hnc | tok' p' l' capId' V Hcap' Hcapt' Hnot
                | tok' p' l' capId' V Hcap' Hcapt' Hconn s'].
  - congruence.
  - congruence.
  - rewrite Hres in Hres'. injection Hres' as <- <-.
    rewrite Hl in Hl'. injection Hl' as <-.
    eexists _, _. split; [done|]. split; [|split].
    + split; [intros [me Hin]; by apply Hnil in Hin|].
      intros ([? ?] & ? & ?). destruct Hno. by split.
    + intros [me Hin]. by apply Hnil in Hin.
    + intros _. do 2 (split; [done|]). split; [by right|].
      split; [done|]. intros ([? ?] & ?). destruct Hno. by split.
  - destruct V as [Hres']. rewrite Hres in Hres'. injection Hres' as <- <-.
    specialize (Hnc _ Hcap). rewrite Hnc in Hcapt. by destruct Hcapt.
  - pose proof V as [Hres' ? ? ? ? ?].
    rewrite Hres in Hres'. injection Hres' as <- <-.
    assert (capId' = capId) as -> by congruence.
    eexists _, _. split; [done|]. split; [|split].
    + split; [intros [me Hin]; by apply Hmsg in Hin|]. tauto.
    + intros [me Hin]. by apply Hmsg in Hin.
    + intros _. do 2 (split; [done|]). split; [by left|].
      split; [|done]. intros _. split; [lia|done].
  - pose proof V as [Hres' Hl' ? ? ? ?].
    rewrite Hres in Hres'. injection Hres' as <- <-.
    assert (capId' = capId) as -> by congruence.
    eexists _, _. split; [done|]. split; [|split].
    + split; [|intros _; eexists; apply elem_of_cons; left; reflexivity].
      intros _. split; [lia|]. by split.
    + intros _. subst s'. unfold afterDeploy. rewrite recalc_players. simpl.
      rewrite lookup_insert_eq. eexists. split; [done|]. simpl.
      split; [done|]. unfold troopsAt at 1. simpl.
      rewrite credit_default. by rewrite decide_True.
    + intros Hnot. by destruct Hnot.
Qed.

Lemma demoStocked_region :
  bfsRegion (0, 0) (tiles demoStocked) (ownedBy "f1") None
  = BfsOut [(0, 0); (1, 0)].
Proof. by_eval. Qed.

Lemma demoStocked_connected k :
  connected (tiles demoStocked) (ownedBy "f1") (0, 0) k
  <-> k ∈ [(0, 0); (1, 0)].
Proof.
  destruct (bfsRegion_spec (tiles demoStocked) (ownedBy "f1") (0, 0))
    as (out & Hout & Hspec); [some_by_eval|].
  rewrite demoStocked_region in Hout. injection Hout as <-.
  by rewrite Hspec.
Qed.

(** alice deploys 5 of her 10 collected troops on [(1,0)], next to her
    capital. *)
Lemma deploy_characterised_witness :
  exists s' evs p',
    deploy demoStocked "a" 0 (1, 0) (5 # 1) = Done s' evs
    /\ players s' !! "t1" = Some p'
    /\ inventory p' = 5
    /\ troopsAt p' (1, 0) = 5.
Proof.
  destruct (deploy_characterised demoStocked "a" 0 (1, 0) (5 # 1) "t1"
              (playerOf demoStocked "t1") (limiterOf demoStocked "t1")
              (0, 0))
    as (s' & evs & Hrun & Hiff & Hdone & _);
    [by_eval|by_eval|by_eval|by_eval|some_by_eval|].
  destruct Hdone as (p' & Hp & Hinv & Htr).
  { apply Hiff. split; [vm_compute; split; discriminate|].
    split; [some_by_eval|].
    apply demoStocked_connected. clear. set_solver. }
  vm_compute in Hinv. vm_compute in Htr.
  exists s', evs, p'. repeat split; assumption.
Defined.

(** C4 (as stated) fails: alice, with 10 troops in her inventory, deploys 20
    on the detached f1 tile [(9,9)].  The request is dropped by the
    inventory check, which comes before the connectivity test, and no
    message is sent. *)
Lemma deploy_unconnected_silently_dropped :
  ~ unconnected_deploy_answered demoStocked "a" 0 (9, 9) (20 # 1).
Proof.
  intros H.
  destruct (deploy demoStocked "a" 0 (9, 9) (20 # 1))
    as [s' evs| |] eqn:Hrun; [|vm_compute in Hrun; discriminate Hrun..].
  destruct (H "t1" (playerOf demoStocked "t1") (limiterOf demoStocked "t1")
              (0, 0) s' evs)
    as (e & He & _); [by_eval|by_eval|by_eval|by_eval| |exact Hrun|].
  { intros Hc%demoStocked_connected. clear -Hc. set_solver. }
  assert (finalEvents (deploy demoStocked "a" 0 (9, 9) (20 # 1)) = [])
    as E by (vm_compute; reflexivity).
  rewrite Hrun in E. simpl in E. subst evs. by apply elem_of_nil in He.
Qed.

(** * Which rejections are reported *)

Lemma AttackValid_inj s sid now fromId targetId amount
    tok p l from target tok' p' l' from' target' :
  AttackValid s sid now fromId targetId amount tok p l from target ->
  AttackValid s sid now fromId targetId amount tok' p' l' from' target' ->
  tok' = tok /\ p' = p /\ l' = l /\ from' = from /\ target' = target.
Proof.
  intros [H1 H2 _ H4 H5 _ _ _ _] [H1' H2' _ H4' H5' _ _ _ _].
  rewrite H1 in H1'. injection H1' as <- <-.
  rewrite H2 in H2'. injection H2' as <-.
  rewrite H4 in H4'. injection H4' as <-.
  rewrite H5 in H5'. injection H5' as <-. done.
Qed.

Lemma DeployValid_inj s sid now targetId amount tok p l tok' p' l' :
  DeployValid s sid now targetId amount tok p l ->
  DeployValid s sid now targetId amount tok' p' l' ->
  tok' = tok /\ p' = p /\ l' = l.
Proof.
  intros [H1 H2 _ _ _ _] [H1' H2' _ _ _ _].
  rewrite H1 in H1'. injection H1' as <- <-.
  rewrite H2 in H2'. injection H2' as <-. done.
Qed.

Lemma no_error_in_nil : ~ has_error_msg [].
Proof. intros (e & He & _). by apply elem_of_nil in He. Qed.

(** C8 (amended): the rejections that are reported.  [attack] sends an
    error message exactly when the request passes every validation and the
    target is a capital; [deploy] exactly when the amount and the tile are
    valid and the target is not connected to the capital.  Every other
    rejected attack or deploy (not adjacent, not enough troops, not enough
    inventory, ...) is dropped without a message.  [move] never sends an
    error message, and a rejected move emits nothing and changes neither
    tiles nor players. *)
Theorem rule_violation_reporting (s : State) (sid : SocketId) (now : Z) :
  (forall fromId targetId amount s' evs,
     attack s sid now fromId targetId amount = Done s' evs ->
     (has_error_msg evs <->
      exists tok p l from target,
        AttackValid s sid now fromId targetId amount tok p l from target
        /\ isCapital target = true))
  /\ (forall targetId amount s' evs,
        deploy s sid now targetId amount = Done s' evs ->
        (has_error_msg evs <->
         exists tok p l capId,
           DeployValid s sid now targetId amount tok p l
           /\ capitalsByFaction s !! factionId p = Some capId
           /\ ~ connected (tiles s) (ownedBy (factionId p)) capId targetId))
  /\ (forall fromId toId amount s' evs,
        move s sid now fromId toId amount = Done s' evs ->
        ~ has_error_msg evs
        /\ ((forall tok p l from to,
               ~ MoveValid s sid now fromId toId amount tok p l from to) ->
            evs = [] /\ tiles s' = tiles s /\ players s' = players s)).
Proof.
  split; [|split].
  - intros fromId targetId amount s' evs Hrun. apply attack_paths in Hrun.
    destruct Hrun as [Hres | tok p l Hres Hl Hno | tok p l from tg V Hcap
                     | tok p l from tg evs V Hcap Hgt Hev Hne
                     | tok p l from tg evs V Hcap Hle Hev].
    + split; [by intros ?%no_error_in_nil|].
      intros (tok & p & l & from & tg & [H' _] & _). congruence.
    + split; [by intros ?%no_error_in_nil|].
      intros (tok' & p' & l' & from & tg & V & _). pose proof V as [H1 H2 _].
      rewrite Hres in H1. injection H1 as <- <-.
      rewrite Hl in H2. injection H2 as <-. by destruct (Hno from tg).
    + split; [eauto 10|]. intros _.
      exists (Emit sid (error_msg "Capitals cannot be conquered.")).
      split; [|reflexivity]. apply elem_of_cons. by left.
    + split.
      * intros (e & He & Herr). rewrite (Hne e He) in Herr. discriminate.
      * intros (tok' & p' & l' & from' & tg' & V' & Hcap').
        destruct (AttackValid_inj _ _ _ _ _ _ _ _ _ _ _ _ _ _ _ _ V V')
          as (_ & _ & _ & _ & ->). congruence.
    + split.
      * intros (e & He & Herr). destruct (Hev e He). congruence.
      * intros (tok' & p' & l' & from' & tg' & V' & Hcap').
        destruct (AttackValid_inj _ _ _ _ _ _ _ _ _ _ _ _ _ _ _ _ V V')
          as (_ & _ & _ & _ & ->). congruence.
  - intros targetId amount s' evs Hrun.
    pose proof (deploy_paths s sid now targetId amount) as H.
    rewrite Hrun in H.
    inversion H as [Hres | | tok p l Hres Hl Hno
                   | | tok p l capId V Hcap Hcapt Hnot
                   | tok p l capId V Hcap Hcapt Hconn s0]; subst.
    + split; [by intros ?%no_error_in_nil|].
      intros (tok & p & l & capId & [H' _] & _). congruence.
    + split; [by intros ?%no_error_in_nil|].
      intros (tok' & p' & l' & capId & V & _). pose proof V as [H1 H2 _].
      rewrite Hres in H1. injection H1 as <- <-.
      rewrite Hl in H2. injection H2 as <-. done.
    + split; [eauto 10|]. intros _. exists (Emit sid notConnectedMsg).
      split; [|reflexivity]. apply elem_of_cons. by left.
    + split.
      * intros (e & He & Herr).
        repeat (apply elem_of_cons in He as [-> | He]; [done|]).
        by apply elem_of_nil in He.
      * intros (tok' & p' & l' & capId' & V' & Hcap' & Hnot).
        destruct (DeployValid_inj _ _ _ _ _ _ _ _ _ _ _ V V')
          as (_ & -> & _).
        rewrite Hcap in Hcap'. injection Hcap' as <-. done.
  - intros fromId toId amount s' evs Hrun.
    pose proof (move_paths s sid now fromId toId amount) as H.
    rewrite Hrun in H.
    inversion H as [Hres | | tok p l Hres Hl Hno
                   | tok p l from to V s0]; subst.
    + split; [apply no_error_in_nil|done].
    + split; [apply no_error_in_nil|done].
    + split.
      * intros (e & He & Herr).
        repeat (apply elem_of_cons in He as [-> | He]; [done|]).
        by apply elem_of_nil in He.
      * intros Hno. by destruct (Hno _ _ _ _ _ V).
Qed.

(** alice's valid attack on bob's capital is the reported case. *)
Lemma rule_violation_reporting_witness :
  has_error_msg
    (finalEvents (attack demoSiege "a" 0 (3, 0) (4, 0) (50 # 1))).
Proof.
  destruct (attack demoSiege "a" 0 (3, 0) (4, 0) (50 # 1))
    as [s' evs| |] eqn:Hrun; [|vm_compute in Hrun; discriminate Hrun..].
  destruct (rule_violation_reporting demoSiege "a" 0) as [Hattack _].
  apply (Hattack _ _ _ _ _ Hrun).
  exists "t1", (playerOf demoSiege "t1"), (limiterOf demoSiege "t1"),
    (tileOf demoSiege (3, 0)), (tileOf demoSiege (4, 0)).
  split; [split|]; try by_eval; vm_compute; discriminate.
Defined.

(** C8 (as stated) fails: alice attacks [(3,0)] from [(1,0)], two tiles
    away.  The request is dropped by the adjacency check and she is told
    nothing. *)
Lemma nonadjacent_attack_silently_dropped :
  ~ nonadjacent_attack_answered demoGarrisoned "a" 0 (1, 0) (3, 0) (10 # 1).
Proof.
  intros H.
  destruct (attack demoGarrisoned "a" 0 (1, 0) (3, 0) (10 # 1))
    as [s' evs| |] eqn:Hrun; [|vm_compute in Hrun; discriminate Hrun..].
  destruct (H "t1" (playerOf demoGarrisoned "t1")
              (limiterOf demoGarrisoned "t1")
              (tileOf demoGarrisoned (1, 0)) (tileOf demoGarrisoned (3, 0))
              s' evs) as (e & He & _);
    [by_eval|by_eval|by_eval|by_eval|by_eval
    |vm_compute; discriminate|by_eval|vm_compute; discriminate
    |by_eval|exact Hrun|].
  assert (finalEvents (attack demoGarrisoned "a" 0 (1, 0) (3, 0) (10 # 1))
          = []) as E by by_eval.
  rewrite Hrun in E. simpl in E. subst evs. by apply elem_of_nil in He.
Qed.

(** * Stored troop entries are positive *)

Lemma all_pos_storeOrDelete k v tr :
  all_pos tr -> all_pos (storeOrDelete k v tr).
Proof.
  intros H. unfold storeOrDelete. case_decide.
  - by apply map_Forall_delete.
  - apply map_Forall_insert_2; [lia|done].
Qed.

Lemma all_pos_default tr k : all_pos tr -> 0 <= default 0 (tr !! k).
Proof.
  intros H. destruct (tr !! k) as [v|] eqn:Hk; simpl; [|lia].
  specialize (H _ _ Hk). simpl in H. lia.
Qed.

Lemma all_pos_credit k n tr : 0 < n -> all_pos tr -> all_pos (credit k n tr).
Proof.
  intros Hn H. unfold credit. apply map_Forall_insert_2; [|done].
  pose proof (all_pos_default tr k H). lia.
Qed.

Lemma troops_positive_players s s' :
  players s' = players s -> troops_positive s -> troops_positive s'.
Proof. unfold troops_positive. by intros ->. Qed.

Lemma troops_positive_update s s' tok p' :
  players s' = <[tok := p']> (players s) ->
  all_pos (troops p') -> troops_positive s -> troops_positive s'.
Proof.
  unfold troops_positive. intros -> Hp H. by apply map_Forall_insert_2.
Qed.

Lemma troops_positive_resolve s sid tok p :
  troops_positive s -> resolve s sid = Some (tok, p) -> all_pos (troops p).
Proof.
  intros H Hres. apply resolve_Some in Hres as (_ & _ & Hp).
  by apply (H _ _ Hp).
Qed.

Lemma attack_troops_positive s sid now fromId targetId amount s' evs :
  troops_positive s ->
  attack s sid now fromId targetId amount = Done s' evs ->
  troops_positive s'.
Proof.
  intros Hinv Hrun. apply attack_paths in Hrun.
  destruct Hrun as [Hres | tok p l Hres Hl _ | tok p l from target V Hcap
                   | tok p l from target evs V Hcap Hgt _ _
                   | tok p l from target evs V Hcap Hle _]; try done.
  - destruct V as [Hres]. unfold afterCapture.
    eapply troops_positive_update; [|shelve|exact Hinv].
    rewrite !recalc_players. reflexivity.
    Unshelve. simpl. apply all_pos_credit; [lia|].
    apply all_pos_storeOrDelete. by eapply troops_positive_resolve.
  - destruct V as [Hres]. unfold afterRepelled.
    eapply troops_positive_update; [|shelve|exact Hinv].
    rewrite !recalc_players. reflexivity.
    Unshelve. simpl.
    apply all_pos_storeOrDelete. by eapply troops_positive_resolve.
Qed.

Lemma deploy_troops_positive s sid now targetId amount s' evs :
  troops_positive s ->
  deploy s sid now targetId amount = Done s' evs ->
  troops_positive s'.
Proof.
  intros Hinv Hrun.
  pose proof (deploy_paths s sid now targetId amount) as H.
  rewrite Hrun in H.
  inversion H as [Hres | | tok p l Hres Hl Hno
                 | | tok p l capId V Hcap Hcapt Hnot
                 | tok p l capId V Hcap Hcapt Hconn s0]; subst; try done.
  destruct V as [Hres ? ? ? ? ?]. subst s0. unfold afterDeploy.
  eapply troops_positive_update; [|shelve|exact Hinv].
  rewrite !recalc_players. reflexivity.
  Unshelve. simpl. apply all_pos_credit; [lia|].
  by eapply troops_positive_resolve.
Qed.

Lemma move_troops_positive s sid now fromId toId amount s' evs :
  troops_positive s ->
  move s sid now fromId toId amount = Done s' evs ->
  troops_positive s'.
Proof.
  intros Hinv Hrun.
  pose proof (move_paths s sid now fromId toId amount) as H.
  rewrite Hrun in H.
  inversion H as [Hres | | tok p l Hres Hl Hno
                 | tok p l from to V s0]; subst; try done.
  destruct V as [Hres ? ? ? ? ? ? ? ? ?]. subst s0. unfold afterMove.
  eapply troops_positive_update; [|shelve|exact Hinv].
  rewrite !recalc_players. reflexivity.
  Unshelve. simpl. apply all_pos_credit; [lia|].
  apply all_pos_storeOrDelete. by eapply troops_positive_resolve.
Qed.

Lemma recruit_collect_troops_positive s sid now s' evs :
  troops_positive s ->
  recruit_collect s sid now = Done s' evs ->
  troops_positive s'.
Proof.
  intros Hinv Hrun. unfold recruit_collect in Hrun.
  apply withPlayer_inv in Hrun
    as [(_ & -> & _) | (tok & p & l & Hres & Hl & H)]; [done|].
  simpl in H. destruct H as [(_ & -> & _) | (_ & H)]; [done|].
  collect_cases H; [|done].
  eapply troops_positive_update; [reflexivity| |exact Hinv].
  simpl. by eapply troops_positive_resolve.
Qed.

Lemma join_troops_positive cfg s sid ip now tok nm fid s' evs :
  0 < START_TROOPS cfg ->
  troops_positive s ->
  join cfg s sid ip now tok nm fid = Done s' evs ->
  troops_positive s'.
Proof.
  intros Hstart Hinv Hrun. unfold join in Hrun.
  destruct (_ || _); [by inversion Hrun; subst|].
  destruct (capitalsByFaction s !! fid) as [capId|]; inversion Hrun; subst.
  - eapply troops_positive_update; [|shelve|exact Hinv].
    simpl. rewrite recalc_players. reflexivity.
    Unshelve. simpl. apply all_pos_credit; [done|]. apply map_Forall_empty.
  - eapply troops_positive_update; [reflexivity| |exact Hinv].
    simpl. apply map_Forall_empty.
Qed.

Lemma tick_troops_positive s s' evs :
  troops_positive s -> tick s = Done s' evs -> troops_positive s'.
Proof.
  intros Hinv Hrun. unfold troops_positive in *.
  eapply (tick_Forall (fun _ p => all_pos (troops p))); [|exact Hinv|exact Hrun].
  intros tok p p' Hp Ht. by destruct (tickPlayer_fields _ _ Ht) as (_ & _ & ->).
Qed.

Lemma step_troops_positive cfg s a s' evs :
  0 < START_TROOPS cfg ->
  troops_positive s ->
  step cfg s a = Done s' evs ->
  troops_positive s'.
Proof.
  intros Hstart Hinv Hrun.
  destruct a as [sid ip|sid|sid now tok nm fid|sid now
                |sid now targetId amount|sid now fromId toId amount
                |sid now fromId targetId amount| |sid ev];
    simpl in Hrun; unfold onSocket in Hrun;
    [destruct (sockets s !! sid) as [ip0|] eqn:Hsock;
     [by inversion Hrun; subst|]
    |destruct (sockets s !! sid) as [ip0|] eqn:Hsock;
     [|by inversion Hrun; subst]..
    |
    |destruct (sockets s !! sid) as [ip0|] eqn:Hsock;
     [discriminate Hrun|by inversion Hrun; subst]].
  - unfold connection in Hrun.
    destruct (if DISABLE_IP_LOCK cfg then _ else _);
      by inversion Hrun; subst.
  - unfold disconnect in Hrun. by inversion Hrun; subst.
  - by eapply join_troops_positive.
  - by eapply recruit_collect_troops_positive.
  - by eapply deploy_troops_positive.
  - by eapply move_troops_positive.
  - by eapply attack_troops_positive.
  - by eapply tick_troops_positive.
Qed.

Lemma stateAfter_reachable cfg l : forall s0 s,
  reachable cfg s0 s -> reachable cfg s0 (stateAfter cfg s l).
Proof.
  induction l as [|a l IH]; intros s0 s Hs; unfold stateAfter; simpl;
    [done|].
  destruct (step cfg s a) as [s1 evs1| |] eqn:Hstep; [|done..].
  specialize (IH s0 s1 (reach_step cfg s0 s a s1 evs1 Hs Hstep)).
  unfold stateAfter in IH.
  destruct (run cfg s1 l) as [s2 evs2| |]; simpl in *; done.
Qed.

Lemma demoGarrisoned_reachable : reachable defaultCfg demoBoot demoGarrisoned.
Proof. apply stateAfter_reachable. constructor. Qed.

(** * The publicTroops cache *)

Lemma sumTroops_insert_fresh ps tok p' k :
  ps !! tok = None ->
  sumTroops (<[tok := p']> ps) k = sumTroops ps k + troopsAt p' k.
Proof.
  intros Hfresh. unfold sumTroops.
  rewrite map_fold_insert_L; [done| |done].
  intros. lia.
Qed.

Lemma sumTroops_insert ps tok p p' k :
  ps !! tok = Some p ->
  sumTroops (<[tok := p']> ps) k
  = sumTroops ps k - troopsAt p k + troopsAt p' k.
Proof.
  intros Hp. rewrite <- (insert_delete_eq ps tok p') .
  rewrite sumTroops_insert_fresh by apply lookup_delete_eq.
  rewrite <- (insert_id ps tok p Hp) at 2.
  rewrite <- (insert_delete_eq ps tok p).
  rewrite sumTroops_insert_fresh by apply lookup_delete_eq. lia.
Qed.

Lemma ok_at_recalc s k k' :
  (k <> k' -> publicTroops_ok_at s k) ->
  publicTroops_ok_at (recalcPublicTroops k' s) k.
Proof.
  intros H t Ht. rewrite recalc_tiles_lookup in Ht. rewrite recalc_players.
  destruct (decide (k' = k)) as [->|Hne].
  - destruct (tiles s !! k); simpl in Ht; [|done]. by injection Ht as <-.
  - apply H; [congruence|done].
Qed.

(** Rewriting one player's record and some tiles keeps the cache right at
    every tile where neither that player's troops nor the cached value
    changed. *)
Lemma ok_at_update s tok p p' ts' k :
  publicTroops_ok_at s k ->
  players s !! tok = Some p ->
  troopsAt p' k = troopsAt p k ->
  (forall t', ts' !! k = Some t' ->
     exists t, tiles s !! k = Some t /\ publicTroops t' = publicTroops t) ->
  publicTroops_ok_at
    (with_players (<[tok := p']> (players s)) (with_tiles ts' s)) k.
Proof.
  intros Hok Hp Htr Hts t' Ht'. simpl in *.
  destruct (Hts t' Ht') as (t & Ht & ->).
  rewrite (sumTroops_insert _ _ p) by done. rewrite (Hok t Ht). lia.
Qed.

Lemma ok_at_same_players s s' k :
  players s' = players s -> tiles s' = tiles s ->
  publicTroops_ok_at s k -> publicTroops_ok_at s' k.
Proof. unfold publicTroops_ok_at. by intros -> ->. Qed.

Lemma attack_publicTroops_ok s sid now fromId targetId amount s' evs :
  publicTroops_ok s ->
  attack s sid now fromId targetId amount = Done s' evs ->
  publicTroops_ok s'.
Proof.
  intros Hok Hrun k. apply attack_paths in Hrun.
  destruct Hrun as [Hres | tok p l Hres Hl _ | tok p l from target V Hcap
                   | tok p l from target evs V Hcap Hgt _ _
                   | tok p l from target evs V Hcap Hle _];
    try exact (Hok k).
  - destruct V as [Hres ? ? ? Htg]. apply resolve_Some in Hres as (_ & _ & Hp).
    unfold afterCapture. apply ok_at_recalc. intros Hk1.
    apply ok_at_recalc. intros Hk2.
    apply (ok_at_update (charged s tok l now) tok p);
    [exact (Hok k)|exact Hp| |]; simpl.
    + unfold troopsAt at 1. simpl. rewrite credit_default.
      rewrite decide_False by done. unfold attackerAfter.
      rewrite storeOrDelete_lookup_ne by done. done.
    + intros t'. rewrite lookup_insert_ne by done. eauto.
  - destruct V as [Hres ? ? ? Htg]. apply resolve_Some in Hres as (_ & _ & Hp).
    unfold afterRepelled. apply ok_at_recalc. intros Hk2.
    apply (ok_at_update (charged s tok l now) tok p);
    [exact (Hok k)|exact Hp| |]; simpl.
    + unfold troopsAt at 1. simpl. unfold attackerAfter.
      rewrite storeOrDelete_lookup_ne by done. done.
    + intros t'. destruct (decide (targetId = k)) as [<-|Hne].
      * rewrite lookup_insert_eq. intros [= <-]. eauto.
      * rewrite lookup_insert_ne by done. eauto.
Qed.

Lemma deploy_publicTroops_ok s sid now targetId amount s' evs :
  publicTroops_ok s ->
  deploy s sid now targetId amount = Done s' evs ->
  publicTroops_ok s'.
Proof.
  intros Hok Hrun k.
  pose proof (deploy_paths s sid now targetId amount) as H.
  rewrite Hrun in H.
  inversion H as [Hres | | tok p l Hres Hl Hno
                 | | tok p l capId V Hcap Hcapt Hnot
                 | tok p l capId V Hcap Hcapt Hconn s0]; subst;
    try exact (Hok k).
  destruct V as [Hres]. apply resolve_Some in Hres as (_ & _ & Hp).
  subst s0. unfold afterDeploy. apply ok_at_recalc. intros Hk.
  change (with_players ?ps (charged s tok l now))
    with (with_players ps (with_tiles (tiles (charged s tok l now))
                             (charged s tok l now))).
  apply (ok_at_update (charged s tok l now) tok p);
    [exact (Hok k)|exact Hp| |]; simpl.
  - unfold troopsAt at 1. simpl. rewrite credit_default.
    by rewrite decide_False.
  - eauto.
Qed.

Lemma move_publicTroops_ok s sid now fromId toId amount s' evs :
  publicTroops_ok s ->
  move s sid now fromId toId amount = Done s' evs ->
  publicTroops_ok s'.
Proof.
  intros Hok Hrun k.
  pose proof (move_paths s sid now fromId toId amount) as H.
  rewrite Hrun in H.
  inversion H as [Hres | | tok p l Hres Hl Hno
                 | tok p l from to V s0]; subst;
    try exact (Hok k).
  destruct V as [Hres]. apply resolve_Some in Hres as (_ & _ & Hp).
  subst s0. unfold afterMove. apply ok_at_recalc. intros Hk1.
  apply ok_at_recalc. intros Hk2.
  change (with_players ?ps (charged s tok l now))
    with (with_players ps (with_tiles (tiles (charged s tok l now))
                             (charged s tok l now))).
  apply (ok_at_update (charged s tok l now) tok p);
    [exact (Hok k)|exact Hp| |]; simpl.
  - unfold troopsAt at 1. simpl. rewrite credit_default.
    rewrite decide_False by done. unfold attackerAfter.
    rewrite storeOrDelete_lookup_ne by done. done.
  - eauto.
Qed.

Lemma sumTroops_fmap f ps k :
  (forall p, troopsAt (f p) k = troopsAt p k) ->
  sumTroops (f <$> ps) k = sumTroops ps k.
Proof.
  intros Hf. induction ps as [|tok p ps Hfresh IH] using map_ind.
  - by rewrite fmap_empty.
  - rewrite fmap_insert.
    rewrite !sumTroops_insert_fresh by (by rewrite ?lookup_fmap, Hfresh).
    by rewrite IH, Hf.
Qed.

Lemma recruit_collect_publicTroops_ok s sid now s' evs :
  publicTroops_ok s ->
  recruit_collect s sid now = Done s' evs ->
  publicTroops_ok s'.
Proof.
  intros Hok Hrun k. unfold recruit_collect in Hrun.
  apply withPlayer_inv in Hrun
    as [(_ & -> & _) | (tok & p & l & Hres & Hl & H)]; [exact (Hok k)|].
  simpl in H. destruct H as [(_ & -> & _) | (_ & H)]; [exact (Hok k)|].
  collect_cases H; [|exact (Hok k)].
  apply resolve_Some in Hres as (_ & _ & Hp).
  fold (charged s tok l now).
  change (with_players ?ps (charged s tok l now))
    with (with_players ps (with_tiles (tiles (charged s tok l now))
                             (charged s tok l now))).
  apply (ok_at_update (charged s tok l now) tok p);
    [exact (Hok k)|exact Hp|reflexivity|]; simpl; eauto.
Qed.

Lemma sumTroops_omap f ps k :
  map_Forall (fun _ p => is_Some (f p)) ps ->
  (forall p p', f p = Some p' -> troopsAt p' k = troopsAt p k) ->
  sumTroops (omap f ps) k = sumTroops ps k.
Proof.
  intros Hall Hf. induction ps as [|tok p ps Hfresh IH] using map_ind.
  - by rewrite omap_empty.
  - apply map_Forall_insert in Hall as [[p' Hp'] Hall]; [|done].
    rewrite (omap_insert_Some _ _ _ _ _ Hp').
    rewrite !sumTroops_insert_fresh by (by rewrite ?lookup_omap, Hfresh).
    by rewrite IH, (Hf _ _ Hp').
Qed.

Lemma tickPlayer_troopsAt p p' k :
  tickPlayer p = Some p' -> troopsAt p' k = troopsAt p k.
Proof.
  intros H. unfold troopsAt.
  by destruct (tickPlayer_fields _ _ H) as (_ & _ & ->).
Qed.

Lemma tick_publicTroops_ok s s' evs :
  publicTroops_ok s -> tick s = Done s' evs -> publicTroops_ok s'.
Proof.
  intros Hok Hrun k t Ht. apply tick_Done in Hrun as [Hall ->]. simpl in *.
  rewrite sumTroops_omap; [by apply Hok|done|].
  intros p p'. apply tickPlayer_troopsAt.
Qed.

(** Every action other than [join] keeps the cache right. *)
Lemma step_publicTroops_ok cfg s a s' evs :
  (forall sid now tok nm fid, a <> Join sid now tok nm fid) ->
  publicTroops_ok s ->
  step cfg s a = Done s' evs ->
  publicTroops_ok s'.
Proof.
  intros Hjoin Hok Hrun.
  destruct a as [sid ip|sid|sid now tok nm fid|sid now
                |sid now targetId amount|sid now fromId toId amount
                |sid now fromId targetId amount| |sid ev];
    simpl in Hrun; unfold onSocket in Hrun;
    [destruct (sockets s !! sid) as [ip0|] eqn:Hsock;
     [by inversion Hrun; subst|]
    |destruct (sockets s !! sid) as [ip0|] eqn:Hsock;
     [|by inversion Hrun; subst]..
    |
    |destruct (sockets s !! sid) as [ip0|] eqn:Hsock;
     [discriminate Hrun|by inversion Hrun; subst]].
  - unfold connection in Hrun.
    destruct (if DISABLE_IP_LOCK cfg then _ else _);
      by inversion Hrun; subst.
  - unfold disconnect in Hrun. by inversion Hrun; subst.
  - by destruct (Hjoin sid now tok nm fid).
  - by eapply recruit_collect_publicTroops_ok.
  - by eapply deploy_publicTroops_ok.
  - by eapply move_publicTroops_ok.
  - by eapply attack_publicTroops_ok.
  - by eapply tick_publicTroops_ok.
Qed.

(** [join] in general: with a right cache before, a fresh token and the
    faction's capital on the map, the capital's cache is short of the sum
    by exactly the starting garrison afterwards. *)
Lemma join_publicTroops_short cfg s sid ip now tok nm fid capId t s' evs :
  publicTroops_ok s ->
  players s !! tok = None ->
  capitalsByFaction s !! fid = Some capId ->
  tiles s !! capId = Some t ->
  join cfg s sid ip now tok nm fid = Done s' evs ->
  evs <> [Emit sid (error_msg "Invalid join payload.")] ->
  exists t', tiles s' !! capId = Some t'
    /\ publicTroops t' = sumTroops (players s') capId - START_TROOPS cfg.
Proof.
  intros Hok Hfresh Hcap Ht Hrun Hevs. unfold join in Hrun.
  destruct (_ || _); [inversion Hrun; subst; done|].
  rewrite Hcap in Hrun. inversion Hrun; subst. simpl.
  rewrite recalc_tiles_lookup, recalc_players, decide_True, Ht by done.
  simpl. eexists. split; [done|]. simpl.
  rewrite sumTroops_insert_fresh by done.
  unfold troopsAt. simpl. rewrite credit_default, decide_True by done.
  rewrite lookup_empty. simpl. lia.
Qed.

(** C2 fails on [join]: the handler recomputes the capital's
    [publicTroops] before the new player is stored in [players], so the
    recomputed sum misses the starting garrison.  On a fresh world, after
    alice's join the capital [(0,0)] still shows [publicTroops = 0] (and
    that value is what the broadcast [tile_update] carries) while the
    players' entries for the tile sum to 100. *)
Theorem join_leaves_publicTroops_stale :
  exists s' evs,
    step defaultCfg demoConnected (Join "a" 0 "t1" "alice" "f1")
      = Done s' evs
    /\ playerTroopsAt s' "t1" (0, 0) = Some 100
    /\ sumTroops (players s') (0, 0) = 100
    /\ tileField publicTroops s' (0, 0) = Some 0
    /\ evs !! 0%nat
       = Some (Broadcast (tile_update (Some (mkTile 0 0 "f1" 100 true))))
    /\ ~ publicTroops_ok s'.
Proof.
  destruct (step defaultCfg demoConnected (Join "a" 0 "t1" "alice" "f1"))
    as [s' evs| |] eqn:Hrun; [|vm_compute in Hrun; discriminate Hrun..].
  assert (finalState
            (step defaultCfg demoConnected (Join "a" 0 "t1" "alice" "f1"))
            ≫= (fun s => Some (playerTroopsAt s "t1" (0, 0),
                               sumTroops (players s) (0, 0),
                               tileField publicTroops s (0, 0)))
          = Some (Some 100, 100, Some 0)) as E by by_eval.
  assert (finalEvents
            (step defaultCfg demoConnected (Join "a" 0 "t1" "alice" "f1"))
            !! 0%nat
          = Some (Broadcast (tile_update (Some (mkTile 0 0 "f1" 100 true)))))
    as E' by by_eval.
  rewrite Hrun in E, E'. simpl in E, E'.
  injection E as E1 E2 E3. exists s', evs.
  split; [reflexivity|]. do 4 (split; [assumption|]).
  intros Hok. unfold tileField in E3.
  destruct (tiles s' !! (0, 0)) as [t|] eqn:Ht; [|discriminate E3].
  simpl in E3. injection E3 as E3.
  specialize (Hok (0, 0) t Ht). rewrite E2, E3 in Hok. discriminate Hok.
Qed.

(** * Origin locking *)

(** The path that does enforce the lock: a new connection from an address
    bound to a live token is told so and disconnected, before any handler is
    registered for it. *)
Lemma connection_locked cfg s sid ip tok :
  DISABLE_IP_LOCK cfg = false ->
  OMap.get ip (ipToToken s) = Some tok ->
  tok <> "" ->
  OMap.has tok (tokenToSocket s) = true ->
  connection cfg s sid ip
  = Done s [Emit sid (session_error
                        "Only one active session per IP is allowed.");
            Kick sid].
Proof.
  intros Hlock Hip Htok Hlive. unfold connection.
  rewrite Hlock, Hip, Hlive. by rewrite bool_decide_eq_false_2.
Qed.

(** C9 fails: [join] itself never looks at the origin.  With the lock
    enabled, two connections from [ip1] are opened before either joins
    (both pass the connection-time test, no token being bound yet).  The
    first joins as alice; its connection stays live and [ip1] is bound to
    her token.  The second then joins as well: no [session_error] is sent
    and a second player record exists for the same origin. *)
Theorem second_join_same_origin_accepted :
  DISABLE_IP_LOCK defaultCfg = false
  /\ sockets demoTwoSockets !! "a" = Some "ip1"
  /\ sockets demoTwoSockets !! "b" = Some "ip1"
  /\ OMap.get "ip1" (ipToToken demoTwoSockets) = Some "t1"
  /\ OMap.get "t1" (tokenToSocket demoTwoSockets) = Some "a"
  /\ exists s' evs,
       step defaultCfg demoTwoSockets (Join "b" 1 "t2" "bob" "f1")
         = Done s' evs
       /\ forallb (fun e => negb (is_session_error e)) evs = true
       /\ (name <$> players s' !! "t1") = Some "alice"
       /\ (name <$> players s' !! "t2") = Some "bob"
       /\ OMap.get "t2" (tokenToSocket s') = Some "b".
Proof.
  do 5 (split; [by_eval|]).
  destruct (step defaultCfg demoTwoSockets (Join "b" 1 "t2" "bob" "f1"))
    as [s' evs| |] eqn:Hrun; [|vm_compute in Hrun; discriminate Hrun..].
  assert (finalState
            (step defaultCfg demoTwoSockets (Join "b" 1 "t2" "bob" "f1"))
            ≫= (fun s => Some (name <$> players s !! "t1",
                               name <$> players s !! "t2",
                               OMap.get "t2" (tokenToSocket s)))
          = Some (Some "alice", Some "bob", Some "b")) as E by by_eval.
  assert (forallb (fun e => negb (is_session_error e))
            (finalEvents
               (step defaultCfg demoTwoSockets (Join "b" 1 "t2" "bob" "f1")))
          = true) as E' by by_eval.
  rewrite Hrun in E, E'. simpl in E, E'.
  injection E as E1 E2 E3. exists s', evs.
  split; [reflexivity|]. repeat split; assumption.
Qed.
(** * Doubles *)

Lemma Double_eq (a b : Double) : dval a = dval b -> a = b.
Proof.
  destruct a as [x Hx], b as [y Hy]. simpl. intros ->.
  f_equal. apply proof_irrel.
Qed.

Lemma toDouble_Some x d : toDouble x = Some d <-> dval d = x.
Proof.
  unfold toDouble. split.
  - destruct (Sumbool.sumbool_of_bool (finiteb x)) as [H|H]; [|done].
    intros [= <-]. done.
  - intros <-. destruct (Sumbool.sumbool_of_bool (finiteb (dval d))) as [H|H].
    + f_equal. by apply Double_eq.
    + rewrite (dok d) in H. done.
Qed.

Lemma toDouble_is_Some x : is_Some (toDouble x) <-> finiteb x = true.
Proof.
  unfold toDouble.
  destruct (Sumbool.sumbool_of_bool (finiteb x)) as [H|H].
  - split; [done|]. by eexists.
  - split; [intros [? ?]; done|]. intros H'. by rewrite H in H'.
Qed.

Lemma orZero_dval d : orZero (dval d) = dval d.
Proof.
  destruct d as [[[]| | |] H]; simpl in *; done.
Qed.

(** ** Comparison *)

Lemma compare_cont_antisym p q c :
  Pos.compare_cont c p q = CompOpp (Pos.compare_cont (CompOpp c) q p).
Proof.
  rewrite (Pos.compare_cont_antisym q p). by rewrite CompOpp_involutive.
Qed.

Lemma SFcompare_antisym x y c :
  SFcompare x y = Some c -> SFcompare y x = Some (CompOpp c).
Proof.
  destruct x as [sx|sx| |sx mx ex], y as [sy|sy| |sy my ey]; simpl;
    try done; intros [= <-]; try (by destruct sx); try (by destruct sy);
    try (by destruct sx, sy).
  destruct sx, sy; try done.
  - rewrite (Z.compare_antisym ex ey). destruct (ex ?= ey) eqn:E; simpl; try done.
    rewrite Pos.compare_cont_antisym, ?CompOpp_involutive. reflexivity.
  - rewrite (Z.compare_antisym ex ey). destruct (ex ?= ey) eqn:E; simpl; try done.
    rewrite Pos.compare_cont_antisym, ?CompOpp_involutive. reflexivity.
Qed.

Lemma SFcompare_refl x : x <> S754_nan -> SFcompare x x = Some Eq.
Proof.
  destruct x as [s|s| |s m e]; simpl; try done; intros _.
  - by destruct s.
  - rewrite Z.compare_refl.
    assert (Pos.compare_cont Eq m m = Eq) as -> by apply Pos.compare_refl.
    by destruct s.
Qed.

Lemma SFcompare_not_nan_l x y c : SFcompare x y = Some c -> x <> S754_nan.
Proof. by destruct x. Qed.

Lemma SFcompare_not_nan_r x y c : SFcompare x y = Some c -> y <> S754_nan.
Proof. by destruct x, y. Qed.

Lemma Math_min_cases a b :
  Math_min a b = S754_nan
  \/ (Math_min a b = a /\ SFleb a b = true /\ SFleb a a = true)
  \/ (Math_min a b = b /\ SFleb b a = true).
Proof.
  unfold Math_min, SFleb. destruct (SFcompare a b) as [c|] eqn:E; [|by left].
  pose proof (SFcompare_antisym _ _ _ E) as E'.
  pose proof (SFcompare_refl a (SFcompare_not_nan_l _ _ _ E)) as Ea.
  destruct c; simpl in E'.
  - right. assert (a = S754_zero true \/ a <> S754_zero true) as [->|Hne].
    { destruct a as [[]| | |]; auto. }
    + left. done.
    + right. rewrite E'. split; [|done]. by destruct a as [[]| | |].
  - right. left. by rewrite Ea.
  - right. right. by rewrite E'.
Qed.

Lemma Math_min_idemp a b : Math_min a (Math_min a b) = Math_min a b.
Proof.
  unfold Math_min at 2. destruct (SFcompare a b) as [c|] eqn:E.
  - pose proof (SFcompare_refl a (SFcompare_not_nan_l _ _ _ E)) as Ea.
    destruct c.
    + destruct a as [[]| | |]; unfold Math_min; rewrite ?Ea, ?E; try done.
    + unfold Math_min. rewrite Ea, E. by destruct a as [[]| | |].
    + unfold Math_min. by rewrite E.
  - unfold Math_min. rewrite E. by destruct a.
Qed.

Lemma Math_max_cases a b :
  Math_max a b = S754_nan
  \/ (Math_max a b = a /\ SFleb b a = true)
  \/ (Math_max a b = b /\ SFleb a b = true).
Proof.
  unfold Math_max, SFleb. destruct (SFcompare a b) as [c|] eqn:E; [|by left].
  pose proof (SFcompare_antisym _ _ _ E) as E'.
  destruct c; simpl in E'.
  - right.
    assert (a = S754_zero false \/ a <> S754_zero false) as [->|Hne].
    { destruct a as [[]| | |]; auto. }
    + left. by rewrite E'.
    + right. split; [|done]. by destruct a as [[]| | |].
  - right. by right.
  - right. left. by rewrite E'.
Qed.

(** ** Digits *)

Lemma digits2_size p : digits2_pos p = Pos.size p.
Proof. induction p; simpl; congruence. Qed.

Lemma Zdigits2_log2 p : Zdigits2 (Zpos p) = Z.log2 (Zpos p) + 1.
Proof.
  simpl. rewrite digits2_size. destruct p; simpl; lia.
Qed.

Lemma Zdigits2_bounds p :
  2 ^ (Zdigits2 (Zpos p) - 1) <= Zpos p < 2 ^ Zdigits2 (Zpos p).
Proof.
  rewrite Zdigits2_log2. replace (Z.log2 (Z.pos p) + 1 - 1) with (Z.log2 (Z.pos p)) by lia.
  apply Z.log2_spec. lia.
Qed.

Lemma Zdigits2_unique m d :
  0 < m -> 2 ^ (d - 1) <= m < 2 ^ d -> Zdigits2 m = d.
Proof.
  intros Hm H. destruct m as [|p|p]; try lia.
  rewrite Zdigits2_log2.
  assert (0 < d).
  { destruct (Z.le_gt_cases d 0) as [Hd|]; [|done].
    assert (2 ^ d <= 2 ^ 0) by (apply Z.pow_le_mono_r; lia).
    change (2 ^ 0) with 1 in *. lia. }
  rewrite (Z.log2_unique (Zpos p) (d - 1)); [lia|lia|].
  replace (Z.succ (d - 1)) with d by lia. done.
Qed.

Lemma Zdigits2_nonneg m : 0 <= Zdigits2 m.
Proof. destruct m; simpl; lia. Qed.

Lemma Zdigits2_pos_pos p : 0 < Zdigits2 (Zpos p).
Proof. simpl; lia. Qed.

(** ** Shifts *)

Lemma iter_pos_iter {A} (f : A -> A) p x :
  SpecFloat.iter_pos f p x = Pos.iter f x p.
Proof.
  revert x. induction p as [p IH|p IH|]; intros x; simpl.
  - rewrite !IH, !Pos.iter_swap. done.
  - by rewrite !IH.
  - done.
Qed.

Lemma iter_xO m d : Zpos (Pos.iter xO m d) = Zpos m * 2 ^ Zpos d.
Proof.
  induction d as [|d IH] using Pos.peano_ind.
  - simpl. lia.
  - rewrite Pos.iter_succ, Pos2Z.inj_succ, Z.pow_succ_r by lia.
    rewrite Pos2Z.inj_xO, IH. lia.
Qed.

Lemma shl_align_spec mx ex ex' :
  let r := shl_align mx ex ex' in
  snd r = Z.min ex ex' /\ Zpos (fst r) = Zpos mx * 2 ^ (ex - snd r).
Proof.
  unfold shl_align. destruct (ex' - ex) as [|d|d] eqn:E; simpl.
  - split; [lia|]. replace (ex - ex) with 0 by lia. lia.
  - split; [lia|]. replace (ex - ex) with 0 by lia. lia.
  - split; [lia|]. rewrite iter_xO. f_equal. f_equal. lia.
Qed.

Lemma fexp_eq z : fexp prec emax z = Z.max (z - 53) (-1074).
Proof. reflexivity. Qed.

Lemma Zdigits2_Z m : 0 < m -> Zdigits2 m = Z.log2 m + 1.
Proof. destruct m; try lia. intros _. apply Zdigits2_log2. Qed.

Lemma Zdigits2_mul_pow2 m k :
  0 < m -> 0 <= k -> Zdigits2 (m * 2 ^ k) = Zdigits2 m + k.
Proof.
  intros Hm Hk. rewrite !Zdigits2_Z; [|lia|].
  - rewrite Z.log2_mul_pow2 by lia. lia.
  - apply Z.mul_pos_pos; [done|]. by apply Z.pow_pos_nonneg.
Qed.

Lemma Zdigits2_div_pow2 m k :
  0 < m -> 0 <= k ->
  (m / 2 ^ k = 0 /\ Zdigits2 m <= k)
  \/ (0 < m / 2 ^ k /\ Zdigits2 (m / 2 ^ k) = Zdigits2 m - k).
Proof.
  intros Hm Hk. rewrite <- Z.shiftr_div_pow2 by done.
  destruct (Z.eq_dec (Z.shiftr m k) 0) as [E|E].
  - left. split; [done|]. apply Z.shiftr_eq_0_iff in E as [|[_ E]]; [lia|].
    rewrite Zdigits2_Z by done. lia.
  - right. assert (0 <= Z.shiftr m k) by (apply Z.shiftr_nonneg; lia).
    split; [lia|]. rewrite !Zdigits2_Z by lia.
    rewrite Z.log2_shiftr by done.
    assert (~ Z.log2 m < k).
    { intros Hlt. apply E, Z.shiftr_eq_0; lia. }
    lia.
Qed.

Lemma Zdigits2_succ m :
  0 < m ->
  Zdigits2 (m + 1) = Zdigits2 m
  \/ (Zdigits2 (m + 1) = Zdigits2 m + 1 /\ m + 1 = 2 ^ Zdigits2 m).
Proof.
  intros Hm. rewrite !Zdigits2_Z by lia.
  change (m + 1) with (Z.succ m).
  destruct (Z.log2_succ_or m) as [E|E]; [|left; lia].
  right. split; [lia|].
  destruct (Z.log2_eq_succ_is_pow2 _ E) as [b Hb].
  assert (0 <= b).
  { destruct (Z.le_gt_cases 0 b); [done|].
    rewrite Z.pow_neg_r in Hb by done. lia. }
  rewrite Hb in E. rewrite Z.log2_pow2 in E by done.
  rewrite Hb. f_equal. lia.
Qed.

(** ** Right shifts *)

Lemma shr_1_m mrs : 0 <= shr_m mrs -> shr_m (shr_1 mrs) = Z.div2 (shr_m mrs).
Proof.
  destruct mrs as [m r s]. simpl. intros Hm.
  destruct m as [|[p|p|]|p]; simpl; try done; lia.
Qed.

Lemma iter_shr_1_m n mrs :
  0 <= shr_m mrs ->
  shr_m (Pos.iter shr_1 mrs n) = shr_m mrs / 2 ^ Zpos n.
Proof.
  intros Hm. induction n as [|n IH] using Pos.peano_ind.
  - simpl. rewrite shr_1_m by done. rewrite Z.div2_div. done.
  - rewrite Pos.iter_succ, shr_1_m.
    + rewrite IH, Z.div2_div, Pos2Z.inj_succ, Z.pow_succ_r by lia.
      rewrite Z.div_div by (try apply Z.pow_pos_nonneg; lia).
      f_equal. lia.
    + rewrite IH. apply Z.div_pos; [done|]. apply Z.pow_pos_nonneg; lia.
Qed.

Lemma shr_spec mrs e n :
  0 <= shr_m mrs ->
  shr_m (fst (shr mrs e n)) = shr_m mrs / 2 ^ Z.max 0 n
  /\ snd (shr mrs e n) = e + Z.max 0 n.
Proof.
  intros Hm. destruct n as [|n|n]; simpl.
  - rewrite Z.div_1_r. split; [done|lia].
  - rewrite iter_pos_iter, iter_shr_1_m by done. done.
  - rewrite Z.div_1_r. split; [done|lia].
Qed.

Lemma shr_0 mrs e n : n <= 0 -> shr mrs e n = (mrs, e).
Proof. by destruct n. Qed.

Lemma shr_1_exact m :
  0 <= m ->
  shr_1 {| shr_m := 2 * m; shr_r := false; shr_s := false |}
  = {| shr_m := m; shr_r := false; shr_s := false |}.
Proof. destruct m as [|p|p]; simpl; try done; lia. Qed.

Lemma iter_shr_1_exact n m :
  0 <= m ->
  Pos.iter shr_1 {| shr_m := m * 2 ^ Zpos n; shr_r := false; shr_s := false |} n
  = {| shr_m := m; shr_r := false; shr_s := false |}.
Proof.
  intros Hm. revert m Hm. induction n as [|n IH] using Pos.peano_ind; intros m Hm.
  - simpl. replace (m * 2 ^ 1) with (2 * m) by lia. by apply shr_1_exact.
  - rewrite Pos.iter_succ_r.
    rewrite Pos2Z.inj_succ, Z.pow_succ_r by lia.
    replace (m * (2 * 2 ^ Z.pos n)) with (2 * (m * 2 ^ Z.pos n)) by lia.
    rewrite shr_1_exact; [by apply IH|].
    apply Z.mul_nonneg_nonneg; [done|]. apply Z.pow_nonneg. lia.
Qed.

(** ** Rounding *)

Lemma round_nearest_even_cases m l :
  round_nearest_even m l = m \/ round_nearest_even m l = m + 1.
Proof.
  destruct l as [|[]]; simpl; auto. destruct (Z.even m); auto.
Qed.

Lemma binary_round_aux_sign sx m e l :
  match binary_round_aux prec emax sx m e l with
  | S754_zero s | S754_infinity s | S754_finite s _ _ => s = sx
  | S754_nan => True
  end.
Proof.
  unfold binary_round_aux.
  destruct (shr_fexp prec emax m e l) as [mrs' e'].
  destruct (shr_fexp _ _ _ e' _) as [mrs'' e''].
  destruct (shr_m mrs''); [done| |done].
  by destruct (e'' <=? emax - prec).
Qed.

Lemma binary_round_aux_exact sx m e :
  fexp prec emax (Zdigits2 (Zpos m) + e) = e -> e <= emax - prec ->
  binary_round_aux prec emax sx (Zpos m) e loc_Exact = S754_finite sx m e.
Proof.
  intros Hc He. unfold binary_round_aux, shr_fexp.
  rewrite Hc, Z.sub_diag. simpl shr. cbn [shr_m loc_of_shr_record round_nearest_even].
  rewrite Hc, Z.sub_diag. simpl shr. cbn [shr_m].
  by rewrite (proj2 (Z.leb_le _ _) He).
Qed.

Lemma binary_round_exact sx mx ex :
  let f := fexp prec emax (Zdigits2 (Zpos mx) + ex) in
  f <= ex -> f <= emax - prec ->
  exists mz, binary_round prec emax sx mx ex = S754_finite sx mz f
             /\ Zpos mz = Zpos mx * 2 ^ (ex - f).
Proof.
  intros f Hf Hr. unfold binary_round.
  change (Z.pos (digits2_pos mx)) with (Zdigits2 (Zpos mx)). fold f.
  pose proof (shl_align_spec mx ex f) as [H1 H2].
  destruct (shl_align mx ex f) as [mz ez]. simpl in H1, H2.
  assert (ez = f) as -> by lia. exists mz. split; [|done].
  apply binary_round_aux_exact; [|done].
  rewrite H2, Zdigits2_mul_pow2 by lia.
  replace (Zdigits2 (Z.pos mx) + (ex - f) + f) with (Zdigits2 (Z.pos mx) + ex) by lia.
  done.
Qed.

Lemma pow2_div2 d : 1 <= d -> 2 ^ d / 2 ^ 1 = 2 ^ (d - 1).
Proof.
  intros Hd. replace d with (1 + (d - 1)) at 1 by lia.
  rewrite Z.pow_add_r by lia. rewrite Z.mul_comm, Z.div_mul by lia. done.
Qed.

Lemma Zdigits2_pow2 d : 0 <= d -> Zdigits2 (2 ^ d) = d + 1.
Proof.
  intros Hd. rewrite Zdigits2_Z by (apply Z.pow_pos_nonneg; lia).
  by rewrite Z.log2_pow2.
Qed.

Lemma round_phase2 D f m1 m2 :
  f = fexp prec emax D ->
  (m1 = 0 /\ D <= f) \/ (0 < m1 /\ Zdigits2 m1 = D - f) ->
  m2 = m1 \/ m2 = m1 + 1 ->
  let r := shr {| shr_m := m2; shr_r := false; shr_s := false |} f
               (fexp prec emax (Zdigits2 m2 + f) - f) in
  0 <= shr_m (fst r)
  /\ forall m, shr_m (fst r) = Zpos m ->
       fexp prec emax (Zdigits2 (Zpos m) + snd r) = snd r.
Proof.
  intros Hf H1 H2 r.
  assert (0 <= m2) as Hm2 by lia.
  pose proof (shr_spec {| shr_m := m2; shr_r := false; shr_s := false |} f
                (fexp prec emax (Zdigits2 m2 + f) - f) Hm2) as [Hm He].
  fold r in Hm, He. cbn [shr_m] in Hm.
  rewrite !fexp_eq in *. clearbody r.
  remember (Z.max (Zdigits2 m2 + f - 53) (-1074) - f) as n2 eqn:En2.
  split.
  { rewrite Hm. apply Z.div_pos; [done|]. apply Z.pow_pos_nonneg; lia. }
  intros m Hpos. rewrite He, fexp_eq. rewrite Hm in Hpos. clear Hm He.
  assert (m2 <> 0) as Hnz.
  { intros ->. rewrite Z.div_0_l in Hpos; [done|].
    apply Z.pow_nonzero; lia. }
  assert (n2 <= 0 -> m2 = Zpos m) as Hcase0.
  { intros Hn. replace (Z.max 0 n2) with 0 in Hpos by lia.
    by rewrite Z.div_1_r in Hpos. }
  destruct H1 as [[Hz HDf]|[Hpos1 Hd1]]; [subst m1|].
  - (* deep underflow: the mantissa is 1 *)
    destruct H2 as [-> | ->]; [done|]. change (Zdigits2 (0 + 1)) with 1 in En2.
    assert (n2 <= 0) as Hn by lia. rewrite <- (Hcase0 Hn).
    change (Zdigits2 (0 + 1)) with 1. lia.
  - destruct H2 as [-> | ->].
    + (* no carry *)
      rewrite Hd1 in En2.
      assert (n2 <= 0) as Hn by lia. rewrite <- (Hcase0 Hn). lia.
    + destruct (Zdigits2_succ m1 Hpos1) as [Hs|[Hs Hp]].
      * rewrite Hs, Hd1 in En2.
        assert (n2 <= 0) as Hn by lia. rewrite <- (Hcase0 Hn), Hs. lia.
      * rewrite Hs, Hd1 in En2.
        assert (1 <= D - f).
        { rewrite <- Hd1. rewrite Zdigits2_Z by done.
          pose proof (Z.log2_nonneg m1). lia. }
        destruct (Z.le_gt_cases n2 0) as [Hn|Hn].
        -- rewrite <- (Hcase0 Hn), Hs, Hd1. lia.
        -- assert (n2 = 1) as E1 by lia.
           rewrite E1 in *. change (Z.max 0 1) with 1 in *.
           rewrite Hp, Hd1, pow2_div2 in Hpos by lia.
           rewrite <- Hpos, Zdigits2_pow2 by lia. lia.
Qed.

Lemma binary_round_aux_valid sx mx ex lx :
  0 <= mx -> ex <= fexp prec emax (Zdigits2 mx + ex) ->
  match binary_round_aux prec emax sx mx ex lx with
  | S754_finite s m e => s = sx /\ bounded prec emax m e = true
  | S754_nan => False
  | S754_zero s | S754_infinity s => s = sx
  end.
Proof.
  intros Hmx Hn. unfold binary_round_aux.
  set (D := Zdigits2 mx + ex). set (f := fexp prec emax D).
  unfold shr_fexp at 1. fold D. fold f.
  assert (0 <= shr_m (shr_record_of_loc mx lx)) as H0.
  { by destruct lx as [|[]]. }
  pose proof (shr_spec (shr_record_of_loc mx lx) ex (f - ex) H0) as [Hm He].
  destruct (shr (shr_record_of_loc mx lx) ex (f - ex)) as [mrs' e'].
  simpl in Hm, He.
  assert (shr_m (shr_record_of_loc mx lx) = mx) as Emx by (by destruct lx as [|[]]).
  rewrite Emx in Hm. subst D.
  assert (e' = f) as -> by lia.
  set (m1 := shr_m mrs') in *.
  assert ((m1 = 0 /\ Zdigits2 mx + ex <= f)
          \/ (0 < m1 /\ Zdigits2 m1 = Zdigits2 mx + ex - f)) as H1.
  { rewrite Hm. replace (Z.max 0 (f - ex)) with (f - ex) by lia.
    destruct (Z.eq_dec mx 0) as [->|Hnz].
    - left. rewrite Z.div_0_l by (apply Z.pow_nonzero; lia). simpl in *. done.
    - destruct (Zdigits2_div_pow2 mx (f - ex)) as [[E Hd]|[E Hd]]; [lia|lia| |].
      + left. split; [done|lia].
      + right. split; [done|]. rewrite Hd. lia. }
  pose proof (round_nearest_even_cases m1 (loc_of_shr_record mrs')) as H2.
  set (m2 := round_nearest_even m1 (loc_of_shr_record mrs')) in *.
  pose proof (round_phase2 (Zdigits2 mx + ex) f m1 m2 eq_refl H1 H2) as [Hnn Hcan].
  unfold shr_fexp. cbn [shr_record_of_loc].
  destruct (shr {| shr_m := m2; shr_r := false; shr_s := false |} f
              (fexp prec emax (Zdigits2 m2 + f) - f)) as [mrs'' e''].
  simpl in Hnn, Hcan.
  destruct (shr_m mrs'') as [|m|m] eqn:E3; [done| |lia].
  destruct (e'' <=? emax - prec) eqn:Ele; [|done].
  split; [done|]. unfold bounded, canonical_mantissa.
  rewrite Ele, andb_true_r. apply Z.eqb_eq. by apply Hcan.
Qed.

Lemma binary_round_valid sx mx ex :
  match binary_round prec emax sx mx ex with
  | S754_finite s m e => s = sx /\ bounded prec emax m e = true
  | S754_nan => False
  | S754_zero s | S754_infinity s => s = sx
  end.
Proof.
  unfold binary_round.
  change (Z.pos (digits2_pos mx)) with (Zdigits2 (Zpos mx)).
  set (f := fexp prec emax (Zdigits2 (Zpos mx) + ex)).
  pose proof (shl_align_spec mx ex f) as [H1 H2].
  destruct (shl_align mx ex f) as [mz ez]. simpl in H1, H2.
  apply binary_round_aux_valid; [lia|].
  rewrite H2, Zdigits2_mul_pow2 by lia.
  replace (Zdigits2 (Z.pos mx) + (ex - ez) + ez) with (Zdigits2 (Z.pos mx) + ex) by lia.
  fold f. lia.
Qed.

Lemma nonneg_leb x : SFleb (S754_zero false) x = true <-> nonneg x.
Proof. destruct x as [s|[]| |[] m e]; simpl; unfold SFleb; simpl; done. Qed.

Lemma binary_normalize_wf m e :
  wf (binary_normalize prec emax m e false)
  /\ binary_normalize prec emax m e false <> S754_nan.
Proof.
  unfold binary_normalize, wf. destruct m as [|p|p]; [done| |].
  - pose proof (binary_round_valid false p e) as H.
    destruct (binary_round prec emax false p e) as [s|s| |s m' e'];
      try done. by destruct H as [-> H].
  - pose proof (binary_round_valid true p e) as H.
    destruct (binary_round prec emax true p e) as [s|s| |s m' e'];
      try done. by destruct H as [-> H].
Qed.

Lemma binary_normalize_nonneg m e :
  0 <= m ->
  nonneg (binary_normalize prec emax m e false)
  /\ binary_normalize prec emax m e false <> S754_zero true.
Proof.
  unfold binary_normalize. destruct m as [|p|p]; [done| |lia]. intros _.
  pose proof (binary_round_valid false p e) as H.
  destruct (binary_round prec emax false p e) as [s|s| |s m' e'];
    try done; try (by subst). by destruct H as [-> _].
Qed.

Lemma wf_finiteb x :
  finiteb x = true
  <-> wf x /\ x <> S754_nan /\ x <> S754_zero true
      /\ forall s, x <> S754_infinity s.
Proof.
  unfold wf. destruct x as [[]|s| |s m e]; simpl; split; try done;
    try (by intros (? & ? & ? & ?)).
  intros (_ & _ & _ & H). by destruct (H s).
Qed.

Lemma dval_wf d : wf (dval d).
Proof. by apply (wf_finiteb (dval d)), dok. Qed.

(** ** Addition and subtraction *)

Lemma SFadd_wf x y :
  wf x -> wf y -> wf (SFadd prec emax x y).
Proof.
  intros Hx Hy.
  destruct x as [sx|sx| |sx mx ex], y as [sy|sy| |sy my ey]; simpl; try done.
  - by destruct sx, sy.
  - by destruct sx, sy.
  - apply binary_normalize_wf.
Qed.

Lemma SFsub_wf x y :
  wf x -> wf y -> wf (SFsub prec emax x y).
Proof.
  intros Hx Hy.
  destruct x as [sx|sx| |sx mx ex], y as [sy|sy| |sy my ey]; simpl; try done.
  - by destruct sx, sy.
  - by destruct sx, sy.
  - apply binary_normalize_wf.
Qed.

Lemma SFadd_finite sx mx ex sy my ey :
  SFadd prec emax (S754_finite sx mx ex) (S754_finite sy my ey)
  = binary_normalize prec emax
      (cond_Zopp sx (Zpos (fst (shl_align mx ex (Z.min ex ey))))
       + cond_Zopp sy (Zpos (fst (shl_align my ey (Z.min ex ey)))))
      (Z.min ex ey) false.
Proof. reflexivity. Qed.

Lemma SFsub_finite sx mx ex sy my ey :
  SFsub prec emax (S754_finite sx mx ex) (S754_finite sy my ey)
  = binary_normalize prec emax
      (cond_Zopp sx (Zpos (fst (shl_align mx ex (Z.min ex ey))))
       - cond_Zopp sy (Zpos (fst (shl_align my ey (Z.min ex ey)))))
      (Z.min ex ey) false.
Proof. reflexivity. Qed.

Lemma SFadd_nonneg x y :
  nonneg x -> nonneg y -> x <> S754_zero true ->
  nonneg (SFadd prec emax x y)
  /\ SFadd prec emax x y <> S754_nan
  /\ SFadd prec emax x y <> S754_zero true.
Proof.
  intros Hx Hy Hz.
  destruct x as [[]|[]| |[] mx ex], y as [sy|[]| |[] my ey];
    try done; try (by destruct sy).
  rewrite SFadd_finite. cbn [cond_Zopp].
  pose proof (binary_normalize_nonneg
      (Z.pos (shl_align mx ex (Z.min ex ey)).1 + Z.pos (shl_align my ey (Z.min ex ey)).1)
      (Z.min ex ey)) as [H1 H2]; [lia|].
  split; [done|]. split; [|done]. apply binary_normalize_wf.
Qed.

(** ** Division *)

Lemma Zdigits2_le a b : 0 <= a <= b -> Zdigits2 a <= Zdigits2 b.
Proof.
  intros H. destruct (Z.eq_dec a 0) as [->|Ha].
  - apply Zdigits2_nonneg.
  - rewrite !Zdigits2_Z by lia. pose proof (Z.log2_le_mono a b). lia.
Qed.

Lemma fexp_mono a b : a <= b -> fexp prec emax a <= fexp prec emax b.
Proof. rewrite !fexp_eq. lia. Qed.

Lemma SFdiv_core_cond m1 e1 m2 e2 :
  0 < m1 -> 0 < m2 ->
  let '(q, e', l) := SFdiv_core_binary prec emax m1 e1 m2 e2 in
  0 <= q /\ e' <= fexp prec emax (Zdigits2 q + e').
Proof.
  intros H1 H2. unfold SFdiv_core_binary.
  set (d1 := Zdigits2 m1). set (d2 := Zdigits2 m2).
  set (e' := Z.min (fexp prec emax (d1 + e1 - (d2 + e2))) (e1 - e2)).
  set (s := e1 - e2 - e').
  assert (0 <= s) by (unfold s, e'; lia).
  set (m' := match s with Z.pos _ => Z.shiftl m1 s | 0 => m1 | Z.neg _ => 0 end).
  assert (m' = m1 * 2 ^ s) as Em'.
  { unfold m'. destruct s as [|p|p] eqn:Es; [lia| |lia].
    rewrite Z.shiftl_mul_pow2 by lia. done. }
  pose proof (Z.div_eucl_eq m' m2 ltac:(lia)) as Hdiv.
  pose proof (Z.mod_pos_bound m' m2 H2) as Hmod.
  unfold Z.modulo in Hmod.
  destruct (Z.div_eucl m' m2) as [q r]. 
  assert (0 < m') as Hm'.
  { rewrite Em'. apply Z.mul_pos_pos; [done|]. apply Z.pow_pos_nonneg; lia. }
  assert (0 <= q) as Hq by nia.
  split; [done|].
  assert (Zdigits2 m' = d1 + s) as Hdm'.
  { rewrite Em'. by apply Zdigits2_mul_pow2. }
  destruct (Z.le_gt_cases (d1 + s) d2) as [Hsmall|Hbig].
  - (* the quotient may have no digit at all *)
    pose proof (Zdigits2_nonneg q).
    pose proof (fexp_eq (d1 + e1 - (d2 + e2))) as F1.
    pose proof (fexp_eq (Zdigits2 q + e')) as F2.
    unfold e', s in *. lia.
  - (* the quotient has at least [d1 + s - d2] digits *)
    assert (d1 + s - d2 <= Zdigits2 q) as Hdq.
    { pose proof (Zdigits2_nonneg m2).
      destruct m2 as [|p2|p2]; try lia. destruct m' as [|p'|p']; try lia.
      pose proof (Zdigits2_bounds p2) as B2. pose proof (Zdigits2_bounds p') as B'.
      fold d2 in B2. rewrite Hdm' in B'.
      assert (2 ^ (d1 + s - 1) < (q + 1) * 2 ^ d2) as Hlt by nia.
      destruct (Z.le_gt_cases (d1 + s - d2) (Zdigits2 q)) as [|Hc]; [done|].
      exfalso. assert (q + 1 <= 2 ^ Zdigits2 q).
      { destruct q as [|pq|pq]; [simpl; lia| |lia].
        pose proof (Zdigits2_bounds pq). lia. }
      assert (2 ^ Zdigits2 q * 2 ^ d2 <= 2 ^ (d1 + s - 1)).
      { rewrite <- Z.pow_add_r by (try apply Zdigits2_nonneg; unfold d2; simpl; lia).
        apply Z.pow_le_mono_r; [lia|]. lia. }
      assert (0 < 2 ^ d2) by (apply Z.pow_pos_nonneg; unfold d2; simpl; lia).
      nia. }
    apply Z.le_trans with (fexp prec emax (d1 + e1 - (d2 + e2))).
    + unfold e'. lia.
    + apply fexp_mono. unfold s in *. lia.
Qed.

Lemma SFdiv_wf x y : wf (SFdiv prec emax x y) .
Proof.
  destruct x as [sx|sx| |sx mx ex], y as [sy|sy| |sy my ey]; simpl; try done.
  pose proof (SFdiv_core_cond (Zpos mx) ex (Zpos my) ey ltac:(lia) ltac:(lia)) as H.
  destruct (SFdiv_core_binary prec emax (Z.pos mx) ex (Z.pos my) ey) as [[q e'] l].
  destruct H as [Hq He].
  pose proof (binary_round_aux_valid (xorb sx sy) q e' l Hq He) as H.
  unfold wf. destruct (binary_round_aux _ _ _ _ _ _); try done. by destruct H.
Qed.

Lemma bounded_inv m e :
  bounded prec emax m e = true ->
  fexp prec emax (Zdigits2 (Zpos m) + e) = e /\ e <= emax - prec.
Proof.
  unfold bounded, canonical_mantissa. intros H.
  apply andb_true_iff in H as [H1 H2].
  apply Z.eqb_eq in H1. apply Z.leb_le in H2. done.
Qed.

Lemma binary_round_aux_shift sx m e k :
  0 <= k ->
  fexp prec emax (Zdigits2 (Zpos m) + e) = e -> e <= emax - prec ->
  binary_round_aux prec emax sx (Zpos m * 2 ^ k) (e - k) loc_Exact
  = S754_finite sx m e.
Proof.
  intros Hk Hc He. unfold binary_round_aux, shr_fexp.
  rewrite Zdigits2_mul_pow2 by lia.
  replace (Zdigits2 (Z.pos m) + k + (e - k)) with (Zdigits2 (Z.pos m) + e) by lia.
  rewrite Hc. replace (e - (e - k)) with k by lia.
  cbn [shr_record_of_loc].
  assert (shr {| shr_m := Z.pos m * 2 ^ k; shr_r := false; shr_s := false |}
              (e - k) k
          = ({| shr_m := Z.pos m; shr_r := false; shr_s := false |}, e)) as ->.
  { destruct k as [|k|k]; [| |lia].
    - rewrite Z.pow_0_r, Z.mul_1_r. simpl. f_equal. lia.
    - unfold shr. rewrite iter_pos_iter, iter_shr_1_exact by lia.
      f_equal. lia. }
  cbn [shr_m loc_of_shr_record round_nearest_even].
  rewrite Hc, Z.sub_diag. simpl shr. cbn [shr_m].
  by rewrite (proj2 (Z.leb_le _ _) He).
Qed.

(** The double of an integer that a double holds. *)
Lemma Z2F_exact m e :
  0 <= e -> bounded prec emax m e = true ->
  Z2F (Zpos m * 2 ^ e) = S754_finite false m e.
Proof.
  intros He Hb. apply bounded_inv in Hb as [Hc Hr].
  unfold Z2F, binary_normalize.
  assert (0 < Zpos m * 2 ^ e) as Hpos.
  { apply Z.mul_pos_pos; [lia|]. by apply Z.pow_pos_nonneg. }
  destruct (Zpos m * 2 ^ e) as [|np|np] eqn:En; [lia| |lia].
  unfold binary_round.
  change (Z.pos (digits2_pos np)) with (Zdigits2 (Zpos np)).
  rewrite <- En, Zdigits2_mul_pow2, Z.add_0_r, Hc by lia.
  pose proof (shl_align_spec np 0 e) as [H1 H2].
  destruct (shl_align np 0 e) as [mz ez]. cbn [fst snd] in H1, H2.
  assert (ez = 0) as -> by lia. rewrite Z.sub_0_r, Z.pow_0_r, Z.mul_1_r in H2.
  rewrite H2, <- En. replace 0 with (e - e) at 1 by lia.
  by apply binary_round_aux_shift.
Qed.

Lemma floor_pos_sign s m e :
  1 <= Z.shiftl (cond_Zopp s (Zpos m)) e -> s = false.
Proof.
  destruct s; [|done]. intros H. exfalso. cbn [cond_Zopp] in H.
  assert (0 <= - Z.pos m) by (apply (Z.shiftl_nonneg _ e); lia). lia.
Qed.

Lemma collect_fraction (acc : Double) :
  1 <= floorD acc ->
  exists fr : Double,
    toDouble (Math_max (Z2F 0)
                (SFsub prec emax (orZero (dval acc)) (Z2F (floorD acc))))
    = Some fr
    /\ floorD fr = 0
    /\ fle (Z2F 0) (dval fr)
    /\ forall c, fle (dval acc) c -> fle (dval fr) c.
Proof.
  intros Hfl. rewrite orZero_dval. unfold floorD in Hfl |- *.
  change (Z2F 0) with (S754_zero false). unfold fle.
  destruct acc as [[sa|sa| |s m e] Hok]; cbn [dval] in *; try lia.
  pose proof (floor_pos_sign _ _ _ Hfl) as ->. cbn [cond_Zopp] in *.
  simpl in Hok. pose proof (bounded_inv _ _ Hok) as [Hc Hr].
  assert (forall c, SFleb (S754_finite false m e) c = true ->
            SFleb (S754_zero false) c = true) as Hzero.
  { intros c. unfold SFleb. by destruct c as [[]|[]| |[] mc ec]. }
  destruct (Z.le_gt_cases 0 e) as [He|He].
  - (* an integer: the whole accumulator is collected *)
    rewrite Z.shiftl_mul_pow2 by done. rewrite Z2F_exact by done.
    rewrite SFsub_finite.
    pose proof (shl_align_spec m e (Z.min e e)) as [H1 H2].
    destruct (shl_align m e (Z.min e e)) as [mz ez]. cbn [fst snd] in H1, H2.
    cbn [fst cond_Zopp]. rewrite Z.sub_diag.
    exists (mkDouble (S754_zero false) eq_refl).
    split; [|split; [done|split; [done|]]].
    + apply toDouble_Some. reflexivity.
    + exact Hzero.
  - (* the fraction stays *)
    set (k := - e). assert (0 < k) as Hk by (unfold k; lia).
    assert (Z.shiftl (Zpos m) e = Zpos m / 2 ^ k) as En.
    { rewrite <- Z.shiftr_div_pow2 by lia. unfold k, Z.shiftr.
      by rewrite Z.opp_involutive. }
    rewrite En in *.
    destruct (Zdigits2_div_pow2 (Zpos m) k) as [[E0 _]|[Epos Edig]];
      [lia|lia|lia|].
    destruct (Zpos m / 2 ^ k) as [|np|np] eqn:Enp; [lia| |lia].
    rewrite fexp_eq in Hc.
    assert (Zdigits2 (Zpos m) = 53) as Hdm.
    { pose proof (Zdigits2_pos_pos np). lia. }
    assert (k <= 52) as Hk52.
    { pose proof (Zdigits2_pos_pos np). lia. }
    (* the double of the floor *)
    destruct (binary_round_exact false np 0) as (mz & Hz & Emz).
    { rewrite Edig, fexp_eq. lia. }
    { rewrite Edig, fexp_eq. unfold emax, prec. lia. }
    assert (fexp prec emax (Zdigits2 (Z.pos np) + 0) = e) as Ef.
    { rewrite Edig, fexp_eq. lia. }
    rewrite Ef in Hz, Emz.
    unfold Z2F, binary_normalize. rewrite Hz, SFsub_finite.
    pose proof (shl_align_spec m e (Z.min e e)) as [H1 H2].
    destruct (shl_align m e (Z.min e e)) as [m1 e1]. cbn [fst snd] in H1, H2.
    pose proof (shl_align_spec mz e (Z.min e e)) as [H3 H4].
    destruct (shl_align mz e (Z.min e e)) as [m2 e2]. cbn [fst snd] in H3, H4.
    cbn [fst cond_Zopp].
    assert (e1 = e) as -> by lia. assert (e2 = e) as -> by lia.
    rewrite Z.sub_diag, Z.pow_0_r, Z.mul_1_r in H2, H4.
    rewrite H2, H4, Emz. replace (0 - e) with k by (unfold k; lia).
    rewrite Z.min_id.
    assert (Zpos m - Zpos np * 2 ^ k = Zpos m mod 2 ^ k) as ->.
    { rewrite <- Enp. pose proof (Z.div_mod (Zpos m) (2 ^ k)) as Hdm'.
      rewrite Z.mul_comm. rewrite Hdm' at 1; [lia|]. apply Z.pow_nonzero; lia. }
    pose proof (Z.mod_pos_bound (Zpos m) (2 ^ k)
                  ltac:(apply Z.pow_pos_nonneg; lia)) as Hmod.
    destruct (Zpos m mod 2 ^ k) as [|sp|sp] eqn:Es; [| |lia].
    + exists (mkDouble (S754_zero false) eq_refl).
      split; [|split; [done|split; [done|]]].
      * apply toDouble_Some. reflexivity.
      * exact Hzero.
    + cbn [binary_normalize].
      assert (Zdigits2 (Zpos sp) <= k) as Hds.
      { pose proof (Zdigits2_bounds sp) as [Hlo _].
        destruct (Z.le_gt_cases (Zdigits2 (Zpos sp)) k) as [|Hgt]; [done|].
        assert (2 ^ k <= 2 ^ (Zdigits2 (Z.pos sp) - 1))
          by (apply Z.pow_le_mono_r; lia). lia. }
      pose proof (Zdigits2_pos_pos sp) as Hds0.
      destruct (binary_round_exact false sp e) as (mf & Hf & Emf).
      { rewrite fexp_eq. unfold k in *. lia. }
      { rewrite fexp_eq. unfold emax, prec. lia. }
      set (f := fexp prec emax (Zdigits2 (Z.pos sp) + e)) in *.
      assert (f <= -53) as Hf53 by (unfold f; rewrite fexp_eq; unfold k in *; lia).
      rewrite Hf.
      pose proof (binary_round_valid false sp e) as Hv. rewrite Hf in Hv.
      destruct Hv as [_ Hb].
      exists (mkDouble (S754_finite false mf f) Hb).
      split; [|split; [|split; [done|]]].
      * apply toDouble_Some. reflexivity.
      * unfold floorD. cbn [dval cond_Zopp].
        replace f with (- (- f)) by lia. change (Z.shiftl ?a (- ?n)) with (Z.shiftr a n).
        rewrite Z.shiftr_div_pow2 by lia. apply Z.div_small.
        split; [lia|]. rewrite Emf.
        assert (2 ^ (- f) = 2 ^ k * 2 ^ (e - f)) as ->.
        { rewrite <- Z.pow_add_r by lia. f_equal. unfold k. lia. }
        apply Z.mul_lt_mono_pos_r; [apply Z.pow_pos_nonneg; lia|lia].
      * intros c Hc'. cbn [dval] in *. unfold SFleb in *.
        destruct c as [[]|[]| |[] mc ec]; try done. simpl in Hc' |- *.
        assert (e <= ec) as Hle.
        { destruct (Z.compare_spec e ec); [lia|lia|done]. }
        assert ((f ?= ec) = Lt) as ->
          by (apply Z.compare_lt_iff; unfold k in *; lia).
        done.
Qed.

(** ** Rounding does not reach zero from a number of the format *)

Lemma binary_round_aux_nonzero sx mx ex lx :
  0 < mx -> ex <= fexp prec emax (Zdigits2 mx + ex) ->
  fexp prec emax (Zdigits2 mx + ex) < Zdigits2 mx + ex ->
  forall s, binary_round_aux prec emax sx mx ex lx <> S754_zero s.
Proof.
  intros Hmx Hn Hbig s. unfold binary_round_aux.
  set (D := Zdigits2 mx + ex) in *. set (f := fexp prec emax D) in *.
  unfold shr_fexp at 1. fold D. fold f.
  assert (shr_m (shr_record_of_loc mx lx) = mx) as Emx
    by (by destruct lx as [|[]]).
  pose proof (shr_spec (shr_record_of_loc mx lx) ex (f - ex)
                ltac:(rewrite Emx; lia)) as [Hm He].
  destruct (shr (shr_record_of_loc mx lx) ex (f - ex)) as [mrs' e'].
  cbn [fst snd] in Hm, He. rewrite Emx in Hm.
  replace (Z.max 0 (f - ex)) with (f - ex) in * by lia.
  assert (e' = f) as -> by lia.
  destruct (Zdigits2_div_pow2 mx (f - ex)) as [[_ Hd]|[Hpos Hd]];
    [lia|lia|unfold D in *; lia|].
  rewrite <- Hm in Hpos, Hd.
  pose proof (round_nearest_even_cases (shr_m mrs') (loc_of_shr_record mrs'))
    as H2.
  set (m2 := round_nearest_even (shr_m mrs') (loc_of_shr_record mrs')) in *.
  assert (0 < m2) as Hm2 by lia.
  assert (Zdigits2 m2 = Zdigits2 (shr_m mrs')
          \/ Zdigits2 m2 = Zdigits2 (shr_m mrs') + 1) as Hd2.
  { destruct H2 as [-> | ->]; [by left|].
    destruct (Zdigits2_succ _ Hpos) as [?|[? _]]; auto. }
  unfold shr_fexp. cbn [shr_record_of_loc].
  pose proof (shr_spec {| shr_m := m2; shr_r := false; shr_s := false |} f
                (fexp prec emax (Zdigits2 m2 + f) - f) ltac:(simpl; lia))
    as [Hm3 _].
  destruct (shr {| shr_m := m2; shr_r := false; shr_s := false |} f
              (fexp prec emax (Zdigits2 m2 + f) - f)) as [mrs'' e''].
  cbn [fst shr_m] in Hm3.
  assert (0 < shr_m mrs'') as Hpos3.
  { rewrite Hm3.
    pose proof (fexp_eq (Zdigits2 m2 + f)) as F2. pose proof (fexp_eq D) as F1.
    fold f in F1.
    destruct (Zdigits2_div_pow2 m2
                (Z.max 0 (fexp prec emax (Zdigits2 m2 + f) - f)))
      as [[_ Hle]|[Hp _]]; [lia|lia| |done].
    unfold D in *. lia. }
  destruct (shr_m mrs'') as [|m|m]; [lia| |done].
  by destruct (e'' <=? emax - prec).
Qed.

Lemma binary_round_nonzero sx mx ex :
  emin prec emax <= ex ->
  forall s, binary_round prec emax sx mx ex <> S754_zero s.
Proof.
  intros He. unfold binary_round.
  change (Z.pos (digits2_pos mx)) with (Zdigits2 (Zpos mx)).
  set (f := fexp prec emax (Zdigits2 (Zpos mx) + ex)).
  pose proof (shl_align_spec mx ex f) as [H1 H2].
  destruct (shl_align mx ex f) as [mz ez]. cbn [fst snd] in H1, H2.
  assert (Zdigits2 (Z.pos mz) + ez = Zdigits2 (Z.pos mx) + ex) as Hd.
  { rewrite H2, Zdigits2_mul_pow2 by lia. lia. }
  pose proof (Zdigits2_pos_pos mx) as Hpos.
  pose proof (fexp_eq (Zdigits2 (Zpos mx) + ex)) as F. fold f in F.
  change (emin prec emax) with (-1074) in He.
  apply binary_round_aux_nonzero; [lia| |]; rewrite Hd; fold f; lia.
Qed.

Lemma bounded_emin m e : bounded prec emax m e = true -> emin prec emax <= e.
Proof.
  intros [Hc _]%bounded_inv. rewrite fexp_eq in Hc.
  change (emin prec emax) with (-1074). lia.
Qed.

(** * Recruitment tick *)

Lemma Z2F_0 : Z2F 0 = S754_zero false.
Proof. reflexivity. Qed.

Lemma Z2F_wf z : wf (Z2F z) /\ Z2F z <> S754_nan.
Proof. apply binary_normalize_wf. Qed.

Lemma Z2F_nonneg z : 0 <= z -> nonneg (Z2F z) /\ Z2F z <> S754_zero true.
Proof. apply binary_normalize_nonneg. Qed.

Lemma fle_0_nonneg x : fle (Z2F 0) x <-> nonneg x.
Proof. apply nonneg_leb. Qed.

Lemma dval_not_nan d : dval d <> S754_nan.
Proof. by destruct d as [[]]. Qed.

Lemma dval_not_negzero d : dval d <> S754_zero true.
Proof. by destruct d as [[[]| | |]]. Qed.

Lemma SFcompare_defined x y :
  x <> S754_nan -> y <> S754_nan -> is_Some (SFcompare x y).
Proof. destruct x, y; simpl; try done; by eexists. Qed.

(** A non-negative number of the format that is not above a finite one is
    finite. *)
Lemma finiteb_below x c :
  wf x -> nonneg x -> x <> S754_zero true -> finiteb c = true ->
  fle x c -> finiteb x = true.
Proof.
  intros Hwf Hnn Hnz Hc Hle. unfold fle, SFleb in Hle.
  destruct x as [[]|[]| |[] m e]; try done.
  by destruct c as [[]|[]| |[] mc ec].
Qed.

(** The sum the tick forms. *)
Lemma tickSum_ok (acc : Double) (r : spec_float) :
  fle (Z2F 0) (dval acc) -> fle (Z2F 0) r -> wf r ->
  let x := SFadd prec emax (orZero (dval acc)) r in
  wf x /\ nonneg x /\ x <> S754_nan /\ x <> S754_zero true.
Proof.
  intros Ha Hr Hwf x. subst x. rewrite orZero_dval.
  apply fle_0_nonneg in Ha, Hr.
  destruct (SFadd_nonneg (dval acc) r Ha Hr (dval_not_negzero acc))
    as (H1 & H2 & H3).
  split; [|done]. apply SFadd_wf; [apply dval_wf|done].
Qed.

Lemma perSec_wf p : wf (perSec p).
Proof. apply SFdiv_wf. Qed.

Lemma tickAcc_le p : tickAcc p <> S754_nan -> fle (tickAcc p) (Z2F (reserveCap p)).
Proof.
  unfold tickAcc. intros Hn.
  case_decide;
    match goal with |- fle (Math_min ?c ?x) _ =>
      destruct (Math_min_cases c x) as [E|[(E & _ & Hcc)|(E & Hxc)]];
        rewrite E in *; done
    end.
Qed.

Lemma tickAcc_nonneg p :
  0 <= reserveCap p -> fle (Z2F 0) (perSec p) ->
  fle (Z2F 0) (dval (producedPrecise p)) ->
  tickAcc p <> S754_nan -> nonneg (tickAcc p).
Proof.
  intros Hcap Hr Ha. unfold tickAcc.
  destruct (Z2F_nonneg _ Hcap) as [Hc _].
  destruct (tickSum_ok (producedPrecise p) (perSec p) Ha Hr (perSec_wf p))
    as (_ & Hx & _).
  case_decide; intros Hn;
    match goal with |- nonneg (Math_min ?c ?x) =>
      destruct (Math_min_cases c x) as [E|[(E & _)|(E & _)]];
        rewrite E in *; try done
    end.
  rewrite orZero_dval. by apply fle_0_nonneg.
Qed.

(** A record in range, whose cap is a double, is advanced by the tick. *)
Lemma tickAcc_finite p :
  production_ok p -> finiteb (Z2F (reserveCap p)) = true ->
  finiteb (tickAcc p) = true.
Proof.
  intros (Hcap & Hr & Ha & _ & _) Hc. unfold tickAcc.
  destruct (tickSum_ok (producedPrecise p) (perSec p) Ha Hr (perSec_wf p))
    as (Hw & Hx & Hnan & Hnz).
  assert (forall x, wf x -> nonneg x -> x <> S754_nan -> x <> S754_zero true ->
            finiteb (Math_min (Z2F (reserveCap p)) x) = true) as Hmin.
  { intros x Hwx Hnx Hnn Hnzx.
    destruct (SFcompare_defined (Z2F (reserveCap p)) x) as [c Hcmp];
      [apply Z2F_wf|done|].
    destruct (Math_min_cases (Z2F (reserveCap p)) x)
      as [E|[(E & _)|(E & Hxc)]]; rewrite E.
    - unfold Math_min in E. rewrite Hcmp in E.
      destruct c; [|by destruct (proj2 (Z2F_wf (reserveCap p)))|done].
      destruct (Z2F (reserveCap p)) as [[]| | |]; done.
    - done.
    - by eapply finiteb_below. }
  case_decide; [by apply Hmin|].
  rewrite orZero_dval.
  apply Hmin; [apply dval_wf|by apply fle_0_nonneg|apply dval_not_nan|].
  apply dval_not_negzero.
Qed.

Lemma tickPlayer_is_Some p : is_Some (tickPlayer p) <-> finiteb (tickAcc p) = true.
Proof.
  rewrite <- toDouble_is_Some. unfold tickPlayer.
  destruct (toDouble (tickAcc p)) as [pp|]; split; intros [x Hx];
    first [done | by eexists].
Qed.

Lemma tick_total s :
  (exists s' evs, tick s = Done s' evs)
  <-> forall tok p, players s !! tok = Some p -> finiteb (tickAcc p) = true.
Proof.
  unfold tick. split.
  - intros (s' & evs & H). case_bool_decide as Hall; [|done].
    intros tok p Hp. apply tickPlayer_is_Some. exact (Hall _ _ Hp).
  - intros H. rewrite bool_decide_eq_true_2; [by eexists _, _|].
    intros tok p Hp. apply tickPlayer_is_Some. by eapply H.
Qed.

Lemma tickPlayer_pinned (p p' : Player) :
  remainingMs p <= 0 -> tickPlayer p = Some p' -> tickPlayer p' = Some p'.
Proof.
  intros H (pp & Hpp & E)%tickPlayer_Some.
  rewrite decide_False in E by lia. subst p'.
  apply toDouble_Some in Hpp.
  assert (tickAcc p = Math_min (Z2F (reserveCap p))
                        (dval (producedPrecise p))) as Ea.
  { unfold tickAcc. by rewrite decide_False, orZero_dval by lia. }
  unfold tickPlayer.
  assert (tickAcc (set_production pp (floorD pp) (remainingMs p) p) = dval pp)
    as ->.
  { unfold tickAcc. simpl. rewrite decide_False by lia.
    rewrite orZero_dval, Hpp, Ea. apply Math_min_idemp. }
  rewrite (proj2 (toDouble_Some _ _) eq_refl). simpl.
  by rewrite decide_False by lia.
Qed.

(** Below the cap the clamp changes nothing. *)
Lemma Math_min_r c x :
  fle x c -> Math_min c x <> S754_zero true -> c <> S754_nan ->
  Math_min c x = x.
Proof.
  unfold fle, SFleb, Math_min. intros Hle Hnz Hc.
  destruct (SFcompare x c) as [o|] eqn:E; [|done].
  rewrite (SFcompare_antisym _ _ _ E) in *.
  destruct o; simpl in *; try done.
  destruct c as [[]| | |]; done.
Qed.

(** ** The tick never makes [-0] *)

Lemma Z2F_not_negzero z : Z2F z <> S754_zero true.
Proof.
  unfold Z2F, binary_normalize. destruct z as [|p|p]; [done| |].
  - pose proof (binary_round_valid false p 0) as H.
    destruct (binary_round prec emax false p 0); try done. by subst.
  - by apply binary_round_nonzero.
Qed.

Lemma SFadd_not_negzero (acc : Double) r :
  wf r -> SFadd prec emax (dval acc) r <> S754_zero true.
Proof.
  intros Hr. pose proof (dok acc) as Ha.
  destruct acc as [[[]|sa| |sa ma ea] Hok]; cbn [dval] in *; try done.
  - destruct r as [[]|[]| |sr mr er]; done.
  - destruct r as [sr|sr| |sr mr er]; try done.
    rewrite SFadd_finite. unfold binary_normalize.
    simpl in Ha. unfold wf in Hr. simpl in Hr.
    pose proof (bounded_emin _ _ Ha). pose proof (bounded_emin _ _ Hr).
    destruct (_ + _) as [|p|p]; [done| |].
    + pose proof (binary_round_valid false p (Z.min ea er)) as H1.
      destruct (binary_round prec emax false p (Z.min ea er)); try done.
      by subst.
    + apply binary_round_nonzero. lia.
Qed.

Lemma Math_min_not_negzero a b :
  a <> S754_zero true -> b <> S754_zero true ->
  Math_min a b <> S754_zero true.
Proof.
  intros Ha Hb.
  destruct (Math_min_cases a b) as [E|[(E & _)|(E & _)]]; by rewrite E.
Qed.

Lemma tickAcc_wf p : wf (tickAcc p).
Proof.
  assert (forall x, wf x -> wf (Math_min (Z2F (reserveCap p)) x)) as H.
  { intros x Hx.
    destruct (Math_min_cases (Z2F (reserveCap p)) x)
      as [E|[(E & _)|(E & _)]]; rewrite E; [done|apply Z2F_wf|done]. }
  unfold tickAcc. case_decide; apply H; rewrite orZero_dval.
  - apply SFadd_wf; [apply dval_wf|apply perSec_wf].
  - apply dval_wf.
Qed.

Lemma tickAcc_not_negzero p : tickAcc p <> S754_zero true.
Proof.
  unfold tickAcc.
  case_decide; apply Math_min_not_negzero; try apply Z2F_not_negzero;
    rewrite orZero_dval.
  - apply SFadd_not_negzero, perSec_wf.
  - apply dval_not_negzero.
Qed.

(** The embedding stops exactly where the engine stores [NaN] or an
    infinity. *)
Lemma tickAcc_finiteb p : finiteb (tickAcc p) = true <-> is_finite (tickAcc p).
Proof.
  rewrite wf_finiteb. pose proof (tickAcc_wf p). pose proof (tickAcc_not_negzero p).
  destruct (tickAcc p) as [s|s| |s m e]; simpl; split; try done.
  - intros (_ & _ & _ & H'). by destruct (H' s).
  - by intros (_ & ? & _).
Qed.

(** * Snapshot and restore *)

Lemma restoreTile_snapTile t : restoreTile (snapTile t) = t.
Proof. by destruct t. Qed.

Lemma foldl_insert_lookup {K A} `{Countable K} (l : list (K * A)) :
  forall (m0 : gmap K A) k,
    NoDup (l.*1) ->
    foldl (fun m e => <[fst e := snd e]> m) m0 l !! k
    = match (list_to_map l : gmap K A) !! k with
      | Some v => Some v
      | None => m0 !! k
      end.
Proof.
  induction l as [|[k0 v0] l IH]; intros m0 k Hnd; simpl.
  - by rewrite lookup_empty.
  - inversion Hnd as [|?? Hfresh Hnd']; subst. rewrite IH by done.
    destruct (decide (k0 = k)) as [<-|Hne].
    + rewrite lookup_insert_eq.
      rewrite (not_elem_of_list_to_map_1 l k0) by done.
      by rewrite lookup_insert_eq.
    + rewrite !lookup_insert_ne by done. done.
Qed.

Lemma foldl_insert_map_to_list {K A} `{Countable K} (m : gmap K A) :
  foldl (fun acc e => <[fst e := snd e]> acc) ∅ (map_to_list m) = m.
Proof.
  apply map_eq. intros k.
  rewrite foldl_insert_lookup by apply NoDup_fst_map_to_list.
  rewrite list_to_map_to_list, lookup_empty. by destruct (m !! k).
Qed.

Lemma restore_tiles_fold (l : list (TileId * Tile)) :
  forall m0 : gmap TileId Tile,
  Forall (fun e => tile_id (snd e) = fst e) l ->
  foldl (fun m t => <[st_id t := restoreTile t]> m) m0
        (map (fun e => snapTile (snd e)) l)
  = foldl (fun m e => <[fst e := snd e]> m) m0 l.
Proof.
  induction l as [|[k t] l IH]; intros m0 Hl; simpl; [done|].
  inversion Hl as [|?? Hk Hl']; subst. simpl in Hk.
  rewrite restoreTile_snapTile, Hk. by apply IH.
Qed.

Lemma restore_players_fold (l : list (Token * Player)) :
  forall m0 : gmap Token Player,
  Forall (fun e => token (snd e) = fst e) l ->
  foldl (fun m p => <[token p := p]> m) m0 (map snd l)
  = foldl (fun m e => <[fst e := snd e]> m) m0 l.
Proof.
  induction l as [|[k p] l IH]; intros m0 Hl; simpl; [done|].
  inversion Hl as [|?? Hk Hl']; subst. simpl in Hk.
  rewrite Hk. by apply IH.
Qed.

Lemma map_Forall_to_list {K A} `{Countable K} (P : K -> A -> Prop)
    (m : gmap K A) :
  map_Forall P m -> Forall (fun e => P (fst e) (snd e)) (map_to_list m).
Proof.
  intros Hm. apply Forall_forall. intros [k v] Hin.
  apply list_elem_of_In, elem_of_map_to_list in Hin. by apply Hm.
Qed.

Lemma set_publicTroops_twice n m t :
  set_publicTroops n (set_publicTroops m t) = set_publicTroops n t.
Proof. done. Qed.

(** [recalcAllPublicTroops] over a list of tiles. *)
Lemma recalc_fold (l : list (TileId * Tile)) : forall s,
  let s' := foldl (fun acc e => recalcPublicTroops (tile_id (snd e)) acc)
                  s l in
  players s' = players s
  /\ forall k,
       tiles s' !! k
       = if decide (k ∈ map (fun e => tile_id (snd e)) l)
         then set_publicTroops (sumTroops (players s) k) <$> tiles s !! k
         else tiles s !! k.
Proof.
  induction l as [|[k0 t0] l IH]; intros s; cbn [foldl map snd].
  - split; [done|]. intros k.
    destruct (decide (k ∈ [])) as [Hin|]; [by apply elem_of_nil in Hin|done].
  - destruct (IH (recalcPublicTroops (tile_id t0) s)) as [Hp Ht].
    rewrite recalc_players in Hp, Ht. split; [done|]. intros k.
    rewrite Ht, recalc_tiles_lookup.
    destruct (decide (tile_id t0 = k)) as [<-|Hne].
    + rewrite (decide_True (P := tile_id t0 ∈ tile_id t0 :: _))
        by (apply elem_of_cons; by left).
      case_decide; [|done].
      destruct (tiles s !! tile_id t0); simpl; [|done].
      by rewrite set_publicTroops_twice.
    + destruct (decide (k ∈ map (fun e => tile_id (snd e)) l)) as [Hin|Hin].
      * rewrite decide_True; [done|]. apply elem_of_cons. by right.
      * rewrite decide_False; [done|].
        intros [?|?]%elem_of_cons; [congruence|done].
Qed.

Lemma tiles_wf_keyed ts : tiles_wf ts -> tiles_keyed ts.
Proof. intros H k t Hk. by destruct (H k t Hk). Qed.

Lemma recalcAll_spec s :
  tiles_keyed (tiles s) ->
  players (recalcAllPublicTroops s) = players s
  /\ forall k,
       tiles (recalcAllPublicTroops s) !! k
       = set_publicTroops (sumTroops (players s) k) <$> tiles s !! k.
Proof.
  intros Hwf. unfold recalcAllPublicTroops.
  destruct (recalc_fold (map_to_list (tiles s)) s) as [Hp Ht].
  split; [done|]. intros k. rewrite Ht.
  destruct (tiles s !! k) as [t|] eqn:Hk; simpl; [|by case_decide].
  rewrite decide_True; [done|].
  apply list_elem_of_In, in_map_iff. exists (k, t). split.
  - simpl. exact (Hwf _ _ Hk).
  - apply list_elem_of_In, elem_of_map_to_list. done.
Qed.

Lemma restored_tiles_keyed (l : list SnapTile) :
  forall m0 : gmap TileId Tile,
    tiles_keyed m0 ->
    tiles_keyed (foldl (fun m t => <[st_id t := restoreTile t]> m) m0 l).
Proof.
  induction l as [|t l IH]; intros m0 H0; simpl; [done|].
  apply IH. by apply map_Forall_insert_2.
Qed.

(** Whatever the state file holds, with or without [publicTroops] fields,
    the restored cache agrees with the restored players. *)
Lemma loadSnapshot_cache_ok cfg data s0 :
  publicTroops_ok (loadSnapshot cfg (Some data) s0).
Proof.
  unfold loadSnapshot.
  match goal with |- context [recalcAllPublicTroops ?x] =>
    destruct (recalcAll_spec x) as [Hp Ht] end.
  { simpl. apply restored_tiles_keyed, map_Forall_empty. }
  intros k t' Hk. rewrite Ht in Hk. rewrite Hp.
  match type of Hk with context [tiles ?x !! k] =>
    destruct (tiles x !! k) end; simpl in Hk; [|done].
  by injection Hk as <-.
Qed.

(** The round trip in general: the players come back as they were; every
    tile comes back with its [publicTroops] recomputed from them, so the
    restored cache is right, and the tiles are identical to those saved
    exactly when the cache was right at the time of the snapshot. *)
Lemma restart_spec cfg s :
  tiles_wf (tiles s) ->
  players_keyed (players s) ->
  players (restart cfg s) = players s
  /\ (forall k, tiles (restart cfg s) !! k
                = set_publicTroops (sumTroops (players s) k) <$> tiles s !! k)
  /\ publicTroops_ok (restart cfg s)
  /\ (publicTroops_ok s -> tiles (restart cfg s) = tiles s).
Proof.
  intros Hwf Hkeyed. unfold restart, loadSnapshot, snapshot. simpl.
  rewrite restore_tiles_fold.
  2:{ apply (map_Forall_to_list (fun k t => tile_id t = k)).
      eapply map_Forall_impl; [exact Hwf|]. by intros ?? [? ?]. }
  rewrite restore_players_fold.
  2:{ apply (map_Forall_to_list (fun tok p => token p = tok)), Hkeyed. }
  rewrite !foldl_insert_map_to_list.
  match goal with |- context [recalcAllPublicTroops ?x] =>
    destruct (recalcAll_spec x (tiles_wf_keyed _ Hwf)) as [Hp Ht] end.
  simpl in Hp, Ht. split; [done|]. split; [done|]. split.
  - intros k t' Hk. rewrite Ht in Hk. rewrite Hp.
    destruct (tiles s !! k); simpl in Hk; [|done]. by injection Hk as <-.
  - intros Hok. apply map_eq. intros k. rewrite Ht.
    destruct (tiles s !! k) as [t|] eqn:Hk; simpl; [|done].
    f_equal. specialize (Hok k t Hk). rewrite <- Hok. by destruct t.
Qed.

(** C6 fails on a reachable state: right after alice's join the capital
    [(0,0)] is stored with the stale [publicTroops = 0] (the defect of
    [join]).  A snapshot taken then and restored brings the players back
    unchanged but the capital with [publicTroops = 100]: the restored tiles
    are not the tiles that were saved. *)
Theorem restart_after_join_changes_tiles :
  reachable defaultCfg demoBoot demoJoined
  /\ players (restart defaultCfg demoJoined) = players demoJoined
  /\ tileField publicTroops demoJoined (0, 0) = Some 0
  /\ tileField publicTroops (restart defaultCfg demoJoined) (0, 0) = Some 100
  /\ tiles (restart defaultCfg demoJoined) <> tiles demoJoined.
Proof.
  split.
  { apply stateAfter_reachable, stateAfter_reachable. constructor. }
  split; [by_eval|]. split; [by_eval|]. split; [by_eval|].
  intros Heq.
  assert (tileField publicTroops (restart defaultCfg demoJoined) (0, 0)
          = tileField publicTroops demoJoined (0, 0)) as E
    by (unfold tileField; by rewrite Heq).
  vm_compute in E. discriminate E.
Qed.

(** * What the actions leave alone *)

Lemma run_invariant cfg (P : State -> Prop) :
  (forall s a s' evs, P s -> step cfg s a = Done s' evs -> P s') ->
  forall l s s' evs, P s -> run cfg s l = Done s' evs -> P s'.
Proof.
  intros Hstep l. induction l as [|a l IH]; intros s s' evs HP Hrun;
    simpl in Hrun.
  - by inversion Hrun; subst.
  - destruct (step cfg s a) as [s1 evs1| |] eqn:Hs; [|done..].
    destruct (run cfg s1 l) as [s2 evs2| |] eqn:Hr; [|done..].
    inversion Hrun; subst. eapply IH; [|exact Hr]. by eapply Hstep.
Qed.

Lemma run_relation cfg (R : State -> State -> Prop) (ok : Action -> Prop) :
  (forall s, R s s) ->
  (forall s1 s2 s3, R s1 s2 -> R s2 s3 -> R s1 s3) ->
  (forall s a s' evs, ok a -> step cfg s a = Done s' evs -> R s s') ->
  forall l s s' evs,
    Forall ok l -> run cfg s l = Done s' evs -> R s s'.
Proof.
  intros Hrefl Htrans Hstep l.
  induction l as [|a l IH]; intros s s' evs Hl Hrun; simpl in Hrun.
  - inversion Hrun; subst. apply Hrefl.
  - inversion Hl as [|?? Ha Hl']; subst.
    destruct (step cfg s a) as [s1 evs1| |] eqn:Hs; [|done..].
    destruct (run cfg s1 l) as [s2 evs2| |] eqn:Hr; [|done..].
    inversion Hrun; subst.
    eapply Htrans; [by eapply Hstep|by eapply IH].
Qed.

Lemma set_publicTroops_id t : set_publicTroops (publicTroops t) t = t.
Proof. by destruct t. Qed.

Lemma tile_cache_only_refl t : tile_cache_only t t.
Proof. exists (publicTroops t). by rewrite set_publicTroops_id. Qed.

Lemma tile_cache_only_trans t1 t2 t3 :
  tile_cache_only t1 t2 -> tile_cache_only t2 t3 -> tile_cache_only t1 t3.
Proof. intros [n ->] [m ->]. by exists m. Qed.

Lemma tiles_cache_only_refl ts : tiles_cache_only ts ts.
Proof.
  intros k. destruct (ts !! k) as [t|] eqn:Hk; [|done].
  exists t. split; [done|apply tile_cache_only_refl].
Qed.

Lemma tiles_cache_only_trans ts1 ts2 ts3 :
  tiles_cache_only ts1 ts2 -> tiles_cache_only ts2 ts3 ->
  tiles_cache_only ts1 ts3.
Proof.
  intros H12 H23 k. specialize (H12 k). specialize (H23 k).
  destruct (ts1 !! k) as [t1|].
  - destruct H12 as (t2 & Ht2 & K12). rewrite Ht2 in H23.
    destruct H23 as (t3 & Ht3 & K23). exists t3. split; [done|].
    by eapply tile_cache_only_trans.
  - by rewrite H12 in H23.
Qed.

Lemma tiles_cache_only_recalc ts k s :
  tiles_cache_only ts (tiles s) ->
  tiles_cache_only ts (tiles (recalcPublicTroops k s)).
Proof.
  intros H k'. specialize (H k'). rewrite recalc_tiles_lookup.
  destruct (ts !! k') as [t|].
  - destruct H as (t' & Ht' & K). rewrite Ht'. case_decide; simpl.
    + eexists. split; [done|].
      eapply tile_cache_only_trans; [done|]. by eexists.
    + by exists t'.
  - rewrite H. by case_decide.
Qed.

Lemma tiles_cache_only_kept ts ts' :
  tiles_cache_only ts ts' -> tiles_kept ts ts'.
Proof.
  intros H k. specialize (H k). destruct (ts !! k) as [t|]; [|done].
  destruct H as (t' & Ht' & n & ->). exists (set_publicTroops n t).
  split; [done|apply tile_kept_publicTroops].
Qed.

Lemma step_cache_only cfg s a s' evs :
  ~ is_attack a ->
  step cfg s a = Done s' evs ->
  tiles_cache_only (tiles s) (tiles s').
Proof.
  intros Hna Hrun.
  destruct a as [sid ip|sid|sid now tok nm fid|sid now
                |sid now targetId amount|sid now fromId toId amount
                |sid now fromId targetId amount| |sid ev];
    simpl in Hrun; unfold onSocket in Hrun;
    [destruct (sockets s !! sid) as [ip0|] eqn:Hsock;
     [inversion Hrun; subst; apply tiles_cache_only_refl|]
    |destruct (sockets s !! sid) as [ip0|] eqn:Hsock;
     [|inversion Hrun; subst; apply tiles_cache_only_refl]..
    |
    |destruct (sockets s !! sid) as [ip0|] eqn:Hsock;
     [discriminate Hrun|inversion Hrun; subst; apply tiles_cache_only_refl]].
  - unfold connection in Hrun.
    destruct (if DISABLE_IP_LOCK cfg then _ else _);
      inversion Hrun; subst; apply tiles_cache_only_refl.
  - unfold disconnect in Hrun. inversion Hrun; subst.
    apply tiles_cache_only_refl.
  - unfold join in Hrun.
    destruct (_ || _); [inversion Hrun; subst; apply tiles_cache_only_refl|].
    destruct (capitalsByFaction s !! fid) as [capId|];
      inversion Hrun; subst; simpl.
    + apply tiles_cache_only_recalc, tiles_cache_only_refl.
    + apply tiles_cache_only_refl.
  - unfold recruit_collect in Hrun.
    apply withPlayer_inv in Hrun
      as [(_ & -> & _) | (tok & p & l & Hres & Hl & H)];
      [apply tiles_cache_only_refl|].
    simpl in H. destruct H as [(_ & -> & _) | (_ & H)];
      [apply tiles_cache_only_refl|].
    collect_cases H; apply tiles_cache_only_refl.
  - pose proof (deploy_paths s sid now targetId amount) as H.
    rewrite Hrun in H.
    inversion H as [Hres | | tok p l Hres Hl Hno
                   | | tok p l capId V Hcap Hcapt Hnot
                   | tok p l capId V Hcap Hcapt Hconn s0]; subst;
      try apply tiles_cache_only_refl.
    subst s0. unfold afterDeploy.
    apply tiles_cache_only_recalc, tiles_cache_only_refl.
  - pose proof (move_paths s sid now fromId toId amount) as H.
    rewrite Hrun in H.
    inversion H as [Hres | | tok p l Hres Hl Hno
                   | tok p l from to V s0]; subst;
      try apply tiles_cache_only_refl.
    subst s0. unfold afterMove.
    do 2 apply tiles_cache_only_recalc. apply tiles_cache_only_refl.
  - by destruct Hna.
  - apply tick_Done in Hrun as [_ ->]. apply tiles_cache_only_refl.
Qed.

Lemma step_tiles_kept cfg s a s' evs :
  step cfg s a = Done s' evs -> tiles_kept (tiles s) (tiles s').
Proof.
  intros Hrun.
  assert (is_attack a \/ ~ is_attack a) as [Ha|Hna]
    by (destruct a; simpl; tauto).
  - destruct a as [| | | | | |sid now fromId targetId amount| |sid ev]; try done.
    simpl in Hrun. unfold onSocket in Hrun.
    destruct (sockets s !! sid);
      [by eapply attack_tiles_kept
      |inversion Hrun; subst; apply tiles_kept_refl].
  - by eapply tiles_cache_only_kept, step_cache_only.
Qed.

(** X1: whatever actions are played (connections, joins, collections,
    deploys, moves, attacks, ticks, disconnections), the tile map keeps the
    same set of tiles, every tile keeps its id, its coordinates and its
    [isCapital] flag, every capital keeps its owner and its [control], and a
    map whose tiles are stored under the key of their coordinates stays
    so. *)
Theorem tiles_fixed_by_actions (cfg : Config) (l : list Action)
    (s s' : State) (evs : list Event) :
  run cfg s l = Done s' evs ->
  tiles_kept (tiles s) (tiles s')
  /\ (tiles_wf (tiles s) -> tiles_wf (tiles s')).
Proof.
  intros Hrun.
  assert (tiles_kept (tiles s) (tiles s')) as K.
  { apply (run_relation cfg (fun a b => tiles_kept (tiles a) (tiles b))
             (fun _ => True)) with (l := l) (evs := evs); try done.
    - intros. apply tiles_kept_refl.
    - intros ???. apply tiles_kept_trans.
    - intros ???? _. apply step_tiles_kept.
    - by apply Forall_forall. }
  split; [done|]. intros Hwf. by eapply tiles_kept_wf.
Qed.

Lemma tiles_fixed_by_actions_witness :
  exists s' evs,
    run defaultCfg demoBoot demoCampaign = Done s' evs
    /\ tiles_kept demoTiles (tiles s')
    /\ tiles_wf (tiles s').
Proof.
  destruct (run defaultCfg demoBoot demoCampaign) as [s' evs| |] eqn:Hrun;
    [|vm_compute in Hrun; discriminate Hrun..].
  destruct (tiles_fixed_by_actions _ _ _ _ _ Hrun) as [K Hwf].
  exists s', evs. split; [reflexivity|]. split; [exact K|].
  apply Hwf. unfold tiles_wf. eapply bool_decide_eq_true_1. by_eval.
Defined.

(** X2: ownership and defender strength move only in combat.  Along any
    sequence of actions that contains no attack, every tile keeps its
    [ownerFaction] and its [control]; only its [publicTroops] may differ. *)
Theorem only_attack_changes_ownership (cfg : Config) (l : list Action)
    (s s' : State) (evs : list Event) :
  Forall (fun a => ~ is_attack a) l ->
  run cfg s l = Done s' evs ->
  forall k t, tiles s !! k = Some t ->
    exists t', tiles s' !! k = Some t'
      /\ ownerFaction t' = ownerFaction t /\ control t' = control t
      /\ isCapital t' = isCapital t.
Proof.
  intros Hl Hrun k t Hk.
  assert (tiles_cache_only (tiles s) (tiles s')) as K.
  { apply (run_relation cfg
             (fun a b => tiles_cache_only (tiles a) (tiles b))
             (fun a => ~ is_attack a)) with (l := l) (evs := evs); try done.
    - intros. apply tiles_cache_only_refl.
    - intros ???. apply tiles_cache_only_trans.
    - intros ????. apply step_cache_only. }
  specialize (K k). rewrite Hk in K. destruct K as (t' & Hk' & n & ->).
  by exists (set_publicTroops n t).
Qed.

Lemma only_attack_changes_ownership_witness :
  exists s' evs t',
    run defaultCfg demoBoot demoPeaceful = Done s' evs
    /\ tiles s' !! (1, 0) = Some t'
    /\ ownerFaction t' = "f1" /\ control t' = 100.
Proof.
  destruct (run defaultCfg demoBoot demoPeaceful) as [s' evs| |] eqn:Hrun;
    [|vm_compute in Hrun; discriminate Hrun..].
  assert (Forall (fun a => ~ is_attack a) demoPeaceful) as Hl.
  { unfold demoPeaceful. repeat (apply Forall_cons; [simpl; tauto|]).
    apply Forall_nil. }
  assert (tiles demoBoot !! (1, 0) = Some (mkTile 1 0 "f1" 100 false)) as Hk
    by by_eval.
  destruct (only_attack_changes_ownership defaultCfg demoPeaceful demoBoot
              s' evs Hl Hrun _ _ Hk) as (t' & Ht' & Ho & Hc & _).
  exists s', evs, t'. split; [reflexivity|]. split; [exact Ht'|].
  split; [exact Ho|exact Hc].
Defined.

Lemma control_nonneg_cache_only ts ts' :
  tiles_cache_only ts ts' -> control_nonneg ts -> control_nonneg ts'.
Proof.
  intros K H k t' Hk'. specialize (K k).
  destruct (ts !! k) as [t|] eqn:Hk; [|congruence].
  destruct K as (t'' & Hk'' & n & ->).
  assert (t' = set_publicTroops n t) as -> by congruence.
  exact (H _ _ Hk).
Qed.

Lemma control_nonneg_recalc k s :
  control_nonneg (tiles s) -> control_nonneg (tiles (recalcPublicTroops k s)).
Proof.
  apply control_nonneg_cache_only, tiles_cache_only_recalc,
    tiles_cache_only_refl.
Qed.

Lemma attack_control_nonneg s sid now fromId targetId amount s' evs :
  control_nonneg (tiles s) ->
  attack s sid now fromId targetId amount = Done s' evs ->
  control_nonneg (tiles s').
Proof.
  intros H Hrun. apply attack_paths in Hrun.
  destruct Hrun as [Hres | tok p l Hres Hl _ | tok p l from target V Hcap
                   | tok p l from target evs V Hcap Hgt _ _
                   | tok p l from target evs V Hcap Hle _]; try done.
  - unfold afterCapture. do 2 apply control_nonneg_recalc. simpl.
    by apply map_Forall_insert_2.
  - destruct V as [_ _ _ _ Htg]. unfold afterRepelled.
    apply control_nonneg_recalc. simpl.
    apply map_Forall_insert_2; [simpl; lia|done].
Qed.

(** X3: defender strength never goes below zero.  If every tile has a
    non-negative [control], this is still so after any sequence of actions:
    a repelled attack takes at most the defenders there are, a capture
    leaves 0, and nothing else touches [control]. *)
Theorem control_never_negative (cfg : Config) (l : list Action)
    (s s' : State) (evs : list Event) :
  control_nonneg (tiles s) ->
  run cfg s l = Done s' evs ->
  control_nonneg (tiles s').
Proof.
  apply (run_invariant cfg (fun st => control_nonneg (tiles st))).
  clear. intros s a s' evs H Hrun.
  assert (is_attack a \/ ~ is_attack a) as [Ha|Hna]
    by (destruct a; simpl; tauto).
  - destruct a as [| | | | | |sid now fromId targetId amount| |sid ev]; try done.
    simpl in Hrun. unfold onSocket in Hrun.
    destruct (sockets s !! sid);
      [by eapply attack_control_nonneg|by inversion Hrun; subst].
  - eapply control_nonneg_cache_only; [|done]. by eapply step_cache_only.
Qed.

Lemma control_never_negative_witness :
  exists s' evs,
    run defaultCfg demoBoot demoCampaign = Done s' evs
    /\ control_nonneg (tiles s')
    /\ tileField control s' (3, 0) = Some 90.
Proof.
  destruct (run defaultCfg demoBoot demoCampaign) as [s' evs| |] eqn:Hrun;
    [|vm_compute in Hrun; discriminate Hrun..].
  exists s', evs. split; [reflexivity|]. split.
  - apply (control_never_negative defaultCfg demoCampaign demoBoot s' evs);
      [|exact Hrun].
    unfold control_nonneg. eapply bool_decide_eq_true_1. by_eval.
  - assert (finalState (run defaultCfg demoBoot demoCampaign)
              ≫= (fun st => tileField control st (3, 0)) = Some 90) as E
      by by_eval.
    rewrite Hrun in E. exact E.
Defined.

(** * What the actions do to the player records *)

Lemma adjacent_distinct s fromId (from : Tile) toId :
  tiles s !! fromId = Some from -> adjacentTo from toId = true ->
  fromId <> toId \/ ~ tiles_wf (tiles s).
Proof.
  intros Hfrom Hadj. destruct (decide (fromId = toId)) as [->|]; [|by left].
  right. intros Hwf. by eapply adjacentTo_ne.
Qed.

Ltac same_players :=
  lazymatch goal with
  | |- PlayersStep ?c ?st ?a _ => exact (ps_same c st a)
  end.

Lemma step_players cfg s a s' evs :
  step cfg s a = Done s' evs -> PlayersStep cfg s a (players s').
Proof.
  intros Hrun.
  destruct a as [sid ip|sid|sid now tok nm fid|sid now
                |sid now targetId amount|sid now fromId toId amount
                |sid now fromId targetId amount| |sid ev];
    simpl in Hrun; unfold onSocket in Hrun;
    [destruct (sockets s !! sid) as [ip0|] eqn:Hsock;
     [inversion Hrun; subst; same_players|]
    |destruct (sockets s !! sid) as [ip0|] eqn:Hsock;
     [|inversion Hrun; subst; same_players]..
    |
    |destruct (sockets s !! sid) as [ip0|] eqn:Hsock;
     [discriminate Hrun|inversion Hrun; subst; same_players]].
  - unfold connection in Hrun.
    destruct (if DISABLE_IP_LOCK cfg then _ else _);
      inversion Hrun; subst; same_players.
  - unfold disconnect in Hrun. inversion Hrun; subst. same_players.
  - unfold join in Hrun.
    destruct (_ || _); [inversion Hrun; subst; same_players|].
    pose proof (ps_join cfg s _ sid now tok nm fid eq_refl) as Hj.
    unfold joinedPlayer in Hj.
    destruct (capitalsByFaction s !! fid) as [capId|];
      inversion Hrun; subst; simpl; [rewrite recalc_players|]; exact Hj.
  - unfold recruit_collect in Hrun.
    apply withPlayer_inv in Hrun
      as [(_ & -> & _) | (tok & p & l & Hres & Hl & H)]; [same_players|].
    simpl in H. destruct H as [(_ & -> & _) | (_ & H)]; [same_players|].
    collect_cases H; [|same_players].
    simpl. eapply (ps_actor _ _ _ sid tok p); [done|done|].
    constructor; [done|]. apply collectedPlayer_intro. exact Hpp.
  - pose proof (deploy_paths s sid now targetId amount) as H.
    rewrite Hrun in H.
    inversion H as [Hres | | tok p l Hres Hl Hno
                   | | tok p l capId V Hcap Hcapt Hnot
                   | tok p l capId V Hcap Hcapt Hconn s0]; subst;
      try same_players.
    subst s0. unfold afterDeploy. rewrite recalc_players. simpl.
    destruct V. eapply (ps_actor _ _ _ sid tok p); [done|done|].
    by constructor.
  - pose proof (move_paths s sid now fromId toId amount) as H.
    rewrite Hrun in H.
    inversion H as [Hres | | tok p l Hres Hl Hno
                   | tok p l from to V s0]; subst;
      try same_players.
    subst s0. unfold afterMove. rewrite !recalc_players. simpl.
    destruct V. eapply (ps_actor _ _ _ sid tok p); [done|done|].
    constructor; [done|by eapply adjacent_distinct].
  - apply attack_paths in Hrun.
    destruct Hrun as [Hres | tok p l Hres Hl _ | tok p l from target V Hcap
                     | tok p l from target evs V Hcap Hgt _ _
                     | tok p l from target evs V Hcap Hle _];
      try same_players.
    + destruct V. unfold afterCapture. rewrite !recalc_players. simpl.
      eapply (ps_actor _ _ _ sid tok p); [done|done|].
      econstructor; [done|by eapply adjacent_distinct|done|done].
    + destruct V. unfold afterRepelled. rewrite !recalc_players. simpl.
      eapply (ps_actor _ _ _ sid tok p); [done|done|].
      econstructor; [done|done|done].
  - apply tick_Done in Hrun as [Hall ->]. simpl. by apply ps_tick.
Qed.

(** ** Holdings: inventory plus stationed troops *)

Lemma sumEntries_insert_fresh tr k v :
  tr !! k = None -> sumEntries (<[k := v]> tr) = sumEntries tr + v.
Proof.
  intros Hk. unfold sumEntries. rewrite map_fold_insert_L; [done| |done].
  intros. lia.
Qed.

Lemma sumEntries_delete tr k :
  sumEntries (delete k tr) = sumEntries tr - default 0 (tr !! k).
Proof.
  destruct (tr !! k) as [v|] eqn:Hk; simpl.
  - rewrite <- (insert_id tr k v Hk) at 2.
    rewrite <- insert_delete_eq.
    rewrite sumEntries_insert_fresh by apply lookup_delete_eq. lia.
  - rewrite delete_id by done. lia.
Qed.

Lemma sumEntries_insert tr k v :
  sumEntries (<[k := v]> tr) = sumEntries tr - default 0 (tr !! k) + v.
Proof.
  rewrite <- insert_delete_eq.
  rewrite sumEntries_insert_fresh by apply lookup_delete_eq.
  by rewrite sumEntries_delete.
Qed.

Lemma sumEntries_credit tr k n :
  sumEntries (credit k n tr) = sumEntries tr + n.
Proof. unfold credit. rewrite sumEntries_insert. lia. Qed.

Lemma sumEntries_attackerAfter p k n :
  n <= troopsAt p k ->
  sumEntries (attackerAfter p k n) = sumEntries (troops p) - n.
Proof.
  intros Hn. unfold attackerAfter, storeOrDelete, troopsAt in *.
  case_decide.
  - rewrite sumEntries_delete. lia.
  - rewrite sumEntries_insert. lia.
Qed.

Lemma Effect_identity s a p p' : Effect s a p p' -> same_identity p p'.
Proof.
  intros [sid now q q' _ (pp & _ & ->)%collectedPlayer_Some| | | |]; done.
Qed.

Lemma Effect_inventory s a p p' :
  Effect s a p p' -> 0 <= inventory p -> 0 <= inventory p'.
Proof.
  intros [sid now q q' ? (pp & _ & ->)%collectedPlayer_Some| | | |] Hnn;
    simpl; lia.
Qed.

(** The record a tick makes of a stored one. *)
Lemma tick_step_lookup (ps : gmap Token Player) tok p :
  map_Forall (fun _ p => is_Some (tickPlayer p)) ps ->
  ps !! tok = Some p ->
  exists p', omap tickPlayer ps !! tok = Some p' /\ tickPlayer p = Some p'.
Proof.
  intros Hall Hp. destruct (Hall _ _ Hp) as [p' Hp']. exists p'.
  split; [|done]. by rewrite lookup_omap, Hp.
Qed.

(** X4: player records are never removed, and keep their identity.  After
    any sequence of actions every player that existed still exists; unless
    a join was issued with that very token, the record still carries the
    same token, name, faction, recruitment duration and reserve cap. *)
Theorem players_persist (cfg : Config) (l : list Action)
    (s s' : State) (evs : list Event) (tok : Token) (p : Player) :
  run cfg s l = Done s' evs ->
  players s !! tok = Some p ->
  exists p', players s' !! tok = Some p'
    /\ (Forall (not_join_of tok) l -> same_identity p p').
Proof.
  revert s s' evs p. induction l as [|a l IH]; intros s s' evs p Hrun Hp;
    simpl in Hrun.
  - inversion Hrun; subst. exists p. by split.
  - destruct (step cfg s a) as [s1 evs1| |] eqn:Hs; [|done..].
    destruct (run cfg s1 l) as [s2 evs2| |] eqn:Hr; [|done..].
    inversion Hrun; subst.
    assert (exists p1, players s1 !! tok = Some p1
              /\ (not_join_of tok a -> same_identity p p1))
      as (p1 & Hp1 & Hid1).
    { pose proof (step_players cfg s a s1 evs1 Hs) as H.
      inversion H as [Heq | Ha Hall Heq | sid tok' q q' Hsock Hres Heff Heq
                     | sid now tok' nm fid Ha Heq].
      - exists p. by split.
      - destruct (tick_step_lookup _ _ _ Hall Hp) as (p1 & -> & Hp1).
        eexists. split; [done|]. intros _. by eapply tickPlayer_fields.
      - destruct (decide (tok' = tok)) as [->|Hne].
        + rewrite lookup_insert_eq. eexists. split; [done|]. intros _.
          apply resolve_Some in Hres as (_ & _ & Hq).
          assert (q = p) as -> by congruence. by eapply Effect_identity.
        + rewrite lookup_insert_ne by done. exists p. by split.
      - destruct (decide (tok' = tok)) as [->|Hne].
        + rewrite lookup_insert_eq. eexists. split; [done|].
          intros Hnj. by destruct (Hnj sid now nm fid).
        + rewrite lookup_insert_ne by done. exists p. by split. }
    destruct (IH s1 s' evs2 p1 Hr Hp1) as (p' & Hp' & Hid').
    exists p'. split; [done|]. intros Hl.
    inversion Hl as [|?? Ha Hl']; subst.
    destruct (Hid1 Ha) as (? & ? & ? & ? & ?).
    destruct (Hid' Hl') as (? & ? & ? & ? & ?).
    repeat split; congruence.
Qed.

Lemma players_persist_witness :
  exists s' evs p',
    run defaultCfg demoJoined
      [Disconnect "a"; Tick; Connection "c" "ip9";
       Join "c" 5 "t9" "carol" "f2"] = Done s' evs
    /\ players s' !! "t1" = Some p'
    /\ name p' = "alice" /\ factionId p' = "f1".
Proof.
  destruct (run defaultCfg demoJoined
              [Disconnect "a"; Tick; Connection "c" "ip9";
               Join "c" 5 "t9" "carol" "f2"]) as [s' evs| |] eqn:Hrun;
    [|vm_compute in Hrun; discriminate Hrun..].
  assert (players demoJoined !! "t1" = Some (playerOf demoJoined "t1")) as Hp
    by by_eval.
  destruct (players_persist _ _ _ _ _ _ _ Hrun Hp) as (p' & Hp' & Hid).
  destruct Hid as (_ & Hn & Hf & _).
  { repeat (apply Forall_cons; [intros ????; discriminate|]).
    apply Forall_nil. }
  vm_compute in Hn. vm_compute in Hf.
  exists s', evs, p'. split; [reflexivity|]. split; [exact Hp'|].
  split; [exact Hn|exact Hf].
Defined.

Lemma step_inventory_nonneg cfg s a s' evs :
  inventory_nonneg (players s) ->
  step cfg s a = Done s' evs ->
  inventory_nonneg (players s').
Proof.
  intros Hinv Hs. pose proof (step_players cfg s a s' evs Hs) as H.
  inversion H as [Heq | Ha Hall Heq | sid tok' q q' Hsock Hres Heff Heq
                 | sid now tok' nm fid Ha Heq].
  - done.
  - intros tok p' Hp'. rewrite lookup_omap in Hp'.
    destruct (players s !! tok) as [p|] eqn:Hp; [|done]. simpl in Hp'.
    destruct (tickPlayer_fields _ _ Hp') as (_ & -> & _).
    exact (Hinv _ _ Hp).
  - apply map_Forall_insert_2; [|done].
    apply resolve_Some in Hres as (_ & _ & Hq).
    eapply Effect_inventory; [done|]. exact (Hinv _ _ Hq).
  - apply map_Forall_insert_2; [|done]. done.
Qed.

(** X5: nobody's inventory goes below zero.  If every inventory is
    non-negative, it is still so after any sequence of actions: [deploy]
    spends at most what the player holds and nothing else takes from it. *)
Theorem inventory_never_negative (cfg : Config) (l : list Action)
    (s s' : State) (evs : list Event) :
  inventory_nonneg (players s) ->
  run cfg s l = Done s' evs ->
  inventory_nonneg (players s').
Proof.
  apply (run_invariant cfg (fun st => inventory_nonneg (players st))).
  intros. by eapply step_inventory_nonneg.
Qed.

Lemma inventory_never_negative_witness :
  exists s' evs,
    run defaultCfg demoBoot demoCampaign = Done s' evs
    /\ inventory_nonneg (players s')
    /\ (inventory <$> players s' !! "t1") = Some 3.
Proof.
  destruct (run defaultCfg demoBoot demoCampaign) as [s' evs| |] eqn:Hrun;
    [|vm_compute in Hrun; discriminate Hrun..].
  exists s', evs. split; [reflexivity|]. split.
  - apply (inventory_never_negative defaultCfg demoCampaign demoBoot s' evs);
      [|exact Hrun].
    apply map_Forall_empty.
  - assert (finalState (run defaultCfg demoBoot demoCampaign)
              ≫= (fun st => inventory <$> players st !! "t1") = Some 3) as E
      by by_eval.
    rewrite Hrun in E. exact E.
Defined.

Lemma Effect_holdings s a p p' :
  Effect s a p p' ->
  match a with
  | Attack _ _ _ targetId amount =>
      exists target, tiles s !! targetId = Some target
        /\ holdings p'
           = holdings p - Z.min (normAmount amount) (control target)
  | RecruitCollect _ _ =>
      produced p > 0 /\ holdings p' = holdings p + produced p
  | Deploy _ _ _ _ | Move _ _ _ _ _ => holdings p' = holdings p
  | _ => False
  end.
Proof.
  intros [sid now q q' Hprod (pp & _ & ->)%collectedPlayer_Some
         |sid now targetId amount q Hn
         |sid now fromId toId amount q Hn Hne
         |sid now fromId targetId amount q target Hn Hne Ht Hgt
         |sid now fromId targetId amount q target Hn Ht Hle];
    unfold holdings; simpl.
  - split; [done|]. lia.
  - rewrite sumEntries_credit. lia.
  - rewrite sumEntries_credit, sumEntries_attackerAfter by lia. lia.
  - exists target. split; [done|].
    rewrite sumEntries_credit, sumEntries_attackerAfter by lia. lia.
  - exists target. split; [done|].
    rewrite sumEntries_attackerAfter by lia. lia.
Qed.

Lemma holdings_step cfg s a s' evs tok p :
  step cfg s a = Done s' evs ->
  players s !! tok = Some p ->
  ~ is_attack a ->
  not_join_of tok a ->
  exists p', players s' !! tok = Some p' /\ holdings p <= holdings p'.
Proof.
  intros Hs Hp Hna Hnj. pose proof (step_players cfg s a s' evs Hs) as H.
  inversion H as [Heq | Ha Hall Heq | sid tok' q q' Hsock Hres Heff Heq
                 | sid now tok' nm fid Ha Heq].
  - exists p. split; [done|lia].
  - destruct (tick_step_lookup _ _ _ Hall Hp) as (p1 & -> & Hp1).
    eexists. split; [done|].
    destruct (tickPlayer_fields _ _ Hp1) as (_ & Hi & Ht).
    unfold holdings. rewrite Hi, Ht. lia.
  - destruct (decide (tok' = tok)) as [->|Hne].
    + rewrite lookup_insert_eq. eexists. split; [done|].
      apply resolve_Some in Hres as (_ & _ & Hq).
      assert (q = p) as -> by congruence.
      apply Effect_holdings in Heff. destruct a; try done; simpl in *; lia.
    + rewrite lookup_insert_ne by done. exists p. split; [done|lia].
  - destruct (decide (tok' = tok)) as [->|Hne].
    + by destruct (Hnj sid now nm fid).
    + rewrite lookup_insert_ne by done. exists p. split; [done|lia].
Qed.

(** X6: the books of one action.  For a player that exists before a step
    (and whose token is not reused by a join), with
    [holdings = inventory + sum of the troops entries]: deploys, moves,
    ticks, connections and disconnections leave the holdings as they are; a
    collection leaves them or adds the collected [produced]; an attack
    leaves them or costs the attacker exactly [min(n, control)] of the
    target, [n] being the floored amount: the defenders met in a capture,
    everything sent when repelled. *)
Theorem holdings_accounting (cfg : Config) (s : State) (a : Action)
    (s' : State) (evs : list Event) (tok : Token) (p : Player) :
  step cfg s a = Done s' evs ->
  players s !! tok = Some p ->
  not_join_of tok a ->
  exists p', players s' !! tok = Some p'
    /\ match a with
       | Attack _ _ _ targetId amount =>
           holdings p' = holdings p
           \/ exists target, tiles s !! targetId = Some target
                /\ holdings p'
                   = holdings p - Z.min (normAmount amount) (control target)
       | RecruitCollect _ _ =>
           holdings p' = holdings p
           \/ (produced p > 0 /\ holdings p' = holdings p + produced p)
       | _ => holdings p' = holdings p
       end.
Proof.
  intros Hs Hp Hnj. pose proof (step_players cfg s a s' evs Hs) as H.
  inversion H as [Heq | Ha Hall Heq | sid tok' q q' Hsock Hres Heff Heq
                 | sid now tok' nm fid Ha Heq].
  - exists p. split; [done|]. destruct a; auto.
  - subst a. destruct (tick_step_lookup _ _ _ Hall Hp) as (p1 & -> & Hp1).
    eexists. split; [done|].
    destruct (tickPlayer_fields _ _ Hp1) as (_ & Hi & Ht).
    unfold holdings. by rewrite Hi, Ht.
  - destruct (decide (tok' = tok)) as [->|Hne].
    + rewrite lookup_insert_eq. eexists. split; [done|].
      apply resolve_Some in Hres as (_ & _ & Hq).
      assert (q = p) as -> by congruence.
      apply Effect_holdings in Heff. destruct a; try done; by right.
    + rewrite lookup_insert_ne by done. exists p. split; [done|].
      destruct a; auto.
  - destruct (decide (tok' = tok)) as [->|Hne].
    + by destruct (Hnj sid now nm fid).
    + rewrite lookup_insert_ne by done. exists p. split; [done|].
      by subst a.
Qed.

Lemma holdings_accounting_witness :
  exists s' evs p',
    step richCfg demoFront (Attack "a" 0 (2, 0) (3, 0) (200 # 1))
      = Done s' evs
    /\ players s' !! "t1" = Some p'
    /\ holdings (playerOf demoFront "t1") = 475
    /\ holdings p' = 375.
Proof.
  destruct (step richCfg demoFront (Attack "a" 0 (2, 0) (3, 0) (200 # 1)))
    as [s' evs| |] eqn:Hrun; [|vm_compute in Hrun; discriminate Hrun..].
  assert (players demoFront !! "t1" = Some (playerOf demoFront "t1")) as Hp
    by by_eval.
  destruct (holdings_accounting _ _ _ _ _ _ _ Hrun Hp) as (p' & Hp' & Hacc).
  { intros ????. discriminate. }
  assert (finalState (step richCfg demoFront
                        (Attack "a" 0 (2, 0) (3, 0) (200 # 1)))
            ≫= (fun st => holdings <$> players st !! "t1") = Some 375) as E
    by by_eval.
  rewrite Hrun in E. simpl in E. rewrite Hp' in E. simpl in E.
  injection E as E.
  exists s', evs, p'. split; [reflexivity|]. split; [exact Hp'|].
  split; [by_eval|exact E].
Defined.

(** X7: troops are lost in combat only.  Along any sequence of actions
    without an attack (and without a join reusing the player's token), a
    player's holdings never decrease. *)
Theorem holdings_only_lost_in_attacks (cfg : Config) (l : list Action)
    (s s' : State) (evs : list Event) (tok : Token) (p : Player) :
  run cfg s l = Done s' evs ->
  players s !! tok = Some p ->
  Forall (fun a => ~ is_attack a /\ not_join_of tok a) l ->
  exists p', players s' !! tok = Some p' /\ holdings p <= holdings p'.
Proof.
  revert s s' evs p. induction l as [|a l IH]; intros s s' evs p Hrun Hp Hl;
    simpl in Hrun.
  - inversion Hrun; subst. exists p. split; [done|lia].
  - destruct (step cfg s a) as [s1 evs1| |] eqn:Hs; [|done..].
    destruct (run cfg s1 l) as [s2 evs2| |] eqn:Hr; [|done..].
    inversion Hrun; subst. inversion Hl as [|?? [Hna Hnj] Hl']; subst.
    destruct (holdings_step cfg s a s1 evs1 tok p Hs Hp Hna Hnj)
      as (p1 & Hp1 & Hle1).
    destruct (IH s1 s' evs2 p1 Hr Hp1 Hl') as (p' & Hp' & Hle').
    exists p'. split; [done|lia].
Qed.

Lemma holdings_only_lost_in_attacks_witness :
  exists s' evs p',
    run defaultCfg demoJoined
      [Move "a" 0 (0, 0) (1, 0) (60 # 1); Tick; Tick; Tick;
       RecruitCollect "a" 0; Deploy "a" 0 (1, 0) (7 # 1)] = Done s' evs
    /\ players s' !! "t1" = Some p'
    /\ 100 <= holdings p'.
Proof.
  destruct (run defaultCfg demoJoined
              [Move "a" 0 (0, 0) (1, 0) (60 # 1); Tick; Tick; Tick;
               RecruitCollect "a" 0; Deploy "a" 0 (1, 0) (7 # 1)])
    as [s' evs| |] eqn:Hrun; [|vm_compute in Hrun; discriminate Hrun..].
  assert (players demoJoined !! "t1" = Some (playerOf demoJoined "t1")) as Hp
    by by_eval.
  destruct (holdings_only_lost_in_attacks _ _ _ _ _ _ _ Hrun Hp)
    as (p' & Hp' & Hle).
  { repeat (apply Forall_cons;
            [split; [simpl; tauto|intros ????; discriminate]|]).
    apply Forall_nil. }
  replace (holdings (playerOf demoJoined "t1")) with 100 in Hle by by_eval.
  exists s', evs, p'. split; [reflexivity|]. split; [exact Hp'|exact Hle].
Defined.

(** * The troops mapping *)

(** C5: with a positive starting garrison configured (the default is 100),
    in every state the server reaches from boot, by any sequence of
    connections, joins, collections, deploys, moves, attacks and ticks, no
    player's [troops] holds a zero or negative entry, and a key is absent
    exactly when the player has no troops on the tile.  The entries are
    debited by [move] and [attack] only: when such an action of the player
    is carried out from a tile to another one, the entry of the tile it
    leaves is the count minus the floored amount, and it is removed when
    this difference is not positive; otherwise the record is the one there
    was. *)
Theorem troops_entries_positive (cfg : Config) (ts : gmap TileId Tile)
    (fs : list Faction) (caps : gmap FactionId TileId) (s : State)
    (tok : Token) (p : Player) :
  0 < START_TROOPS cfg ->
  reachable cfg (boot ts fs caps) s ->
  players s !! tok = Some p ->
  (forall k v, troops p !! k = Some v -> 0 < v)
  /\ (forall k, troops p !! k = None <-> troopsAt p k = 0)
  /\ (forall a s' evs p' k,
        step cfg s a = Done s' evs ->
        players s' !! tok = Some p' ->
        troopsAt p' k <= 0 ->
        troops p' !! k = None)
  /\ forall sid now fromId toId amount a s' evs p',
       a = Move sid now fromId toId amount
       \/ a = Attack sid now fromId toId amount ->
       resolve s sid = Some (tok, p) ->
       step cfg s a = Done s' evs ->
       players s' !! tok = Some p' ->
       fromId <> toId ->
       p' = p
       \/ troops p' !! fromId
          = if decide (troopsAt p fromId - normAmount amount <= 0) then None
            else Some (troopsAt p fromId - normAmount amount).
Proof.
  intros Hstart Hreach Hp.
  assert (troops_positive s) as Hinv.
  { clear Hp. induction Hreach as [|s1 a s2 evs _ IH Hstep].
    - apply map_Forall_empty.
    - exact (step_troops_positive cfg s1 a s2 evs Hstart IH Hstep). }
  split; [|split; [|split]].
  - intros k v Hk. exact (Hinv _ _ Hp _ _ Hk).
  - intros k. unfold troopsAt.
    destruct (troops p !! k) as [v|] eqn:Hk; simpl; [|done].
    pose proof (Hinv _ _ Hp _ _ Hk) as Hv. simpl in Hv.
    split; [done|lia].
  - intros a s' evs p' k Hstep Hp' Hzero.
    pose proof (step_troops_positive cfg s a s' evs Hstart Hinv Hstep) as Hinv'.
    unfold troopsAt in Hzero.
    destruct (troops p' !! k) as [v'|] eqn:Hk'; [|done].
    pose proof (Hinv' _ _ Hp' _ _ Hk') as Hv. simpl in Hv, Hzero. lia.
  - intros sid now fromId toId amount a s' evs p' Ha Hres Hstep Hp' Hne.
    pose proof (step_players cfg s a s' evs Hstep) as HPS.
    inversion HPS as [Heq | Ha' Hall Heq
                     | sid0 tok0 p0 p0' Hsock Hres0 Heff Heq
                     | sid0 now0 tok0 nm fid Ha' Heq].
    + left. rewrite <- Heq in Hp'. congruence.
    + destruct Ha as [-> | ->]; discriminate Ha'.
    + assert (sid0 = sid) as ->
        by (destruct Ha as [-> | ->]; simpl in Hsock; congruence).
      rewrite Hres in Hres0. inversion Hres0; subst tok0 p0.
      rewrite <- Heq, lookup_insert_eq in Hp'. inversion Hp'; subst p0'.
      right.
      assert (attackerAfter p fromId (normAmount amount) !! fromId
              = if decide (troopsAt p fromId - normAmount amount <= 0)
                then None
                else Some (troopsAt p fromId - normAmount amount)) as Hdebit.
      { unfold attackerAfter, storeOrDelete. case_decide.
        - by rewrite lookup_delete_eq.
        - by rewrite lookup_insert_eq. }
      destruct Ha as [-> | ->]; inversion Heff; subst; simpl;
        unfold credit; rewrite ?lookup_insert_ne by done; exact Hdebit.
    + destruct Ha as [-> | ->]; discriminate Ha'.
Qed.

(** alice holds 60 troops on [(1,0)] and moves them all back to her
    capital: the entry for [(1,0)] is removed, not kept at zero, and the
    capital holds 100 again. *)
Lemma troops_entries_positive_witness :
  exists s' evs,
    step defaultCfg demoGarrisoned (Move "a" 0 (1, 0) (0, 0) (60 # 1))
    = Done s' evs
    /\ troops (playerOf demoGarrisoned "t1") !! (1, 0) = Some 60
    /\ troops (playerOf s' "t1") !! (1, 0) = None
    /\ troops (playerOf s' "t1") !! (0, 0) = Some 100.
Proof.
  destruct (step defaultCfg demoGarrisoned (Move "a" 0 (1, 0) (0, 0) (60 # 1)))
    as [s' evs| |] eqn:Hstep; [|vm_compute in Hstep; discriminate Hstep..].
  exists s', evs. split; [reflexivity|]. split; [by_eval|].
  assert (finalState
            (step defaultCfg demoGarrisoned
               (Move "a" 0 (1, 0) (0, 0) (60 # 1)))
            ≫= (fun st => players st !! "t1")
          = Some (playerOf demoReturned "t1")) as E by by_eval.
  rewrite Hstep in E. simpl in E.
  assert (playerOf s' "t1" = playerOf demoReturned "t1") as Ep
    by (unfold playerOf at 1; by rewrite E).
  split; [|rewrite Ep; by_eval].
  destruct (troops_entries_positive defaultCfg demoTiles demoFactions demoCaps
              demoGarrisoned "t1" (playerOf demoGarrisoned "t1"))
    as (_ & _ & _ & Hdebit).
  - reflexivity.
  - apply demoGarrisoned_reachable.
  - by_eval.
  - destruct (Hdebit "a" 0 (1, 0) (0, 0) (60 # 1) _ s' evs
                (playerOf s' "t1") (or_introl eq_refl)) as [Hsame | Hgone].
    + by_eval.
    + exact Hstep.
    + by rewrite Ep.
    + discriminate.
    + exfalso. rewrite Ep in Hsame.
      assert (troops (playerOf demoReturned "t1") !! (1, 0)
              = troops (playerOf demoGarrisoned "t1") !! (1, 0)) as Habs
        by (by rewrite Hsame).
      vm_compute in Habs. discriminate Habs.
    + rewrite Hgone. by_eval.
Defined.

(** C5 (as stated) fails: started with [START_TROOPS=0], the server stores
    the entry 0 for the capital of a player who joins. *)
Lemma join_stores_zero_entry : ~ entries_always_positive zeroCfg demoBoot.
Proof.
  intros H.
  pose (s := stateAfter zeroCfg demoBoot
               [Connection "a" "ip1"; Join "a" 0 "t1" "alice" "f1"]).
  assert (0 < 0) as Habs; [|lia].
  apply (H s "t1" (playerOf s "t1") (0, 0) 0).
  - apply stateAfter_reachable. constructor.
  - by_eval.
  - by_eval.
Qed.

(** * Moves and chains of moves *)







Lemma last_cons_default {A} (rest : list A) (b a : A) :
  List.last (b :: rest) a = List.last rest b.
Proof.
  revert b a. induction rest as [|c r IH]; intros b a; [done|].
  change (List.last (b :: c :: r) a) with (List.last (c :: r) a).
  by rewrite (IH c a), (IH c b).
Qed.






(** * The action limiter *)

Lemma Qcmin_le_l (a b : Qc) : (Qcmin a b <= a)%Qc.
Proof.
  unfold Qcmin. case_decide.
  - by apply Qclt_le_weak.
  - apply Qcle_refl.
Qed.

Lemma Qcmin_glb (a b c : Qc) : (c <= a)%Qc -> (c <= b)%Qc -> (c <= Qcmin a b)%Qc.
Proof. intros Ha Hb. unfold Qcmin. by case_decide. Qed.

Lemma Z2Qc_le (a b : Z) : a <= b -> (Z2Qc a <= Z2Qc b)%Qc.
Proof.
  intros H. unfold Z2Qc, Qcle. simpl. rewrite !Qred_correct.
  by rewrite <- Zle_Qle.
Qed.

Lemma Z2Qc_succ (a : Z) : Z2Qc (a + 1) = (Z2Qc a + 1)%Qc.
Proof.
  unfold Z2Qc. apply Qc_is_canon. simpl. rewrite !Qred_correct.
  rewrite inject_Z_plus. reflexivity.
Qed.

Lemma Qcmult_nonneg (a b : Qc) : (0 <= a)%Qc -> (0 <= b)%Qc -> (0 <= a * b)%Qc.
Proof.
  unfold Qcle. simpl. intros Ha Hb. change (Qred 0) with 0%Q in *.
  rewrite Qred_correct. by apply Qmult_le_0_compat.
Qed.

Lemma elapsed_nonneg (d : Z) :
  0 <= d -> (0 <= Q2Qc (inject_Z d) / Q2Qc 1000)%Qc.
Proof.
  intros H. unfold Qcdiv. apply Qcmult_nonneg.
  - change 0%Qc with (Z2Qc 0). by apply Z2Qc_le.
  - unfold Qcle. vm_compute. discriminate.
Qed.

Lemma consume_admits (l : Limiter) (now : Z) :
  (0 <= lim_refillPerSec l)%Qc ->
  (lim_tokens l <= lim_capacity l)%Qc ->
  (1 <= lim_tokens l)%Qc ->
  lim_last l <= now ->
  fst (consume l now) = true
  /\ (lim_tokens l - 1 <= lim_tokens (snd (consume l now)))%Qc
  /\ (lim_tokens (snd (consume l now))
      <= lim_capacity (snd (consume l now)))%Qc
  /\ lim_refillPerSec (snd (consume l now)) = lim_refillPerSec l
  /\ lim_last (snd (consume l now)) = now.
Proof.
  intros Hr Hcap H1 Hnow. unfold consume.
  set (delta := (Q2Qc (inject_Z (now - lim_last l)) / Q2Qc 1000)%Qc).
  assert (0 <= delta * lim_refillPerSec l)%Qc as Hd.
  { apply Qcmult_nonneg; [|done]. apply elapsed_nonneg. lia. }
  assert (lim_tokens l <= lim_tokens l + delta * lim_refillPerSec l)%Qc
    as Hup.
  { rewrite <- (Qcplus_0_r (lim_tokens l)) at 1.
    apply Qcplus_le_compat; [apply Qcle_refl|done]. }
  set (toks := Qcmin (lim_capacity l)
                 (lim_tokens l + delta * lim_refillPerSec l)%Qc).
  assert (lim_tokens l <= toks)%Qc as Hge by by apply Qcmin_glb.
  assert (toks <= lim_capacity l)%Qc as Hle by apply Qcmin_le_l.
  destruct (decide (1 <= toks)%Qc) as [_|Hn]; simpl.
  - split; [done|]. split.
    { unfold Qcminus. apply Qcplus_le_compat; [done|apply Qcle_refl]. }
    split; [|done].
    apply Qcle_trans with toks; [|done].
    rewrite <- (Qcplus_0_r toks) at 2. unfold Qcminus.
    apply Qcplus_le_compat; [apply Qcle_refl|]. vm_compute. discriminate.
  - destruct Hn. by apply Qcle_trans with (lim_tokens l).
Qed.

Lemma Z2Qc_one : Z2Qc 1 = 1%Qc.
Proof. apply Qc_is_canon. reflexivity. Qed.

Lemma Z2Qc_zero : Z2Qc 0 = 0%Qc.
Proof. apply Qc_is_canon. reflexivity. Qed.

Lemma Z2Qc_plus (a b : Z) : Z2Qc (a + b) = (Z2Qc a + Z2Qc b)%Qc.
Proof.
  unfold Z2Qc. apply Qc_is_canon. simpl. rewrite !Qred_correct.
  rewrite inject_Z_plus. reflexivity.
Qed.

Lemma Qcle_sub_r (a b c : Qc) : (a + c <= b)%Qc -> (a <= b - c)%Qc.
Proof.
  intros H. replace a with (a + c - c)%Qc by ring.
  unfold Qcminus. apply Qcplus_le_compat; [done|apply Qcle_refl].
Qed.

Lemma consume_fields (l : Limiter) (now : Z) :
  lim_capacity (snd (consume l now)) = lim_capacity l
  /\ lim_refillPerSec (snd (consume l now)) = lim_refillPerSec l
  /\ lim_last (snd (consume l now)) = now.
Proof. unfold consume. by case_decide. Qed.

(** X9: a limiter that holds at least [m] tokens (and no more than its
    capacity, with a refill rate that is not negative) admits the next [m]
    actions, whenever they come, as long as the clock does not run
    backwards. *)
Theorem limiter_admits_burst (l : Limiter) (nows : list Z) :
  (0 <= lim_refillPerSec l)%Qc ->
  (lim_tokens l <= lim_capacity l)%Qc ->
  (Z2Qc (Z.of_nat (length nows)) <= lim_tokens l)%Qc ->
  inOrderFrom (lim_last l) nows ->
  admitsAll l nows.
Proof.
  revert l. induction nows as [|now rest IH]; intros l Hr Hcap Hm Hord;
    [exact I|].
  destruct Hord as [Hnow Hord].
  change (length (now :: rest)) with (S (length rest)) in Hm.
  rewrite Nat2Z.inj_succ, <- Z.add_1_r, Z2Qc_succ in Hm.
  assert (1 <= lim_tokens l)%Qc as H1.
  { apply Qcle_trans with (Z2Qc (Z.of_nat (length rest)) + 1)%Qc; [|done].
    rewrite <- (Qcplus_0_l 1) at 1.
    apply Qcplus_le_compat; [|apply Qcle_refl].
    rewrite <- Z2Qc_zero. apply Z2Qc_le. lia. }
  destruct (consume_admits l now Hr Hcap H1 Hnow)
    as (Hok & Hge & Hle & Hr' & Hlast).
  split; [exact Hok|]. apply IH.
  - by rewrite Hr'.
  - exact Hle.
  - apply Qcle_trans with (lim_tokens l - 1)%Qc; [|done].
    by apply Qcle_sub_r.
  - by rewrite Hlast.
Qed.

Lemma limiter_admits_burst_witness :
  admitsAll (makeLimiter 5) [5; 5; 7; 9; 9].
Proof.
  apply limiter_admits_burst.
  - vm_compute. discriminate.
  - vm_compute. discriminate.
  - vm_compute. discriminate.
  - repeat split; vm_compute; discriminate.
Defined.

Lemma Qcmin_le_r (a b : Qc) : (Qcmin a b <= b)%Qc.
Proof.
  unfold Qcmin. case_decide as H; [apply Qcle_refl|by apply Qcnot_lt_le].
Qed.

Lemma elapsedSec_diag (a : Z) : elapsedSec a a = 0%Qc.
Proof.
  unfold elapsedSec. rewrite Z.sub_diag. apply Qc_is_canon. reflexivity.
Qed.

Lemma elapsedSec_add (a b c : Z) :
  (elapsedSec a b + elapsedSec b c)%Qc = elapsedSec a c.
Proof.
  unfold elapsedSec. fold (Z2Qc (b - a)) (Z2Qc (c - b)) (Z2Qc (c - a)).
  replace (c - a) with ((b - a) + (c - b)) by lia. rewrite Z2Qc_plus.
  unfold Qcdiv. ring.
Qed.

Lemma consume_budget (l : Limiter) (now : Z) :
  (Z2Qc (Z.of_nat (if fst (consume l now) then 1 else 0))
   + lim_tokens (snd (consume l now))
   <= lim_tokens l + elapsedSec (lim_last l) now * lim_refillPerSec l)%Qc.
Proof.
  unfold consume, elapsedSec.
  set (toks := Qcmin _ _). pose proof (Qcmin_le_r (lim_capacity l)
    (lim_tokens l + Q2Qc (inject_Z (now - lim_last l)) / Q2Qc 1000
                    * lim_refillPerSec l)%Qc) as H.
  fold toks in H. destruct (decide (1 <= toks)%Qc); cbn [fst snd lim_tokens].
  - change (Z.of_nat 1) with 1. rewrite Z2Qc_one.
    by replace (1 + (toks - 1))%Qc with toks by ring.
  - change (Z.of_nat 0) with 0. rewrite Z2Qc_zero. by rewrite Qcplus_0_l.
Qed.

Lemma consume_nonneg (l : Limiter) (now : Z) :
  (0 <= lim_tokens l)%Qc -> (0 <= lim_capacity l)%Qc ->
  (0 <= lim_refillPerSec l)%Qc -> lim_last l <= now ->
  (0 <= lim_tokens (snd (consume l now)))%Qc.
Proof.
  intros Ht Hc Hr Hnow. unfold consume.
  set (toks := Qcmin _ _).
  assert (0 <= toks)%Qc as H0.
  { apply Qcmin_glb; [done|]. rewrite <- (Qcplus_0_l 0).
    apply Qcplus_le_compat; [done|].
    apply Qcmult_nonneg; [|done]. apply elapsed_nonneg. lia. }
  destruct (decide (1 <= toks)%Qc) as [H1|]; simpl; [|done].
  apply Qcle_sub_r. by rewrite Qcplus_0_l.
Qed.

Lemma consumed_fields (l : Limiter) (nows : list Z) :
  lim_capacity (consumed l nows) = lim_capacity l
  /\ lim_refillPerSec (consumed l nows) = lim_refillPerSec l
  /\ lim_last (consumed l nows) = List.last nows (lim_last l).
Proof.
  revert l. induction nows as [|now rest IH]; intros l; [done|].
  destruct (consume_fields l now) as (Hc & Hr & Hl).
  destruct (IH (snd (consume l now))) as (Hc' & Hr' & Hl').
  change (consumed l (now :: rest)) with (consumed (snd (consume l now)) rest).
  rewrite Hc', Hr', Hl', Hc, Hr, Hl.
  by rewrite (last_cons_default rest now (lim_last l)).
Qed.

Lemma consumed_budget (l : Limiter) (nows : list Z) :
  (Z2Qc (Z.of_nat (admittedCount l nows)) + lim_tokens (consumed l nows)
   <= lim_tokens l
      + elapsedSec (lim_last l) (List.last nows (lim_last l))
        * lim_refillPerSec l)%Qc.
Proof.
  revert l. induction nows as [|now rest IH]; intros l.
  - cbn [admittedCount consumed List.last]. change (Z.of_nat 0) with 0.
    rewrite Z2Qc_zero, Qcplus_0_l, elapsedSec_diag, Qcmult_0_l, Qcplus_0_r.
    apply Qcle_refl.
  - pose proof (consume_budget l now) as H1.
    pose proof (IH (snd (consume l now))) as H2.
    destruct (consume_fields l now) as (_ & Hr & Hl).
    rewrite Hr, Hl in H2.
    rewrite (last_cons_default rest now (lim_last l)).
    rewrite <- (elapsedSec_add (lim_last l) now (List.last rest now)).
    change (admittedCount l (now :: rest))
      with ((if fst (consume l now) then 1 else 0)
            + admittedCount (snd (consume l now)) rest)%nat.
    change (consumed l (now :: rest))
      with (consumed (snd (consume l now)) rest).
    rewrite Nat2Z.inj_add, Z2Qc_plus.
    set (b := Z2Qc (Z.of_nat (if fst (consume l now) then 1 else 0))) in *.
    set (A := Z2Qc (Z.of_nat (admittedCount (snd (consume l now)) rest))) in *.
    set (tf := lim_tokens (consumed (snd (consume l now)) rest)) in *.
    set (t1 := lim_tokens (snd (consume l now))) in *.
    set (e1 := elapsedSec (lim_last l) now) in *.
    set (e2 := elapsedSec now (List.last rest now)) in *.
    set (r := lim_refillPerSec l) in *. set (t0 := lim_tokens l) in *.
    replace (b + A + tf)%Qc with (b + (A + tf))%Qc by ring.
    apply Qcle_trans with (b + (t1 + e2 * r))%Qc.
    { apply Qcplus_le_compat; [apply Qcle_refl|done]. }
    replace (b + (t1 + e2 * r))%Qc with ((b + t1) + e2 * r)%Qc by ring.
    replace (t0 + (e1 + e2) * r)%Qc with ((t0 + e1 * r) + e2 * r)%Qc by ring.
    apply Qcplus_le_compat; [done|apply Qcle_refl].
Qed.

Lemma consumed_nonneg (l : Limiter) (nows : list Z) :
  (0 <= lim_tokens l)%Qc -> (0 <= lim_capacity l)%Qc ->
  (0 <= lim_refillPerSec l)%Qc -> inOrderFrom (lim_last l) nows ->
  (0 <= lim_tokens (consumed l nows))%Qc.
Proof.
  revert l. induction nows as [|now rest IH]; intros l Ht Hc Hr Hord;
    [done|].
  destruct Hord as [Hnow Hord].
  destruct (consume_fields l now) as (Hc' & Hr' & Hl').
  apply IH.
  - by apply consume_nonneg.
  - by rewrite Hc'.
  - by rewrite Hr'.
  - by rewrite Hl'.
Qed.

(** X10: a limiter never admits more actions than the tokens it held at
    the start plus what the refill rate yields over the time that has
    passed: of the actions arriving at the given times, in order, at most
    [tokens + refillPerSec * elapsed seconds] get through (exact
    arithmetic). *)
Theorem limiter_rate_bound (l : Limiter) (nows : list Z) :
  (0 <= lim_tokens l)%Qc -> (0 <= lim_capacity l)%Qc ->
  (0 <= lim_refillPerSec l)%Qc -> inOrderFrom (lim_last l) nows ->
  (Z2Qc (Z.of_nat (admittedCount l nows))
   <= lim_tokens l
      + elapsedSec (lim_last l) (List.last nows (lim_last l))
        * lim_refillPerSec l)%Qc.
Proof.
  intros Ht Hc Hr Hord.
  pose proof (consumed_budget l nows) as Hb.
  pose proof (consumed_nonneg l nows Ht Hc Hr Hord) as H0.
  eapply Qcle_trans; [|exact Hb].
  rewrite <- (Qcplus_0_r (Z2Qc (Z.of_nat (admittedCount l nows)))) at 1.
  apply Qcplus_le_compat; [apply Qcle_refl|done].
Qed.

Lemma limiter_rate_bound_witness :
  (0 <= lim_tokens (makeLimiter 0))%Qc
  /\ (Z2Qc (Z.of_nat (admittedCount (makeLimiter 0) (repeat 0%Z 25 ++ [100%Z; 100%Z])))
      <= Z2Qc 21)%Qc.
Proof.
  split; [vm_compute; discriminate|].
  pose proof (limiter_rate_bound (makeLimiter 0) (repeat 0%Z 25 ++ [100%Z; 100%Z]))
    as H.
  replace (lim_tokens (makeLimiter 0)
           + elapsedSec (lim_last (makeLimiter 0))
               (List.last (repeat 0%Z 25 ++ [100%Z; 100%Z])
                  (lim_last (makeLimiter 0)))
             * lim_refillPerSec (makeLimiter 0))%Qc with (Z2Qc 21) in H
    by (apply Qc_is_canon; reflexivity).
  apply H.
  - vm_compute. discriminate.
  - vm_compute. discriminate.
  - vm_compute. discriminate.
  - simpl. repeat split; lia.
Defined.

(** * The recruitment reserve *)

Lemma tickPlayer_production p p' :
  production_ok p -> tickPlayer p = Some p' -> production_ok p'.
Proof.
  intros (Hcap & Hrate & H0 & Hle & Hfl) Hp'.
  pose proof Hp' as (pp & Hpp & E)%tickPlayer_Some.
  apply toDouble_Some in Hpp.
  assert (tickAcc p <> S754_nan) as Hnan
    by (rewrite <- Hpp; apply dval_not_nan).
  subst p'. unfold production_ok. cbn [reserveCap producedPrecise produced
                                        set_production].
  split; [done|]. split; [exact Hrate|]. rewrite Hpp.
  split; [|split; [|done]].
  - apply fle_0_nonneg. by apply tickAcc_nonneg.
  - by apply tickAcc_le.
Qed.

Lemma collectedPlayer_production p p' :
  production_ok p -> produced p > 0 -> collectedPlayer p = Some p' ->
  production_ok p'.
Proof.
  intros (Hcap & Hrate & H0 & Hle & Hfl) Hpos
         (pp & Hpp & ->)%collectedPlayer_Some.
  destruct (collect_fraction (producedPrecise p))
    as (fr & Hfr & Hfl0 & Hnn & Hbelow); [lia|].
  rewrite <- Hfl in Hfr. rewrite Hfr in Hpp. injection Hpp as <-.
  unfold production_ok. cbn [reserveCap producedPrecise produced
                              set_production set_inventory].
  split; [done|]. split; [exact Hrate|]. split; [done|].
  split; [by apply Hbelow|by rewrite Hfl0].
Qed.

(** A collection from a reserve in range is carried out: what is left is
    the fraction of the accumulator, exactly. *)
Lemma collectedPlayer_total p :
  production_ok p -> produced p > 0 -> is_Some (collectedPlayer p).
Proof.
  intros (_ & _ & _ & _ & Hfl) Hpos.
  destruct (collect_fraction (producedPrecise p)) as (fr & Hfr & _); [lia|].
  rewrite <- Hfl in Hfr. unfold collectedPlayer. rewrite Hfr. by eexists.
Qed.

Lemma Effect_production s a p p' :
  Effect s a p p' -> production_ok p -> production_ok p'.
Proof.
  intros [] Hok; try exact Hok. by eapply collectedPlayer_production.
Qed.

Lemma joinedPlayer_production cfg s tok nm fid :
  production_ok (joinedPlayer cfg s tok nm fid).
Proof. repeat split; first [by_eval | vm_compute; discriminate]. Qed.

Lemma step_productions_ok cfg s a s' evs :
  productions_ok (players s) ->
  step cfg s a = Done s' evs ->
  productions_ok (players s').
Proof.
  intros Hinv Hs. pose proof (step_players cfg s a s' evs Hs) as H.
  inversion H as [Heq | Ha Hall Heq | sid tok' q q' Hsock Hres Heff Heq
                 | sid now tok' nm fid Ha Heq].
  - done.
  - intros tok p' Hp'. rewrite lookup_omap in Hp'.
    destruct (players s !! tok) as [p|] eqn:Hp; [|done]. simpl in Hp'.
    eapply tickPlayer_production; [|exact Hp']. exact (Hinv _ _ Hp).
  - apply map_Forall_insert_2; [|done].
    apply resolve_Some in Hres as (_ & _ & Hq).
    eapply Effect_production; [done|]. exact (Hinv _ _ Hq).
  - apply map_Forall_insert_2; [|done]. apply joinedPlayer_production.
Qed.

(** A collection leaves the embedding exactly where the engine stores
    [NaN] or an infinity. *)
Lemma collectedPlayer_is_Some p :
  is_Some (collectedPlayer p)
  <-> is_finite (Math_max (Z2F 0)
                   (SFsub prec emax (orZero (dval (producedPrecise p)))
                      (Z2F (produced p)))).
Proof.
  unfold collectedPlayer.
  set (y := SFsub prec emax (orZero (dval (producedPrecise p)))
              (Z2F (produced p))).
  assert (wf y) as Hy.
  { apply SFsub_wf; [rewrite orZero_dval; apply dval_wf|apply Z2F_wf]. }
  assert (finiteb (Math_max (Z2F 0) y) = true
          <-> is_finite (Math_max (Z2F 0) y)) as <-.
  { rewrite wf_finiteb. change (Z2F 0) with (S754_zero false).
    clearbody y. unfold wf in *.
    destruct y as [[]|[]| |[] m e]; simpl; split; try done;
      first [ by intros (_ & _ & _ & H'); destruct (H' false)
            | by intros (_ & H' & _); destruct H'
            | by intros (? & _) ]. }
  rewrite <- toDouble_is_Some.
  destruct (toDouble (Math_max (Z2F 0) y)); split; intros [x Hx];
    first [done | by eexists].
Qed.

(** ** The embedding follows the engine from boot

    [OutOfRange] is not reached from a state whose reserves are in range
    and whose caps are doubles; every state reached from boot is one. *)

Lemma step_caps_finite cfg s a s' evs :
  caps_finite (players s) ->
  step cfg s a = Done s' evs ->
  caps_finite (players s').
Proof.
  intros Hinv Hs. pose proof (step_players cfg s a s' evs Hs) as H.
  inversion H as [Heq | Ha Hall Heq | sid tok' q q' Hsock Hres Heff Heq
                 | sid now tok' nm fid Ha Heq].
  - done.
  - apply omap_tick_Forall; [|exact Hinv].
    intros tok p p' Hp Hp'. simpl in *.
    destruct (tickPlayer_fields _ _ Hp') as ((_ & _ & _ & _ & ->) & _). done.
  - apply map_Forall_insert_2; [|done].
    apply resolve_Some in Hres as (_ & _ & Hq).
    destruct (Effect_identity _ _ _ _ Heff) as (_ & _ & _ & _ & ->).
    exact (Hinv _ _ Hq).
  - apply map_Forall_insert_2; [|done]. by_eval.
Qed.

Lemma step_in_range cfg s a :
  productions_ok (players s) -> caps_finite (players s) ->
  step cfg s a <> OutOfRange.
Proof.
  intros Hok Hcaps.
  destruct a as [sid ip|sid|sid now tok nm fid|sid now
                |sid now targetId amount|sid now fromId toId amount
                |sid now fromId targetId amount| |sid ev];
    simpl; unfold onSocket.
  - unfold connection. by repeat case_match.
  - unfold disconnect. by repeat case_match.
  - unfold join. by repeat case_match.
  - destruct (sockets s !! sid); [|done].
    unfold recruit_collect, withPlayer.
    destruct (resolve s sid) as [[tok p]|] eqn:Hres; [|done].
    apply resolve_Some in Hres as (_ & _ & Hp).
    destruct (actionLimiters s !! tok) as [l|]; [|done].
    destruct (consume l now) as [[] l']; [|done].
    case_decide as Hpos; [|done].
    destruct (collectedPlayer_total p (Hok _ _ Hp) Hpos) as [p' Hp'].
    apply collectedPlayer_Some in Hp' as (pp & Hpp & _).
    cbn [producedPrecise set_inventory]. by rewrite Hpp.
  - destruct (sockets s !! sid); [|done].
    pose proof (deploy_paths s sid now targetId amount) as H.
    intros E. rewrite E in H. inversion H.
  - destruct (sockets s !! sid); [|done].
    pose proof (move_paths s sid now fromId toId amount) as H.
    intros E. rewrite E in H. inversion H.
  - destruct (sockets s !! sid); [|done].
    unfold attack, withPlayer. by repeat case_match.
  - intros E. assert (exists s' evs, tick s = Done s' evs) as (s' & evs & E').
    { apply tick_total. intros tok p Hp.
      apply tickAcc_finite; [exact (Hok _ _ Hp)|exact (Hcaps _ _ Hp)]. }
    congruence.
  - by destruct (sockets s !! sid).
Qed.

Lemma reachable_in_range cfg ts fs caps s :
  reachable cfg (boot ts fs caps) s ->
  productions_ok (players s) /\ caps_finite (players s).
Proof.
  intros Hreach. induction Hreach as [|s1 a1 s2 evs _ [IH1 IH2] Hstep].
  - split; apply map_Forall_empty.
  - split; [by eapply step_productions_ok|by eapply step_caps_finite].
Qed.

Lemma boot_in_range cfg ts fs caps s a :
  reachable cfg (boot ts fs caps) s -> step cfg s a <> OutOfRange.
Proof.
  intros [H1 H2]%reachable_in_range. by apply step_in_range.
Qed.

(** X11: the recruitment reserve stays in range.  If every player's
    accumulator lies between 0 and the reserve cap with [produced] its
    floor, this is still so after any sequence of actions: a tick clamps
    the accumulator to the cap, a collection takes exactly the whole units
    and leaves the fraction, and no other action touches the reserve. *)
Theorem reserve_stays_in_range (cfg : Config) (l : list Action)
    (s s' : State) (evs : list Event) :
  productions_ok (players s) ->
  run cfg s l = Done s' evs ->
  productions_ok (players s').
Proof.
  apply (run_invariant cfg (fun st => productions_ok (players st))).
  intros. by eapply step_productions_ok.
Qed.

Lemma reserve_stays_in_range_witness :
  exists s' evs,
    run defaultCfg demoBoot
      [Connection "a" "ip1"; Join "a" 0 "t1" "alice" "f1"; Tick; Tick]
    = Done s' evs
    /\ productions_ok (players s')
    /\ (produced <$> players s' !! "t1") = Some 6.
Proof.
  destruct (run defaultCfg demoBoot
              [Connection "a" "ip1"; Join "a" 0 "t1" "alice" "f1"; Tick; Tick])
    as [s' evs| |] eqn:Hrun; [|vm_compute in Hrun; discriminate Hrun..].
  exists s', evs. split; [reflexivity|]. split.
  - refine (reserve_stays_in_range defaultCfg _ demoBoot s' evs _ Hrun).
    apply map_Forall_empty.
  - assert (finalState
              (run defaultCfg demoBoot
                 [Connection "a" "ip1"; Join "a" 0 "t1" "alice" "f1";
                  Tick; Tick])
              ≫= (fun st => produced <$> players st !! "t1") = Some 6) as E
      by by_eval.
    rewrite Hrun in E. exact E.
Defined.

(** * Recruitment tick *)

(** C7: one tick.  Every player record is advanced, whether or not a socket
    is bound to it.  With [perSec = reserveCap / (recruitDurationMs / 1000)],
    computed as the engine does in doubles: while [remainingMs > 0] the
    countdown drops by 1000 (not below 0) and the accumulator becomes the
    rounded sum of itself and [perSec], capped at [reserveCap]; once the
    countdown is at 0 the accumulator is only clamped to the cap and
    further ticks leave the record as it is; in both cases [produced] is
    the floor of the accumulator.  The embedding carries the tick out
    exactly when every new accumulator is finite (neither [NaN] nor an
    infinity), which is so whenever the records are in range and the caps
    are doubles, and so in every state the server reaches from boot. *)
Theorem recruitment_tick (s : State) :
  (forall s' evs,
     tick s = Done s' evs ->
     forall tok, players s' !! tok = players s !! tok ≫= tickPlayer)
  /\ ((exists s' evs, tick s = Done s' evs)
      <-> forall tok p, players s !! tok = Some p -> is_finite (tickAcc p))
  /\ (productions_ok (players s) -> caps_finite (players s) ->
      exists s' evs, tick s = Done s' evs)
  /\ (forall cfg ts fs caps,
        reachable cfg (boot ts fs caps) s ->
        exists s' evs, tick s = Done s' evs)
  /\ forall p,
       perSec p = SFdiv prec emax (Z2F (reserveCap p))
                    (SFdiv prec emax (Z2F (recruitDurationMs p)) (Z2F 1000))
       /\ forall p',
            tickPlayer p = Some p' ->
            (remainingMs p > 0 ->
               remainingMs p' = Z.max 0 (remainingMs p - 1000)
               /\ dval (producedPrecise p')
                  = Math_min (Z2F (reserveCap p))
                      (SFadd prec emax (dval (producedPrecise p)) (perSec p)))
            /\ (remainingMs p <= 0 ->
                  remainingMs p' = remainingMs p
                  /\ dval (producedPrecise p')
                     = Math_min (Z2F (reserveCap p)) (dval (producedPrecise p))
                  /\ (fle (dval (producedPrecise p)) (Z2F (reserveCap p)) ->
                        producedPrecise p' = producedPrecise p)
                  /\ tickPlayer p' = Some p')
            /\ fle (dval (producedPrecise p')) (Z2F (reserveCap p))
            /\ produced p' = floorD (producedPrecise p').
Proof.
  split; [intros s' evs H tok; by eapply tick_lookup|].
  split.
  { rewrite tick_total. split; intros H tok p Hp;
      by apply tickAcc_finiteb, (H tok). }
  assert (productions_ok (players s) -> caps_finite (players s) ->
          exists s' evs, tick s = Done s' evs) as Htotal.
  { intros Hok Hcaps. apply tick_total. intros tok p Hp.
    apply tickAcc_finite; [exact (Hok _ _ Hp)|exact (Hcaps _ _ Hp)]. }
  split; [exact Htotal|]. split.
  { intros cfg ts fs caps Hreach.
    destruct (reachable_in_range _ _ _ _ _ Hreach) as [H1 H2].
    by apply Htotal. }
  intros p. split; [reflexivity|]. intros p' Hp'.
  pose proof Hp' as (pp & Hpp & E)%tickPlayer_Some.
  apply toDouble_Some in Hpp.
  assert (producedPrecise p' = pp) as Eacc by (by subst p').
  assert (produced p' = floorD pp) as Efl by (by subst p').
  assert (remainingMs p'
          = if decide (remainingMs p > 0)
            then Z.max 0 (remainingMs p - 1000) else remainingMs p) as Erem
    by (by subst p').
  clear E. rewrite Eacc, Efl, Erem, Hpp.
  split; [|split; [|split; [|done]]].
  - intros H. rewrite decide_True by done. split; [done|].
    unfold tickAcc. by rewrite decide_True, orZero_dval by done.
  - intros H. rewrite decide_False by lia. split; [done|].
    assert (tickAcc p = Math_min (Z2F (reserveCap p))
                          (dval (producedPrecise p))) as E.
    { unfold tickAcc. by rewrite decide_False, orZero_dval by lia. }
    split; [done|]. split; [|by eapply tickPlayer_pinned].
    intros Hle. apply Double_eq. rewrite Hpp, E. apply Math_min_r; [done| |].
    + rewrite <- E, <- Hpp. apply dval_not_negzero.
    + apply Z2F_wf.
  - apply tickAcc_le. rewrite <- Hpp. apply dval_not_nan.
Qed.

(** The first tick after alice's join: 299 seconds are left, the
    accumulator is the double nearest to 10/3 (7505999378950827 / 2^51),
    and 3 troops are reported. *)
Lemma recruitment_tick_witness :
  (exists s' evs, tick demoJoined = Done s' evs)
  /\ exists p1,
       tickPlayer (playerOf demoJoined "t1") = Some p1
       /\ remainingMs p1 = 299000
       /\ dval (producedPrecise p1) = S754_finite false 7505999378950827 (-51)
       /\ produced p1 = 3.
Proof.
  destruct (recruitment_tick demoJoined) as (_ & _ & _ & Hboot & Hp).
  split.
  - apply (Hboot defaultCfg demoTiles demoFactions demoCaps).
    apply stateAfter_reachable, stateAfter_reachable. constructor.
  - destruct (tickPlayer (playerOf demoJoined "t1")) as [p1|] eqn:E;
      [|vm_compute in E; discriminate E].
    exists p1. split; [done|].
    destruct (Hp (playerOf demoJoined "t1")) as [_ H].
    destruct (H p1 E) as (Hrun & _ & _ & Hfloor).
    destruct Hrun as [Hrem Hacc]; [by_eval|].
    split; [rewrite Hrem; by_eval|].
    assert (dval (producedPrecise p1)
            = S754_finite false 7505999378950827 (-51)) as Hval
      by (rewrite Hacc; by_eval).
    split; [done|]. rewrite Hfloor. unfold floorD. rewrite Hval. by_eval.
Defined.

(** After nine ticks the accumulator is just below 30
    (8444249301319679 / 2^48) and 29 troops are reported. *)
Example nine_ticks :
  (fun p => (dval (producedPrecise p), produced p))
    <$> Nat.iter 9 (fun o => o ≫= tickPlayer)
          (Some (playerOf demoJoined "t1"))
  = Some (S754_finite false 8444249301319679 (-48), 29).
Proof. by_eval. Qed.

(** * bfsRegion: order, duplicates and the limit *)

Section bfs_order.
Variables (ts : gmap TileId Tile) (passableFn : Tile -> bool).

Lemma bfsLoop_prefix fuel limit : forall seen q out res,
  bfsLoop fuel ts passableFn limit seen q out = BfsOut res ->
  out `prefix_of` res.
Proof.
  induction fuel as [|fuel IH]; intros seen q out res H;
    destruct q as [|id q]; simpl in H.
  - by injection H as ->.
  - destruct (limitReached limit out); [by injection H as ->|done].
  - by injection H as ->.
  - destruct (limitReached limit out); [by injection H as ->|].
    destruct (ts !! id) as [t|]; [|done].
    apply IH in H. etrans; [|exact H]. by apply prefix_app_r.
Qed.

(** Stopping at a limit cuts the output of the unlimited search. *)
Lemma bfsLoop_limit fuel n : forall seen q out full,
  bfsLoop fuel ts passableFn None seen q out = BfsOut full ->
  bfsLoop fuel ts passableFn (Some n) seen q out
  = BfsOut (take (n `max` length out) full).
Proof.
  induction fuel as [|fuel IH]; intros seen q out full H;
    pose proof (bfsLoop_prefix _ _ _ _ _ _ H) as [rest ->];
    destruct q as [|id q]; simpl in H |- *.
  - injection H as H. assert (rest = []) as ->
      by (apply (f_equal length) in H; rewrite length_app in H;
          destruct rest; [done|simpl in H; lia]).
    rewrite app_nil_r. f_equal. symmetry. apply take_ge. lia.
  - done.
  - injection H as H. assert (rest = []) as ->
      by (apply (f_equal length) in H; rewrite length_app in H;
          destruct rest; [done|simpl in H; lia]).
    rewrite app_nil_r. f_equal. symmetry. apply take_ge. lia.
  - destruct (ts !! id) as [t|]; [|done].
    case_bool_decide as Hn.
    + f_equal. replace (n `max` length out)%nat with (length out) by lia.
      by rewrite take_app_length.
    + rewrite (IH _ _ _ _ H). f_equal. f_equal.
      rewrite length_app. simpl. lia.
Qed.

(** The inner loop keeps the pending tiles distinct and seen. *)
Lemma bfsVisit_fold_nodup t pre ds : forall st,
  NoDup (pre ++ snd st) ->
  (forall x, x ∈ pre ++ snd st -> x ∈ fst st) ->
  let st' := foldl (bfsVisit ts passableFn t) st ds in
  NoDup (pre ++ snd st') /\ (forall x, x ∈ pre ++ snd st' -> x ∈ fst st').
Proof.
  induction ds as [|d ds IH]; intros st Hnd Hin; simpl; [done|].
  apply IH; unfold bfsVisit;
    destruct (ts !! key (tile_q t + fst d) (tile_r t + snd d)) as [nt|];
    try done;
    destruct (bool_decide _ && passableFn nt) eqn:Hadd; try done;
    apply andb_true_iff in Hadd as [Hfresh _];
    apply bool_decide_eq_true in Hfresh; simpl.
  - rewrite app_assoc. apply list.NoDup_app. split; [done|].
    split; [|apply NoDup_singleton].
    intros x Hx ->%list_elem_of_singleton. by apply Hfresh, Hin.
  - intros x. rewrite app_assoc, elem_of_app, list_elem_of_singleton.
    intros [Hx| ->]; [|set_solver]. apply elem_of_union_r. by apply Hin.
Qed.

Lemma bfsLoop_nodup fuel limit : forall seen q out res,
  NoDup (out ++ q) ->
  (forall x, x ∈ out ++ q -> x ∈ seen) ->
  bfsLoop fuel ts passableFn limit seen q out = BfsOut res ->
  NoDup res.
Proof.
  induction fuel as [|fuel IH]; intros seen q out res Hnd Hin H;
    destruct q as [|id q]; simpl in H.
  - injection H as <-. by rewrite app_nil_r in Hnd.
  - destruct (limitReached limit out); [|done]. injection H as <-.
    by apply list.NoDup_app in Hnd as [? _].
  - injection H as <-. by rewrite app_nil_r in Hnd.
  - destruct (limitReached limit out).
    { injection H as <-. by apply list.NoDup_app in Hnd as [? _]. }
    destruct (ts !! id) as [t|]; [|done].
    destruct (bfsVisit_fold_nodup t (out ++ [id]) DIRS (seen, q))
      as [Hnd' Hin'].
    { simpl. by rewrite <- app_assoc. }
    { simpl. intros x. rewrite <- app_assoc. apply Hin. }
    by eapply IH.
Qed.

End bfs_order.

(** X12: started on a stored tile (and without a limit), [bfsRegion]
    returns exactly the tiles that can be reached from the start through
    stored, passable neighbours; the start comes first and no tile is
    listed twice. *)
Theorem bfsRegion_region (ts : gmap TileId Tile) (passableFn : Tile -> bool)
    (startId : TileId) :
  is_Some (ts !! startId) ->
  exists out,
    bfsRegion startId ts passableFn None = BfsOut out
    /\ NoDup out
    /\ head out = Some startId
    /\ forall k, k ∈ out <-> connected ts passableFn startId k.
Proof.
  intros Hstart.
  destruct (bfsRegion_spec ts passableFn startId Hstart) as (out & Hout & Hk).
  exists out. split; [done|]. split; [|split; [|done]].
  - unfold bfsRegion in Hout. eapply bfsLoop_nodup; [| |exact Hout].
    + apply NoDup_singleton.
    + intros x ->%list_elem_of_singleton. by apply elem_of_singleton.
  - unfold bfsRegion in Hout. simpl in Hout.
    destruct Hstart as [t Ht]. rewrite Ht in Hout.
    apply bfsLoop_prefix in Hout as [rest ->]. done.
Qed.

Lemma bfsRegion_region_witness :
  exists out,
    bfsRegion (0, 0) demoTiles (ownedBy "f1") None = BfsOut out
    /\ NoDup out /\ head out = Some (0, 0)
    /\ forall k, k ∈ out <-> connected demoTiles (ownedBy "f1") (0, 0) k.
Proof.
  apply bfsRegion_region. vm_compute. eexists. reflexivity.
Defined.

(** X13: the limit of [bfsRegion] only cuts the search short: with a limit
    of [n] the result is the first [n] tiles of the result without a
    limit. *)
Theorem bfsRegion_limit (ts : gmap TileId Tile) (passableFn : Tile -> bool)
    (startId : TileId) :
  is_Some (ts !! startId) ->
  exists full,
    bfsRegion startId ts passableFn None = BfsOut full
    /\ forall n, bfsRegion startId ts passableFn (Some n)
                 = BfsOut (take n full).
Proof.
  intros Hstart.
  destruct (bfsRegion_spec ts passableFn startId Hstart) as (out & Hout & _).
  exists out. split; [done|]. intros n. unfold bfsRegion in *.
  rewrite (bfsLoop_limit _ _ _ n _ _ _ _ Hout). simpl.
  by rewrite Nat.max_0_r.
Qed.

Lemma bfsRegion_limit_witness :
  exists full,
    bfsRegion (0, 0) demoTiles (fun _ => true) None = BfsOut full
    /\ forall n, bfsRegion (0, 0) demoTiles (fun _ => true) (Some n)
                 = BfsOut (take n full).
Proof.
  apply bfsRegion_limit. vm_compute. eexists. reflexivity.
Defined.

(** * The client's helpers *)

Lemma clientDirs_DIRS : clientDirs = DIRS.
Proof. reflexivity. Qed.

Lemma isNeighbor_spec (a b : Tile) :
  isNeighbor a b = true <->
  exists d, d ∈ DIRS /\ tile_q b = tile_q a + fst d
            /\ tile_r b = tile_r a + snd d.
Proof.
  unfold isNeighbor. rewrite existsb_exists, clientDirs_DIRS. split.
  - intros (d & Hd & H). apply andb_true_iff in H as [Hq Hr].
    apply bool_decide_eq_true in Hq, Hr. exists d.
    split; [by apply list_elem_of_In|]. done.
  - intros (d & Hd & Hq & Hr). exists d. split; [by apply list_elem_of_In|].
    apply andb_true_iff. split; by apply bool_decide_eq_true.
Qed.

Lemma DIRS_opp d : d ∈ DIRS -> (- fst d, - snd d) ∈ DIRS.
Proof.
  unfold DIRS. intros Hd.
  repeat (apply elem_of_cons in Hd as [-> | Hd]; [simpl; set_solver|]).
  by apply elem_of_nil in Hd.
Qed.

Lemma DIRS_nonzero d : d ∈ DIRS -> fst d <> 0 \/ snd d <> 0.
Proof.
  unfold DIRS. intros Hd.
  repeat (apply elem_of_cons in Hd as [-> | Hd]; [simpl; lia|]).
  by apply elem_of_nil in Hd.
Qed.

Lemma isNeighbor_adjacent (a b : Tile) :
  tile_id b = key (tile_q b) (tile_r b) ->
  isNeighbor a b = adjacentTo a (tile_id b)
  /\ isNeighbor a b = isNeighbor b a
  /\ isNeighbor a a = false.
Proof.
  intros Hb. split; [|split].
  - apply eq_true_iff_eq. rewrite isNeighbor_spec, adjacentTo_spec, Hb.
    unfold key. split; intros (d & Hd & H); exists d; (split; [done|]).
    + destruct H as [-> ->]. done.
    + by injection H as -> ->.
  - apply eq_true_iff_eq. rewrite !isNeighbor_spec.
    split; intros (d & Hd & Hq & Hr); exists (- fst d, - snd d);
      (split; [by apply DIRS_opp|]); simpl; lia.
  - apply not_true_iff_false. rewrite isNeighbor_spec.
    intros (d & Hd & Hq & Hr). destruct (DIRS_nonzero d Hd); lia.
Qed.

(** X14: the client's adjacency test agrees with the server's.  For tiles
    stored under the key of their coordinates, [isNeighbor(a, b)] holds
    exactly when the server's [attack] and [move] find [b.id] among the
    neighbours of [a]; the test is symmetric, and no tile is its own
    neighbour. *)
Theorem isNeighbor_agrees (a b : Tile) :
  tile_id b = key (tile_q b) (tile_r b) ->
  isNeighbor a b = adjacentTo a (tile_id b)
  /\ isNeighbor a b = isNeighbor b a
  /\ isNeighbor a a = false.
Proof. apply isNeighbor_adjacent. Qed.

Lemma isNeighbor_agrees_witness :
  isNeighbor (mkTile 0 0 "f1" 100 true) (mkTile 1 0 "f1" 100 false)
  = adjacentTo (mkTile 0 0 "f1" 100 true) (1, 0)
  /\ isNeighbor (mkTile 0 0 "f1" 100 true) (mkTile 1 0 "f1" 100 false) = true.
Proof.
  split; [|reflexivity].
  exact (proj1 (isNeighbor_agrees (mkTile 0 0 "f1" 100 true)
                  (mkTile 1 0 "f1" 100 false) eq_refl)).
Defined.

(** X15: [byOwnerPriority] is a consistent comparator: swapping the
    arguments flips the sign, the order it induces is transitive, two tiles
    compare equal only if they agree on [isCapital], [q] and [r], and a
    capital comes before every tile that is not one. *)
Theorem byOwnerPriority_consistent (a b c : Tile) :
  Z.sgn (byOwnerPriority b a) = - Z.sgn (byOwnerPriority a b)
  /\ (byOwnerPriority a b <= 0 -> byOwnerPriority b c <= 0 ->
        byOwnerPriority a c <= 0)
  /\ (byOwnerPriority a b = 0 <->
        isCapital a = isCapital b /\ tile_q a = tile_q b
        /\ tile_r a = tile_r b)
  /\ (isCapital a = true -> isCapital b = false -> byOwnerPriority a b < 0).
Proof.
  unfold byOwnerPriority.
  destruct (isCapital a), (isCapital b), (isCapital c); simpl;
    repeat case_bool_decide; simpl;
    (split; [lia|]); (split; [lia|]); (split; [|intros; lia || done]);
    split; try lia; try (intros (? & ? & ?); lia || done);
    try (intros; split; [done|lia]).
Qed.

Section elig.
Variables (ts : gmap TileId Tile) (owner : FactionId).

Lemma eligVisit_bfsVisit t st d :
  eligVisit ts owner t st d = bfsVisit ts (ownedBy owner) t st d.
Proof.
  unfold eligVisit, bfsVisit, ownedBy.
  destruct (ts !! key (tile_q t + fst d) (tile_r t + snd d)) as [nt|];
    [|done].
  by destruct (bool_decide (ownerFaction nt = owner)), (bool_decide (_ ∉ _)).
Qed.

Lemma eligVisit_fold t ds : forall st,
  foldl (eligVisit ts owner t) st ds
  = foldl (bfsVisit ts (ownedBy owner) t) st ds.
Proof.
  induction ds as [|d ds IH]; intros st; simpl; [done|].
  by rewrite eligVisit_bfsVisit, IH.
Qed.

Lemma eligLoop_bfsLoop fuel : forall seen q eligible out,
  eligible = list_to_set out ->
  eligLoop fuel ts owner seen q eligible
  = match bfsLoop fuel ts (ownedBy owner) None seen q out with
    | BfsOut res => EligOut (list_to_set res)
    | BfsThrow => EligThrow
    | BfsFuel => EligFuel
    end.
Proof.
  induction fuel as [|fuel IH]; intros seen q eligible out ->;
    destruct q as [|id q]; cbn [eligLoop bfsLoop limitReached]; try done.
  destruct (ts !! id) as [t|]; [|done].
  rewrite clientDirs_DIRS, eligVisit_fold. apply IH.
  rewrite list_to_set_app_L. simpl. set_solver.
Qed.

End elig.

Lemma deployEligible_region (ts : gmap TileId Tile)
    (caps : gmap FactionId TileId) (owner : FactionId) (capId : TileId) :
  caps !! owner = Some capId ->
  is_Some (ts !! capId) ->
  exists out,
    bfsRegion capId ts (ownedBy owner) None = BfsOut out
    /\ deployEligible ts caps owner = EligOut (list_to_set out)
    /\ forall k, k ∈ (list_to_set out : gset TileId)
                 <-> connected ts (ownedBy owner) capId k.
Proof.
  intros Hcap Hstart.
  destruct (bfsRegion_spec ts (ownedBy owner) capId Hstart)
    as (out & Hout & Hk).
  exists out. split; [done|]. split.
  - unfold deployEligible. rewrite Hcap.
    rewrite (eligLoop_bfsLoop ts owner _ _ _ _ []); [|done].
    unfold bfsRegion in Hout. by rewrite Hout.
  - intros k. rewrite elem_of_list_to_set. apply Hk.
Qed.

(** X16: in deploy mode the client offers exactly the tiles the server
    accepts.  When the faction has a capital that is on the map,
    [deployEligible] is the set of the tiles listed by the server's
    [bfsRegion(capId, tiles, t => t.ownerFaction === owner)], that is, the
    tiles connected to the capital through tiles of the faction. *)
Theorem deployEligible_matches_server (ts : gmap TileId Tile)
    (caps : gmap FactionId TileId) (owner : FactionId) (capId : TileId) :
  caps !! owner = Some capId ->
  is_Some (ts !! capId) ->
  exists out,
    bfsRegion capId ts (ownedBy owner) None = BfsOut out
    /\ deployEligible ts caps owner = EligOut (list_to_set out)
    /\ forall k, k ∈ (list_to_set out : gset TileId)
                 <-> connected ts (ownedBy owner) capId k.
Proof. apply deployEligible_region. Qed.

Lemma deployEligible_matches_server_witness :
  exists out,
    bfsRegion (0, 0) demoTiles (ownedBy "f1") None = BfsOut out
    /\ deployEligible demoTiles demoCaps "f1" = EligOut (list_to_set out)
    /\ forall k, k ∈ (list_to_set out : gset TileId)
                 <-> connected demoTiles (ownedBy "f1") (0, 0) k.
Proof.
  apply deployEligible_matches_server.
  - by_eval.
  - vm_compute. eexists. reflexivity.
Defined.

(** * The troop cache, tile by tile *)

Lemma recalc_caps k s :
  capitalsByFaction (recalcPublicTroops k s) = capitalsByFaction s.
Proof. apply recalc_sessions. Qed.

Lemma step_capitals cfg s a s' evs :
  step cfg s a = Done s' evs ->
  capitalsByFaction s' = capitalsByFaction s.
Proof.
  intros Hrun.
  destruct a as [sid ip|sid|sid now tok nm fid|sid now
                |sid now targetId amount|sid now fromId toId amount
                |sid now fromId targetId amount| |sid ev];
    simpl in Hrun; unfold onSocket in Hrun;
    [destruct (sockets s !! sid) as [ip0|] eqn:Hsock;
     [by inversion Hrun; subst|]
    |destruct (sockets s !! sid) as [ip0|] eqn:Hsock;
     [|by inversion Hrun; subst]..
    |
    |destruct (sockets s !! sid) as [ip0|] eqn:Hsock;
     [discriminate Hrun|by inversion Hrun; subst]].
  - unfold connection in Hrun.
    destruct (if DISABLE_IP_LOCK cfg then _ else _);
      by inversion Hrun; subst.
  - unfold disconnect in Hrun. by inversion Hrun; subst.
  - unfold join in Hrun.
    destruct (_ || _); [by inversion Hrun; subst|].
    destruct (capitalsByFaction s !! fid) as [capId|];
      inversion Hrun; subst; simpl; [apply recalc_caps|done].
  - unfold recruit_collect in Hrun.
    apply withPlayer_inv in Hrun
      as [(_ & -> & _) | (tok & p & l & Hres & Hl & H)]; [done|].
    simpl in H. destruct H as [(_ & -> & _) | (_ & H)]; [done|].
    by collect_cases H.
  - pose proof (deploy_paths s sid now targetId amount) as H.
    rewrite Hrun in H.
    inversion H as [Hres | | tok p l Hres Hl Hno
                   | | tok p l capId V Hcap Hcapt Hnot
                   | tok p l capId V Hcap Hcapt Hconn s0]; subst;
      try done.
    subst s0. unfold afterDeploy. by rewrite recalc_caps.
  - pose proof (move_paths s sid now fromId toId amount) as H.
    rewrite Hrun in H.
    inversion H as [Hres | | tok p l Hres Hl Hno
                   | tok p l from to V s0]; subst;
      try done.
    subst s0. unfold afterMove. by rewrite !recalc_caps.
  - apply attack_paths in Hrun.
    destruct Hrun as [Hres | tok p l Hres Hl _ | tok p l from target V Hcap
                     | tok p l from target evs V Hcap Hgt _ _
                     | tok p l from target evs V Hcap Hle _];
      try done.
    + unfold afterCapture. by rewrite !recalc_caps.
    + unfold afterRepelled. by rewrite !recalc_caps.
  - by apply tick_Done in Hrun as [_ ->].
Qed.

Section per_tile.
Variable k : TileId.

Lemma attack_ok_at s sid now fromId targetId amount s' evs :
  publicTroops_ok_at s k ->
  attack s sid now fromId targetId amount = Done s' evs ->
  publicTroops_ok_at s' k.
Proof.
  intros Hok Hrun. apply attack_paths in Hrun.
  destruct Hrun as [Hres | tok p l Hres Hl _ | tok p l from target V Hcap
                   | tok p l from target evs V Hcap Hgt _ _
                   | tok p l from target evs V Hcap Hle _];
    try exact Hok.
  - destruct V as [Hres ? ? ? Htg]. apply resolve_Some in Hres as (_ & _ & Hp).
    unfold afterCapture. apply ok_at_recalc. intros Hk1.
    apply ok_at_recalc. intros Hk2.
    apply (ok_at_update (charged s tok l now) tok p);
    [exact Hok|exact Hp| |]; simpl.
    + unfold troopsAt at 1. simpl. rewrite credit_default.
      rewrite decide_False by done. unfold attackerAfter.
      rewrite storeOrDelete_lookup_ne by done. done.
    + intros t'. rewrite lookup_insert_ne by done. eauto.
  - destruct V as [Hres ? ? ? Htg]. apply resolve_Some in Hres as (_ & _ & Hp).
    unfold afterRepelled. apply ok_at_recalc. intros Hk2.
    apply (ok_at_update (charged s tok l now) tok p);
    [exact Hok|exact Hp| |]; simpl.
    + unfold troopsAt at 1. simpl. unfold attackerAfter.
      rewrite storeOrDelete_lookup_ne by done. done.
    + intros t'. destruct (decide (targetId = k)) as [<-|Hne].
      * rewrite lookup_insert_eq. intros [= <-]. eauto.
      * rewrite lookup_insert_ne by done. eauto.
Qed.

Lemma deploy_ok_at s sid now targetId amount s' evs :
  publicTroops_ok_at s k ->
  deploy s sid now targetId amount = Done s' evs ->
  publicTroops_ok_at s' k.
Proof.
  intros Hok Hrun.
  pose proof (deploy_paths s sid now targetId amount) as H.
  rewrite Hrun in H.
  inversion H as [Hres | | tok p l Hres Hl Hno
                 | | tok p l capId V Hcap Hcapt Hnot
                 | tok p l capId V Hcap Hcapt Hconn s0]; subst;
    try exact Hok.
  destruct V as [Hres]. apply resolve_Some in Hres as (_ & _ & Hp).
  subst s0. unfold afterDeploy. apply ok_at_recalc. intros Hk.
  change (with_players ?ps (charged s tok l now))
    with (with_players ps (with_tiles (tiles (charged s tok l now))
                             (charged s tok l now))).
  apply (ok_at_update (charged s tok l now) tok p);
    [exact Hok|exact Hp| |]; simpl.
  - unfold troopsAt at 1. simpl. rewrite credit_default.
    by rewrite decide_False.
  - eauto.
Qed.

Lemma move_ok_at s sid now fromId toId amount s' evs :
  publicTroops_ok_at s k ->
  move s sid now fromId toId amount = Done s' evs ->
  publicTroops_ok_at s' k.
Proof.
  intros Hok Hrun.
  pose proof (move_paths s sid now fromId toId amount) as H.
  rewrite Hrun in H.
  inversion H as [Hres | | tok p l Hres Hl Hno
                 | tok p l from to V s0]; subst;
    try exact Hok.
  destruct V as [Hres]. apply resolve_Some in Hres as (_ & _ & Hp).
  subst s0. unfold afterMove. apply ok_at_recalc. intros Hk1.
  apply ok_at_recalc. intros Hk2.
  change (with_players ?ps (charged s tok l now))
    with (with_players ps (with_tiles (tiles (charged s tok l now))
                             (charged s tok l now))).
  apply (ok_at_update (charged s tok l now) tok p);
    [exact Hok|exact Hp| |]; simpl.
  - unfold troopsAt at 1. simpl. rewrite credit_default.
    rewrite decide_False by done. unfold attackerAfter.
    rewrite storeOrDelete_lookup_ne by done. done.
  - eauto.
Qed.

Lemma recruit_collect_ok_at s sid now s' evs :
  publicTroops_ok_at s k ->
  recruit_collect s sid now = Done s' evs ->
  publicTroops_ok_at s' k.
Proof.
  intros Hok Hrun. unfold recruit_collect in Hrun.
  apply withPlayer_inv in Hrun
    as [(_ & -> & _) | (tok & p & l & Hres & Hl & H)]; [exact Hok|].
  simpl in H. destruct H as [(_ & -> & _) | (_ & H)]; [exact Hok|].
  collect_cases H; [|exact Hok].
  apply resolve_Some in Hres as (_ & _ & Hp).
  fold (charged s tok l now).
  change (with_players ?ps (charged s tok l now))
    with (with_players ps (with_tiles (tiles (charged s tok l now))
                             (charged s tok l now))).
  apply (ok_at_update (charged s tok l now) tok p);
    [exact Hok|exact Hp|reflexivity|]; simpl; eauto.
Qed.

Lemma tick_ok_at s s' evs :
  publicTroops_ok_at s k -> tick s = Done s' evs -> publicTroops_ok_at s' k.
Proof.
  intros Hok Hrun t Ht. apply tick_Done in Hrun as [Hall ->]. simpl in *.
  rewrite sumTroops_omap; [by apply Hok|done|].
  intros p p'. apply tickPlayer_troopsAt.
Qed.

Lemma join_ok_at cfg s sid ip now tok nm fid s' evs :
  publicTroops_ok_at s k ->
  players s !! tok = None ->
  capitalsByFaction s !! fid <> Some k ->
  join cfg s sid ip now tok nm fid = Done s' evs ->
  publicTroops_ok_at s' k.
Proof.
  intros Hok Hfresh Hcap Hrun. unfold join in Hrun.
  destruct (_ || _); [by inversion Hrun; subst|].
  destruct (capitalsByFaction s !! fid) as [capId|] eqn:Hc;
    inversion Hrun; subst; clear Hrun; intros t; simpl.
  - rewrite recalc_tiles_lookup, recalc_players.
    rewrite decide_False by congruence. intros Ht.
    rewrite sumTroops_insert_fresh by done.
    unfold troopsAt. simpl. rewrite credit_default.
    rewrite decide_False by congruence. rewrite lookup_empty. simpl.
    rewrite (Hok t Ht). lia.
  - intros Ht. rewrite sumTroops_insert_fresh by done.
    unfold troopsAt. simpl. rewrite lookup_empty. simpl.
    rewrite (Hok t Ht). lia.
Qed.

Lemma step_ok_at cfg s a s' evs :
  (forall sid now tok nm fid, a = Join sid now tok nm fid ->
     players s !! tok = None /\ capitalsByFaction s !! fid <> Some k) ->
  publicTroops_ok_at s k ->
  step cfg s a = Done s' evs ->
  publicTroops_ok_at s' k.
Proof.
  intros Hjoin Hok Hrun.
  destruct a as [sid ip|sid|sid now tok nm fid|sid now
                |sid now targetId amount|sid now fromId toId amount
                |sid now fromId targetId amount| |sid ev];
    simpl in Hrun; unfold onSocket in Hrun;
    [destruct (sockets s !! sid) as [ip0|] eqn:Hsock;
     [by inversion Hrun; subst|]
    |destruct (sockets s !! sid) as [ip0|] eqn:Hsock;
     [|by inversion Hrun; subst]..
    |
    |destruct (sockets s !! sid) as [ip0|] eqn:Hsock;
     [discriminate Hrun|by inversion Hrun; subst]].
  - unfold connection in Hrun.
    destruct (if DISABLE_IP_LOCK cfg then _ else _);
      by inversion Hrun; subst.
  - unfold disconnect in Hrun. by inversion Hrun; subst.
  - destruct (Hjoin sid now tok nm fid eq_refl). by eapply join_ok_at.
  - by eapply recruit_collect_ok_at.
  - by eapply deploy_ok_at.
  - by eapply move_ok_at.
  - by eapply attack_ok_at.
  - by eapply tick_ok_at.
Qed.

End per_tile.

Lemma step_players_dom cfg s a s' evs (used : gset Token) :
  step cfg s a = Done s' evs ->
  dom (players s) ⊆ used ->
  dom (players s')
  ⊆ (match a with Join _ _ tok _ _ => {[tok]} ∪ used | _ => used end).
Proof.
  intros Hs Hdom. pose proof (step_players cfg s a s' evs Hs) as H.
  assert (dom (players s') ⊆ used
          \/ exists sid now tok nm fid,
               a = Join sid now tok nm fid
               /\ dom (players s') ⊆ {[tok]} ∪ used) as [H1|H1].
  { inversion H as [Heq | Ha Hall Heq | sid tok' q q' Hsock Hres Heff Heq
                   | sid now tok' nm fid Ha Heq].
    - by left.
    - left. etrans; [apply dom_omap_subseteq|done].
    - left. apply resolve_Some in Hres as (_ & _ & Hq).
      rewrite dom_insert_L. apply elem_of_dom_2 in Hq.
      clear -Hq Hdom. set_solver.
    - right. exists sid, now, tok', nm, fid. split; [done|].
      rewrite dom_insert_L. clear -Hdom. set_solver. }
  - destruct a; try done. clear -H1. set_solver.
  - destruct H1 as (sid & now & tok & nm & fid & -> & H1). done.
Qed.

(** X17: away from the capitals the troop cache is always right.  If
    [publicTroops] of a tile that is no faction's capital equals the sum of
    the players' entries for it, the same holds after any sequence of
    actions in which every [join] comes with a fresh token. *)
Theorem cache_right_off_capitals (cfg : Config) (l : list Action) :
  forall (s s' : State) (evs : list Event) (used : gset Token) (k : TileId),
    dom (players s) ⊆ used ->
    freshJoins used l ->
    ~ isCapitalOf s k ->
    publicTroops_ok_at s k ->
    run cfg s l = Done s' evs ->
    publicTroops_ok_at s' k.
Proof.
  induction l as [|a l IH]; intros s s' evs used k Hdom Hfresh Hcap Hok Hrun;
    simpl in Hrun.
  - by inversion Hrun; subst.
  - destruct (step cfg s a) as [s1 evs1| |] eqn:Hs; [|done..].
    destruct (run cfg s1 l) as [s2 evs2| |] eqn:Hr; [|done..].
    inversion Hrun; subst. clear Hrun.
    pose proof (step_players_dom cfg s a s1 evs1 used Hs Hdom) as Hdom1.
    pose proof (step_capitals cfg s a s1 evs1 Hs) as Hcaps.
    assert (publicTroops_ok_at s1 k) as Hok1.
    { eapply step_ok_at; [|exact Hok|exact Hs].
      intros sid now tok nm fid ->. destruct Hfresh as [Hf _]. split.
      - apply not_elem_of_dom. clear -Hf Hdom. set_solver.
      - intros Hc. apply Hcap. by exists fid. }
    eapply (IH s1 s' evs2 _ k); [exact Hdom1| | |exact Hok1|exact Hr].
    + by destruct a; try exact Hfresh; destruct Hfresh.
    + unfold isCapitalOf. by rewrite Hcaps.
Qed.

Lemma cache_right_off_capitals_witness :
  exists s' evs,
    run defaultCfg demoBoot demoCampaign = Done s' evs
    /\ publicTroops_ok_at s' (2, 0)
    /\ tileField publicTroops s' (2, 0) = Some 2.
Proof.
  destruct (run defaultCfg demoBoot demoCampaign) as [s' evs| |] eqn:Hrun;
    [|vm_compute in Hrun; discriminate Hrun..].
  exists s', evs. split; [reflexivity|]. split.
  - refine (cache_right_off_capitals defaultCfg demoCampaign demoBoot s' evs
              ∅ (2, 0) _ _ _ _ Hrun).
    + clear. set_solver.
    + clear. simpl. split; [set_solver|exact I].
    + clear. intros [f Hf]. revert Hf. unfold demoBoot, boot, demoCaps. simpl.
      destruct (decide (f = "f1")) as [->|]; [vm_compute; discriminate|].
      destruct (decide (f = "f2")) as [->|]; [vm_compute; discriminate|].
      rewrite lookup_insert_ne by done. by rewrite lookup_singleton_ne.
    + clear. intros t Ht. vm_compute in Ht. injection Ht as <-. by_eval.
  - assert (finalState (run defaultCfg demoBoot demoCampaign)
              ≫= (fun st => tileField publicTroops st (2, 0)) = Some 2) as E
      by by_eval.
    rewrite Hrun in E. exact E.
Defined.

(** * Restarting on a snapshot *)

Lemma step_players_keyed cfg s a s' evs :
  players_keyed (players s) ->
  step cfg s a = Done s' evs ->
  players_keyed (players s').
Proof.
  intros Hinv Hs. pose proof (step_players cfg s a s' evs Hs) as H.
  inversion H as [Heq | Ha Hall Heq | sid tok' q q' Hsock Hres Heff Heq
                 | sid now tok' nm fid Ha Heq].
  - done.
  - apply omap_tick_Forall; [|exact Hinv].
    intros tok p p' Hp Hp'. simpl in *.
    by destruct (tickPlayer_fields _ _ Hp') as ((-> & _) & _).
  - apply map_Forall_insert_2; [|done].
    apply resolve_Some in Hres as (_ & _ & Hq).
    destruct (Effect_identity _ _ _ _ Heff) as (-> & _).
    exact (Hinv _ _ Hq).
  - apply map_Forall_insert_2; [|done]. done.
Qed.

Lemma recalcAll_sessions s :
  tokenToSocket (recalcAllPublicTroops s) = tokenToSocket s
  /\ ipToToken (recalcAllPublicTroops s) = ipToToken s
  /\ actionLimiters (recalcAllPublicTroops s) = actionLimiters s
  /\ sockets (recalcAllPublicTroops s) = sockets s
  /\ factions (recalcAllPublicTroops s) = factions s
  /\ capitalsByFaction (recalcAllPublicTroops s) = capitalsByFaction s.
Proof.
  unfold recalcAllPublicTroops. generalize (map_to_list (tiles s)).
  intros l. revert s. induction l as [|e l IH]; intros s; simpl; [done|].
  destruct (IH (recalcPublicTroops (tile_id (snd e)) s))
    as (-> & -> & -> & -> & -> & ->).
  apply recalc_sessions.
Qed.

(** X18: a snapshot taken in any state the server can be in restores to
    the same game.  For a state reached from a well-keyed one by any
    sequence of actions, restarting on its snapshot brings back every
    player record unchanged and every tile unchanged except for
    [publicTroops], which is recomputed from the players; the restored
    cache is right, and the tiles are identical when the cache was right
    at the time of the snapshot. *)
Theorem snapshot_round_trip (cfg : Config) (l : list Action)
    (s s' : State) (evs : list Event) :
  tiles_wf (tiles s) ->
  players_keyed (players s) ->
  run cfg s l = Done s' evs ->
  players (restart cfg s') = players s'
  /\ (forall k, tiles (restart cfg s') !! k
                = set_publicTroops (sumTroops (players s') k)
                  <$> tiles s' !! k)
  /\ publicTroops_ok (restart cfg s')
  /\ (publicTroops_ok s' -> tiles (restart cfg s') = tiles s').
Proof.
  intros Hwf Hkeyed Hrun. apply restart_spec.
  - revert Hwf Hrun.
    apply (run_invariant cfg (fun st => tiles_wf (tiles st))).
    intros st a st' evs' Hst Hstep.
    assert (run cfg st [a] = Done st' evs') as Hr.
    { simpl. rewrite Hstep. by rewrite app_nil_r. }
    pose proof (step_tiles_kept cfg st a st' evs' Hstep) as Hk.
    intros k t' Ht'. specialize (Hk k).
    destruct (tiles st !! k) as [t|] eqn:Ht; [|congruence].
    destruct Hk as (t'' & Ht'' & Hid & Hq & Hr' & _).
    assert (t'' = t') as -> by congruence.
    destruct (Hst k t Ht) as [H1 H2]. rewrite Hid, Hq, Hr'. done.
  - revert Hkeyed Hrun.
    apply (run_invariant cfg (fun st => players_keyed (players st))).
    intros. by eapply step_players_keyed.
Qed.

Lemma snapshot_round_trip_witness :
  exists s' evs,
    run defaultCfg demoBoot demoCampaign = Done s' evs
    /\ players (restart defaultCfg s') = players s'
    /\ publicTroops_ok (restart defaultCfg s').
Proof.
  destruct (run defaultCfg demoBoot demoCampaign) as [s' evs| |] eqn:Hrun;
    [|vm_compute in Hrun; discriminate Hrun..].
  exists s', evs. split; [reflexivity|].
  destruct (snapshot_round_trip defaultCfg demoCampaign demoBoot s' evs)
    as (Hp & _ & Hok & _).
  - unfold tiles_wf. eapply bool_decide_eq_true_1. by_eval.
  - apply map_Forall_empty.
  - exact Hrun.
  - split; [exact Hp|exact Hok].
Defined.

(** X19: whatever the state file holds, with or without [publicTroops]
    fields, right or stale, [loadSnapshot] leaves every tile's
    [publicTroops] equal to the sum of the restored players' entries for
    it; the socket bindings, the limiters and the faction and capital
    tables the handlers read are not touched. *)
Theorem loadSnapshot_recomputes_cache (cfg : Config) (data : Snapshot)
    (s0 : State) :
  let s := loadSnapshot cfg (Some data) s0 in
  publicTroops_ok s
  /\ tokenToSocket s = tokenToSocket s0
  /\ actionLimiters s = actionLimiters s0
  /\ sockets s = sockets s0
  /\ factions s = factions s0
  /\ capitalsByFaction s = capitalsByFaction s0.
Proof.
  split; [apply loadSnapshot_cache_ok|].
  unfold loadSnapshot.
  match goal with |- context [recalcAllPublicTroops ?x] =>
    destruct (recalcAll_sessions x) as (-> & _ & -> & -> & -> & ->) end.
  done.
Qed.

(** * Sessions: leaving and joining again *)

Section omap_facts.
Context {K V : Type} `{EqDecision K}.
Implicit Types (m : list (K * V)) (k : K) (v : V).




Lemma omap_get_set_eq m k v : OMap.get k (OMap.set k v m) = Some v.
Proof.
  induction m as [|[k' v'] m IH]; simpl; [by rewrite decide_True|].
  destruct (decide (k = k')) as [->|Hne]; simpl.
  - by rewrite decide_True.
  - by rewrite decide_False.
Qed.

Lemma omap_findKeyOf_set_fresh `{EqDecision V} m k v x k0 :
  OMap.get k m = None ->
  OMap.findKeyOf x m = Some k0 ->
  OMap.findKeyOf x (OMap.set k v m) = Some k0.
Proof.
  induction m as [|[k' v'] m IH]; simpl; [done|].
  destruct (decide (k = k')) as [->|Hne]; [done|]. intros Hget. simpl.
  destruct (decide (v' = x)); [done|]. by apply IH.
Qed.

End omap_facts.



Lemma omap_findKeyOf_get {K V} `{EqDecision K} `{EqDecision V}
    (m : list (K * V)) (x : V) (k : K) :
  OMap.findKeyOf x m = Some k -> is_Some (OMap.get k m).
Proof.
  induction m as [|[k' v'] m IH]; simpl; [done|].
  destruct (decide (v' = x)).
  - intros [= ->]. rewrite decide_True by done. eauto.
  - intros H. destruct (decide (k = k')); [eauto|by apply IH].
Qed.

(** X21: a second [join] on a socket does not change whom the socket
    plays.  If the socket already resolves to a player and joins again
    (the new token being fresh), the new record is stored and bound to the
    socket as well, but the socket still resolves to its first player,
    whose record is untouched: every later action of the socket acts on the
    first record. *)
Theorem rejoin_keeps_first_player (cfg : Config) (s s' : State)
    (sid : SocketId) (ip : Ip) (now : Z) (tok0 tok1 : Token) (p0 : Player)
    (nm : string) (fid : FactionId) (evs : list Event) :
  sockets s !! sid = Some ip ->
  resolve s sid = Some (tok0, p0) ->
  OMap.get tok1 (tokenToSocket s) = None ->
  step cfg s (Join sid now tok1 nm fid) = Done s' evs ->
  resolve s' sid = Some (tok0, p0)
  /\ (evs <> [Emit sid (error_msg "Invalid join payload.")] ->
        OMap.get tok1 (tokenToSocket s') = Some sid
        /\ players s' !! tok1 = Some (joinedPlayer cfg s tok1 nm fid)).
Proof.
  intros Hsock Hres Hfresh Hstep.
  assert (tokenOf s sid = Some tok0 /\ tok0 <> ""
          /\ players s !! tok0 = Some p0) as (Htok & Hne & Hp0).
  { unfold resolve in Hres. destruct (tokenOf s sid) as [t|]; [|done].
    destruct (decide (t = "")); [done|].
    destruct (players s !! t) eqn:Hp; [|done]. by injection Hres as -> ->. }
  assert (tok1 <> tok0) as Hdiff.
  { intros ->. apply omap_findKeyOf_get in Htok as [v Hv]. congruence. }
  simpl in Hstep. unfold onSocket in Hstep. rewrite Hsock in Hstep.
  unfold join in Hstep.
  destruct (_ || _); [inversion Hstep; subst; by split|].
  assert (tokenToSocket s' = OMap.set tok1 sid (tokenToSocket s)
          /\ players s'
             = <[tok1 := joinedPlayer cfg s tok1 nm fid]> (players s))
    as [Ht Hp].
  { unfold joinedPlayer.
    destruct (capitalsByFaction s !! fid) as [capId|];
      inversion Hstep; subst; simpl.
    - destruct (recalc_sessions capId s) as (-> & _).
      by rewrite recalc_players.
    - done. }
  split.
  - unfold resolve, tokenOf. rewrite Ht.
    rewrite (omap_findKeyOf_set_fresh _ _ _ _ tok0 Hfresh Htok).
    rewrite decide_False by done. rewrite Hp, lookup_insert_ne by done.
    by rewrite Hp0.
  - intros _. rewrite Ht, Hp. split; [apply omap_get_set_eq|].
    apply lookup_insert_eq.
Qed.

Lemma rejoin_keeps_first_player_witness :
  exists s' evs,
    step defaultCfg demoJoined (Join "a" 5 "t9" "alice2" "f2") = Done s' evs
    /\ resolve s' "a" = Some ("t1", playerOf demoJoined "t1")
    /\ OMap.get "t9" (tokenToSocket s') = Some "a".
Proof.
  destruct (step defaultCfg demoJoined (Join "a" 5 "t9" "alice2" "f2"))
    as [s' evs| |] eqn:Hrun; [|vm_compute in Hrun; discriminate Hrun..].
  exists s', evs. split; [reflexivity|].
  destruct (rejoin_keeps_first_player defaultCfg demoJoined s' "a" "ip1" 5
              "t1" "t9" (playerOf demoJoined "t1") "alice2" "f2" evs)
    as [Hres Hnew].
  - by_eval.
  - by_eval.
  - by_eval.
  - exact Hrun.
  - split; [exact Hres|]. apply Hnew. intros Heq.
    assert (finalEvents
              (step defaultCfg demoJoined (Join "a" 5 "t9" "alice2" "f2"))
            <> [Emit "a" (error_msg "Invalid join payload.")]) as E
      by (vm_compute; discriminate).
    rewrite Hrun in E. simpl in E. by apply E.
Defined.

(** * The client's path search *)

Section omap_list.
Context {V : Type}.
Implicit Types (m : list (TileId * V)).

Lemma omap_get_None m k : OMap.get k m = None <-> k ∉ m.*1.
Proof.
  induction m as [|[k' v'] m IH]; simpl.
  - split; [intros _; apply not_elem_of_nil|done].
  - destruct (decide (k = k')) as [->|Hne].
    + split; [done|]. intros H. destruct H. left.
    + rewrite IH. rewrite not_elem_of_cons. tauto.
Qed.

Lemma omap_has_false m k : OMap.has k m = false <-> k ∉ m.*1.
Proof.
  unfold OMap.has. rewrite <- omap_get_None.
  destruct (OMap.get k m); split; done.
Qed.

Lemma omap_has_true m k : OMap.has k m = true <-> k ∈ m.*1.
Proof.
  destruct (OMap.has k m) eqn:H.
  - split; [|done]. intros _. destruct (decide (k ∈ m.*1)); [done|].
    apply omap_has_false in n. congruence.
  - apply omap_has_false in H. split; [done|]. intros. done.
Qed.

Lemma omap_set_fresh m k v : k ∉ m.*1 -> OMap.set k v m = m ++ [(k, v)].
Proof.
  induction m as [|[k' v'] m IH]; simpl; [done|].
  rewrite not_elem_of_cons. intros [Hne Hk].
  rewrite decide_False by done. by rewrite IH.
Qed.

Lemma omap_get_app_l m ext k :
  k ∈ m.*1 -> OMap.get k (m ++ ext) = OMap.get k m.
Proof.
  induction m as [|[k' v'] m IH]; simpl.
  - intros H. by apply elem_of_nil in H.
  - destruct (decide (k = k')); [done|].
    rewrite elem_of_cons. intros [?|?]; [done|]. by apply IH.
Qed.

Lemma omap_get_app_r m ext k :
  k ∉ m.*1 -> OMap.get k (m ++ ext) = OMap.get k ext.
Proof.
  induction m as [|[k' v'] m IH]; simpl; [done|].
  rewrite not_elem_of_cons. intros [Hne Hk].
  rewrite decide_False by done. by apply IH.
Qed.

End omap_list.

Section path_walk.
Variables (E : TileId -> TileId -> Prop) (fromId : TileId).

Local Abbreviation goodPath := (goodPath E fromId).

Lemma chain_snoc pathIds a k :
  chain E pathIds -> List.last pathIds a = a -> pathIds <> [] ->
  E a k -> chain E (pathIds ++ [k]).
Proof.
  induction pathIds as [|x rest IH]; [done|]. intros Hc Hlast _ He.
  destruct rest as [|y rest'].
  - simpl in Hlast. subst x. simpl. done.
  - destruct Hc as [Hxy Hc]. split; [done|].
    apply IH; [done|exact Hlast|done|done].
Qed.

Lemma pathWalk_spec (L : PrevMap) : forall l,
  PrevOK E fromId l ->
  forall ext, L = l ++ ext ->
  forall k, k ∈ l.*1 ->
  forall fuel pushed, (length l <= fuel)%nat ->
  exists pathIds,
    pathWalk fuel L k pushed = Some (pushed ++ rev pathIds)
    /\ goodPath pathIds k
    /\ forall x, x ∈ pathIds -> x ∈ l.*1.
Proof.
  induction 1 as [|l a k' Hl IH Ha Hk' He]; intros ext HL k Hk fuel pushed Hf.
  - apply list_elem_of_singleton in Hk as ->.
    destruct fuel as [|fuel]; [simpl in Hf; lia|]. simpl.
    assert (OMap.get fromId L = Some None) as ->
      by (rewrite HL; simpl; by rewrite decide_True).
    exists [fromId]. split; [done|].
    split; [|by intros x ->%list_elem_of_singleton; left].
    split; [done|]. split; [done|]. split; [done|]. apply NoDup_singleton.
  - assert (L = l ++ ([(k', Some a)] ++ ext)) as HL'
      by (by rewrite HL, <- app_assoc).
    rewrite fmap_app in Hk. apply elem_of_app in Hk as [Hk|Hk].
    + destruct (IH _ HL' k Hk fuel pushed) as (p & Hw & Hg & Hin).
      { rewrite length_app in Hf. simpl in Hf. lia. }
      exists p. split; [done|]. split; [done|].
      intros x Hx. rewrite fmap_app. apply elem_of_app. left. by apply Hin.
    + simpl in Hk. apply list_elem_of_singleton in Hk as ->.
      rewrite length_app in Hf. simpl in Hf.
      destruct fuel as [|fuel]; [lia|]. simpl.
      assert (OMap.get k' L = Some (Some a)) as ->.
      { rewrite HL', omap_get_app_r by done. simpl.
        by rewrite decide_True. }
      destruct (IH _ HL' a Ha fuel (pushed ++ [k']))
        as (p & Hw & (Hh & Hlast & Hc & Hnd) & Hin); [lia|].
      exists (p ++ [k']). split.
      { rewrite Hw, rev_app_distr. simpl. by rewrite <- app_assoc. }
      assert (p <> []) as Hne by (intros ->; done).
      split; [split; [|split; [|split]]|].
      * destruct p; [done|]. done.
      * apply List.last_last.
      * apply (chain_snoc p a k'); [done| |done|done].
        destruct p as [|x p']; [done|].
        rewrite (last_cons_default p' x a).
        by rewrite (last_cons_default p' x fromId) in Hlast.
      * apply list.NoDup_app. split; [done|]. split; [|apply NoDup_singleton].
        intros x Hx ->%list_elem_of_singleton. by apply Hk', Hin.
      * intros x. rewrite elem_of_app, fmap_app, elem_of_app.
        intros [Hx|Hx]; [left; by apply Hin|by right].
Qed.

End path_walk.

Lemma graph_fold_lookup (ts : gmap TileId Tile) (owner : FactionId)
    (l : list (TileId * Tile)) :
  forall (g0 : gmap TileId (list TileId)) k,
    NoDup (l.*1) ->
    Forall (fun e => tile_id (snd e) = fst e) l ->
    foldl (fun g e =>
             if bool_decide (ownerFaction (snd e) = owner)
             then <[tile_id (snd e) := friendlyNbrs ts owner (snd e)]> g
             else g) g0 l !! k
    = match (list_to_map l : gmap TileId Tile) !! k with
      | Some t => if bool_decide (ownerFaction t = owner)
                  then Some (friendlyNbrs ts owner t) else g0 !! k
      | None => g0 !! k
      end.
Proof.
  induction l as [|[k0 t0] l IH]; intros g0 k Hnd Hl; simpl.
  - by rewrite lookup_empty.
  - inversion Hnd as [|?? Hfresh Hnd']; subst.
    inversion Hl as [|?? Hk Hl']; subst. simpl in Hk. subst k0.
    rewrite IH by done.
    destruct (decide (tile_id t0 = k)) as [<-|Hne].
    + rewrite (not_elem_of_list_to_map_1 l (tile_id t0)) by done.
      rewrite lookup_insert_eq.
      destruct (bool_decide (ownerFaction t0 = owner)); [|done].
      by rewrite lookup_insert_eq.
    + rewrite lookup_insert_ne by done.
      destruct (list_to_map l !! k) as [t|]; [destruct (bool_decide _)|];
        try done;
        destruct (bool_decide (ownerFaction t0 = owner)); try done;
        by rewrite lookup_insert_ne.
Qed.

Lemma graphOf_lookup (ts : gmap TileId Tile) (owner : FactionId) k :
  tiles_keyed ts ->
  graphOf ts owner !! k
  = match ts !! k with
    | Some t => if bool_decide (ownerFaction t = owner)
                then Some (friendlyNbrs ts owner t) else None
    | None => None
    end.
Proof.
  intros Hkeyed. unfold graphOf. rewrite graph_fold_lookup.
  - rewrite list_to_map_to_list, lookup_empty. by destruct (ts !! k).
  - apply NoDup_fst_map_to_list.
  - by apply (map_Forall_to_list (fun k t => tile_id t = k)).
Qed.

Lemma friendlyNbrs_step (ts : gmap TileId Tile) (owner : FactionId)
    (a : TileId) (t : Tile) (nb : TileId) :
  ts !! a = Some t -> ownerFaction t = owner ->
  nb ∈ friendlyNbrs ts owner t -> friendlyStep ts owner a nb.
Proof.
  intros Ha Ho Hnb. unfold friendlyNbrs in Hnb.
  apply list_elem_of_In, filter_In in Hnb as [Hin Hf].
  destruct (ts !! nb) as [nt|] eqn:Hnt; [|done].
  apply bool_decide_eq_true in Hf. exists t, nt.
  split; [done|]. split; [done|]. split; [|done].
  apply adjacentTo_spec. apply in_map_iff in Hin as (d & <- & Hd).
  exists d. split; [|done]. rewrite <- clientDirs_DIRS.
  by apply list_elem_of_In.
Qed.

Section path_loop.
Variables (ts : gmap TileId Tile) (owner : FactionId) (fromId toId : TileId).
Hypothesis Hkeyed : tiles_keyed ts.

Local Abbreviation E := (friendlyStep ts owner).
Local Abbreviation keys := (fun prev : PrevMap =>
                              (list_to_set (prev.*1) : gset TileId)).
Local Abbreviation pathInv := (pathInv ts owner fromId).

Lemma pathVisit_fold cur ns : forall prev q,
  (forall nb, nb ∈ ns -> E cur nb) ->
  cur ∈ prev.*1 ->
  pathInv q prev ->
  let st := foldl (pathVisit cur) (prev, q) ns in
  pathInv (snd st) (fst st)
  /\ (exists ext, fst st = prev ++ ext)
  /\ (size (dom ts ∖ keys (fst st)) + length (snd st)
      = size (dom ts ∖ keys prev) + length q)%nat.
Proof.
  induction ns as [|nb ns IH]; intros prev q He Hcur (Hok & Hdom & Hq); simpl.
  - split; [done|]. split; [by exists []; rewrite app_nil_r|done].
  - destruct (OMap.has nb prev) eqn:Hhas.
    + assert (pathVisit cur (prev, q) nb = (prev, q)) as ->
        by (unfold pathVisit; simpl; by rewrite Hhas).
      apply IH; [|done|done]. intros x Hx. apply He. by right.
    + assert (pathVisit cur (prev, q) nb
              = (prev ++ [(nb, Some cur)], q ++ [nb])) as ->.
      { unfold pathVisit. simpl. rewrite Hhas.
        apply omap_has_false in Hhas. by rewrite omap_set_fresh. }
      apply omap_has_false in Hhas.
      assert (E cur nb) as Hstep by (apply He; left).
      assert (nb ∈ dom ts) as Hnb.
      { destruct Hstep as (t & nt & _ & _ & _ & Hnt & _).
        by apply elem_of_dom_2 in Hnt. }
      destruct (IH (prev ++ [(nb, Some cur)]) (q ++ [nb]))
        as (Hinv & [ext Hext] & Hsize).
      { intros x Hx. apply He. by right. }
      { rewrite fmap_app. apply elem_of_app. by left. }
      { split; [by constructor|]. split.
        - intros x. rewrite fmap_app, elem_of_app. simpl.
          intros [Hx| ->%list_elem_of_singleton]; [by apply Hdom|done].
        - intros x. rewrite fmap_app, !elem_of_app. simpl.
          intros [Hx|Hx]; [left; by apply Hq|by right]. }
      split; [done|]. split.
      { exists ([(nb, Some cur)] ++ ext). by rewrite Hext, <- app_assoc. }
      rewrite Hsize, length_app. simpl.
      assert (keys (prev ++ [(nb, Some cur)]) = {[nb]} ∪ keys prev) as ->.
      { rewrite fmap_app, list_to_set_app_L. simpl. clear. set_solver. }
      rewrite <- (size_difference_fresh (dom ts) (keys prev) nb); [lia|done|].
      by rewrite elem_of_list_to_set.
Qed.

Lemma pathLoop_spec fuel : forall q prev,
  pathInv q prev ->
  (size (dom ts ∖ keys prev) + length q <= fuel)%nat ->
  exists prev' ext,
    pathLoop fuel (graphOf ts owner) toId q prev = Some prev'
    /\ prev' = prev ++ ext
    /\ PrevOK E fromId prev'.
Proof.
  induction fuel as [|fuel IH]; intros q prev Hinv Hfuel;
    destruct q as [|cur q]; simpl.
  - exists prev, []. rewrite app_nil_r. split; [done|]. split; [done|].
    apply Hinv.
  - simpl in Hfuel. lia.
  - exists prev, []. rewrite app_nil_r. split; [done|]. split; [done|].
    apply Hinv.
  - destruct (decide (cur = toId)).
    { exists prev, []. rewrite app_nil_r. split; [done|]. split; [done|].
      apply Hinv. }
    destruct Hinv as (Hok & Hdom & Hq).
    assert (cur ∈ prev.*1) as Hcur by (apply Hq; left).
    destruct (pathVisit_fold cur (default [] (graphOf ts owner !! cur))
                prev q) as (Hinv' & [ext Hext] & Hsize).
    { rewrite graphOf_lookup by done. intros nb Hnb.
      destruct (ts !! cur) as [t|] eqn:Ht; simpl in Hnb;
        [|by apply elem_of_nil in Hnb].
      case_bool_decide as Ho; simpl in Hnb; [|by apply elem_of_nil in Hnb].
      by eapply friendlyNbrs_step. }
    { done. }
    { split; [done|]. split; [done|]. intros x Hx. apply Hq. by right. }
    destruct (IH _ _ Hinv') as (prev' & ext' & Hrun & Hpre & Hok').
    { simpl in Hfuel. lia. }
    exists prev', (ext ++ ext'). split; [done|]. split; [|done].
    by rewrite Hpre, Hext, <- app_assoc.
Qed.

End path_loop.

Lemma chain_friendly (ts : gmap TileId Tile) (owner : FactionId) :
  forall rest a,
    (exists t, ts !! a = Some t /\ ownerFaction t = owner) ->
    chain (friendlyStep ts owner) (a :: rest) ->
    friendlyPath ts owner (a :: rest).
Proof.
  induction rest as [|b rest IH]; intros a (t & Ht & Ho) Hc.
  - split; [|done]. by exists t.
  - destruct Hc as [(t' & nt & Ht' & Ho' & Hadj & Hnt & Hno) Hc].
    split.
    + exists t'. by repeat split.
    + apply IH; [|done]. by exists nt.
Qed.

Lemma findFriendlyPath_path (ts : gmap TileId Tile) (owner : FactionId)
    (fromId toId : TileId) :
  tiles_keyed ts -> fromId <> toId ->
  findFriendlyPath ts owner fromId toId <> PathFuel
  /\ forall pathIds,
       findFriendlyPath ts owner fromId toId = PathSome pathIds ->
       goodPath (friendlyStep ts owner) fromId pathIds toId
       /\ friendlyPath ts owner pathIds.
Proof.
  intros Hkeyed Hne. unfold findFriendlyPath.
  rewrite decide_False by done.
  destruct (graphOf ts owner !! fromId) as [ns|] eqn:Hgf; [|by split].
  destruct (graphOf ts owner !! toId) as [ns'|]; [|by split].
  rewrite graphOf_lookup in Hgf by done.
  destruct (ts !! fromId) as [t|] eqn:Ht; [|done].
  case_bool_decide as Ho; [|done]. clear Hgf.
  destruct (pathLoop_spec ts owner fromId toId Hkeyed (S (size ts))
              [fromId] [(fromId, None)]) as (prev & ext & -> & Hpre & Hok).
  { split; [constructor|]. split.
    - intros x ->%list_elem_of_singleton. by apply elem_of_dom_2 in Ht.
    - intros x ->%list_elem_of_singleton. by left. }
  { simpl.
    assert (size (dom ts ∖ ({[fromId]} ∪ ∅ : gset TileId)) <= size (dom ts))%nat
      by (apply subseteq_size; set_solver).
    rewrite size_dom in *. lia. }
  destruct (OMap.has toId prev) eqn:Hhas; [|by split].
  apply omap_has_true in Hhas.
  destruct (pathWalk_spec (friendlyStep ts owner) fromId prev prev Hok []
              (eq_sym (app_nil_r _)) toId Hhas (S (length prev)) [])
    as (p & -> & Hg & _); [lia|].
  split; [done|]. intros pathIds [= <-]. simpl. rewrite rev_involutive.
  split; [done|]. destruct Hg as (Hh & _ & Hc & _).
  destruct p as [|a rest]; [done|]. injection Hh as ->.
  apply chain_friendly; [|done]. by exists t.
Qed.

(** X22: the client's path search is sound and always ends.  On a map whose
    tiles are stored under their ids, for two different tiles,
    [findFriendlyPath] returns (a path or [null]), and a path it returns
    starts at [fromId], ends at [toId], visits no tile twice, and runs over
    tiles of the player's faction only, each next to the one before. *)
Theorem findFriendlyPath_sound (ts : gmap TileId Tile) (owner : FactionId)
    (fromId toId : TileId) :
  tiles_keyed ts -> fromId <> toId ->
  findFriendlyPath ts owner fromId toId <> PathFuel
  /\ forall pathIds,
       findFriendlyPath ts owner fromId toId = PathSome pathIds ->
       head pathIds = Some fromId
       /\ List.last pathIds fromId = toId
       /\ NoDup pathIds
       /\ friendlyPath ts owner pathIds.
Proof.
  intros Hkeyed Hne.
  destruct (findFriendlyPath_path ts owner fromId toId Hkeyed Hne)
    as [Hfuel Hpath].
  split; [done|]. intros pathIds Hp.
  destruct (Hpath pathIds Hp) as [(Hh & Hl & _ & Hnd) Hf]. done.
Qed.

Lemma findFriendlyPath_sound_witness :
  findFriendlyPath (tiles demoCaptured) "f1" (0, 0) (2, 0)
  = PathSome [(0, 0); (1, 0); (2, 0)]
  /\ friendlyPath (tiles demoCaptured) "f1" [(0, 0); (1, 0); (2, 0)].
Proof.
  assert (findFriendlyPath (tiles demoCaptured) "f1" (0, 0) (2, 0)
          = PathSome [(0, 0); (1, 0); (2, 0)]) as Hp by by_eval.
  split; [exact Hp|].
  destruct (findFriendlyPath_sound (tiles demoCaptured) "f1" (0, 0) (2, 0))
    as [_ Hs].
  - unfold tiles_keyed. eapply bool_decide_eq_true_1. by_eval.
  - discriminate.
  - exact (proj2 (proj2 (proj2 (Hs _ Hp)))).
Defined.



Section path_complete.
Variables (ts : gmap TileId Tile) (owner : FactionId) (fromId toId : TileId).
Hypothesis Hkeyed : tiles_keyed ts.

Local Abbreviation E := (friendlyStep ts owner).
Local Abbreviation pathClosed := (pathClosed ts owner).

Lemma friendlyStep_nbrs a k :
  E a k -> exists ns, graphOf ts owner !! a = Some ns /\ k ∈ ns.
Proof.
  intros (t & nt & Ht & Ho & Hadj & Hnt & Hno).
  exists (friendlyNbrs ts owner t). split.
  - rewrite graphOf_lookup, Ht by done. by rewrite bool_decide_eq_true_2.
  - unfold friendlyNbrs. apply list_elem_of_In, filter_In. split.
    + apply adjacentTo_spec in Hadj as (d & Hd & ->).
      apply in_map_iff. exists d. split; [done|].
      rewrite clientDirs_DIRS. by apply list_elem_of_In.
    + rewrite Hnt. by apply bool_decide_eq_true.
Qed.

Lemma pathVisit_fold_grow cur ns : forall prev q,
  let st := foldl (pathVisit cur) (prev, q) ns in
  (forall nb, nb ∈ ns -> nb ∈ (fst st).*1)
  /\ (forall x, x ∈ prev.*1 -> x ∈ (fst st).*1)
  /\ (forall x, x ∈ q -> x ∈ snd st)
  /\ (forall x, x ∈ (fst st).*1 -> x ∈ prev.*1 \/ x ∈ snd st)
  /\ ((forall x, x ∈ q -> x ∈ prev.*1) ->
      forall x, x ∈ snd st -> x ∈ (fst st).*1).
Proof.
  induction ns as [|nb ns IH]; intros prev q; simpl.
  - split; [intros nb H; by apply elem_of_nil in H|]. by repeat split; auto.
  - destruct (OMap.has nb prev) eqn:Hhas.
    + assert (pathVisit cur (prev, q) nb = (prev, q)) as ->
        by (unfold pathVisit; simpl; by rewrite Hhas).
      destruct (IH prev q) as (H1 & H2 & H3 & H4 & H5).
      split; [|done]. intros x [->|Hx]%elem_of_cons; [|by apply H1].
      apply H2. by apply omap_has_true.
    + assert (pathVisit cur (prev, q) nb
              = (prev ++ [(nb, Some cur)], q ++ [nb])) as ->.
      { unfold pathVisit. simpl. rewrite Hhas.
        apply omap_has_false in Hhas. by rewrite omap_set_fresh. }
      destruct (IH (prev ++ [(nb, Some cur)]) (q ++ [nb]))
        as (H1 & H2 & H3 & H4 & H5).
      split; [|split; [|split; [|split]]].
      * intros x [->|Hx]%elem_of_cons; [|by apply H1].
        apply H2. rewrite fmap_app. apply elem_of_app. right. by left.
      * intros x Hx. apply H2. rewrite fmap_app. apply elem_of_app.
        by left.
      * intros x Hx. apply H3. apply elem_of_app. by left.
      * intros x Hx. destruct (H4 x Hx) as [Hp|Hs]; [|by right].
        rewrite fmap_app in Hp. apply elem_of_app in Hp as [Hp|Hp];
          [by left|].
        right. apply H3. apply elem_of_app. by right.
      * intros Hq. apply H5. intros x. rewrite fmap_app, !elem_of_app.
        intros [Hx|Hx]; [left; by apply Hq|by right].
Qed.

Lemma pathLoop_closed fuel : forall q prev prev',
  pathLoop fuel (graphOf ts owner) toId q prev = Some prev' ->
  (forall x, x ∈ q -> x ∈ prev.*1) ->
  pathClosed q prev ->
  toId ∈ prev'.*1
  \/ forall a, a ∈ prev'.*1 -> forall k, E a k -> k ∈ prev'.*1.
Proof.
  induction fuel as [|fuel IH]; intros q prev prev' Hrun Hq Hc;
    destruct q as [|cur q]; simpl in Hrun.
  - injection Hrun as <-. right. intros a Ha.
    destruct (Hc a Ha) as [H|H]; [by apply elem_of_nil in H|done].
  - destruct (decide (cur = toId)) as [->|]; [|done].
    injection Hrun as <-. left. apply Hq. left.
  - injection Hrun as <-. right. intros a Ha.
    destruct (Hc a Ha) as [H|H]; [by apply elem_of_nil in H|done].
  - destruct (decide (cur = toId)) as [->|Hne].
    { injection Hrun as <-. left. apply Hq. left. }
    destruct (pathVisit_fold_grow cur
                (default [] (graphOf ts owner !! cur)) prev q)
      as (H1 & H2 & H3 & H4 & H5).
    apply IH in Hrun; [done| |].
    + apply H5. intros x Hx. apply Hq. by right.
    + intros a Ha. destruct (H4 a Ha) as [Hp|Hs]; [|by left].
      destruct (Hc a Hp) as [Haq|Hcl].
      * apply elem_of_cons in Haq as [->|Haq]; [|left; by apply H3].
        right. intros k Hk.
        destruct (friendlyStep_nbrs cur k Hk) as (ns & Hns & Hin).
        apply H1. by rewrite Hns.
      * right. intros k Hk. apply H2. by apply Hcl.
Qed.

End path_complete.

Lemma chain_connected (ts : gmap TileId Tile) (owner : FactionId)
    (startId : TileId) : forall rest a,
  connected ts (ownedBy owner) startId a ->
  chain (friendlyStep ts owner) (a :: rest) ->
  connected ts (ownedBy owner) startId (List.last rest a).
Proof.
  induction rest as [|b rest IH]; intros a Ha Hc; [done|].
  destruct Hc as [(t & nt & Ht & Ho & Hadj & Hnt & Hno) Hc].
  rewrite (last_cons_default rest b a). apply IH; [|done].
  apply adjacentTo_spec in Hadj as (d & Hd & ->).
  eapply connected_step; try done.
  unfold ownedBy. by apply bool_decide_eq_true.
Qed.

Lemma connected_owned (ts : gmap TileId Tile) (owner : FactionId)
    (fromId k : TileId) :
  (exists t, ts !! fromId = Some t /\ ownerFaction t = owner) ->
  connected ts (ownedBy owner) fromId k ->
  exists t, ts !! k = Some t /\ ownerFaction t = owner.
Proof.
  intros Hfrom Hk. destruct Hk as [|a t d nt _ Ha Hd Hnt Hp]; [done|].
  exists nt. split; [done|]. unfold ownedBy in Hp.
  by apply bool_decide_eq_true in Hp.
Qed.

Lemma connected_friendlyStep (ts : gmap TileId Tile) (owner : FactionId)
    (fromId : TileId) (S : TileId -> Prop) :
  (exists t, ts !! fromId = Some t /\ ownerFaction t = owner) ->
  S fromId ->
  (forall a k, S a -> friendlyStep ts owner a k -> S k) ->
  forall k, connected ts (ownedBy owner) fromId k -> S k.
Proof.
  intros Hfrom H0 Hstep k Hk.
  induction Hk as [|a t d nt Hca IHa Ha Hd Hnt Hp]; [done|].
  apply (Hstep a); [done|].
  destruct (connected_owned ts owner fromId a Hfrom Hca) as (t' & Ht' & Ho).
  assert (t' = t) as -> by congruence.
  exists t, nt. split; [done|]. split; [done|].
  split; [apply adjacentTo_spec; by exists d|]. split; [done|].
  unfold ownedBy in Hp. by apply bool_decide_eq_true in Hp.
Qed.

(** X24: the client's path search finds a path exactly when there is one.
    On a map whose tiles are stored under their ids, for two different
    tiles, [findFriendlyPath] returns a path if and only if the start is a
    tile of the faction and the destination can be reached from it
    through neighbouring tiles of the faction; otherwise it returns
    [null]. *)
Theorem findFriendlyPath_complete (ts : gmap TileId Tile)
    (owner : FactionId) (fromId toId : TileId) :
  tiles_keyed ts -> fromId <> toId ->
  ((exists pathIds,
      findFriendlyPath ts owner fromId toId = PathSome pathIds)
   <-> (exists t, ts !! fromId = Some t /\ ownerFaction t = owner)
       /\ connected ts (ownedBy owner) fromId toId)
  /\ ((forall pathIds,
         findFriendlyPath ts owner fromId toId <> PathSome pathIds)
      -> findFriendlyPath ts owner fromId toId = PathNull).
Proof.
  intros Hkeyed Hne.
  destruct (findFriendlyPath_path ts owner fromId toId Hkeyed Hne)
    as [Hfuel Hpath].
  split; [split|].
  - intros [pathIds Hp].
    destruct (Hpath _ Hp) as [(Hh & Hlast & Hc & _) Hf].
    destruct pathIds as [|a rest]; [done|]. injection Hh as ->.
    split; [destruct Hf as [(t & Ht & Ho & _) _]; by exists t|].
    rewrite (last_cons_default rest fromId fromId) in Hlast.
    rewrite <- Hlast. apply chain_connected; [constructor|done].
  - intros [Hfrom Hconn].
    destruct (connected_owned ts owner fromId toId Hfrom Hconn)
      as (tt & Htt & Hto).
    destruct Hfrom as (ft & Hft & Hfo).
    destruct (findFriendlyPath ts owner fromId toId) as [p| |] eqn:Hres;
      [by exists p| |done].
    exfalso. unfold findFriendlyPath in Hres.
    rewrite decide_False in Hres by done.
    rewrite !graphOf_lookup, Hft, Htt in Hres by done.
    rewrite !bool_decide_eq_true_2 in Hres by done.
    destruct (pathLoop_spec ts owner fromId toId Hkeyed (S (size ts))
                [fromId] [(fromId, None)]) as (prev & ext & Hrun & Hpre & Hok).
    { split; [constructor|]. split.
      - intros x ->%list_elem_of_singleton. by apply elem_of_dom_2 in Hft.
      - intros x ->%list_elem_of_singleton. by left. }
    { simpl.
      assert (size (dom ts ∖ ({[fromId]} ∪ ∅ : gset TileId))
              <= size (dom ts))%nat
        by (apply subseteq_size; set_solver).
      rewrite size_dom in *. lia. }
    rewrite Hrun in Hres.
    assert (toId ∈ prev.*1) as Hin.
    { destruct (pathLoop_closed ts owner toId Hkeyed _ _ _ _ Hrun)
        as [Hin|Hcl]; [| |done|].
      - intros x ->%list_elem_of_singleton. by left.
      - intros a ->%list_elem_of_singleton. left. by left.
      - apply (connected_friendlyStep ts owner fromId
                 (fun k => k ∈ prev.*1));
          [by exists ft| |intros a k Ha Hs; by apply (Hcl a)|done].
        rewrite Hpre. left. }
    apply omap_has_true in Hin. rewrite Hin in Hres.
    destruct (pathWalk (S (length prev)) prev toId []); done.
  - intros Hnone.
    destruct (findFriendlyPath ts owner fromId toId) as [p| |] eqn:Hres;
      [by destruct (Hnone p)|done|done].
Qed.

Lemma findFriendlyPath_complete_witness :
  (exists pathIds,
     findFriendlyPath demoTiles "f1" (0, 0) (1, 0) = PathSome pathIds)
  /\ findFriendlyPath demoTiles "f1" (0, 0) (9, 9) = PathNull.
Proof.
  split.
  - apply (findFriendlyPath_complete demoTiles "f1" (0, 0) (1, 0)).
    + unfold tiles_keyed. eapply bool_decide_eq_true_1. by_eval.
    + discriminate.
    + split; [eexists; split; by_eval|].
      change (1, 0) with (key (tile_q (mkTile 0 0 "f1" 100 true) + fst (1, 0))
                              (tile_r (mkTile 0 0 "f1" 100 true)
                               + snd (1, 0))).
      eapply connected_step; [constructor|by_eval| |by_eval|by_eval].
      left.
  - by_eval.
Defined.

(** * The client's deploy click *)

Lemma connected_stored ts passableFn startId k :
  is_Some (ts !! startId) ->
  connected ts passableFn startId k -> is_Some (ts !! k).
Proof. intros Hs [|a t d nt _ _ _ Hnt _]; [done|eauto]. Qed.

Lemma deploy_valid_eq s sid now targetId amount tok p l capId :
  DeployValid s sid now targetId amount tok p l ->
  capitalsByFaction s !! factionId p = Some capId ->
  is_Some (tiles s !! capId) ->
  connected (tiles s) (ownedBy (factionId p)) capId targetId ->
  exists evs,
    deploy s sid now targetId amount
    = Done (afterDeploy (charged s tok l now) tok p targetId
              (normAmount amount)) evs
    /\ forall e, e ∈ evs -> is_error_msg e = false.
Proof.
  intros V Hcap Hcapt Hconn.
  pose proof (deploy_paths s sid now targetId amount) as H.
  pose proof V as [Hres Hl _ _ _ _].
  remember (deploy s sid now targetId amount) as o eqn:Ho.
  destruct H as [Hres' | tok' p' Hres' Hl' | tok' p' l' Hres' Hl' Hno
                | tok' p' l' V' Hnc | tok' p' l' capId' V' Hcap' Hcapt' Hnot
                | tok' p' l' capId' V' Hcap' Hcapt' Hconn' s'].
  - congruence.
  - congruence.
  - rewrite Hres in Hres'. injection Hres' as <- <-.
    rewrite Hl in Hl'. injection Hl' as <-. done.
  - destruct V' as [Hres' _]. rewrite Hres in Hres'.
    injection Hres' as <- <-. destruct Hcapt as [t Ht].
    rewrite (Hnc capId Hcap) in Ht. done.
  - destruct V' as [Hres' _]. rewrite Hres in Hres'.
    injection Hres' as <- <-. rewrite Hcap in Hcap'.
    injection Hcap' as <-. done.
  - destruct V' as [Hres' Hl' _]. rewrite Hres in Hres'.
    injection Hres' as <- <-. rewrite Hl in Hl'. injection Hl' as <-.
    eexists. split; [reflexivity|].
    intros e He. repeat (apply elem_of_cons in He as [->|He]; [done|]).
    by apply elem_of_nil in He.
Qed.

(** X25: a deploy the client lets through is carried out.  When the
    client, seeing the server's tiles, capitals and the player's inventory,
    answers a click in deploy mode by sending a [deploy], and the limiter
    admits it, the server performs it: no error message is sent, the
    inventory falls by the floored amount (at least 1) and the player's
    entry on the clicked tile rises by it. *)
Theorem deploy_click_accepted (cfg : Config) (s : State) (sid : SocketId)
    (ip : Ip) (now : Z) (tok : Token) (p : Player) (l : Limiter)
    (targetId : TileId) (amount : Q) (msg : TileId * Q) :
  sockets s !! sid = Some ip ->
  resolve s sid = Some (tok, p) ->
  actionLimiters s !! tok = Some l ->
  fst (consume l now) = true ->
  deployClick (tiles s) (capitalsByFaction s) (factionId p) (inventory p)
    targetId amount = Sent msg ->
  exists s' evs p',
    step cfg s (Deploy sid now (fst msg) (snd msg)) = Done s' evs
    /\ fst msg = targetId
    /\ 1 <= normAmount (snd msg) <= inventory p
    /\ (forall e, e ∈ evs -> is_error_msg e = false)
    /\ players s' !! tok = Some p'
    /\ inventory p' = inventory p - normAmount (snd msg)
    /\ troopsAt p' targetId = troopsAt p targetId + normAmount (snd msg).
Proof.
  intros Hsock Hres Hl Hadm Hclick. unfold deployClick in Hclick.
  destruct (deployEligible (tiles s) (capitalsByFaction s) (factionId p))
    as [eligible| |] eqn:Helig; try done.
  case_bool_decide as Hin; [|done].
  destruct (Qlt_le_dec _ 1) as [|Hge]; [done|]. injection Hclick as <-.
  simpl.
  assert (exists capId, capitalsByFaction s !! factionId p = Some capId
                        /\ is_Some (tiles s !! capId))
    as (capId & Hcap & Hcapt).
  { unfold deployEligible in Helig.
    destruct (capitalsByFaction s !! factionId p) as [capId|]; [|done].
    exists capId. split; [done|]. simpl in Helig.
    destruct (tiles s !! capId); [eauto|done]. }
  destruct (deployEligible_region (tiles s)
              (capitalsByFaction s) (factionId p) capId Hcap Hcapt)
    as (out & _ & Helig' & Hk).
  rewrite Helig in Helig'. injection Helig' as ->.
  apply Hk in Hin.
  assert (1 <= normAmount (mathMin amount (inject_Z (inventory p)))
          <= inventory p) as [Hn1 Hn2].
  { unfold normAmount. split.
    - change 1 with (Qfloor 1). by apply Qfloor_resp_le.
    - rewrite <- (Qfloor_Z (inventory p)) at 2. apply Qfloor_resp_le.
      unfold mathMin. destruct (Qlt_le_dec _ _); [apply Qle_refl|done]. }
  assert (DeployValid s sid now targetId
            (mathMin amount (inject_Z (inventory p))) tok p l) as V.
  { constructor; try done. by eapply connected_stored. }
  destruct (deploy_valid_eq _ _ _ _ _ _ _ _ _ V Hcap Hcapt Hin)
    as (evs & Hdep & Hevs).
  eexists _, evs, _. split.
  { unfold onSocket. rewrite Hsock. exact Hdep. }
  split; [done|]. split; [done|]. split; [done|].
  unfold afterDeploy. rewrite recalc_players. simpl.
  split; [apply lookup_insert_eq|]. split; [done|].
  unfold troopsAt at 1. simpl. rewrite credit_default.
  by rewrite decide_True.
Qed.

Lemma deploy_click_accepted_witness :
  exists s' evs p',
    deployClick (tiles demoStocked) (capitalsByFaction demoStocked) "f1" 10
      (1, 0) (25 # 1) = Sent ((1, 0), 10 # 1)
    /\ step defaultCfg demoStocked (Deploy "a" 0 (1, 0) (10 # 1))
       = Done s' evs
    /\ players s' !! "t1" = Some p'
    /\ inventory p' = 0
    /\ troopsAt p' (1, 0) = 10.
Proof.
  destruct (deploy_click_accepted defaultCfg demoStocked "a" "ip1" 0 "t1"
              (playerOf demoStocked "t1") (limiterOf demoStocked "t1")
              (1, 0) (25 # 1) ((1, 0), 10 # 1))
    as (s' & evs & p' & Hstep & _ & _ & _ & Hp & Hi & Ht).
  - by_eval.
  - by_eval.
  - by_eval.
  - by_eval.
  - by_eval.
  - exists s', evs, p'. split; [by_eval|]. split; [exact Hstep|].
    split; [exact Hp|].
    replace (inventory (playerOf demoStocked "t1")) with 10 in Hi by by_eval.
    replace (troopsAt (playerOf demoStocked "t1") (1, 0)) with 0 in Ht
      by by_eval.
    replace (normAmount (snd ((1, 0), 10 # 1))) with 10 in * by by_eval.
    split; [exact Hi|exact Ht].
Defined.

(** ** The client's attack click *)

(** X28: an attack the client lets through is fought out.  When the
    client, seeing the server's tiles, answers a click in attack mode by
    sending an [attack] from a tile of the player's faction on which the
    player has the troops, and the limiter admits it, the server resolves
    the combat: the attacker gets a [me_update], no error message is sent,
    and the floored amount (at least 1) leaves the selected tile. *)
Theorem attack_click_resolved (cfg : Config) (s : State) (sid : SocketId)
    (ip : Ip) (now : Z) (tok : Token) (p : Player) (l : Limiter)
    (selected t : Tile) (amount : Q) (msg : TileId * TileId * Q) :
  tiles_wf (tiles s) ->
  tiles s !! tile_id selected = Some selected ->
  tiles s !! tile_id t = Some t ->
  sockets s !! sid = Some ip ->
  resolve s sid = Some (tok, p) ->
  actionLimiters s !! tok = Some l ->
  fst (consume l now) = true ->
  ownerFaction selected = factionId p ->
  normAmount amount <= troopsAt p (tile_id selected) ->
  attackClick (factionId p) selected t amount = Sent msg ->
  exists s' evs p',
    msg = (tile_id selected, tile_id t, amount)
    /\ step cfg s (Attack sid now (tile_id selected) (tile_id t) amount)
       = Done s' evs
    /\ (exists me, Emit sid (me_update me) ∈ evs)
    /\ (forall e, e ∈ evs -> is_error_msg e = false)
    /\ players s' !! tok = Some p'
    /\ troopsAt p' (tile_id selected)
       = troopsAt p (tile_id selected) - normAmount amount
    /\ 1 <= normAmount amount.
Proof.
  intros Hwf Hsel Ht Hsock Hres Hl Hadm Hown Hhave Hclick.
  unfold attackClick in Hclick.
  destruct (isNeighbor selected t && _ && negb (isCapital t)) eqn:Hchk;
    [|done]. simpl in Hclick.
  destruct (Qlt_le_dec amount 1) as [|Hge]; [done|]. injection Hclick as <-.
  apply andb_true_iff in Hchk as [Hchk Hncap].
  apply andb_true_iff in Hchk as [Hnb _].
  apply negb_true_iff in Hncap.
  assert (adjacentTo selected (tile_id t) = true) as Hadj.
  { destruct (Hwf _ _ Ht) as [_ Hkey].
    destruct (isNeighbor_adjacent selected t) as [<- _]; [|done].
    by rewrite Hkey. }
  assert (1 <= normAmount amount) as Hn.
  { unfold normAmount. change 1 with (Qfloor 1). by apply Qfloor_resp_le. }
  pose proof (adjacentTo_ne _ _ _ _ Hwf Hsel Hadj) as Hne.
  destruct (consume l now) as [ok l'] eqn:Hcons. simpl in Hadm. subst ok.
  destruct (decide (normAmount amount > control t)) as [Hgt|Hle].
  - pose proof (attack_capture_eq s sid now (tile_id selected) (tile_id t)
                  amount tok p l l' selected t Hres Hl Hcons Hsel Ht Hn
                  Hown Hhave Hadj Hncap Hgt) as Heq.
    eexists _, _, _. split; [done|]. split.
    { simpl. unfold onSocket. rewrite Hsock. exact Heq. }
    split; [eexists; left|]. split.
    { intros e He. repeat (apply elem_of_cons in He as [->|He]; [done|]).
      by apply elem_of_nil in He. }
    unfold afterCapture. rewrite !recalc_players. simpl.
    split; [apply lookup_insert_eq|]. split; [|done].
    unfold troopsAt at 1. simpl. rewrite credit_default.
    rewrite decide_False by done. unfold attackerAfter.
    rewrite storeOrDelete_default by lia. by rewrite decide_True.
  - pose proof (attack_repelled_eq s sid now (tile_id selected) (tile_id t)
                  amount tok p l l' selected t Hres Hl Hcons Hsel Ht Hn
                  Hown Hhave Hadj Hncap) as Heq.
    eexists _, _, _. split; [done|]. split.
    { simpl. unfold onSocket. rewrite Hsock. apply Heq. lia. }
    split; [eexists; left|]. split.
    { intros e He. repeat (apply elem_of_cons in He as [->|He]; [done|]).
      by apply elem_of_nil in He. }
    unfold afterRepelled. rewrite !recalc_players. simpl.
    split; [apply lookup_insert_eq|]. split; [|done].
    unfold troopsAt at 1. simpl. unfold attackerAfter.
    rewrite storeOrDelete_default by lia. by rewrite decide_True.
Qed.

Lemma attack_click_resolved_witness :
  exists s' evs p',
    attackClick "f1" (tileOf demoGarrisoned (1, 0))
      (tileOf demoGarrisoned (2, 0)) (30 # 1)
    = Sent ((1, 0), (2, 0), 30 # 1)
    /\ step defaultCfg demoGarrisoned (Attack "a" 0 (1, 0) (2, 0) (30 # 1))
       = Done s' evs
    /\ players s' !! "t1" = Some p'
    /\ troopsAt p' (1, 0) = 30.
Proof.
  destruct (attack_click_resolved defaultCfg demoGarrisoned "a" "ip1" 0 "t1"
              (playerOf demoGarrisoned "t1") (limiterOf demoGarrisoned "t1")
              (tileOf demoGarrisoned (1, 0)) (tileOf demoGarrisoned (2, 0))
              (30 # 1) ((1, 0), (2, 0), 30 # 1))
    as (s' & evs & p' & _ & Hstep & _ & _ & Hp & Ht & _).
  - unfold tiles_wf. eapply bool_decide_eq_true_1. by_eval.
  - by_eval.
  - by_eval.
  - by_eval.
  - by_eval.
  - by_eval.
  - by_eval.
  - by_eval.
  - vm_compute. discriminate.
  - by_eval.
  - exists s', evs, p'. split; [by_eval|].
    change (tile_id (tileOf demoGarrisoned (1, 0))) with (1, 0) in *.
    change (tile_id (tileOf demoGarrisoned (2, 0))) with (2, 0) in *.
    split; [exact Hstep|]. split; [exact Hp|].
    replace (troopsAt (playerOf demoGarrisoned "t1") (1, 0)) with 60 in Ht
      by by_eval.
    replace (normAmount (30 # 1)) with 30 in Ht by by_eval.
    exact Ht.
Defined.

(** * World generation: the starting territories *)

Section grown.
Variables (ts : gmap TileId Tile) (passableFn : Tile -> bool).
Variable (startId : TileId).

Lemma bfsLoop_grown fuel limit : forall seen q out res,
  bfsLoop fuel ts passableFn limit seen q out = BfsOut res ->
  ((out = [] /\ q = [startId])
   \/ (Grown ts passableFn startId out
       /\ forall x, x ∈ q -> exists a, a ∈ out /\ bfsStep ts passableFn a x)) ->
  res = [] \/ Grown ts passableFn startId res.
Proof.
  induction fuel as [|fuel IH]; intros seen q out res H Hinv;
    destruct q as [|id q]; cbn [bfsLoop] in H.
  - injection H as <-. destruct Hinv as [[_ ?]|[? _]]; [done|by right].
  - destruct (limitReached limit out); [|done]. injection H as <-.
    destruct Hinv as [[-> _]|[? _]]; [by left|by right].
  - injection H as <-. destruct Hinv as [[_ ?]|[? _]]; [done|by right].
  - destruct (limitReached limit out).
    { injection H as <-. destruct Hinv as [[-> _]|[? _]]; [by left|by right]. }
    destruct (ts !! id) as [t|] eqn:Ht; [|done].
    destruct (bfsVisit_fold ts passableFn startId t DIRS (seen, q))
      as (new & Hq & _ & Hnew & _ & _).
    change (snd (seen, q)) with q in Hq. apply IH in H; [done|]. right.
    assert (Grown ts passableFn startId (out ++ [id])) as Hg.
    { destruct Hinv as [[-> [= -> ->]]|[Hg Hqs]].
      - simpl. constructor. eauto.
      - destruct (Hqs id) as (a & Ha & Hs); [left|].
        by eapply grown_snoc. }
    split; [done|]. intros x. rewrite Hq, elem_of_app. intros [Hx|Hx].
    + destruct Hinv as [[-> [= -> ->]]|[_ Hqs]];
        [by apply elem_of_nil in Hx|].
      destruct (Hqs x) as (a & Ha & Hs); [by right|].
      exists a. split; [|done]. apply elem_of_app. by left.
    + destruct (Hnew x Hx) as (d & nt & Hd & -> & Hnt & Hp).
      exists id. split; [apply elem_of_app; right; left|].
      by exists t, d, nt.
Qed.

Lemma Grown_stored l :
  Grown ts passableFn startId l -> forall x, x ∈ l -> is_Some (ts !! x).
Proof.
  induction 1 as [Hs|l a x Hl IH Ha (t & d & nt & _ & _ & _ & Hnt & _)];
    intros y.
  - by intros ->%list_elem_of_singleton.
  - rewrite elem_of_app. intros [Hy| ->%list_elem_of_singleton]; eauto.
Qed.

Lemma Grown_passable l :
  Grown ts passableFn startId l ->
  forall x, x ∈ l ->
    x = startId \/ exists nt, ts !! x = Some nt /\ passableFn nt = true.
Proof.
  induction 1 as [Hs|l a x Hl IH Ha (t & d & nt & _ & _ & _ & Hnt & Hp)];
    intros y.
  - intros ->%list_elem_of_singleton. by left.
  - rewrite elem_of_app. intros [Hy| ->%list_elem_of_singleton]; eauto.
Qed.

Lemma Grown_head l :
  Grown ts passableFn startId l -> head l = Some startId.
Proof.
  induction 1 as [Hs|l a x Hl IH Ha _]; [done|]. by destruct l.
Qed.

(** The listed tiles stay connected to the start in any map that keeps
    them in place and passable. *)
Lemma Grown_connected (ts' : gmap TileId Tile) (passableFn' : Tile -> bool) l :
  Grown ts passableFn startId l ->
  (forall x t, x ∈ l -> ts !! x = Some t ->
     exists t', ts' !! x = Some t' /\ tile_q t' = tile_q t
                /\ tile_r t' = tile_r t
                /\ (x <> startId -> passableFn' t' = true)) ->
  forall x, x ∈ l -> connected ts' passableFn' startId x.
Proof.
  induction 1 as [Hs|l a x Hl IH Ha (t & d & nt & Ht & Hd & -> & Hnt & Hp)];
    intros Hkeep y.
  - intros ->%list_elem_of_singleton. constructor.
  - assert (forall z, z ∈ l -> connected ts' passableFn' startId z) as IH'.
    { apply IH. intros z tz Hz. apply Hkeep. apply elem_of_app. by left. }
    rewrite elem_of_app. intros [Hy| ->%list_elem_of_singleton];
      [by apply IH'|].
    destruct (decide (neighbourId t d = startId)) as [->|Hne];
      [constructor|].
    destruct (Hkeep a t) as (t' & Ht' & Hq & Hr & _);
      [apply elem_of_app; by left|done|].
    destruct (Hkeep (neighbourId t d) nt) as (nt' & Hnt' & _ & _ & Hp');
      [apply elem_of_app; right; left|done|].
    unfold neighbourId in *. rewrite <- Hq, <- Hr in *.
    eapply connected_step; [by apply IH'|done|done|done|by apply Hp'].
Qed.

End grown.

Lemma claim_fold (CLAIM_DEFENDERS : Z) (f : FactionId) :
  forall (region : list TileId) (m : gmap TileId Tile),
    NoDup region ->
    (forall x, x ∈ region -> is_Some (m !! x)) ->
    exists m',
      foldl (fun acc tid =>
               match acc with
               | GenOut m =>
                   match m !! tid with
                   | Some t => GenOut (<[tid := claimTile f CLAIM_DEFENDERS t]> m)
                   | None => GenThrow
                   end
               | _ => acc
               end)
            (GenOut m) region = GenOut m'
      /\ forall k, m' !! k
                   = if decide (k ∈ region)
                     then claimTile f CLAIM_DEFENDERS <$> m !! k
                     else m !! k.
Proof.
  induction region as [|x region IH]; intros m Hnd Hin; simpl.
  - exists m. split; [done|]. intros k.
    destruct (decide (k ∈ [])) as [H|]; [by apply elem_of_nil in H|done].
  - inversion Hnd as [|?? Hx Hnd']; subst.
    destruct (Hin x) as [t Ht]; [left|]. rewrite Ht.
    destruct (IH (<[x := claimTile f CLAIM_DEFENDERS t]> m) Hnd')
      as (m' & Hrun & Hm').
    { intros y Hy. destruct (decide (y = x)) as [->|Hne].
      - rewrite lookup_insert_eq. eauto.
      - rewrite lookup_insert_ne by done. apply Hin. by right. }
    exists m'. split; [done|]. intros k. rewrite Hm'.
    destruct (decide (k = x)) as [->|Hne].
    + rewrite decide_False by done. rewrite decide_True by left.
      by rewrite lookup_insert_eq, Ht.
    + rewrite lookup_insert_ne by done.
      destruct (decide (k ∈ region)) as [Hk|Hk].
      * rewrite decide_True; [done|by right].
      * rewrite decide_False; [done|].
        intros [?|?]%elem_of_cons; done.
Qed.

Lemma claimRegion_spec (CLAIM_DEFENDERS : Z) (ts : gmap TileId Tile)
    (f : FactionId) (capId : TileId) :
  is_Some (ts !! capId) ->
  exists region ts',
    claimRegion CLAIM_DEFENDERS ts f capId = GenOut ts'
    /\ NoDup region
    /\ (length region <= START_TILES_AROUND_CAPITAL + 1)%nat
    /\ Grown ts (claimPassable capId) capId region
    /\ forall k, ts' !! k
                 = if decide (k ∈ region)
                   then claimTile f CLAIM_DEFENDERS <$> ts !! k
                   else ts !! k.
Proof.
  intros Hcap. unfold claimRegion.
  destruct (bfsRegion_spec ts (claimPassable capId) capId Hcap)
    as (full & Hfull & _).
  pose proof Hfull as Hlim. unfold bfsRegion in Hlim.
  apply (bfsLoop_limit _ _ _ (START_TILES_AROUND_CAPITAL + 1)) in Hlim.
  change (bfsLoop _ _ _ _ _ _ _) with
    (bfsRegion capId ts (claimPassable capId)
       (Some (START_TILES_AROUND_CAPITAL + 1)%nat)) in Hlim.
  rewrite Hlim. set (region := take _ full) in *.
  assert (NoDup region) as Hnd.
  { unfold bfsRegion in Hlim. eapply bfsLoop_nodup; [| |exact Hlim].
    - apply NoDup_singleton.
    - intros x ->%list_elem_of_singleton. by apply elem_of_singleton. }
  assert (Grown ts (claimPassable capId) capId region) as Hg.
  { pose proof Hlim as Hlim'. unfold bfsRegion in Hlim.
    apply (bfsLoop_grown _ _ capId) in Hlim as [Hnil|Hg]; [|done|by left].
    exfalso. unfold bfsRegion in Hlim'. cbn [bfsLoop limitReached] in Hlim'.
    rewrite bool_decide_eq_false_2 in Hlim'
      by (unfold START_TILES_AROUND_CAPITAL; simpl; lia).
    destruct Hcap as [t Ht]. rewrite Ht in Hlim'.
    apply bfsLoop_prefix in Hlim' as [rest Hrest].
    rewrite Hnil in Hrest. done. }
  destruct (claim_fold CLAIM_DEFENDERS f region ts Hnd) as (ts' & Hrun & Hts').
  { by apply (Grown_stored _ _ _ _ Hg). }
  exists region, ts'. split; [done|]. split; [done|]. split; [|done].
  unfold region. rewrite length_take. simpl length.
  unfold START_TILES_AROUND_CAPITAL. lia.
Qed.

Lemma connected_mono (ts ts' : gmap TileId Tile) (P : Tile -> bool)
    (startId : TileId) :
  (forall k t, ts !! k = Some t ->
     exists t', ts' !! k = Some t' /\ tile_q t' = tile_q t
                /\ tile_r t' = tile_r t
                /\ (P t = true -> P t' = true)) ->
  forall k, connected ts P startId k -> connected ts' P startId k.
Proof.
  intros Hkeep k Hk.
  induction Hk as [|a t d nt Hca IHa Ha Hd Hnt Hp]; [constructor|].
  destruct (Hkeep a t Ha) as (t' & Ht' & Hq & Hr & _).
  destruct (Hkeep _ nt Hnt) as (nt' & Hnt' & _ & _ & Hp').
  rewrite <- Hq, <- Hr in *.
  eapply connected_step; [done|done|done|done|by apply Hp'].
Qed.

Section claim.
Variables (CLAIM_DEFENDERS : Z) (fs : list Faction).
Variables (caps : gmap FactionId TileId) (ts0 : gmap TileId Tile).
Hypothesis Hpre : GenPre fs caps ts0.

Local Abbreviation ids := (faction_id <$> fs).

Lemma territories_keyed dn ts k t :
  Territories CLAIM_DEFENDERS caps dn ts0 ts ->
  ts !! k = Some t -> tile_id t = k.
Proof.
  intros Htr Ht. pose proof (tr_shape _ _ _ _ _ Htr k) as Hs.
  destruct (ts0 !! k) as [t0|] eqn:Ht0; [|congruence].
  destruct Hs as (t' & Ht' & Hid & _). assert (t' = t) as -> by congruence.
  rewrite Hid. exact (gp_keyed _ _ _ Hpre _ _ Ht0).
Qed.

Lemma territories_init : Territories CLAIM_DEFENDERS caps [] ts0 ts0.
Proof.
  split.
  - intros k. destruct (ts0 !! k) as [t|]; [|done]. by exists t.
  - intros k t Ht. destruct (gp_rest _ _ _ Hpre k t Ht) as [?|?]; auto.
  - apply (gp_caps _ _ _ Hpre).
  - intros f Hf. by apply elem_of_nil in Hf.
Qed.

Lemma territories_skip dn ts f :
  f ∈ ids ->
  caps !! f = None ->
  Territories CLAIM_DEFENDERS caps dn ts0 ts ->
  Territories CLAIM_DEFENDERS caps (f :: dn) ts0 ts.
Proof.
  intros Hfin Hf [Hs Ho Hc Hz]. split; [done| |done|].
  - intros k t Ht. destruct (Ho k t Ht) as [?|[?|(Hin & ?)]]; auto.
    right. right. split; [by right|done].
  - intros g [->|Hg]%elem_of_cons; [|by apply Hz].
    exists []. split; [constructor|]. split; [simpl; lia|].
    intros k t Ht Hg. destruct (Ho k t Ht) as [[Hn _]|[[Hcap _]|(_ & _ & _ & c & Hcap & _)]].
    + exfalso. apply (gp_neutral _ _ _ Hpre). by rewrite <- Hn, Hg.
    + congruence.
    + congruence.
Qed.

Lemma territories_claim dn ts f c :
  f ∈ ids -> f ∉ dn -> (forall g, g ∈ dn -> g ∈ ids) ->
  caps !! f = Some c ->
  Territories CLAIM_DEFENDERS caps dn ts0 ts ->
  exists ts1,
    claimRegion CLAIM_DEFENDERS ts f c = GenOut ts1
    /\ Territories CLAIM_DEFENDERS caps (f :: dn) ts0 ts1.
Proof.
  intros Hfin Hfdn Hdn Hcap Htr. pose proof Htr as [Hs Ho Hc Hz].
  pose proof (gp_neutral _ _ _ Hpre) as Hneu.
  destruct (Hc f c Hcap) as (tc & Htc & Hfo & Hfc).
  destruct (claimRegion_spec CLAIM_DEFENDERS ts f c)
    as (region & ts1 & Hrun & Hnd & Hlen & Hg & Hts1); [eauto|].
  assert (forall x, x ∈ region ->
            x = c \/ exists nt, ts !! x = Some nt
                                /\ ownerFaction nt = "neutral"
                                /\ isCapital nt = false) as Hreg.
  { intros x Hx.
    destruct (Grown_passable _ _ _ _ Hg x Hx) as [?|(nt & Hnt & Hp)];
      [by left|].
    unfold claimPassable in Hp. apply orb_true_iff in Hp as [Hp|Hp];
      apply bool_decide_eq_true in Hp.
    - right. exists nt. split; [done|]. split; [done|].
      destruct (Ho x nt Hnt) as [[_ ?]|[[Hk _]|(Hin & _)]]; [done| |].
      + rewrite Hp in Hk. destruct Hneu.
        by apply (gp_caps_ids _ _ _ Hpre _ _ Hk).
      + rewrite Hp in Hin. destruct Hneu. by apply Hdn.
    - left. rewrite <- Hp. symmetry. by eapply territories_keyed. }
  assert (c ∈ region) as Hcin.
  { pose proof (Grown_head _ _ _ _ Hg) as Hh.
    destruct region as [|x r]; [done|]. injection Hh as ->. left. }
  assert (forall x, x ∈ region -> connected ts1 (ownedBy f) c x) as Hconn.
  { apply (Grown_connected ts (claimPassable c) c ts1 (ownedBy f) region Hg).
    intros x t Hx Ht. rewrite Hts1, decide_True, Ht by done. simpl.
    eexists. split; [done|]. split; [done|]. split; [done|].
    intros _. unfold ownedBy. simpl. by apply bool_decide_eq_true. }
  exists ts1. split; [done|]. split.
  - intros k. specialize (Hs k). rewrite Hts1.
    destruct (ts0 !! k) as [t0|].
    + destruct Hs as (t & Ht & Hid & Hq & Hr & Hcp). rewrite Ht.
      destruct (decide (k ∈ region)); simpl; eexists; (split; [done|]);
        done.
    + rewrite Hs. by destruct (decide (k ∈ region)).
  - intros k t1 Ht1. rewrite Hts1 in Ht1.
    destruct (decide (k ∈ region)) as [Hk|Hk].
    + destruct (ts !! k) as [t|] eqn:Ht; [|done]. simpl in Ht1.
      injection Ht1 as <-.
      destruct (Hreg k Hk) as [->|(nt & Hnt & Hn & Hncap)].
      * right. left. simpl. assert (t = tc) as -> by congruence.
        by split.
      * assert (nt = t) as -> by congruence.
        right. right. simpl. rewrite Hncap.
        split; [left|]. split; [done|]. split; [done|].
        exists c. split; [done|]. by apply Hconn.
    + destruct (Ho k t1 Ht1) as [?|[?|(Hin & Hncap & Hctl & cg & Hcg & Hcon)]];
        [by left|by right; left|].
      right. right. split; [by right|]. split; [done|]. split; [done|].
      exists cg. split; [done|].
      apply (connected_mono ts ts1 (ownedBy (ownerFaction t1)) cg);
        [|done].
      intros k' t' Ht'. rewrite Hts1, Ht'.
      destruct (decide (k' ∈ region)) as [Hk'|Hk']; simpl;
        [|by exists t'].
      eexists. split; [done|]. split; [done|]. split; [done|].
      intros Hown. unfold ownedBy in Hown.
      apply bool_decide_eq_true in Hown. exfalso.
      destruct (Hreg k' Hk') as [->|(nt & Hnt & Hn & _)].
      * assert (t' = tc) as -> by congruence.
        apply Hfdn. by rewrite <- Hfo, Hown.
      * assert (nt = t') as -> by congruence.
        apply Hneu, Hdn. by rewrite <- Hn, Hown.
  - intros g cg Hgc. destruct (Hc g cg Hgc) as (t & Ht & Hgo & Hgcap).
    rewrite Hts1, Ht. destruct (decide (cg ∈ region)) as [Hk|Hk]; simpl;
      [|by exists t].
    eexists. split; [done|]. simpl. split; [|done].
    destruct (Hreg cg Hk) as [->|(nt & Hnt & Hn & _)].
    + by apply (gp_caps_inj _ _ _ Hpre f g c).
    + assert (nt = t) as -> by congruence. destruct Hneu.
      rewrite <- Hn, Hgo. by apply (gp_caps_ids _ _ _ Hpre _ _ Hgc).
  - intros g [->|Hgd]%elem_of_cons.
    + exists region. split; [done|]. split; [done|].
      intros k t1 Ht1 Hown. destruct (decide (k ∈ region)) as [|Hk]; [done|].
      exfalso. rewrite Hts1, decide_False in Ht1 by done.
      destruct (Ho k t1 Ht1) as [[Hn _]|[[Hk' _]|(Hin & _)]].
      * apply Hneu. by rewrite <- Hn, Hown.
      * rewrite Hown, Hcap in Hk'. injection Hk' as ->. done.
      * apply Hfdn. by rewrite <- Hown.
    + destruct (Hz g Hgd) as (rg & Hrnd & Hrlen & Hrin).
      exists rg. split; [done|]. split; [done|].
      intros k t1 Ht1 Hown. rewrite Hts1 in Ht1.
      destruct (decide (k ∈ region)) as [Hk|Hk]; [|by eapply Hrin].
      destruct (ts !! k) as [t|]; [|done]. simpl in Ht1.
      injection Ht1 as <-. simpl in Hown. subst g. done.
Qed.

Lemma claimAll_territories : forall (rest : list Faction) dn ts,
  (forall f, f ∈ faction_id <$> rest -> f ∈ ids /\ f ∉ dn) ->
  NoDup (faction_id <$> rest) ->
  (forall g, g ∈ dn -> g ∈ ids) ->
  Territories CLAIM_DEFENDERS caps dn ts0 ts ->
  exists ts' dn',
    claimAll CLAIM_DEFENDERS rest caps ts = GenOut ts'
    /\ (forall g, g ∈ dn' <-> g ∈ faction_id <$> rest \/ g ∈ dn)
    /\ Territories CLAIM_DEFENDERS caps dn' ts0 ts'.
Proof.
  induction rest as [|fa rest IH]; intros dn ts Hrest Hnd Hdn Htr.
  - exists ts, dn. split; [done|]. split; [|done].
    intros g. split; [by right|]. intros [H|H]; [|done].
    by apply elem_of_nil in H.
  - rewrite fmap_cons in Hnd, Hrest. inversion Hnd as [|?? Hfresh Hnd']; subst.
    destruct (Hrest (faction_id fa)) as [Hfin Hfdn]; [left|].
    assert (exists ts1,
              match caps !! faction_id fa with
              | None => GenOut ts
              | Some capId =>
                  claimRegion CLAIM_DEFENDERS ts (faction_id fa) capId
              end = GenOut ts1
              /\ Territories CLAIM_DEFENDERS caps (faction_id fa :: dn)
                   ts0 ts1) as (ts1 & Hstep & Htr1).
    { destruct (caps !! faction_id fa) as [c|] eqn:Hcap.
      - by apply territories_claim.
      - exists ts. split; [done|]. by apply territories_skip. }
    destruct (IH (faction_id fa :: dn) ts1) as (ts' & dn' & Hrun & Hdn' & Htr');
      [| | |done|].
    + intros f Hf. destruct (Hrest f) as [? ?]; [by right|].
      split; [done|]. intros [->|?]%elem_of_cons; done.
    + done.
    + intros g [->|?]%elem_of_cons; [done|by apply Hdn].
    + exists ts', dn'. split.
      { unfold claimAll in *. simpl. rewrite Hstep. exact Hrun. }
      split; [|done]. intros g. rewrite Hdn', fmap_cons, !elem_of_cons.
      tauto.
Qed.

End claim.

(** X26: the starting territories are connected to their capitals.  On a
    map where every tile is neutral except the capitals, the claiming loop
    of the world generation ends without an exception; it changes no
    tile's id, coordinates or [isCapital] flag; afterwards every tile owned
    by a faction is connected to that faction's capital through tiles of
    the faction (so it accepts deployments), each capital is still owned by
    its faction, and no faction owns more than
    [START_TILES_AROUND_CAPITAL + 1] tiles. *)
Theorem starting_territories_connected (CLAIM_DEFENDERS : Z)
    (fs : list Faction) (caps : gmap FactionId TileId)
    (ts0 : gmap TileId Tile) :
  GenPre fs caps ts0 ->
  exists ts',
    claimAll CLAIM_DEFENDERS fs caps ts0 = GenOut ts'
    /\ (forall k,
          match ts0 !! k with
          | Some t0 => exists t, ts' !! k = Some t /\ tile_id t = tile_id t0
                                 /\ tile_q t = tile_q t0
                                 /\ tile_r t = tile_r t0
                                 /\ isCapital t = isCapital t0
          | None => ts' !! k = None
          end)
    /\ (forall k t, ts' !! k = Some t -> ownerFaction t <> "neutral" ->
          exists c, caps !! ownerFaction t = Some c
                    /\ connected ts' (ownedBy (ownerFaction t)) c k)
    /\ (forall f c, caps !! f = Some c ->
          exists t, ts' !! c = Some t /\ ownerFaction t = f
                    /\ isCapital t = true)
    /\ (forall f, f <> "neutral" ->
          exists region,
            (length region <= START_TILES_AROUND_CAPITAL + 1)%nat
            /\ forall k t, ts' !! k = Some t -> ownerFaction t = f ->
                           k ∈ region).
Proof.
  intros Hpre.
  destruct (claimAll_territories CLAIM_DEFENDERS fs caps ts0 Hpre fs [] ts0)
    as (ts' & dn' & Hrun & Hdn & [Hs Ho Hc Hz]).
  { intros f Hf. split; [done|]. apply not_elem_of_nil. }
  { apply (gp_ids _ _ _ Hpre). }
  { intros g Hg. by apply elem_of_nil in Hg. }
  { by apply (territories_init CLAIM_DEFENDERS fs). }
  exists ts'. split; [done|]. split; [done|]. split; [|split; [done|]].
  - intros k t Ht Hn. destruct (Ho k t Ht) as [[? _]|[[Hk _]|(_ & _ & _ & H)]];
      [done| |done].
    exists k. split; [done|]. constructor.
  - intros f Hf. destruct (decide (f ∈ faction_id <$> fs)) as [Hin|Hout].
    + destruct (Hz f) as (region & _ & Hlen & Hreg); [apply Hdn; by left|].
      by exists region.
    + exists []. split; [simpl; lia|]. intros k t Ht Hown. exfalso.
      destruct (Ho k t Ht) as [[? _]|[[Hk _]|(Hin & _)]].
      * congruence.
      * apply Hout. rewrite <- Hown. by apply (gp_caps_ids _ _ _ Hpre _ _ Hk).
      * apply Hdn in Hin as [Hin|Hin]; [|by apply elem_of_nil in Hin].
        apply Hout. by rewrite <- Hown.
Qed.

Lemma demoCaps_inv f c :
  demoCaps !! f = Some c ->
  (f = "f1" /\ c = (0, 0)) \/ (f = "f2" /\ c = (4, 0)).
Proof.
  unfold demoCaps. intros H.
  destruct (decide (f = "f1")) as [->|].
  { rewrite lookup_insert_eq in H. injection H as <-. by left. }
  destruct (decide (f = "f2")) as [->|].
  { rewrite lookup_insert_ne, lookup_singleton_eq in H by done.
    injection H as <-. by right. }
  rewrite lookup_insert_ne, lookup_singleton_ne in H by done. done.
Qed.

Lemma starting_territories_connected_witness :
  exists ts',
    claimAll 100 demoFactions demoCaps demoUnclaimed = GenOut ts'
    /\ (ownerFaction <$> ts' !! (3, 0)) = Some "f1"
    /\ (ownerFaction <$> ts' !! (9, 9)) = Some "neutral"
    /\ connected ts' (ownedBy "f1") (0, 0) (3, 0).
Proof.
  destruct (starting_territories_connected 100 demoFactions demoCaps
              demoUnclaimed) as (ts' & Hrun & _ & Hconn & _).
  { split.
    - unfold tiles_keyed. eapply bool_decide_eq_true_1. by_eval.
    - refine (bool_decide_eq_true_1 (NoDup ["f1"; "f2"]) _). by_eval.
    - refine (bool_decide_eq_true_1 ("neutral" ∉ ["f1"; "f2"]) _). by_eval.
    - intros f c H. destruct (demoCaps_inv f c H) as [[-> _]|[-> _]];
        [left|right; left].
    - intros f g c Hf Hg.
      destruct (demoCaps_inv f c Hf) as [[-> ->]|[-> ->]];
        destruct (demoCaps_inv g _ Hg) as [[-> Hc]|[-> Hc]]; done.
    - intros f c H. destruct (demoCaps_inv f c H) as [[-> ->]|[-> ->]];
        (eexists; split; [by_eval|by split]).
    - refine (bool_decide_eq_true_1
                (map_Forall
                   (fun k t =>
                      (ownerFaction t = "neutral" /\ isCapital t = false)
                      \/ (demoCaps !! ownerFaction t = Some k
                          /\ isCapital t = true)) demoUnclaimed) _).
      by_eval. }
  assert (claimAll 100 demoFactions demoCaps demoUnclaimed
          = GenOut ts' ->
          (ownerFaction <$> ts' !! (3, 0)) = Some "f1"
          /\ (ownerFaction <$> ts' !! (9, 9)) = Some "neutral") as Hval.
  { clear. intros H.
    assert (match claimAll 100 demoFactions demoCaps demoUnclaimed with
            | GenOut m => (ownerFaction <$> m !! (3, 0),
                           ownerFaction <$> m !! (9, 9))
            | _ => (None, None)
            end = (Some "f1", Some "neutral")) as E by by_eval.
    rewrite H in E. by injection E as -> ->. }
  destruct (Hval Hrun) as [H3 H9].
  exists ts'. split; [exact Hrun|]. split; [exact H3|]. split; [exact H9|].
  destruct (ts' !! (3, 0)) as [t|] eqn:Ht; [|done]. simpl in H3.
  injection H3 as H3. destruct (Hconn (3, 0) t Ht) as (c & Hc & Hcon).
  { by rewrite H3. }
  rewrite H3 in Hc, Hcon. unfold demoCaps in Hc.
  rewrite lookup_insert_eq in Hc. injection Hc as <-. exact Hcon.
Defined.

(** ** The raw grid *)

Lemma rawCells_spec radius q r :
  (q, r) ∈ rawCells radius
  <-> Z.abs q <= radius /\ Z.abs r <= radius /\ Z.abs (q + r) <= radius.
Proof.
  unfold rawCells. rewrite list_elem_of_bind. split.
  - intros (q' & Hr & Hq). apply elem_of_seqZ in Hq.
    unfold rawRow in Hr. apply list_elem_of_fmap in Hr as (r' & [= -> ->] & Hr).
    apply elem_of_seqZ in Hr. lia.
  - intros H. exists q. split; [|apply elem_of_seqZ; lia].
    unfold rawRow. apply list_elem_of_fmap. exists r. split; [done|].
    apply elem_of_seqZ. lia.
Qed.

Lemma rawTiles_fold (l : list (Z * Z)) :
  forall (m0 : gmap TileId (TileId * Z * Z)) q r,
    foldl (fun m c => <[key (fst c) (snd c)
                        := (key (fst c) (snd c), fst c, snd c)]> m) m0 l
      !! key q r
    = if decide ((q, r) ∈ l) then Some (key q r, q, r) else m0 !! key q r.
Proof.
  induction l as [|[q0 r0] l IH]; intros m0 q r; simpl.
  - destruct (decide ((q, r) ∈ [])) as [H|]; [by apply elem_of_nil in H|done].
  - rewrite IH. destruct (decide ((q, r) ∈ l)) as [Hin|Hin].
    + rewrite decide_True; [done|by right].
    + destruct (decide ((q0, r0) = (q, r))) as [[= -> ->]|Hne].
      * rewrite decide_True by left. unfold key. by rewrite lookup_insert_eq.
      * rewrite decide_False by (intros [?|?]%elem_of_cons; congruence).
        unfold key. by rewrite lookup_insert_ne.
Qed.

(** X27: the raw grid of the world generation is the hexagon of the given
    radius: it holds a cell for [(q, r)] exactly when [|q|], [|r|] and
    [|q + r|] are at most the radius, stored under [key(q, r)] with that id
    and those coordinates, and each cell is created once. *)
Theorem rawTiles_hexagon (radius q r : Z) :
  rawTiles radius !! key q r
  = (if bool_decide (Z.abs q <= radius /\ Z.abs r <= radius
                     /\ Z.abs (q + r) <= radius)
     then Some (key q r, q, r) else None)
  /\ NoDup (rawCells radius).
Proof.
  split.
  - unfold rawTiles. rewrite rawTiles_fold, lookup_empty.
    destruct (decide ((q, r) ∈ rawCells radius)) as [H|H];
      rewrite rawCells_spec in H.
    + by rewrite bool_decide_eq_true_2.
    + by rewrite bool_decide_eq_false_2.
  - unfold rawCells. apply NoDup_bind.
    + intros q1 q2 c _ _ H1 H2. unfold rawRow in H1, H2.
      apply list_elem_of_fmap in H1 as (r1 & -> & _).
      apply list_elem_of_fmap in H2 as (r2 & [= -> _] & _). done.
    + intros q' _. unfold rawRow. apply NoDup_fmap_2; [|apply NoDup_seqZ].
      by intros r1 r2 [= ->].
    + apply NoDup_seqZ.
Qed.

(** * Metering *)

Lemma recalc_limiters k s :
  actionLimiters (recalcPublicTroops k s) = actionLimiters s.
Proof. apply recalc_sessions. Qed.

(** X29: every message of a joined player that carries a payload is
    metered, whether or not it is carried out.  When a socket that resolves
    to a player sends [recruit_collect], or [deploy], [move] or [attack]
    with a payload, the player's limiter is replaced by the limiter
    [consume] leaves (refilled, stamped with the time of the call, and one
    token short if it admitted the call), also when the action is then
    dropped or answered with an error; no other limiter changes.  A
    [join], [deploy], [move] or [attack] sent without a payload is not
    metered: the handler raises a [TypeError] while it takes the payload
    apart, before the session is looked up. *)
Theorem every_action_is_metered (cfg : Config) (s : State) (a : Action)
    (sid : SocketId) (ip : Ip) :
  sockets s !! sid = Some ip ->
  (forall (now : Z) (tok : Token) (p : Player) (l : Limiter) (s' : State)
          (evs : list Event),
     meterOf a = Some (sid, now) ->
     resolve s sid = Some (tok, p) ->
     actionLimiters s !! tok = Some l ->
     step cfg s a = Done s' evs ->
     actionLimiters s' = <[tok := snd (consume l now)]> (actionLimiters s))
  /\ (forall ev, a = NoPayload sid ev -> step cfg s a = Crash).
Proof.
  intros Hsock. split;
    [|intros ev ->; simpl; unfold onSocket; by rewrite Hsock].
  intros now tok p l s' evs Hm Hres Hl Hrun.
  destruct a as [sid0 ip0|sid0|sid0 now0 tok0 nm fid|sid0 now0
                |sid0 now0 targetId amount|sid0 now0 fromId toId amount
                |sid0 now0 fromId targetId amount| |sid0 ev];
    try discriminate Hm; injection Hm as -> ->;
    simpl in Hrun; unfold onSocket in Hrun; rewrite Hsock in Hrun.
  - unfold recruit_collect in Hrun.
    apply withPlayer_inv in Hrun
      as [(Hn & _) | (tok' & p' & l' & Hres' & Hl' & H)]; [congruence|].
    rewrite Hres in Hres'. injection Hres' as <- <-.
    rewrite Hl in Hl'. injection Hl' as <-.
    simpl in H. destruct H as [(_ & -> & _) | (_ & H)]; [done|].
    by collect_cases H.
  - pose proof (deploy_paths s sid now targetId amount) as H.
    rewrite Hrun in H.
    inversion H as [Hres' | | tok' p' l' Hres' Hl' Hno
                   | | tok' p' l' capId V Hcap Hcapt Hnot
                   | tok' p' l' capId V Hcap Hcapt Hconn s0]; subst;
      try (destruct V as [Hres' Hl' _]);
      try congruence;
      rewrite Hres in Hres'; injection Hres' as <- <-;
      rewrite Hl in Hl'; injection Hl' as <-; try done.
    subst s0. unfold afterDeploy. by rewrite recalc_limiters.
  - pose proof (move_paths s sid now fromId toId amount) as H.
    rewrite Hrun in H.
    inversion H as [Hres' | | tok' p' l' Hres' Hl' Hno
                   | tok' p' l' from to V s0]; subst;
      try (destruct V as [Hres' Hl' _]);
      try congruence;
      rewrite Hres in Hres'; injection Hres' as <- <-;
      rewrite Hl in Hl'; injection Hl' as <-; try done.
    subst s0. unfold afterMove. by rewrite !recalc_limiters.
  - apply attack_paths in Hrun.
    destruct Hrun as [Hres' | tok' p' l' Hres' Hl' _
                     | tok' p' l' from target V Hcap
                     | tok' p' l' from target evs V Hcap Hgt _ _
                     | tok' p' l' from target evs V Hcap Hle _];
      try (destruct V as [Hres' Hl' _]);
      try congruence;
      rewrite Hres in Hres'; injection Hres' as <- <-;
      rewrite Hl in Hl'; injection Hl' as <-; try done.
    + unfold afterCapture. by rewrite !recalc_limiters.
    + unfold afterRepelled. by rewrite !recalc_limiters.
Qed.

(** alice attacks a tile that is not next to her capital: nothing
    happens, nothing is sent back, and her limiter has been charged.  The
    same event without a payload brings the handler down. *)
Lemma every_action_is_metered_witness :
  (exists s' evs,
     step defaultCfg demoJoined (Attack "a" 700 (0, 0) (9, 9) (5 # 1))
     = Done s' evs
     /\ evs = []
     /\ actionLimiters s' !! "t1"
        = Some (snd (consume (limiterOf demoJoined "t1") 700)))
  /\ step defaultCfg demoJoined (NoPayload "a" EvAttack) = Crash.
Proof.
  assert (sockets demoJoined !! "a" = Some "ip1") as Hsock by by_eval.
  split.
  - destruct (step defaultCfg demoJoined
                (Attack "a" 700 (0, 0) (9, 9) (5 # 1)))
      as [s' evs| |] eqn:Hrun; [|vm_compute in Hrun; discriminate Hrun..].
    exists s', evs. split; [reflexivity|]. split.
    + assert (finalEvents
                (step defaultCfg demoJoined
                   (Attack "a" 700 (0, 0) (9, 9) (5 # 1))) = []) as E
        by by_eval.
      rewrite Hrun in E. exact E.
    + destruct (every_action_is_metered defaultCfg demoJoined
                  (Attack "a" 700 (0, 0) (9, 9) (5 # 1)) "a" "ip1" Hsock)
        as [Hmeter _].
      rewrite (Hmeter 700 "t1" (playerOf demoJoined "t1")
                 (limiterOf demoJoined "t1") s' evs eq_refl).
      * apply lookup_insert_eq.
      * by_eval.
      * by_eval.
      * exact Hrun.
  - destruct (every_action_is_metered defaultCfg demoJoined
                (NoPayload "a" EvAttack) "a" "ip1" Hsock) as [_ Hbare].
    by apply (Hbare EvAttack).
Defined.

(** * Joining *)

Lemma omap_findKeyOf_set_new {K V} `{EqDecision K} `{EqDecision V}
    (m : list (K * V)) (k : K) (v : V) :
  OMap.findKeyOf v m = None -> OMap.get k m = None ->
  OMap.findKeyOf v (OMap.set k v m) = Some k.
Proof.
  induction m as [|[k' v'] m IH]; simpl.
  - intros _ _. by rewrite decide_True.
  - destruct (decide (v' = v)); [done|]. intros Hf.
    destruct (decide (k = k')); [done|]. intros Hg. simpl.
    rewrite decide_False by done. by apply IH.
Qed.

(** X30: a join opens a session.  When a connected socket that plays
    nobody yet sends a valid [join] (a name, a known faction; fresh token),
    afterwards the socket resolves to the new player, who holds
    [START_TROOPS] on the faction's capital and nothing else, with an empty
    inventory and reserve; the player has a full limiter stamped with the
    time of the join, the address is bound to the token when the lock is
    on, and the socket is sent [joined]. *)
Theorem join_opens_session (cfg : Config) (s s' : State) (sid : SocketId)
    (ip : Ip) (now : Z) (tok : Token) (nm : string) (fid : FactionId)
    (evs : list Event) :
  sockets s !! sid = Some ip ->
  nm <> "" -> fid <> "" -> tok <> "" ->
  existsb (fun f => bool_decide (faction_id f = fid)) (factions s) = true ->
  tokenOf s sid = None ->
  OMap.get tok (tokenToSocket s) = None ->
  step cfg s (Join sid now tok nm fid) = Done s' evs ->
  resolve s' sid = Some (tok, joinedPlayer cfg s tok nm fid)
  /\ actionLimiters s' !! tok = Some (makeLimiter now)
  /\ (forall k, troopsAt (joinedPlayer cfg s tok nm fid) k
                = if decide (capitalsByFaction s !! fid = Some k)
                  then START_TROOPS cfg else 0)
  /\ inventory (joinedPlayer cfg s tok nm fid) = 0
  /\ Emit sid (joined (buildMe (joinedPlayer cfg s tok nm fid))) ∈ evs
  /\ (DISABLE_IP_LOCK cfg = false -> OMap.get ip (ipToToken s') = Some tok).
Proof.
  intros Hsock Hnm Hfid Htok Hfac Hfree Hfresh Hrun.
  simpl in Hrun. unfold onSocket in Hrun. rewrite Hsock in Hrun.
  unfold join in Hrun.
  rewrite (bool_decide_eq_false_2 _ Hnm), (bool_decide_eq_false_2 _ Hfid),
    Hfac in Hrun. simpl in Hrun.
  assert (tokenToSocket s' = OMap.set tok sid (tokenToSocket s)
          /\ players s' = <[tok := joinedPlayer cfg s tok nm fid]> (players s)
          /\ actionLimiters s'
             = <[tok := makeLimiter now]> (actionLimiters s)
          /\ ipToToken s'
             = (if DISABLE_IP_LOCK cfg then ipToToken s
                else OMap.set ip tok (ipToToken s))
          /\ Emit sid (joined (buildMe (joinedPlayer cfg s tok nm fid))) ∈ evs)
    as (Ht & Hp & Hl & Hi & He).
  { unfold joinedPlayer.
    destruct (capitalsByFaction s !! fid) as [capId|];
      inversion Hrun; subst; simpl.
    - destruct (recalc_sessions capId s) as (-> & -> & -> & _).
      rewrite recalc_players. repeat split; try done.
      right. left.
    - repeat split; try done. left. }
  split.
  { unfold resolve, tokenOf. rewrite Ht.
    rewrite (omap_findKeyOf_set_new _ _ _ Hfree Hfresh).
    rewrite decide_False by done. by rewrite Hp, lookup_insert_eq. }
  split; [by rewrite Hl, lookup_insert_eq|]. split.
  { intros k. unfold joinedPlayer, troopsAt. simpl.
    destruct (capitalsByFaction s !! fid) as [capId|].
    - rewrite credit_default, lookup_empty. simpl.
      destruct (decide (capId = k)) as [->|Hne].
      + by rewrite decide_True.
      + rewrite decide_False by congruence. done.
    - rewrite lookup_empty. simpl. done. }
  split; [done|]. split; [done|].
  intros Hlock. rewrite Hi, Hlock. apply omap_get_set_eq.
Qed.

Lemma join_opens_session_witness :
  exists s' evs,
    step defaultCfg demoConnected (Join "a" 0 "t1" "alice" "f1")
    = Done s' evs
    /\ resolve s' "a"
       = Some ("t1", joinedPlayer defaultCfg demoConnected "t1" "alice" "f1")
    /\ troopsAt (joinedPlayer defaultCfg demoConnected "t1" "alice" "f1")
         (0, 0) = 100
    /\ actionLimiters s' !! "t1" = Some (makeLimiter 0).
Proof.
  destruct (step defaultCfg demoConnected (Join "a" 0 "t1" "alice" "f1"))
    as [s' evs| |] eqn:Hrun; [|vm_compute in Hrun; discriminate Hrun..].
  exists s', evs. split; [reflexivity|].
  destruct (join_opens_session defaultCfg demoConnected s' "a" "ip1" 0 "t1"
              "alice" "f1" evs) as (Hres & Hl & _ & _).
  - by_eval.
  - discriminate.
  - discriminate.
  - discriminate.
  - by_eval.
  - by_eval.
  - by_eval.
  - exact Hrun.
  - split; [exact Hres|]. split; [by_eval|exact Hl].
Defined.
